(** * CollisionSet: the broad-phase collision index of Endless Sky

    A shallow embedding of [source/CollisionSet.cpp]: the grid construction
    ([Clear], [Add], [Finish]) and the queries ([Line], [Ring], [Circle]),
    followed by the properties of the index established on it.

    Conventions of the embedding.
    - [double] is the binary64 type of the kernel ([PrimFloat.float]), with
      the IEEE comparisons the C++ operators denote.
    - [int] values are integers of [Z]; signed overflow is undefined in C++
      and is not given a meaning here.  Unsigned arithmetic wraps, and the
      wrap is written out with [u32] and [u64].
    - Vector sizes and the offsets kept in [counts] stay far below [2^32]
      and are unbounded integers.
    - A [Body *] is an address; [nullptr] is address [0].  The bodies live in
      a heap, a function from addresses to [Body] records, which the index
      never writes.
    - The classes [Body], [Mask], [Government] and [Point] are collaborators
      declared outside [CollisionSet.cpp]; they appear as records of the
      members the index calls, and [Government::IsEnemy], [Point::Length] and
      [Point::Unit] are parameters of the development. *)

From Stdlib Require Import ZArith Lia Floats Bool String.
From stdpp Require Import base list.

Open Scope Z_scope.

(** ** Machine arithmetic *)

Definition u32 (z : Z) : Z := z mod 2 ^ 32.
Definition u64 (z : Z) : Z := z mod 2 ^ 64.

(** Reading a 64-bit pattern as [int64_t]. *)
Definition to_int64 (z : Z) : Z := if z <? 2 ^ 63 then z else z - 2 ^ 64.

Definition INT_MIN : Z := - 2 ^ 31.
Definition INT_MAX : Z := 2 ^ 31 - 1.

(** Conversion of a [double] to [int]: the fraction is discarded (rounding
    toward zero).  A value that does not fit (or a NaN) has no defined
    result in C++; the model returns [INT_MIN], which is what the x86-64
    conversion instruction produces. *)
Definition double_to_int (d : float) : Z :=
  match Prim2SF d with
  | S754_zero _ => 0
  | S754_finite s m e =>
      let v := if 0 <=? e then Z.pos m * 2 ^ e else Z.pos m / 2 ^ (- e) in
      let z := if s then - v else v in
      if (INT_MIN <=? z) && (z <=? INT_MAX) then z else INT_MIN
  | _ => INT_MIN
  end.

(** Conversion of an [int] constant to [double]. *)
Definition int_to_double (z : Z) : float :=
  if z <? 0 then (- PrimFloat.of_uint63 (Uint63.of_Z (- z)))%float
  else PrimFloat.of_uint63 (Uint63.of_Z z).

(** [for(int i = lo; i <= hi; ++i)]: the values [i] takes, in order. *)
Definition int_range (lo hi : Z) : list Z :=
  map (fun k => lo + Z.of_nat k) (seq 0 (Z.to_nat (hi - lo + 1))).

(** ** Vectors indexed by unsigned values *)

(** [v[i]]; an index outside the vector is undefined in C++ and reads the
    default here. *)
Definition vec_get {A} (d : A) (v : list A) (i : Z) : A :=
  default d (v !! Z.to_nat i).

(** [v[i] = a]; outside the vector nothing is written. *)
Definition vec_set {A} (v : list A) (i : Z) (a : A) : list A :=
  <[Z.to_nat i := a]> v.

(** [v.resize(n)]: the first [n] elements are kept and value-initialised
    elements fill up to [n]. *)
Definition vec_resize {A} (d : A) (v : list A) (n : nat) : list A :=
  take n v ++ replicate (n - length v) d.

(** ** The collaborators *)

Module Point.
Record t := mk { X : float; Y : float }.
Definition add (a b : t) : t := mk (X a + X b) (Y a + Y b).
Definition sub (a b : t) : t := mk (X a - X b) (Y a - Y b).
Definition mul (a : t) (s : float) : t := mk (X a * s) (Y a * s).
End Point.
Abbreviation Point := Point.t.

(** The facing of a body; the index only hands it to the mask. *)
Definition Angle := Z.

Definition Body_ptr := nat.
Definition Gov_ptr := nat.
Definition nullptr : nat := 0%nat.

Record Mask := {
  Collide : Point -> Point -> Angle -> float;
  WithinRing : Point -> Angle -> float -> float -> bool
}.

Record Body := {
  Position : Point;
  Radius : float;
  Facing : Angle;
  GetGovernment : Gov_ptr;
  GetMask : Z -> Mask
}.

Definition Heap := Body_ptr -> Body.

(** ** The data of the index *)

Module Entry.
Record t := mk { body : Body_ptr; seenIndex : Z; x : Z; y : Z }.
(** A value-initialised entry, as [vector::resize] creates it. *)
Definition zero : t := mk nullptr 0 0 0.
End Entry.
Abbreviation Entry := Entry.t.

Record CollisionSet := {
  CELL_SIZE : Z;
  SHIFT : Z;
  CELL_MASK : Z;
  CELLS : Z;
  WRAP_MASK : Z;
  step : Z;
  all : list Body_ptr;
  added : list Entry;
  sorted : list Entry;
  counts : list Z;
  result : list Body_ptr;
  seen : list Z;
  seenEpoch : Z
}.

Definition MAX_VELOCITY : Z := 450000.
Definition USED_MAX_VELOCITY : Z := MAX_VELOCITY - 1.

(** The helper class [Closest]. *)
Record Closest := { closest_dist : float; closest_body : Body_ptr }.

Definition TryNearer (new_closest : float) (new_body : Body_ptr) (c : Closest) : Closest :=
  if (closest_dist c <=? new_closest)%float then c
  else {| closest_dist := new_closest; closest_body := new_body |}.

(** What a run leaves behind outside the index: the file-level flag
    [warned], and the calls made on the logger and on the masks, in the
    order they happen.  [Candidate] marks an entry reaching the government
    check of [Line]; [MaskCollide] a call of [Mask::Collide] with the range
    it returned; [RingTest] an entry reaching the acceptance test of
    [Ring]. *)
Inductive Event :=
  | LogError (msg : string)
  | Candidate (idx : Z) (b : Body_ptr)
  | MaskCollide (idx : Z) (b : Body_ptr) (range : float)
  | RingTest (idx : Z) (b : Body_ptr).

Record Process := { warned : bool; events : list Event }.

Definition emit (e : Event) (p : Process) : Process :=
  {| warned := warned p; events := events p ++ [e] |}.

(** ** Construction *)

(** [while(v >>= 1u) ++n;] on a 32-bit value. *)
Fixpoint shift_count (fuel : nat) (v n : Z) : Z :=
  match fuel with
  | O => n
  | S fuel' =>
      let v' := Z.shiftr v 1 in
      if v' =? 0 then n else shift_count fuel' v' (n + 1)
  end.

(** [while(v >>= 1u) c <<= 1;] *)
Fixpoint double_count (fuel : nat) (v c : Z) : Z :=
  match fuel with
  | O => c
  | S fuel' =>
      let v' := Z.shiftr v 1 in
      if v' =? 0 then c else double_count fuel' v' (u32 (Z.shiftl c 1))
  end.

Definition Clear (step' : Z) (s : CollisionSet) : CollisionSet :=
  {| CELL_SIZE := CELL_SIZE s; SHIFT := SHIFT s; CELL_MASK := CELL_MASK s;
     CELLS := CELLS s; WRAP_MASK := WRAP_MASK s;
     step := step';
     all := [];
     added := [];
     sorted := [];
     counts := replicate (Z.to_nat (u32 (u32 (CELLS s * CELLS s) + 2))) 0;
     result := result s;
     seen := seen s;
     seenEpoch := seenEpoch s |}.

Definition CollisionSet_new (cellSize cellCount : Z) : CollisionSet :=
  let shift := shift_count 32 (u32 cellSize) 0 in
  let cell_size := u32 (Z.shiftl 1 shift) in
  let cells := double_count 32 (u32 cellCount) 1 in
  Clear 0
    {| CELL_SIZE := cell_size; SHIFT := shift; CELL_MASK := u32 (cell_size - 1);
       CELLS := cells; WRAP_MASK := u32 (cells - 1);
       step := 0; all := []; added := []; sorted := []; counts := [];
       result := []; seen := []; seenEpoch := 0 |}.

(** ** Add *)

(** [(gy & WRAP_MASK) * CELLS + (gx & WRAP_MASK)], in unsigned arithmetic. *)
Definition cell_index (s : CollisionSet) (gx gy : Z) : Z :=
  u32 (u32 (Z.land gy (WRAP_MASK s) * CELLS s) + Z.land gx (WRAP_MASK s)).

(** The inner statement of the loops of [Add], for the cell [(x, y)]. *)
Definition add_cell (b : Body_ptr) (idx : Z) (y x : Z) (s : CollisionSet) : CollisionSet :=
  let i := u32 (cell_index s x y + 2) in
  {| CELL_SIZE := CELL_SIZE s; SHIFT := SHIFT s; CELL_MASK := CELL_MASK s;
     CELLS := CELLS s; WRAP_MASK := WRAP_MASK s;
     step := step s;
     all := all s;
     added := added s ++ [Entry.mk b idx x y];
     sorted := sorted s;
     counts := vec_set (counts s) i (vec_get 0 (counts s) i + 1);
     result := result s;
     seen := seen s;
     seenEpoch := seenEpoch s |}.

Definition push_all (b : Body_ptr) (s : CollisionSet) : CollisionSet :=
  {| CELL_SIZE := CELL_SIZE s; SHIFT := SHIFT s; CELL_MASK := CELL_MASK s;
     CELLS := CELLS s; WRAP_MASK := WRAP_MASK s;
     step := step s;
     all := all s ++ [b];
     added := added s;
     sorted := sorted s;
     counts := counts s;
     result := result s;
     seen := seen s;
     seenEpoch := seenEpoch s |}.

(** The grid rows and columns the body at [b] covers. *)
Definition footprint_x (mem : Heap) (s : CollisionSet) (b : Body_ptr) : Z * Z :=
  let p := Position (mem b) in
  let r := Radius (mem b) in
  (Z.shiftr (double_to_int (Point.X p - r)) (SHIFT s),
   Z.shiftr (double_to_int (Point.X p + r)) (SHIFT s)).

Definition footprint_y (mem : Heap) (s : CollisionSet) (b : Body_ptr) : Z * Z :=
  let p := Position (mem b) in
  let r := Radius (mem b) in
  (Z.shiftr (double_to_int (Point.Y p - r)) (SHIFT s),
   Z.shiftr (double_to_int (Point.Y p + r)) (SHIFT s)).

Definition Add (mem : Heap) (b : Body_ptr) (s : CollisionSet) : CollisionSet :=
  let '(minX, maxX) := footprint_x mem s b in
  let '(minY, maxY) := footprint_y mem s b in
  let idx := Z.of_nat (length (all s)) in
  let s' :=
    fold_left
      (fun s1 y => fold_left (fun s2 x => add_cell b idx y x s2) (int_range minX maxX) s1)
      (int_range minY maxY) s in
  push_all b s'.

(** ** Finish *)

(** [std::partial_sum] in place. *)
Fixpoint partial_sum_from (acc : Z) (l : list Z) : list Z :=
  match l with
  | [] => []
  | c :: l' => (acc + c) :: partial_sum_from (acc + c) l'
  end.

Definition partial_sum (l : list Z) : list Z := partial_sum_from 0 l.

(** One iteration of the radix pass: [sorted[counts[index]++] = entry]. *)
Definition place (s : CollisionSet) (st : list Entry * list Z) (entry : Entry)
  : list Entry * list Z :=
  let '(srt, cnt) := st in
  let index := u32 (cell_index s (Entry.x entry) (Entry.y entry) + 1) in
  let pos := vec_get 0 cnt index in
  (vec_set srt pos entry, vec_set cnt index (pos + 1)).

Definition Finish (s : CollisionSet) : CollisionSet :=
  let cnt := partial_sum (counts s) in
  let srt := vec_resize Entry.zero (sorted s) (length (added s)) in
  let '(srt', cnt') := fold_left (place s) (added s) (srt, cnt) in
  {| CELL_SIZE := CELL_SIZE s; SHIFT := SHIFT s; CELL_MASK := CELL_MASK s;
     CELLS := CELLS s; WRAP_MASK := WRAP_MASK s;
     step := step s;
     all := all s;
     added := added s;
     sorted := srt';
     counts := cnt';
     result := result s;
     seen := replicate (length (all s)) 0;
     seenEpoch := 0 |}.

(** ** Well-formed grids, footprints and built indexes *)

(** What the constructor establishes, for a cell count below [2^16]: the
    cell size and the cell count are powers of two, and [CELLS * CELLS + 2]
    fits the unsigned type. *)
Definition grid_ok (s : CollisionSet) : Prop :=
  0 <= SHIFT s <= 31 /\ CELL_SIZE s = 2 ^ SHIFT s /\ CELL_MASK s = CELL_SIZE s - 1 /\
  (exists k, 0 <= k <= 15 /\ CELLS s = 2 ^ k) /\ WRAP_MASK s = CELLS s - 1.

(** The bin an entry belongs to. *)
Definition entry_cell (s : CollisionSet) (e : Entry) : Z :=
  cell_index s (Entry.x e) (Entry.y e).

(** The cells [(x, y)] the loops of [Add] go through for the body at [b],
    in the order of the loops. *)
Definition footprint (mem : Heap) (s : CollisionSet) (b : Body_ptr) : list (Z * Z) :=
  let '(minX, maxX) := footprint_x mem s b in
  let '(minY, maxY) := footprint_y mem s b in
  flat_map (fun y => map (fun x => (x, y)) (int_range minX maxX)) (int_range minY maxY).

Definition entries_of (mem : Heap) (s : CollisionSet) (idx : Z) (b : Body_ptr) : list Entry :=
  map (fun c => Entry.mk b idx (fst c) (snd c)) (footprint mem s b).

(** [Clear(step)], one [Add] per body, [Finish()]. *)
Definition build (mem : Heap) (s0 : CollisionSet) (step' : Z) (bodies : list Body_ptr)
  : CollisionSet :=
  Finish (fold_left (fun s b => Add mem b s) bodies (Clear step' s0)).

(** [++counts[i]]. *)
Definition bump (cnt : list Z) (i : Z) : list Z :=
  vec_set cnt i (vec_get 0 cnt i + 1).

(** The entries of bin [i] in a list, their number, and the number of
    entries in the bins before [i]. *)
Definition in_cell (s : CollisionSet) (i : Z) (e : Entry) : bool := entry_cell s e =? i.

Definition in_bin (s : CollisionSet) (i : Z) (l : list Entry) : Z :=
  Z.of_nat (length (List.filter (in_cell s i) l)).

Definition below_bin (s : CollisionSet) (i : Z) (l : list Entry) : Z :=
  Z.of_nat (length (List.filter (fun e => entry_cell s e <? i) l)).

(** The entries a series of [Add] calls appends, the first body getting the
    dense index [n]. *)
Fixpoint entries_from (mem : Heap) (s : CollisionSet) (n : nat) (bodies : list Body_ptr)
  : list Entry :=
  match bodies with
  | [] => []
  | b :: bodies' => entries_of mem s (Z.of_nat n) b ++ entries_from mem s (S n) bodies'
  end.

(** The histogram slot [Add] increments for an entry. *)
Definition add_slot (s : CollisionSet) (e : Entry) : Z := u32 (entry_cell s e + 2).

(** Two states of an index with the same grid parameters. *)
Definition same_grid (s s' : CollisionSet) : Prop :=
  CELL_SIZE s = CELL_SIZE s' /\ SHIFT s = SHIFT s' /\ CELL_MASK s = CELL_MASK s' /\
  CELLS s = CELLS s' /\ WRAP_MASK s = WRAP_MASK s'.

(** ** The queries *)

(** [sorted.begin() + counts[i]] up to [sorted.begin() + counts[i + 1]]. *)
Definition bin (s : CollisionSet) (i : Z) : list Entry :=
  let first := vec_get 0 (counts s) i in
  let last := vec_get 0 (counts s) (u32 (i + 1)) in
  take (Z.to_nat (last - first)) (drop (Z.to_nat first) (sorted s)).

(** [if(closer_result.GetClosestDistance() < 1. && closestHit)
      *closestHit = closer_result.GetClosestDistance();]
    A null [closestHit] is [None]. *)
Definition write_back (closer : Closest) (closestHit : option float) : option float :=
  match closestHit with
  | Some h => if (closest_dist closer <? 1)%float then Some (closest_dist closer) else Some h
  | None => None
  end.

Definition velocity_warning : string :=
  "Warning: maximum projectile velocity is 450000".

Section Queries.

(** [IsEnemy iGov pGov] is [iGov->IsEnemy(pGov)]. *)
Variable IsEnemy : Gov_ptr -> Gov_ptr -> bool.
(** [Point::Length] and [Point::Unit]. *)
Variable Length : Point -> float.
Variable Unit : Point -> Point.

(** The condition under which [Line] passes over an entry:
    [it->body != target && iGov && pGov && !iGov->IsEnemy(pGov)]. *)
Definition government_skips (mem : Heap) (pGov : Gov_ptr) (target b : Body_ptr) : bool :=
  let iGov := GetGovernment (mem b) in
  negb (Nat.eqb b target) && negb (Nat.eqb iGov nullptr)
    && negb (Nat.eqb pGov nullptr) && negb (IsEnemy iGov pGov).

(** [mask.Collide(from - body.Position(), to - from, body.Facing())]. *)
Definition collide_range (mem : Heap) (s : CollisionSet) (from to : Point) (b : Body_ptr) : float :=
  let bd := mem b in
  Collide (GetMask bd (step s)) (Point.sub from (Position bd)) (Point.sub to from) (Facing bd).

(** The body of the [for] loop of the single-cell case. *)
Definition visit_single (mem : Heap) (s : CollisionSet) (from to : Point)
    (pGov : Gov_ptr) (target : Body_ptr) (gx gy : Z)
    (st : Closest * Process) (it : Entry) : Closest * Process :=
  let '(closer, p) := st in
  if negb (Entry.x it =? gx) || negb (Entry.y it =? gy) then st
  else
    let p := emit (Candidate (Entry.seenIndex it) (Entry.body it)) p in
    if government_skips mem pGov target (Entry.body it) then (closer, p)
    else
      let range := collide_range mem s from to (Entry.body it) in
      (TryNearer range (Entry.body it) closer,
       emit (MaskCollide (Entry.seenIndex it) (Entry.body it) range) p).

(** The body of the [for] loop of the stepped traversal; [epoch] is the
    value of [seenEpoch] after its increment. *)
Definition visit_stepped (mem : Heap) (s : CollisionSet) (epoch : Z) (from to : Point)
    (pGov : Gov_ptr) (target : Body_ptr) (gx gy : Z)
    (st : list Z * Closest * Process) (it : Entry) : list Z * Closest * Process :=
  let '(sn, closer, p) := st in
  if negb (Entry.x it =? gx) || negb (Entry.y it =? gy) then st
  else if vec_get 0 sn (Entry.seenIndex it) =? epoch then st
  else
    let sn := vec_set sn (Entry.seenIndex it) epoch in
    let p := emit (Candidate (Entry.seenIndex it) (Entry.body it)) p in
    if government_skips mem pGov target (Entry.body it) then (sn, closer, p)
    else
      let range := collide_range mem s from to (Entry.body it) in
      (sn, TryNearer range (Entry.body it) closer,
       emit (MaskCollide (Entry.seenIndex it) (Entry.body it) range) p).

(** The [while(true)] loop of [Line].  The result says whether the loop
    was left by a [break] ([true]) or the fuel ran out ([false]). *)
Fixpoint walk (fuel : nat) (mem : Heap) (s : CollisionSet) (epoch : Z) (from to : Point)
    (pGov : Gov_ptr) (target : Body_ptr)
    (endGX endGY stepX stepY mx my fullScale : Z)
    (gx gy rx ry : Z) (sn : list Z) (closer : Closest) (p : Process)
    : bool * list Z * Closest * Process :=
  match fuel with
  | O => (false, sn, closer, p)
  | S fuel' =>
      let i := cell_index s gx gy in
      let '(sn, closer, p) :=
        fold_left (visit_stepped mem s epoch from to pGov target gx gy) (bin s i)
                  (sn, closer, p) in
      if negb (Nat.eqb (closest_body closer) nullptr) || ((gx =? endGX) && (gy =? endGY))
      then (true, sn, closer, p)
      else
        let diff := to_int64 (u64 (u64 (rx * my) - u64 (ry * mx))) in
        if diff =? 0 then
          if (gx =? endGX) && (gy + stepY =? endGY) then (true, sn, closer, p)
          else if (gy =? endGY) && (gx + stepX =? endGX) then (true, sn, closer, p)
          else
            walk fuel' mem s epoch from to pGov target endGX endGY stepX stepY mx my fullScale
                 (gx + stepX) (gy + stepY) fullScale fullScale sn closer p
        else if diff <? 0 then
          walk fuel' mem s epoch from to pGov target endGX endGY stepX stepY mx my fullScale
               (gx + stepX) gy fullScale (u64 (ry - u64 (my * (rx / mx)))) sn closer p
        else
          walk fuel' mem s epoch from to pGov target endGX endGY stepX stepY mx my fullScale
               gx (gy + stepY) (u64 (rx - u64 (mx * (ry / my)))) fullScale sn closer p
  end.

Definition set_seen (s : CollisionSet) (sn : list Z) (epoch : Z) : CollisionSet :=
  {| CELL_SIZE := CELL_SIZE s; SHIFT := SHIFT s; CELL_MASK := CELL_MASK s;
     CELLS := CELLS s; WRAP_MASK := WRAP_MASK s;
     step := step s; all := all s; added := added s; sorted := sorted s;
     counts := counts s; result := result s;
     seen := sn; seenEpoch := epoch |}.

(** [CollisionSet::Line(from, to, closestHit, pGov, target)].  The first
    component is [None] when the fuel ran out, and otherwise the returned
    pointer with the final value of [*closestHit]. *)
Fixpoint Line (fuel : nat) (mem : Heap) (s : CollisionSet) (p : Process)
    (from to : Point) (closestHit : option float) (pGov : Gov_ptr) (target : Body_ptr)
    : option (Body_ptr * option float) * CollisionSet * Process :=
  match fuel with
  | O => (None, s, p)
  | S fuel' =>
      let x := double_to_int (Point.X from) in
      let y := double_to_int (Point.Y from) in
      let endX := double_to_int (Point.X to) in
      let endY := double_to_int (Point.Y to) in
      let gx := Z.shiftr x (SHIFT s) in
      let gy := Z.shiftr y (SHIFT s) in
      let endGX := Z.shiftr endX (SHIFT s) in
      let endGY := Z.shiftr endY (SHIFT s) in
      let closer_result :=
        {| closest_dist := match closestHit with Some h => h | None => 1%float end;
           closest_body := nullptr |} in
      if (gx =? endGX) && (gy =? endGY) then
        let index := cell_index s gx gy in
        let '(closer_result, p) :=
          fold_left (visit_single mem s from to pGov target gx gy) (bin s index)
                    (closer_result, p) in
        (Some (closest_body closer_result, write_back closer_result closestHit), s, p)
      else
        let pVelocity := Point.sub to from in
        if (int_to_double MAX_VELOCITY <? Length pVelocity)%float then
          let p :=
            if warned p then p
            else {| warned := true; events := events p ++ [LogError velocity_warning] |} in
          let newEnd :=
            Point.add from (Point.mul (Unit pVelocity) (int_to_double USED_MAX_VELOCITY)) in
          Line fuel' mem s p from newEnd closestHit pGov target
        else
          let stepX := if x <=? endX then 1 else -1 in
          let stepY := if y <=? endY then 1 else -1 in
          let mx := u64 (Z.abs (endX - x)) in
          let my := u64 (Z.abs (endY - y)) in
          let scale := u64 (Z.max mx 1 * Z.max my 1) in
          let fullScale := u64 (CELL_SIZE s * scale) in
          let rx := u64 (scale * Z.land x (CELL_MASK s)) in
          let ry := u64 (scale * Z.land y (CELL_MASK s)) in
          let rx := if 0 <? stepX then u64 (fullScale - rx) else rx in
          let ry := if 0 <? stepY then u64 (fullScale - ry) else ry in
          let epoch := u32 (seenEpoch s + 1) in
          let '(finished, sn, closer_result, p) :=
            walk fuel' mem s epoch from to pGov target endGX endGY stepX stepY mx my fullScale
                 gx gy rx ry (seen s) closer_result p in
          let s := set_seen s sn epoch in
          if finished
          then (Some (closest_body closer_result, write_back closer_result closestHit), s, p)
          else (None, s, p)
  end.

(** The overload taking a projectile. *)
Record Projectile := {
  proj_Position : Point;
  proj_Velocity : Point;
  proj_GetGovernment : Gov_ptr;
  proj_Target : Body_ptr
}.

Definition Line_projectile (fuel : nat) (mem : Heap) (s : CollisionSet) (p : Process)
    (projectile : Projectile) (closestHit : option float) :=
  let pGov := proj_GetGovernment projectile in
  let from := proj_Position projectile in
  let to := Point.add from (proj_Velocity projectile) in
  Line fuel mem s p from to closestHit pGov (proj_Target projectile).

(** The body of the innermost loop of [Ring], for the cell [(x, y)]. *)
Definition visit_ring (mem : Heap) (s : CollisionSet) (epoch : Z) (center : Point)
    (inner outer : float) (y x : Z)
    (st : list Z * list Body_ptr * Process) (it : Entry) : list Z * list Body_ptr * Process :=
  let '(sn, res, p) := st in
  if negb (Entry.x it =? x) || negb (Entry.y it =? y) then st
  else if vec_get 0 sn (Entry.seenIndex it) =? epoch then st
  else
    let sn := vec_set sn (Entry.seenIndex it) epoch in
    let bd := mem (Entry.body it) in
    let mask := GetMask bd (step s) in
    let offset := Point.sub center (Position bd) in
    let length := Length offset in
    let p := emit (RingTest (Entry.seenIndex it) (Entry.body it)) p in
    if ((length <=? outer)%float && (inner <=? length)%float)
       || WithinRing mask offset (Facing bd) inner outer
    then (sn, res ++ [Entry.body it], p)
    else (sn, res, p).

Definition ring_cell (mem : Heap) (s : CollisionSet) (epoch : Z) (center : Point)
    (inner outer : float) (y : Z)
    (st : list Z * list Body_ptr * Process) (x : Z) : list Z * list Body_ptr * Process :=
  fold_left (visit_ring mem s epoch center inner outer y x) (bin s (cell_index s x y)) st.

(** [CollisionSet::Ring]: the returned vector, with the index and the
    process after the call. *)
Definition Ring (mem : Heap) (s : CollisionSet) (p : Process)
    (center : Point) (inner outer : float) : list Body_ptr * CollisionSet * Process :=
  let minX := Z.shiftr (double_to_int (Point.X center - outer)) (SHIFT s) in
  let minY := Z.shiftr (double_to_int (Point.Y center - outer)) (SHIFT s) in
  let maxX := Z.shiftr (double_to_int (Point.X center + outer)) (SHIFT s) in
  let maxY := Z.shiftr (double_to_int (Point.Y center + outer)) (SHIFT s) in
  let epoch := u32 (seenEpoch s + 1) in
  let '(sn, res, p) :=
    fold_left
      (fun st y =>
         fold_left (ring_cell mem s epoch center inner outer y) (int_range minX maxX) st)
      (int_range minY maxY) (seen s, [], p) in
  (res,
   {| CELL_SIZE := CELL_SIZE s; SHIFT := SHIFT s; CELL_MASK := CELL_MASK s;
      CELLS := CELLS s; WRAP_MASK := WRAP_MASK s;
      step := step s; all := all s; added := added s; sorted := sorted s;
      counts := counts s; result := res;
      seen := sn; seenEpoch := epoch |},
   p).

Definition Circle (mem : Heap) (s : CollisionSet) (p : Process)
    (center : Point) (radius : float) : list Body_ptr * CollisionSet * Process :=
  Ring mem s p center 0%float radius.

Definition All (s : CollisionSet) : list Body_ptr := all s.

(** *** Notions used to state the properties of the queries *)

(** The grid cell of a world coordinate. *)
Definition cell_of (s : CollisionSet) (v : float) : Z :=
  Z.shiftr (double_to_int v) (SHIFT s).

(** The test of the single-cell case of [Line]. *)
Definition single_cell (s : CollisionSet) (from to : Point) : bool :=
  (cell_of s (Point.X from) =? cell_of s (Point.X to))
  && (cell_of s (Point.Y from) =? cell_of s (Point.Y to)).

(** [pVelocity.Length() > MAX_VELOCITY]. *)
Definition over_length (from to : Point) : bool :=
  (int_to_double MAX_VELOCITY <? Length (Point.sub to from))%float.

(** [newEnd]: the end of the segment cut to [USED_MAX_VELOCITY]. *)
Definition clamped (from to : Point) : Point :=
  Point.add from (Point.mul (Unit (Point.sub to from)) (int_to_double USED_MAX_VELOCITY)).

(** [if(!warned) { Logger::LogError(...); warned = true; }] *)
Definition warn (p : Process) : Process :=
  if warned p then p
  else {| warned := true; events := events p ++ [LogError velocity_warning] |}.

(** [Closest closer_result(closestHit ? *closestHit : 1.)]. *)
Definition closer_init (closestHit : option float) : Closest :=
  {| closest_dist := match closestHit with Some h => h | None => 1%float end;
     closest_body := nullptr |}.

(** The friend/foe rule in its positive form: the body is the target, or
    one of the two government handles is null, or the governments are
    enemies. *)
Definition eligible (mem : Heap) (pGov : Gov_ptr) (target b : Body_ptr) : bool :=
  Nat.eqb b target || Nat.eqb (GetGovernment (mem b)) nullptr
    || Nat.eqb pGov nullptr || IsEnemy (GetGovernment (mem b)) pGov.

(** The states an index goes through while it is queried: [base] itself,
    and the state any [Line] or [Ring] query leaves behind.  The number
    counts the queries made. *)
Inductive queried (mem : Heap) (base : CollisionSet) : nat -> CollisionSet -> Prop :=
  | queried_base : queried mem base 0 base
  | queried_Line n s fuel p from to closestHit pGov target :
      queried mem base n s ->
      queried mem base (S n)
        (snd (fst (Line fuel mem s p from to closestHit pGov target)))
  | queried_Ring n s p center inner outer :
      queried mem base n s ->
      queried mem base (S n) (snd (fst (Ring mem s p center inner outer))).

(** The states of an index open to queries: built by [Clear], [Add] calls
    on bodies (references, hence not null) and [Finish], then used by any
    number of queries. *)
Definition finalized (mem : Heap) (s : CollisionSet) : Prop :=
  exists s0 st bodies n,
    grid_ok s0 /\ Forall (fun b => b <> nullptr) bodies /\
    queried mem (build mem s0 st bodies) n s.

End Queries.

(** ** Reading the trace *)

(** The entries that reached the government check, the calls of
    [Mask::Collide] with their results, the entries put to the acceptance
    test of [Ring], and the messages logged. *)
Definition candidates (evs : list Event) : list (Z * Body_ptr) :=
  flat_map (fun e => match e with Candidate i b => [(i, b)] | _ => [] end) evs.

Definition collides (evs : list Event) : list (Z * Body_ptr * float) :=
  flat_map (fun e => match e with MaskCollide i b r => [(i, b, r)] | _ => [] end) evs.

Definition ring_tests (evs : list Event) : list (Z * Body_ptr) :=
  flat_map (fun e => match e with RingTest i b => [(i, b)] | _ => [] end) evs.

Definition logged (evs : list Event) : list string :=
  flat_map (fun e => match e with LogError m => [m] | _ => [] end) evs.

(** The invariant the index keeps between [Finish] and the next [Clear]. *)
Definition index_inv (mem : Heap) (s : CollisionSet) : Prop :=
  grid_ok s /\
  Forall (fun b => b <> nullptr) (all s) /\
  added s = entries_from mem s 0 (all s) /\
  (forall b, 0 <= b < CELLS s * CELLS s -> bin s b = List.filter (in_cell s b) (added s)) /\
  length (seen s) = length (all s).


Section Runs.
Variable IsEnemy : Gov_ptr -> Gov_ptr -> bool.
Variable Length : Point -> float.
Variable Unit : Point -> Point.






End Runs.

(** The process at its start. *)
Definition process_start : Process := {| warned := false; events := [] |}.

(** No marker is ahead of the epoch counter. *)
Definition markers_ok (s : CollisionSet) : Prop :=
  0 <= seenEpoch s /\ Forall (fun m => 0 <= m <= seenEpoch s) (seen s).

(** The entries a query has considered so far: each was considered once,
    each pairs a dense index with the body [all] holds there, and (for a
    query that marks) the marker of each holds the epoch of the query. *)
Definition tests_ok (s : CollisionSet) (tests : list (Z * Body_ptr)) : Prop :=
  NoDup (map fst tests) /\
  forall i b, In (i, b) tests -> 0 <= i /\ all s !! Z.to_nat i = Some b.

Definition marked (s : CollisionSet) (epoch : Z) (sn : list Z)
    (tests : list (Z * Body_ptr)) : Prop :=
  length sn = length (seen s) /\ tests_ok s tests /\
  forall i b, In (i, b) tests -> sn !! Z.to_nat i = Some epoch.

(** The test on the signed cell coordinates that discards wrap-aliases. *)
Definition exact_cell (gx gy : Z) (e : Entry) : bool :=
  (Entry.x e =? gx) && (Entry.y e =? gy).


(** The markers of two runs agree: an entry is marked with the epoch of the
    one query exactly when it is marked with the epoch of the other. *)
Definition seen_agree (e1 e2 : Z) (sn1 sn2 : list Z) : Prop :=
  length sn1 = length sn2 /\
  forall k, (k < length sn1)%nat -> (sn1 !! k = Some e1 <-> sn2 !! k = Some e2).

(** ** The order of doubles *)

(** A key that orders the doubles other than NaN as the comparison
    operators do: the class (negative infinity, negative, zero, positive,
    positive infinity), then exponent and mantissa, both negated for the
    negative numbers. *)
Definition float_key (a : float) : option (Z * Z * Z) :=
  match Prim2SF a with
  | S754_nan => None
  | S754_zero _ => Some (0, 0, 0)
  | S754_infinity s => Some (if s then -2 else 2, 0, 0)
  | S754_finite s m e => Some (if s then (-1, - e, - Z.pos m) else (1, e, Z.pos m))
  end.

Definition key_lt (k1 k2 : Z * Z * Z) : Prop :=
  let '(a1, b1, c1) := k1 in
  let '(a2, b2, c2) := k2 in
  a1 < a2 \/ (a1 = a2 /\ (b1 < b2 \/ (b1 = b2 /\ c1 < c2))).

(** [std::min(a, b)]. *)
Definition double_min (a b : float) : float := if (b <? a)%float then b else a.

(** ** The stepped traversal in exact arithmetic *)

(** The products of the traversal fit 63 bits: with [mx] and [my] the
    extents of the segment in whole units, [CELL_SIZE * max(mx, 1) *
    max(my, 1) * max(mx, my) < 2^63].  This is what the cut to
    [MAX_VELOCITY] secures for cells of 256 units. *)
Definition dda_fits (s : CollisionSet) (from to : Point) : Prop :=
  let mx := Z.abs (double_to_int (Point.X to) - double_to_int (Point.X from)) in
  let my := Z.abs (double_to_int (Point.Y to) - double_to_int (Point.Y from)) in
  CELL_SIZE s * (Z.max mx 1 * Z.max my 1) * Z.max mx my < 2 ^ 63.

(** The constants of a traversal: the scaled cell size [F], the extents
    [mx] and [my], the directions [sx] and [sy]. *)
Definition dda_consts (F mx my sx sy : Z) : Prop :=
  0 < F /\ 0 <= mx /\ 0 <= my /\ 0 < mx + my /\ F * Z.max mx my < 2 ^ 63 /\
  (sx = 1 \/ sx = -1) /\ (sy = 1 \/ sy = -1) /\ (mx = 0 -> sx = 1) /\ (my = 0 -> sy = 1) /\
  (mx <> 0 -> (mx | F)) /\ (my <> 0 -> (my | F)).

(** The state of a traversal: the cell [(gx, gy)] and the scaled distances
    [rx], [ry] to its next boundaries, with what the loop does not store:
    the numbers [kx], [ky] of columns and rows still to cross and the scaled
    distances [Dx], [Dy] left to the end of the segment.  The point reached
    lies on the segment ([Dx * my = Dy * mx]) and the end of the segment
    lies [kx] columns and [ky] rows ahead. *)
Definition dda_state (F mx my sx sy endGX endGY gx gy rx ry kx ky Dx Dy : Z) : Prop :=
  0 <= rx <= F /\ 0 <= ry <= F /\ (sx = 1 -> 0 < rx) /\ (sy = 1 -> 0 < ry) /\
  (mx <> 0 -> (mx | rx)) /\ (my <> 0 -> (my | ry)) /\
  0 <= kx /\ 0 <= ky /\ endGX = gx + sx * kx /\ endGY = gy + sy * ky /\
  0 <= Dx /\ 0 <= Dy /\ Dx * my = Dy * mx /\
  (sx = 1 -> rx + (kx - 1) * F <= Dx < rx + kx * F) /\
  (sx = -1 -> rx + (kx - 1) * F < Dx <= rx + kx * F) /\
  (sy = 1 -> ry + (ky - 1) * F <= Dy < ry + ky * F) /\
  (sy = -1 -> ry + (ky - 1) * F < Dy <= ry + ky * F).

(** The number of cell boundaries between the two ends of a segment. *)
Definition cells_ahead (s : CollisionSet) (from to : Point) : Z :=
  Z.abs (cell_of s (Point.X to) - cell_of s (Point.X from))
  + Z.abs (cell_of s (Point.Y to) - cell_of s (Point.Y from)).

(** ** The nearest hit *)

(** A double other than NaN. *)
Definition is_number (a : float) : bool := (a <=? a)%float.

(** What [Line] relies on from [Mask::Collide]: the range it returns is a
    number. *)
Definition masks_return_numbers (mem : Heap) : Prop :=
  forall b st offset dir facing,
    is_number (Collide (GetMask (mem b) st) offset dir facing) = true.

(** [TryNearer] called with the mask tests of a trace, in their order. *)
Definition try_all (tests : list (Z * Body_ptr * float)) (c : Closest) : Closest :=
  fold_left (fun c t => TryNearer (snd t) (snd (fst t)) c) tests c.

(** From the process [p0] and the best hit [c0] a piece of a query leads
    to the process [q] and the best hit [c]: [q] extends the trace of
    [p0], [c] is what [TryNearer] makes of [c0] and the mask tests added,
    and every one of those satisfies [R]. *)
Definition traced (R : Z * Body_ptr * float -> Prop) (p0 : Process) (c0 : Closest)
    (c : Closest) (q : Process) : Prop :=
  exists evs, events q = events p0 ++ evs /\ c = try_all (collides evs) c0 /\
              Forall R (collides evs).

(** ** The cells of the stepped traversal *)

(** What the loop of [Line] does after the visit of the cell [(gx, gy)]
    in which it found no hit: [None] where it breaks (at the end cell, or
    at a corner beside it), and otherwise the next cell with the
    remainders there. *)
Definition dda_next (endGX endGY stepX stepY mx my fullScale gx gy rx ry : Z)
  : option (Z * Z * Z * Z) :=
  if (gx =? endGX) && (gy =? endGY) then None
  else
    let diff := to_int64 (u64 (u64 (rx * my) - u64 (ry * mx))) in
    if diff =? 0 then
      if (gx =? endGX) && (gy + stepY =? endGY) then None
      else if (gy =? endGY) && (gx + stepX =? endGX) then None
      else Some (gx + stepX, gy + stepY, fullScale, fullScale)
    else if diff <? 0 then
      Some (gx + stepX, gy, fullScale, u64 (ry - u64 (my * (rx / mx))))
    else
      Some (gx, gy + stepY, u64 (rx - u64 (mx * (ry / my))), fullScale).

(** The cells the loop goes through, in order, as long as it finds no
    hit. *)
Fixpoint dda_cells (fuel : nat) (endGX endGY stepX stepY mx my fullScale gx gy rx ry : Z)
  : list (Z * Z) :=
  match fuel with
  | O => []
  | S fuel' =>
      (gx, gy) ::
      match dda_next endGX endGY stepX stepY mx my fullScale gx gy rx ry with
      | None => []
      | Some (gx', gy', rx', ry') =>
          dda_cells fuel' endGX endGY stepX stepY mx my fullScale gx' gy' rx' ry'
      end
  end.

(** The cells a [Line] call that does not cut its segment goes through as
    long as it finds no hit: the one cell of the single-cell case, or the
    cells of the loop from the start state [Line] computes. *)
Definition Line_cells (fuel : nat) (s : CollisionSet) (from to : Point) : list (Z * Z) :=
  match fuel with
  | O => []
  | S fuel' =>
      let x := double_to_int (Point.X from) in
      let y := double_to_int (Point.Y from) in
      let endX := double_to_int (Point.X to) in
      let endY := double_to_int (Point.Y to) in
      let gx := cell_of s (Point.X from) in
      let gy := cell_of s (Point.Y from) in
      if single_cell s from to then [(gx, gy)]
      else
        let stepX := if x <=? endX then 1 else -1 in
        let stepY := if y <=? endY then 1 else -1 in
        let mx := u64 (Z.abs (endX - x)) in
        let my := u64 (Z.abs (endY - y)) in
        let scale := u64 (Z.max mx 1 * Z.max my 1) in
        let fullScale := u64 (CELL_SIZE s * scale) in
        let rx := u64 (scale * Z.land x (CELL_MASK s)) in
        let ry := u64 (scale * Z.land y (CELL_MASK s)) in
        let rx := if 0 <? stepX then u64 (fullScale - rx) else rx in
        let ry := if 0 <? stepY then u64 (fullScale - ry) else ry in
        dda_cells fuel' (cell_of s (Point.X to)) (cell_of s (Point.Y to))
                  stepX stepY mx my fullScale gx gy rx ry
  end.

(** The entries of the index that lie in a cell: those of its bin that
    carry its signed coordinates. *)
Definition cell_entries (s : CollisionSet) (cell : Z * Z) : list Entry :=
  List.filter (exact_cell (fst cell) (snd cell)) (bin s (cell_index s (fst cell) (snd cell))).

(** No marker holds the epoch the next query will use. *)
Definition markers_clear (s : CollisionSet) : Prop :=
  Forall (fun m => m <> u32 (seenEpoch s + 1)) (seen s).

(** The state of the loop of [Line] after the cells [visited], from the
    process [p0] and the best hit [c0]: the trace added holds the
    candidates and the mask tests; the best hit is what [TryNearer] makes
    of the tests; the tests are the candidates that pass the friend/foe
    rule, each with the range of the segment; the markers that hold the
    epoch are those of the candidates; the candidates are the entries of
    the cells visited, each dense index once; and no entry of a cell
    visited before the last that passes the friend/foe rule has a range
    below the cap. *)
Definition scanned (IsEnemy : Gov_ptr -> Gov_ptr -> bool) (mem : Heap) (s : CollisionSet)
    (epoch : Z) (from to : Point) (pGov : Gov_ptr) (target : Body_ptr)
    (p0 : Process) (c0 : Closest) (visited : list (Z * Z))
    (st : list Z * Closest * Process) : Prop :=
  let '(sn, c, q) := st in
  exists evs,
    events q = events p0 ++ evs /\
    c = try_all (collides evs) c0 /\
    Forall (fun t => snd t = collide_range mem s from to (snd (fst t))) (collides evs) /\
    map fst (collides evs)
    = List.filter (fun t => eligible IsEnemy mem pGov target (snd t)) (candidates evs) /\
    NoDup (map fst (candidates evs)) /\
    length sn = length (seen s) /\
    (forall k, sn !! k = Some epoch <-> exists b, In (Z.of_nat k, b) (candidates evs)) /\
    (forall i b, In (i, b) (candidates evs) ->
       exists cell e, In cell visited /\ In e (cell_entries s cell) /\
                      Entry.seenIndex e = i /\ Entry.body e = b) /\
    (forall cell e, In cell visited -> In e (cell_entries s cell) ->
       In (Entry.seenIndex e, Entry.body e) (candidates evs)) /\
    (forall cell e, In cell (removelast visited) -> In e (cell_entries s cell) ->
       eligible IsEnemy mem pGov target (Entry.body e) = true ->
       (closest_dist c0 <=? collide_range mem s from to (Entry.body e))%float = true).

(** ** The shape of a traversal *)

(** The direction of travel along an axis: [x <= endX ? 1 : -1] on the
    truncated coordinates. *)
Definition direction (v endV : float) : Z :=
  if double_to_int v <=? double_to_int endV then 1 else -1.

(** The cell [c'] is the one [Line] goes to from the cell [c]: one column
    on, one row on, or both, in the directions [sx] and [sy]. *)
Definition beside (sx sy : Z) (c c' : Z * Z) : Prop :=
  c' = (fst c + sx, snd c) \/ c' = (fst c, snd c + sy) \/ c' = (fst c + sx, snd c + sy).

(** ** The scan of [Ring] *)

(** The acceptance test of [Ring] for the body at [b]:
    [(length <= outer && length >= inner)
     || mask.WithinRing(offset, body->Facing(), inner, outer)]. *)
Definition ring_accepts (Length : Point -> float) (mem : Heap) (s : CollisionSet)
    (center : Point) (inner outer : float) (b : Body_ptr) : bool :=
  let bd := mem b in
  let offset := Point.sub center (Position bd) in
  let length := Length offset in
  ((length <=? outer)%float && (inner <=? length)%float)
  || WithinRing (GetMask bd (step s)) offset (Facing bd) inner outer.

(** The cells [Ring] goes through, in the order of its loops: the rows from
    [minY] to [maxY], and in each the columns from [minX] to [maxX]. *)
Definition Ring_cells (s : CollisionSet) (center : Point) (outer : float) : list (Z * Z) :=
  let minX := Z.shiftr (double_to_int (Point.X center - outer)) (SHIFT s) in
  let minY := Z.shiftr (double_to_int (Point.Y center - outer)) (SHIFT s) in
  let maxX := Z.shiftr (double_to_int (Point.X center + outer)) (SHIFT s) in
  let maxY := Z.shiftr (double_to_int (Point.Y center + outer)) (SHIFT s) in
  flat_map (fun y => map (fun x => (x, y)) (int_range minX maxX)) (int_range minY maxY).

(** The state of the loops of [Ring] after the cells [visited], from the
    process [p0]: the trace added holds the entries put to the acceptance
    test; the vector holds, in the order of the tests, the bodies that
    passed it; the markers that hold the epoch are those of the entries
    tested; and the entries tested are the entries of the cells visited,
    each dense index once. *)
Definition ring_scanned (Length : Point -> float) (mem : Heap) (s : CollisionSet)
    (epoch : Z) (center : Point) (inner outer : float) (p0 : Process)
    (visited : list (Z * Z)) (st : list Z * list Body_ptr * Process) : Prop :=
  let '(sn, res, q) := st in
  exists evs,
    events q = events p0 ++ evs /\
    res = map snd (List.filter
                     (fun t => ring_accepts Length mem s center inner outer (snd t))
                     (ring_tests evs)) /\
    NoDup (map fst (ring_tests evs)) /\
    length sn = length (seen s) /\
    (forall k, sn !! k = Some epoch <-> exists b, In (Z.of_nat k, b) (ring_tests evs)) /\
    (forall i b, In (i, b) (ring_tests evs) ->
       exists cell e, In cell visited /\ In e (cell_entries s cell) /\
                      Entry.seenIndex e = i /\ Entry.body e = b) /\
    (forall cell e, In cell visited -> In e (cell_entries s cell) ->
       In (Entry.seenIndex e, Entry.body e) (ring_tests evs)).

(** ** Bodies added more than once *)

(** The number of times the body at [b] occurs in a list of bodies: in
    [all], the number of [Add] calls made with it. *)
Definition times (b : Body_ptr) (l : list Body_ptr) : nat :=
  length (List.filter (Nat.eqb b) l).

(** ** Two runs of a query *)

(** Two runs made the same tests: from the processes [p1] and [p2] they
    reached [q1] and [q2] by traces holding the same candidates and the
    same calls of [Mask::Collide] with the same results. *)
Definition same_tests (p1 p2 q1 q2 : Process) : Prop :=
  exists evs1 evs2,
    events q1 = events p1 ++ evs1 /\ events q2 = events p2 ++ evs2 /\
    candidates evs1 = candidates evs2 /\ collides evs1 = collides evs2.

(** * What the specification says, where it differs from the code *)

(** The largest whole number not above a double ([std::floor]). *)
Definition double_floor (d : float) : Z :=
  match Prim2SF d with
  | S754_finite s m e =>
      let z := if s then Z.neg m else Z.pos m in
      if 0 <=? e then z * 2 ^ e else z / 2 ^ (- e)
  | _ => 0
  end.

(** The cell of a world coordinate as the specification of [Add] has it:
    [floor(v / CELL_SIZE)]. *)
Definition claimed_cell (s : CollisionSet) (v : float) : Z :=
  double_floor (v / int_to_double (CELL_SIZE s)).

(** The entries of [Add] as the specification has them: one for each cell
    of the box between the floors, and no other. *)
Definition claimed_Add_box (mem : Heap) (b : Body_ptr) (s : CollisionSet) : Prop :=
  let px := Point.X (Position (mem b)) in
  let py := Point.Y (Position (mem b)) in
  let r := Radius (mem b) in
  let minX := claimed_cell s (px - r) in
  let maxX := claimed_cell s (px + r) in
  let minY := claimed_cell s (py - r) in
  let maxY := claimed_cell s (py + r) in
  let idx := Z.of_nat (length (all s)) in
  exists new : list Entry,
    added (Add mem b s) = added s ++ new /\
    NoDup new /\
    forall e, In e new <->
      exists x y, e = Entry.mk b idx x y /\ minX <= x <= maxX /\ minY <= y <= maxY.

(** The result of [Line] as the specification has it: the body of the
    least range among all the bodies of the index that pass the
    friend/foe rule and whose range is below the cap, and null when there
    is none. *)
Definition claimed_nearest (IsEnemy : Gov_ptr -> Gov_ptr -> bool) (mem : Heap)
    (s : CollisionSet) (from to : Point) (closestHit : option float)
    (pGov : Gov_ptr) (target : Body_ptr) (hit : Body_ptr) : Prop :=
  let cap := closest_dist (closer_init closestHit) in
  let range b := collide_range mem s from to b in
  let passes b :=
    In b (all s) /\ eligible IsEnemy mem pGov target b = true /\ (range b <? cap)%float = true in
  (hit <> nullptr -> passes hit /\ forall b, passes b -> (range hit <=? range b)%float = true) /\
  (hit = nullptr -> forall b, ~ passes b).

(** [*closestHit] after [Line] as the specification has it, for the
    incoming value [h0], the body returned and its range [h1]. *)
Definition claimed_closestHit (h0 : float) (hit : Body_ptr) (h1 : float)
    (after : option float) : Prop :=
  (hit <> nullptr -> after = Some (double_min h0 h1)) /\
  (hit = nullptr -> after = Some h0).

(** * Reference instances and worked examples *)

(** Modelled from the spec: [Point::Length] and [Point::Unit], which are
    declared in [Point.h] and are not part of [CollisionSet.cpp].  The
    specification writes them [|v|] and [v.unit()]: the Euclidean norm and
    the vector scaled to length one (for the zero vector, [(1, 0)]).  The
    development takes [Length] and [Unit] as parameters; these instances
    serve the worked examples. *)
Definition Euclid_Length (p : Point) : float :=
  PrimFloat.sqrt (Point.X p * Point.X p + Point.Y p * Point.Y p).

Definition Euclid_Unit (p : Point) : Point :=
  let b := (Point.X p * Point.X p + Point.Y p * Point.Y p)%float in
  if (b =? 0)%float then Point.mk 1 0
  else
    let b := (1 / PrimFloat.sqrt b)%float in
    Point.mk (Point.X p * b) (Point.Y p * b).

(** No government is the enemy of another; every one is. *)
Definition no_enemies (iGov pGov : Gov_ptr) : bool := false.

(** A mask within the contract of [Mask::Collide] (a fraction in [0, 1)
    where the segment enters the mask, and at least 1 for a miss): a wall
    at [x = w] in the frame of its body.  The range is the fraction of the
    segment at which it meets the wall, and 1 when it does not within its
    length. *)
Definition wall (w : float) : Mask :=
  {| Collide := fun offset dir _ =>
       let t := ((w - Point.X offset) / Point.X dir)%float in
       if (0 <=? t)%float && (t <? 1)%float then t else 1%float;
     WithinRing := fun _ _ _ _ => false |}.

Definition mkbody (px py r : float) (g : Gov_ptr) (m : Mask) : Body :=
  {| Position := Point.mk px py; Radius := r; Facing := 0;
     GetGovernment := g; GetMask := fun _ => m |}.

Definition with_government (g : Gov_ptr) (b : Body) : Body :=
  {| Position := Position b; Radius := Radius b; Facing := Facing b;
     GetGovernment := g; GetMask := GetMask b |}.

Module Ex.

(** Body 1 is large, its wall far from its left edge; body 2 is small and
    lies inside the box of body 1; bodies 3 to 5 stand alone. *)
Definition mem : Heap := fun a =>
  match a with
  | 1%nat => mkbody 768 0 768 nullptr (wall (-128))
  | 2%nat => mkbody 384 0 16 nullptr (wall 0)
  | 3%nat => mkbody 384 0 200 nullptr (wall 0)
  | 4%nat => mkbody 0.5 0.5 1 nullptr (wall 0)
  | 5%nat => mkbody 10 10 1 nullptr (wall 0)
  | _ => mkbody 0 0 0 nullptr (wall 0)
  end.

(** The same bodies, all of government 7. *)
Definition mem_governed : Heap := fun a => with_government 7%nat (mem a).

(** Grids of 8 by 8 cells of 256 units, of 2 by 2 cells of 256 units, and
    of 8 by 8 cells of [2^20] units. *)
Definition grid : CollisionSet := CollisionSet_new 256 8.
Definition wide_grid : CollisionSet := CollisionSet_new 1048576 8.

Definition index12 : CollisionSet := build mem grid 0 [1%nat; 2%nat].
Definition index3 : CollisionSet := build mem grid 0 [3%nat].
Definition wide_index : CollisionSet := build mem wide_grid 0 [].


Definition origin : Point := Point.mk 0 0.
Definition east_1024 : Point := Point.mk 1024 0.
Definition east_128 : Point := Point.mk 128 0.
Definition east_500000 : Point := Point.mk 500000 0.

End Ex.

Module ExMore.

(** Three mask tests in their order, at the ranges 0.5, 0.25 and 0.25, and
    the best hit a call without [closestHit] starts from. *)
Definition tests : list (Z * Body_ptr * float) :=
  [(0, 1%nat, 0.5%float); (1, 2%nat, 0.25%float); (2, 3%nat, 0.25%float)].

Definition start : Closest := closer_init None.

(** Body 2 added twice to the grid of 8 by 8 cells of 256 units. *)
Definition twice : CollisionSet := build Ex.mem Ex.grid 0 [2%nat; 2%nat].

(** Two segments through the cell of body 2: one inside the cell, one
    that enters it from the cell before. *)
Definition inside_from : Point := Point.mk 300 10.
Definition inside_to : Point := Point.mk 400 10.
Definition across_from : Point := Point.mk 0 10.
Definition across_to : Point := Point.mk 1000 10.

(** A segment of 1000000 units in the grid of cells of [2^20] units: its
    ends lie in the cells 0 and 1, and the end of the segment cut to 449999
    units lies in the cell 0. *)
Definition long_from : Point := Point.mk 100000 0.
Definition long_to : Point := Point.mk 1100000 0.

End ExMore.

(** * Machine arithmetic and vectors *)

Lemma u32_small z : 0 <= z < 2 ^ 32 -> u32 z = z.
Proof. intros H. unfold u32. apply Z.mod_small. exact H. Qed.

Lemma u64_small z : 0 <= z < 2 ^ 64 -> u64 z = z.
Proof. intros H. unfold u64. apply Z.mod_small. exact H. Qed.

Lemma u32_range z : 0 <= u32 z < 2 ^ 32.
Proof. unfold u32. apply Z.mod_pos_bound. lia. Qed.

Lemma to_int64_small z : 0 <= z < 2 ^ 63 -> to_int64 z = z.
Proof. intros H. unfold to_int64. destruct (Z.ltb_spec z (2 ^ 63)); lia. Qed.

Lemma int_range_length lo hi : length (int_range lo hi) = Z.to_nat (hi - lo + 1).
Proof. unfold int_range. rewrite length_map, length_seq. reflexivity. Qed.

Lemma in_int_range lo hi v : In v (int_range lo hi) <-> lo <= v <= hi.
Proof.
  unfold int_range. rewrite in_map_iff. split.
  - intros (k & <- & Hk). apply in_seq in Hk. lia.
  - intros H. exists (Z.to_nat (v - lo)). split; [lia|]. apply in_seq. lia.
Qed.

Lemma int_range_NoDup lo hi : NoDup (int_range lo hi).
Proof.
  unfold int_range. apply NoDup_fmap_2.
  - intros a b H. lia.
  - apply NoDup_ListNoDup, List.seq_NoDup.
Qed.

Lemma vec_get_set_eq {A} (d : A) v i a :
  0 <= i -> (Z.to_nat i < length v)%nat -> vec_get d (vec_set v i a) i = a.
Proof.
  intros Hi Hlen. unfold vec_get, vec_set.
  rewrite list_lookup_insert_eq by exact Hlen. reflexivity.
Qed.

Lemma vec_get_set_ne {A} (d : A) v i j a :
  0 <= i -> 0 <= j -> i <> j -> vec_get d (vec_set v i a) j = vec_get d v j.
Proof.
  intros Hi Hj Hne. unfold vec_get, vec_set.
  rewrite list_lookup_insert_ne by lia. reflexivity.
Qed.

Lemma vec_set_length {A} (v : list A) i a : length (vec_set v i a) = length v.
Proof. unfold vec_set. apply length_insert. Qed.

Lemma vec_resize_length {A} (d : A) (v : list A) (n : nat) :
  length (vec_resize d v n) = n.
Proof. unfold vec_resize. rewrite length_app, length_take, length_replicate. lia. Qed.

Lemma bump_length cnt i : length (bump cnt i) = length cnt.
Proof. unfold bump. apply vec_set_length. Qed.

Lemma fold_bump_length l cnt : length (fold_left bump l cnt) = length cnt.
Proof.
  revert cnt. induction l as [|i l IH]; intros cnt; simpl; [reflexivity|].
  rewrite IH. apply bump_length.
Qed.

(** After a series of increments, a slot holds its old value plus the
    number of increments that named it. *)
Lemma fold_bump_get l : forall cnt j,
  Forall (fun i => 0 <= i) l -> 0 <= j -> (Z.to_nat j < length cnt)%nat ->
  vec_get 0 (fold_left bump l cnt) j
  = vec_get 0 cnt j + Z.of_nat (length (List.filter (fun i => i =? j) l)).
Proof.
  induction l as [|i l IH]; intros cnt j Hall Hj Hlen; simpl.
  - lia.
  - inversion Hall as [|? ? Hi Hall']; subst.
    rewrite IH by (try assumption; rewrite bump_length; assumption).
    unfold bump. destruct (Z.eqb_spec i j) as [->|Hne]; simpl.
    + rewrite vec_get_set_eq by assumption. lia.
    + rewrite vec_get_set_ne by assumption. lia.
Qed.

Lemma fold_left_nested {S A B} (f : A -> B -> S -> S) (xs : list B) (ys : list A) (s : S) :
  fold_left (fun s1 y => fold_left (fun s2 x => f y x s2) xs s1) ys s
  = fold_left (fun s c => f (snd c) (fst c) s) (flat_map (fun y => map (fun x => (x, y)) xs) ys) s.
Proof.
  revert s. induction ys as [|y ys IH]; intros s; simpl; [reflexivity|].
  rewrite fold_left_app, <- IH.
  assert (Hin : forall s1, fold_left (fun s2 x => f y x s2) xs s1
            = fold_left (fun s c => f (snd c) (fst c) s) (map (fun x => (x, y)) xs) s1).
  { clear IH. induction xs as [|x xs IHx]; intros s1; simpl; [reflexivity|]. apply IHx. }
  rewrite Hin. reflexivity.
Qed.

(** * The grid *)

Lemma grid_cells_range s : grid_ok s -> 1 <= CELLS s <= 2 ^ 15.
Proof.
  intros (_ & _ & _ & (k & Hk & ->) & _). split.
  - assert (0 < 2 ^ k) by (apply Z.pow_pos_nonneg; lia). lia.
  - apply Z.pow_le_mono_r; lia.
Qed.

Lemma grid_land_range s v : grid_ok s -> 0 <= Z.land v (WRAP_MASK s) < CELLS s.
Proof.
  intros (_ & _ & _ & (k & Hk & Hc) & Hw). rewrite Hw, Hc.
  replace (2 ^ k - 1) with (Z.ones k) by (rewrite Z.ones_equiv; lia).
  rewrite Z.land_ones by lia. apply Z.mod_pos_bound. apply Z.pow_pos_nonneg; lia.
Qed.

Lemma grid_land_mod s v : grid_ok s -> Z.land v (WRAP_MASK s) = v mod CELLS s.
Proof.
  intros (_ & _ & _ & (k & Hk & Hc) & Hw). rewrite Hw, Hc.
  replace (2 ^ k - 1) with (Z.ones k) by (rewrite Z.ones_equiv; lia).
  apply Z.land_ones. lia.
Qed.

(** Without wrap-around, the bin of a cell is its wrapped row times the row
    length plus its wrapped column. *)
Lemma cell_index_eq s gx gy :
  grid_ok s ->
  cell_index s gx gy = Z.land gy (WRAP_MASK s) * CELLS s + Z.land gx (WRAP_MASK s).
Proof.
  intros Hg. unfold cell_index.
  pose proof (grid_cells_range s Hg) as Hc.
  pose proof (grid_land_range s gx Hg) as Hx.
  pose proof (grid_land_range s gy Hg) as Hy.
  assert (2 ^ 15 * 2 ^ 15 < 2 ^ 32) by (vm_compute; reflexivity).
  rewrite (u32_small (_ * _)) by nia.
  apply u32_small. nia.
Qed.

Lemma cell_index_range s gx gy :
  grid_ok s -> 0 <= cell_index s gx gy < CELLS s * CELLS s.
Proof.
  intros Hg. rewrite cell_index_eq by assumption.
  pose proof (grid_land_range s gx Hg). pose proof (grid_land_range s gy Hg). nia.
Qed.

Lemma grid_table_size s : grid_ok s -> u32 (u32 (CELLS s * CELLS s) + 2) = CELLS s * CELLS s + 2.
Proof.
  intros Hg. pose proof (grid_cells_range s Hg) as Hc.
  assert (2 ^ 15 * 2 ^ 15 + 2 < 2 ^ 32) by (vm_compute; reflexivity).
  rewrite (u32_small (_ * _)) by nia. apply u32_small. nia.
Qed.

Lemma cell_index_shift s gx gy k :
  grid_ok s -> 0 <= k <= 2 -> u32 (cell_index s gx gy + k) = cell_index s gx gy + k.
Proof.
  intros Hg Hk. pose proof (cell_index_range s gx gy Hg).
  pose proof (grid_cells_range s Hg) as Hc.
  assert (2 ^ 15 * 2 ^ 15 + 2 < 2 ^ 32) by (vm_compute; reflexivity).
  apply u32_small. nia.
Qed.


(** ** The grid of the constructor *)

Lemma shift_count_bound fuel : forall v n k,
  0 <= k -> k <= Z.of_nat fuel -> 0 <= v < 2 ^ (k + 1) ->
  n <= shift_count fuel v n <= n + k.
Proof.
  induction fuel as [|fuel IH]; intros v n k Hk Hfuel Hv.
  - simpl. lia.
  - cbn [shift_count]. rewrite Z.shiftr_div_pow2 by lia. change (2 ^ 1) with 2.
    destruct (Z.eqb_spec (v / 2) 0) as [H0|H0]; [lia|].
    assert (Hk1 : 1 <= k).
    { destruct (Z.eq_dec k 0) as [->|]; [|lia]. change (2 ^ (0 + 1)) with 2 in Hv.
      exfalso. apply H0. apply Z.div_small. lia. }
    assert (Hv' : 0 <= v / 2 < 2 ^ (k - 1 + 1)).
    { split; [apply Z.div_pos; lia|]. apply Z.div_lt_upper_bound; [lia|].
      replace (2 * 2 ^ (k - 1 + 1)) with (2 ^ (k + 1)); [lia|].
      replace (k + 1) with (Z.succ (k - 1 + 1)) by lia. apply Z.pow_succ_r. lia. }
    specialize (IH (v / 2) (n + 1) (k - 1) ltac:(lia) ltac:(lia) Hv'). lia.
Qed.

Lemma double_count_power fuel : forall v m k,
  0 <= k -> k <= Z.of_nat fuel -> 0 <= m -> m + k <= 31 -> 0 <= v < 2 ^ (k + 1) ->
  exists j, m <= j <= m + k /\ double_count fuel v (2 ^ m) = 2 ^ j.
Proof.
  induction fuel as [|fuel IH]; intros v m k Hk Hfuel Hm Hmk Hv.
  - simpl. exists m. split; [lia|reflexivity].
  - cbn [double_count]. rewrite Z.shiftr_div_pow2 by lia. change (2 ^ 1) with 2.
    destruct (Z.eqb_spec (v / 2) 0) as [H0|H0]; [exists m; split; [lia|reflexivity]|].
    assert (Hk1 : 1 <= k).
    { destruct (Z.eq_dec k 0) as [->|]; [|lia]. change (2 ^ (0 + 1)) with 2 in Hv.
      exfalso. apply H0. apply Z.div_small. lia. }
    assert (Hv' : 0 <= v / 2 < 2 ^ (k - 1 + 1)).
    { split; [apply Z.div_pos; lia|]. apply Z.div_lt_upper_bound; [lia|].
      replace (2 * 2 ^ (k - 1 + 1)) with (2 ^ (k + 1)); [lia|].
      replace (k + 1) with (Z.succ (k - 1 + 1)) by lia. apply Z.pow_succ_r. lia. }
    assert (Hdouble : u32 (Z.shiftl (2 ^ m) 1) = 2 ^ (m + 1)).
    { rewrite Z.shiftl_mul_pow2 by lia. change (2 ^ 1) with 2.
      rewrite Z.pow_add_r by lia. change (2 ^ 1) with 2.
      apply u32_small. split; [apply Z.mul_nonneg_nonneg; [apply Z.pow_nonneg|]; lia|].
      replace (2 ^ m * 2) with (2 ^ (m + 1)) by (rewrite Z.pow_add_r by lia; reflexivity).
      apply Z.pow_lt_mono_r; lia. }
    rewrite Hdouble.
    destruct (IH (v / 2) (m + 1) (k - 1) ltac:(lia) ltac:(lia) ltac:(lia) ltac:(lia) Hv')
      as (j & Hj & Hr).
    exists j. split; [lia|exact Hr].
Qed.

(** The constructor makes a grid the index can work with, for any cell
    size and for a cell count below [2^16]. *)
Lemma CollisionSet_new_grid_ok cellSize cellCount :
  u32 cellCount < 2 ^ 16 -> grid_ok (CollisionSet_new cellSize cellCount).
Proof.
  intros Hcount. unfold CollisionSet_new, Clear, grid_ok.
  cbn [SHIFT CELL_SIZE CELL_MASK CELLS WRAP_MASK].
  pose proof (u32_range cellSize) as HsR. pose proof (u32_range cellCount) as HcR.
  pose proof (shift_count_bound 32 (u32 cellSize) 0 31 ltac:(lia) ltac:(simpl; lia)
                ltac:(change (2 ^ (31 + 1)) with (2 ^ 32); lia)) as Hshift.
  destruct (double_count_power 32 (u32 cellCount) 0 15 ltac:(lia) ltac:(simpl; lia)
              ltac:(lia) ltac:(lia) ltac:(change (2 ^ (15 + 1)) with (2 ^ 16); lia))
    as (j & Hj & Hcells).
  change (2 ^ 0) with 1 in Hcells. rewrite Hcells.
  set (sh := shift_count 32 (u32 cellSize) 0) in *. clearbody sh.
  assert (Hsize : u32 (Z.shiftl 1 sh) = 2 ^ sh).
  { rewrite Z.shiftl_1_l. apply u32_small. split; [apply Z.pow_nonneg; lia|].
    apply Z.pow_lt_mono_r; lia. }
  rewrite Hsize.
  assert (Hp : 0 < 2 ^ sh < 2 ^ 32).
  { split; [apply Z.pow_pos_nonneg; lia|apply Z.pow_lt_mono_r; lia]. }
  assert (Hq : 0 < 2 ^ j < 2 ^ 32).
  { split; [apply Z.pow_pos_nonneg; lia|apply Z.pow_lt_mono_r; lia]. }
  split; [lia|]. split; [reflexivity|]. split; [apply u32_small; lia|].
  split; [exists j; split; [lia|reflexivity]|apply u32_small; lia].
Qed.

(** * Add *)

Lemma CollisionSet_eta s :
  s = {| CELL_SIZE := CELL_SIZE s; SHIFT := SHIFT s; CELL_MASK := CELL_MASK s;
         CELLS := CELLS s; WRAP_MASK := WRAP_MASK s; step := step s; all := all s;
         added := added s; sorted := sorted s; counts := counts s; result := result s;
         seen := seen s; seenEpoch := seenEpoch s |}.
Proof. destruct s; reflexivity. Qed.

(** The two loops of [Add] append one entry per cell and increment the
    slot of each. *)
Lemma add_cells_eq b idx (L : list (Z * Z)) : forall s,
  fold_left (fun s c => add_cell b idx (snd c) (fst c) s) L s
  = {| CELL_SIZE := CELL_SIZE s; SHIFT := SHIFT s; CELL_MASK := CELL_MASK s;
       CELLS := CELLS s; WRAP_MASK := WRAP_MASK s; step := step s; all := all s;
       added := added s ++ map (fun c => Entry.mk b idx (fst c) (snd c)) L;
       sorted := sorted s;
       counts := fold_left bump
                   (map (add_slot s) (map (fun c => Entry.mk b idx (fst c) (snd c)) L))
                   (counts s);
       result := result s; seen := seen s; seenEpoch := seenEpoch s |}.
Proof.
  induction L as [|c L IH]; intros s; simpl.
  - rewrite app_nil_r. apply CollisionSet_eta.
  - rewrite IH. unfold add_cell at 1 2 3 4 5 6 7 8 9 10 11 12. simpl.
    rewrite <- app_assoc. reflexivity.
Qed.

Lemma Add_eq mem b s :
  Add mem b s
  = let new := entries_of mem s (Z.of_nat (length (all s))) b in
    {| CELL_SIZE := CELL_SIZE s; SHIFT := SHIFT s; CELL_MASK := CELL_MASK s;
       CELLS := CELLS s; WRAP_MASK := WRAP_MASK s; step := step s;
       all := all s ++ [b];
       added := added s ++ new;
       sorted := sorted s;
       counts := fold_left bump (map (add_slot s) new) (counts s);
       result := result s; seen := seen s; seenEpoch := seenEpoch s |}.
Proof.
  unfold Add, entries_of, footprint.
  destruct (footprint_x mem s b) as [minX maxX].
  destruct (footprint_y mem s b) as [minY maxY].
  rewrite (fold_left_nested (fun y x s2 => add_cell b (Z.of_nat (length (all s))) y x s2)).
  rewrite add_cells_eq. reflexivity.
Qed.

Lemma filter_map_length {A B} (f : A -> B) (p : B -> bool) (l : list A) :
  length (List.filter p (map f l)) = length (List.filter (fun a => p (f a)) l).
Proof.
  induction l as [|a l IH]; simpl; [reflexivity|].
  destruct (p (f a)); simpl; rewrite IH; reflexivity.
Qed.

Lemma in_cells xs ys (c : Z * Z) :
  In c (flat_map (fun y => map (fun x => (x, y)) xs) ys) <-> In (fst c) xs /\ In (snd c) ys.
Proof.
  rewrite in_flat_map. split.
  - intros (y & Hy & Hc). apply in_map_iff in Hc as (x & <- & Hx). simpl. auto.
  - intros [Hx Hy]. exists (snd c). split; [assumption|].
    apply in_map_iff. exists (fst c). destruct c; simpl; auto.
Qed.

Lemma cells_NoDup (xs ys : list Z) :
  NoDup xs -> NoDup ys -> NoDup (flat_map (fun y => map (fun x => (x, y)) xs) ys).
Proof.
  intros Hxs Hys. induction Hys as [|y ys Hy Hys IH]; simpl; [constructor|].
  apply NoDup_app. split; [|split].
  - apply NoDup_fmap_2; [|assumption]. intros a b H. congruence.
  - intros c Hc Hc'. apply list_elem_of_In in Hc, Hc'.
    apply in_map_iff in Hc as (x & <- & _).
    apply in_cells in Hc' as [_ Hin]. simpl in Hin.
    apply Hy. apply list_elem_of_In. exact Hin.
  - exact IH.
Qed.

Lemma footprint_NoDup mem s b : NoDup (footprint mem s b).
Proof.
  unfold footprint.
  destruct (footprint_x mem s b), (footprint_y mem s b).
  apply cells_NoDup; apply int_range_NoDup.
Qed.

Lemma in_footprint mem s b c :
  In c (footprint mem s b) <->
  fst (footprint_x mem s b) <= fst c <= snd (footprint_x mem s b) /\
  fst (footprint_y mem s b) <= snd c <= snd (footprint_y mem s b).
Proof.
  unfold footprint.
  destruct (footprint_x mem s b), (footprint_y mem s b). simpl.
  rewrite in_cells, !in_int_range. reflexivity.
Qed.

Lemma entries_of_NoDup mem s idx b : NoDup (entries_of mem s idx b).
Proof.
  unfold entries_of. apply NoDup_fmap_2; [|apply footprint_NoDup].
  intros [x1 y1] [x2 y2] H. simpl in H. congruence.
Qed.

Lemma in_entries_of mem s idx b e :
  In e (entries_of mem s idx b) <->
  Entry.body e = b /\ Entry.seenIndex e = idx /\
  In (Entry.x e, Entry.y e) (footprint mem s b).
Proof.
  unfold entries_of. rewrite in_map_iff. split.
  - intros ([x y] & <- & Hc). simpl. auto.
  - intros (Hb & Hi & Hc). exists (Entry.x e, Entry.y e). split; [|assumption].
    destruct e; simpl in *; subst; reflexivity.
Qed.

Lemma add_slot_eq s e : grid_ok s -> add_slot s e = entry_cell s e + 2.
Proof. intros Hg. unfold add_slot, entry_cell. apply cell_index_shift; [assumption|lia]. Qed.

Lemma add_slot_nonneg s l : Forall (fun i => 0 <= i) (map (add_slot s) l).
Proof.
  apply Forall_forall. intros i Hi. apply list_elem_of_In in Hi.
  apply in_map_iff in Hi as (e & <- & _).
  unfold add_slot. apply u32_range.
Qed.

(** A cell coordinate obtained by shifting is the floor of the quotient by
    the cell size. *)
Lemma shift_is_floor s v : grid_ok s -> Z.shiftr v (SHIFT s) = v / CELL_SIZE s.
Proof.
  intros (Hs & Hc & _). rewrite Hc. apply Z.shiftr_div_pow2. lia.
Qed.

(** C5 (as amended): [Add] creates exactly one pending entry for each cell
    [(x, y)] of the box [minX..maxX] x [minY..maxY] and no other entry,
    where [minX] is the floor of the quotient by [CELL_SIZE] of the
    coordinate [px - r] converted to [int], that is, truncated toward zero
    first (and likewise [maxX], [minY], [maxY]); every new entry carries the
    body and its dense index, each one increments the histogram slot of its
    wrapped bin (two places up, past the sentinels), and the body is
    appended to [all]. *)
Theorem Add_covers_truncated_box (mem : Heap) (b : Body_ptr) (s : CollisionSet) :
  grid_ok s ->
  let px := Point.X (Position (mem b)) in
  let py := Point.Y (Position (mem b)) in
  let r := Radius (mem b) in
  let minX := double_to_int (px - r) / CELL_SIZE s in
  let maxX := double_to_int (px + r) / CELL_SIZE s in
  let minY := double_to_int (py - r) / CELL_SIZE s in
  let maxY := double_to_int (py + r) / CELL_SIZE s in
  let idx := Z.of_nat (length (all s)) in
  exists new : list Entry,
    added (Add mem b s) = added s ++ new /\
    NoDup new /\
    (forall e, In e new <->
       exists x y, e = Entry.mk b idx x y /\ minX <= x <= maxX /\ minY <= y <= maxY) /\
    (forall j, 0 <= j < Z.of_nat (length (counts s)) ->
       vec_get 0 (counts (Add mem b s)) j
       = vec_get 0 (counts s) j
         + Z.of_nat (length (List.filter
             (fun e => cell_index s (Entry.x e) (Entry.y e) + 2 =? j) new))) /\
    all (Add mem b s) = all s ++ [b].
Proof.
  intros Hg px py r minX maxX minY maxY idx.
  exists (entries_of mem s idx b).
  rewrite Add_eq. simpl. fold idx.
  split; [reflexivity|]. split; [apply entries_of_NoDup|]. split; [|split; [|reflexivity]].
  - intros e. rewrite in_entries_of, in_footprint. unfold footprint_x, footprint_y. simpl.
    rewrite !shift_is_floor by assumption.
    fold px py r minX maxX minY maxY. split.
    + intros (Hb & Hi & Hx & Hy). exists (Entry.x e), (Entry.y e).
      split; [|split; assumption]. destruct e; simpl in *; subst; reflexivity.
    + intros (x & y & -> & Hx & Hy). simpl. auto.
  - intros j Hj.
    rewrite fold_bump_get; [|apply add_slot_nonneg|lia|lia].
    rewrite filter_map_length. do 2 f_equal.
    f_equal. apply List.filter_ext. intros e.
    rewrite add_slot_eq by assumption. reflexivity.
Qed.

(** * A series of Add calls *)

Lemma entries_from_ext mem s s' n l :
  SHIFT s = SHIFT s' -> entries_from mem s n l = entries_from mem s' n l.
Proof.
  intros H. revert n. induction l as [|b l IH]; intros n; simpl; [reflexivity|].
  rewrite IH. f_equal.
  unfold entries_of, footprint, footprint_x, footprint_y. rewrite H. reflexivity.
Qed.

Lemma add_slot_ext s s' e :
  CELLS s = CELLS s' -> WRAP_MASK s = WRAP_MASK s' -> add_slot s e = add_slot s' e.
Proof.
  intros Hc Hw. unfold add_slot, entry_cell, cell_index. rewrite Hc, Hw. reflexivity.
Qed.

Lemma adds_eq mem bodies : forall s,
  fold_left (fun s b => Add mem b s) bodies s
  = let new := entries_from mem s (length (all s)) bodies in
    {| CELL_SIZE := CELL_SIZE s; SHIFT := SHIFT s; CELL_MASK := CELL_MASK s;
       CELLS := CELLS s; WRAP_MASK := WRAP_MASK s; step := step s;
       all := all s ++ bodies;
       added := added s ++ new;
       sorted := sorted s;
       counts := fold_left bump (map (add_slot s) new) (counts s);
       result := result s; seen := seen s; seenEpoch := seenEpoch s |}.
Proof.
  induction bodies as [|b bodies IH]; intros s.
  - simpl. rewrite !app_nil_r. apply CollisionSet_eta.
  - cbn [fold_left]. rewrite IH, Add_eq.
    cbn [CELL_SIZE SHIFT CELL_MASK CELLS WRAP_MASK step all added sorted counts result
         seen seenEpoch].
    rewrite length_app, Nat.add_1_r.
    rewrite (entries_from_ext mem _ s) by reflexivity.
    cbn [entries_from]. rewrite <- !app_assoc, map_app, fold_left_app.
    cbn [app]. f_equal.
Qed.

(** * Counting entries per bin *)

Section Bins.
Variable s : CollisionSet.

Lemma in_bin_app i l1 l2 : in_bin s i (l1 ++ l2) = in_bin s i l1 + in_bin s i l2.
Proof. unfold in_bin. rewrite List.filter_app, length_app. lia. Qed.

Lemma below_bin_app i l1 l2 : below_bin s i (l1 ++ l2) = below_bin s i l1 + below_bin s i l2.
Proof. unfold below_bin. rewrite List.filter_app, length_app. lia. Qed.

Lemma in_bin_nonneg i l : 0 <= in_bin s i l.
Proof. unfold in_bin. lia. Qed.

Lemma below_bin_nonneg i l : 0 <= below_bin s i l.
Proof. unfold below_bin. lia. Qed.

Lemma below_bin_succ i l : below_bin s (i + 1) l = below_bin s i l + in_bin s i l.
Proof.
  unfold below_bin, in_bin, in_cell. induction l as [|e l IH]; simpl; [reflexivity|].
  destruct (Z.ltb_spec (entry_cell s e) (i + 1)), (Z.ltb_spec (entry_cell s e) i),
    (Z.eqb_spec (entry_cell s e) i); simpl; lia.
Qed.

Lemma below_bin_mono i j l : i <= j -> below_bin s i l <= below_bin s j l.
Proof.
  intros Hij. unfold below_bin. induction l as [|e l IH]; simpl; [lia|].
  destruct (Z.ltb_spec (entry_cell s e) i), (Z.ltb_spec (entry_cell s e) j); simpl; lia.
Qed.

Lemma below_bin_all i l :
  Forall (fun e => entry_cell s e < i) l -> below_bin s i l = Z.of_nat (length l).
Proof.
  unfold below_bin. induction 1 as [|e l He Hl IH]; simpl; [reflexivity|].
  destruct (Z.ltb_spec (entry_cell s e) i); simpl; lia.
Qed.

Lemma below_bin_none i l :
  Forall (fun e => i <= entry_cell s e) l -> below_bin s i l = 0.
Proof.
  unfold below_bin. induction 1 as [|e l He Hl IH]; simpl; [reflexivity|].
  destruct (Z.ltb_spec (entry_cell s e) i); simpl; lia.
Qed.

Lemma in_bin_cons i e l :
  in_bin s i (e :: l) = (if entry_cell s e =? i then 1 else 0) + in_bin s i l.
Proof. unfold in_bin, in_cell. simpl. destruct (entry_cell s e =? i); simpl; lia. Qed.

(** The running sums of a histogram are the cumulative counts. *)
Lemma partial_sum_from_hist A : forall l acc k0,
  (forall i, (i < length l)%nat -> l !! i = Some (in_bin s (k0 + Z.of_nat i) A)) ->
  forall j, (j < length l)%nat ->
  partial_sum_from acc l !! j
  = Some (acc + below_bin s (k0 + Z.of_nat j + 1) A - below_bin s k0 A).
Proof.
  induction l as [|c l IH]; intros acc k0 Hl j Hj; simpl in Hj; [lia|].
  assert (Hc : c = in_bin s k0 A).
  { specialize (Hl 0%nat ltac:(simpl; lia)). simpl in Hl.
    rewrite Z.add_0_r in Hl. congruence. }
  destruct j as [|j]; simpl.
  - rewrite Z.add_0_r, below_bin_succ. f_equal. lia.
  - rewrite (IH (acc + c) (k0 + 1)).
    + f_equal. rewrite (below_bin_succ k0).
      replace (k0 + 1 + Z.of_nat j + 1) with (k0 + Z.of_nat (S j) + 1) by lia. lia.
    + intros i Hi. specialize (Hl (S i) ltac:(simpl; lia)). simpl in Hl.
      rewrite Hl. do 2 f_equal. lia.
    + lia.
Qed.

Lemma partial_sum_from_length l : forall acc, length (partial_sum_from acc l) = length l.
Proof. induction l as [|c l IH]; intros acc; simpl; [reflexivity|]. rewrite IH. reflexivity. Qed.

End Bins.

(** * The radix pass of Finish *)

Section Radix.
Variable s : CollisionSet.
Hypothesis Hgrid : grid_ok s.

Let n := CELLS s * CELLS s.

Lemma entry_cell_range e : 0 <= entry_cell s e < n.
Proof. apply cell_index_range. exact Hgrid. Qed.

Lemma below_bin_total l : below_bin s n l = Z.of_nat (length l).
Proof.
  apply below_bin_all. apply Forall_forall. intros e _. apply entry_cell_range.
Qed.

Lemma below_bin_zero i l : i <= 0 -> below_bin s i l = 0.
Proof.
  intros Hi. apply below_bin_none. apply Forall_forall. intros e _.
  pose proof (entry_cell_range e). lia.
Qed.

Lemma place_index e : u32 (entry_cell s e + 1) = entry_cell s e + 1.
Proof. apply cell_index_shift; [exact Hgrid|lia]. Qed.

(** The invariant of the pass after the entries [pre] of [A] have been
    placed: the cursor of bin [b] (slot [b + 1]) has advanced by the
    number of entries of [pre] in [b], and these entries lie, in their
    order, from the start of [b]. *)
Lemma place_invariant (A : list Entry) : forall rest pre srt cnt,
  A = pre ++ rest ->
  length srt = length A ->
  Z.of_nat (length cnt) = n + 2 ->
  (forall j, 0 <= j < n + 2 ->
     vec_get 0 cnt j = below_bin s (j - 1) A + in_bin s (j - 1) pre) ->
  (forall b k, 0 <= b < n ->
     (k < length (List.filter (in_cell s b) pre))%nat ->
     srt !! (Z.to_nat (below_bin s b A) + k)%nat
     = List.filter (in_cell s b) pre !! k) ->
  let '(srt', cnt') := fold_left (place s) rest (srt, cnt) in
  length srt' = length A /\
  Z.of_nat (length cnt') = n + 2 /\
  (forall j, 0 <= j < n + 2 -> vec_get 0 cnt' j = below_bin s j A) /\
  (forall b k, 0 <= b < n ->
     (k < length (List.filter (in_cell s b) A))%nat ->
     srt' !! (Z.to_nat (below_bin s b A) + k)%nat
     = List.filter (in_cell s b) A !! k).
Proof.
  induction rest as [|e rest IH]; intros pre srt cnt HA Hls Hlc Hcnt Hsrt.
  - simpl. rewrite app_nil_r in HA. subst pre.
    split; [assumption|]. split; [assumption|]. split; [|assumption].
    intros j Hj. rewrite Hcnt by assumption.
    rewrite <- (below_bin_succ s (j - 1)). f_equal. lia.
  - cbn [fold_left].
    pose proof (entry_cell_range e) as Hb.
    set (b := entry_cell s e) in *.
    assert (Hin : in_bin s b A = in_bin s b pre + 1 + in_bin s b rest).
    { rewrite HA, in_bin_app, in_bin_cons. fold b. rewrite Z.eqb_refl. lia. }
    pose proof (in_bin_nonneg s b rest) as Hrest.
    pose proof (in_bin_nonneg s b pre) as Hpre.
    pose proof (below_bin_nonneg s b A) as Hbel.
    assert (Hpos : below_bin s b A + in_bin s b pre < Z.of_nat (length A)).
    { rewrite <- below_bin_total.
      pose proof (below_bin_succ s b A). pose proof (below_bin_mono s (b + 1) n A). lia. }
    unfold place. fold (entry_cell s e). rewrite place_index. fold b.
    rewrite (Hcnt (b + 1)) by lia. replace (b + 1 - 1) with b by lia.
    set (pos := below_bin s b A + in_bin s b pre) in *.
    apply (IH (pre ++ [e])).
    + rewrite <- app_assoc. exact HA.
    + rewrite vec_set_length. exact Hls.
    + rewrite vec_set_length. exact Hlc.
    + intros j Hj. rewrite in_bin_app, in_bin_cons. fold b.
      change (in_bin s (j - 1) []) with 0.
      destruct (Z.eq_dec j (b + 1)) as [->|Hne].
      * rewrite vec_get_set_eq by lia. replace (b + 1 - 1) with b by lia.
        rewrite Z.eqb_refl. unfold pos. lia.
      * rewrite vec_get_set_ne by lia. rewrite Hcnt by lia.
        destruct (Z.eqb_spec b (j - 1)); lia.
    + intros b' k Hb' Hk. rewrite List.filter_app in Hk |- *.
      change (List.filter (in_cell s b') [e]) with (if b =? b' then [e] else []) in Hk |- *.
      unfold vec_set.
      destruct (Z.eqb_spec b b') as [<-|Hne].
      * rewrite length_app in Hk. simpl in Hk.
        assert (Hlen : Z.of_nat (length (List.filter (in_cell s b) pre))
                       = in_bin s b pre) by reflexivity.
        destruct (Nat.eq_dec k (length (List.filter (in_cell s b) pre)))
          as [->|Hk'].
        -- replace (Z.to_nat (below_bin s b A) + _)%nat with (Z.to_nat pos) by (unfold pos; lia).
           rewrite list_lookup_insert_eq by lia.
           rewrite list_lookup_middle by reflexivity. reflexivity.
        -- rewrite list_lookup_insert_ne by (unfold pos; lia).
           rewrite lookup_app_l by lia. apply Hsrt; [assumption|lia].
      * rewrite app_nil_r in Hk |- *.
        assert (Hlen : Z.of_nat (length (List.filter (in_cell s b') pre))
                       = in_bin s b' pre) by reflexivity.
        assert (Hle : in_bin s b' pre <= in_bin s b' A).
        { rewrite HA, in_bin_app. pose proof (in_bin_nonneg s b' (e :: rest)). lia. }
        rewrite list_lookup_insert_ne; [apply Hsrt; assumption|].
        pose proof (below_bin_succ s b' A). pose proof (below_bin_succ s b A).
        pose proof (below_bin_nonneg s b' A).
        destruct (Z.lt_total b' b) as [Hlt|[Heq|Hgt]]; [|lia|].
        -- pose proof (below_bin_mono s (b' + 1) b A). unfold pos. lia.
        -- pose proof (below_bin_mono s (b + 1) b' A). unfold pos. lia.
Qed.

End Radix.

(** * Finish *)

Lemma same_grid_refl s : same_grid s s.
Proof. repeat split. Qed.

Lemma same_grid_sym s s' : same_grid s s' -> same_grid s' s.
Proof. intros (?&?&?&?&?). repeat split; congruence. Qed.

Lemma same_grid_trans s1 s2 s3 : same_grid s1 s2 -> same_grid s2 s3 -> same_grid s1 s3.
Proof. intros (?&?&?&?&?) (?&?&?&?&?). repeat split; congruence. Qed.

Lemma same_grid_ok s s' : same_grid s s' -> grid_ok s -> grid_ok s'.
Proof.
  intros (H1&H2&H3&H4&H5) (G1&G2&G3&G4&G5). unfold grid_ok.
  rewrite <- H1, <- H2, <- H3, <- H4, <- H5. auto.
Qed.

Lemma cell_index_ext s s' gx gy : same_grid s s' -> cell_index s gx gy = cell_index s' gx gy.
Proof. intros (_&_&_&Hc&Hw). unfold cell_index. rewrite Hc, Hw. reflexivity. Qed.

Lemma in_cell_ext s s' b e : same_grid s s' -> in_cell s b e = in_cell s' b e.
Proof. intros H. unfold in_cell, entry_cell. rewrite (cell_index_ext s s') by assumption. reflexivity. Qed.

Lemma filter_in_cell_ext s s' b l :
  same_grid s s' -> List.filter (in_cell s b) l = List.filter (in_cell s' b) l.
Proof. intros H. apply List.filter_ext. intros e. apply in_cell_ext. assumption. Qed.

Lemma below_bin_ext s s' b l : same_grid s s' -> below_bin s b l = below_bin s' b l.
Proof.
  intros H. unfold below_bin. do 2 f_equal. apply List.filter_ext. intros e.
  unfold entry_cell. rewrite (cell_index_ext s s') by assumption. reflexivity.
Qed.

Lemma Clear_same_grid st s : same_grid s (Clear st s).
Proof. repeat split. Qed.

Lemma Add_same_grid mem b s : same_grid s (Add mem b s).
Proof. rewrite Add_eq. repeat split. Qed.

Lemma adds_same_grid mem bodies s : same_grid s (fold_left (fun s b => Add mem b s) bodies s).
Proof. rewrite adds_eq. repeat split. Qed.

Lemma Finish_fields s :
  same_grid s (Finish s) /\ step (Finish s) = step s /\ all (Finish s) = all s /\
  added (Finish s) = added s /\ result (Finish s) = result s /\
  seen (Finish s) = replicate (length (all s)) 0 /\ seenEpoch (Finish s) = 0.
Proof.
  unfold Finish. destruct (fold_left _ _ _) as [srt' cnt']. repeat split.
Qed.

Lemma Finish_tables s :
  (sorted (Finish s), counts (Finish s))
  = fold_left (place s) (added s)
      (vec_resize Entry.zero (sorted s) (length (added s)), partial_sum (counts s)).
Proof. unfold Finish. destruct (fold_left _ _ _) as [srt' cnt']. reflexivity. Qed.

(** The slice of [sorted] between two consecutive offsets. *)
Lemma slice_eq {A} (l bucket : list A) (first : nat) :
  (first + length bucket <= length l)%nat ->
  (forall k, (k < length bucket)%nat -> l !! (first + k)%nat = bucket !! k) ->
  take (length bucket) (drop first l) = bucket.
Proof.
  intros Hlen Hk. apply list_eq. intros k.
  destruct (Nat.lt_ge_cases k (length bucket)) as [Hlt|Hge].
  - rewrite lookup_take_lt by assumption. rewrite lookup_drop. apply Hk. assumption.
  - rewrite lookup_take_ge by assumption. symmetry. apply lookup_ge_None. assumption.
Qed.

(** When [counts] holds the histogram of the pending entries, two places
    up, [Finish] leaves in [counts] the start of every bin and in [sorted],
    bin after bin, the pending entries of each bin in the order they were
    added. *)
Lemma Finish_spec s :
  grid_ok s ->
  Z.of_nat (length (counts s)) = CELLS s * CELLS s + 2 ->
  (forall j, 0 <= j < CELLS s * CELLS s + 2 ->
     vec_get 0 (counts s) j = in_bin s (j - 2) (added s)) ->
  length (sorted (Finish s)) = length (added s) /\
  (forall j, 0 <= j < CELLS s * CELLS s + 2 ->
     vec_get 0 (counts (Finish s)) j = below_bin s j (added s)) /\
  (forall b, 0 <= b < CELLS s * CELLS s ->
     bin (Finish s) b = List.filter (in_cell s b) (added s)).
Proof.
  intros Hg Hlen Hhist.
  pose proof (Finish_tables s) as Ht.
  pose proof (place_invariant s Hg (added s) (added s) []
                (vec_resize Entry.zero (sorted s) (length (added s)))
                (partial_sum (counts s))) as Hinv.
  rewrite <- Ht in Hinv. cbv zeta in Hinv.
  destruct Hinv as (Hls & Hlc & Hcnt & Hsrt).
  - reflexivity.
  - apply vec_resize_length.
  - unfold partial_sum. rewrite partial_sum_from_length. exact Hlen.
  - intros j Hj. change (in_bin s (j - 1) []) with 0. rewrite Z.add_0_r.
    unfold vec_get, partial_sum.
    rewrite (partial_sum_from_hist s (added s) (counts s) 0 (-2)).
    + simpl. rewrite (below_bin_zero s Hg (-2)) by lia.
      replace (-2 + Z.of_nat (Z.to_nat j) + 1) with (j - 1) by lia. lia.
    + intros i Hi. specialize (Hhist (Z.of_nat i) ltac:(lia)).
      unfold vec_get in Hhist. rewrite Nat2Z.id in Hhist.
      destruct (counts s !! i) as [c|] eqn:Hc.
      * simpl in Hhist. rewrite Hhist. do 2 f_equal. lia.
      * apply lookup_ge_None in Hc. lia.
    + lia.
  - intros b k _ Hk. simpl in Hk. lia.
  - split; [exact Hls|]. split; [exact Hcnt|].
    intros b Hb. unfold bin.
    pose proof (cell_index_range s 0 0 Hg) as _.
    pose proof (grid_cells_range s Hg) as Hc.
    assert (2 ^ 15 * 2 ^ 15 + 2 < 2 ^ 32) by (vm_compute; reflexivity).
    rewrite (u32_small (b + 1)) by nia.
    rewrite !Hcnt by lia. rewrite below_bin_succ.
    replace (below_bin s b (added s) + in_bin s b (added s) - below_bin s b (added s))
      with (in_bin s b (added s)) by lia.
    unfold in_bin. rewrite Nat2Z.id.
    apply slice_eq.
    + pose proof (below_bin_succ s b (added s)) as Hs.
      pose proof (below_bin_mono s (b + 1) (CELLS s * CELLS s) (added s) ltac:(lia)) as Hm.
      rewrite (below_bin_total s Hg) in Hm. unfold in_bin in Hs.
      pose proof (below_bin_nonneg s b (added s)). lia.
    + intros k Hk. apply Hsrt; assumption.
Qed.

(** * Built indexes *)

Lemma in_entries_from mem s e : forall bodies n,
  In e (entries_from mem s n bodies) <->
  exists i b, bodies !! i = Some b /\ Entry.seenIndex e = Z.of_nat (n + i) /\
              Entry.body e = b /\ In (Entry.x e, Entry.y e) (footprint mem s b).
Proof.
  induction bodies as [|b bodies IH]; intros n; simpl.
  - split; [intros []|]. intros (i & b & Hi & _). discriminate.
  - rewrite in_app_iff, in_entries_of, IH. split.
    + intros [(Hb & Hi & Hf)|(i & b' & Hl & Hi & Hb & Hf)].
      * exists 0%nat, b. rewrite Nat.add_0_r. auto.
      * exists (S i), b'. rewrite <- Nat.add_succ_comm. auto.
    + intros ([|i] & b' & Hl & Hi & Hb & Hf); simpl in Hl.
      * left. injection Hl as <-. rewrite Nat.add_0_r in Hi. auto.
      * right. exists i, b'. rewrite Nat.add_succ_comm. auto.
Qed.

Lemma entries_from_NoDup mem s : forall bodies n, NoDup (entries_from mem s n bodies).
Proof.
  induction bodies as [|b bodies IH]; intros n; simpl; [constructor|].
  apply NoDup_app. split; [apply entries_of_NoDup|]. split; [|apply IH].
  intros e He He'. apply list_elem_of_In in He, He'.
  apply in_entries_of in He as (_ & Hi & _).
  apply in_entries_from in He' as (i & b' & _ & Hi' & _). lia.
Qed.




(** What [Clear], a series of [Add] calls and [Finish] establish. *)
Lemma build_spec mem s0 st bodies :
  grid_ok s0 ->
  let S := build mem s0 st bodies in
  same_grid s0 S /\ step S = st /\ all S = bodies /\
  added S = entries_from mem S 0 bodies /\
  seen S = replicate (length bodies) 0 /\ seenEpoch S = 0 /\
  length (sorted S) = length (added S) /\
  (forall j, 0 <= j < CELLS S * CELLS S + 2 ->
     vec_get 0 (counts S) j = below_bin S j (added S)) /\
  (forall b, 0 <= b < CELLS S * CELLS S -> bin S b = List.filter (in_cell S b) (added S)).
Proof.
  intros Hg S. subst S. unfold build.
  set (s1 := fold_left (fun s b => Add mem b s) bodies (Clear st s0)) in *.
  set (S := Finish s1).
  assert (Hs1 : s1 = _) by (unfold s1; apply adds_eq).
  cbn [CELL_SIZE SHIFT CELL_MASK CELLS WRAP_MASK step all added sorted counts result
       seen seenEpoch Clear app length] in Hs1.
  assert (Hc1 : same_grid (Clear st s0) s1) by apply adds_same_grid.
  assert (Hg1 : same_grid s0 s1) by (rewrite Hs1; repeat split).
  assert (Hgrid1 : grid_ok s1) by (eapply same_grid_ok; eassumption).
  destruct (Finish_fields s1) as (HgS & Hstep & Hall & Hadd & _ & Hseen & Hep).
  assert (Hg0S : same_grid s0 S) by (eapply same_grid_trans; eassumption).
  fold S in HgS, Hstep, Hall, Hadd, Hseen, Hep.
  assert (Hcells : CELLS S = CELLS s1) by (destruct HgS as (_&_&_&H&_); symmetry; exact H).
  assert (Hcells0 : CELLS s1 = CELLS s0) by (destruct Hg1 as (_&_&_&H&_); congruence).
  assert (Hadded1 : added s1 = entries_from mem s1 0 bodies).
  { rewrite Hs1 at 1. cbn [added]. apply entries_from_ext. apply Hg1. }
  destruct (Finish_spec s1 Hgrid1) as (Hls & Hcnt & Hbin).
  - rewrite Hs1. cbn [counts CELLS]. rewrite fold_bump_length, length_replicate.
    rewrite grid_table_size by assumption.
    pose proof (grid_cells_range s0 Hg). nia.
  - intros j Hj. rewrite Hs1 at 1. cbn [counts].
    rewrite fold_bump_get.
    + unfold vec_get. rewrite lookup_replicate_2.
      2:{ rewrite grid_table_size by assumption. rewrite Hcells0 in Hj. lia. }
      simpl. rewrite filter_map_length. rewrite Hadded1.
      unfold in_bin.
      rewrite (entries_from_ext mem s1 (Clear st s0)) by (symmetry; apply Hc1).
      rewrite Z.add_0_l. do 2 f_equal.
      apply List.filter_ext. intros e.
      rewrite (add_slot_ext _ s1) by apply Hc1.
      rewrite add_slot_eq by assumption. unfold in_cell.
      destruct (Z.eqb_spec (entry_cell s1 e + 2) j), (Z.eqb_spec (entry_cell s1 e) (j - 2)); lia.
    + apply add_slot_nonneg.
    + lia.
    + rewrite length_replicate, grid_table_size by assumption. rewrite Hcells0 in Hj. lia.
  - fold S in Hls, Hcnt, Hbin.
    split; [assumption|]. split; [rewrite Hstep, Hs1; reflexivity|].
    split; [rewrite Hall, Hs1; reflexivity|].
    split; [rewrite Hadd, Hadded1; apply entries_from_ext; destruct HgS as (_&H&_); exact H|].
    split; [rewrite Hseen, Hs1; reflexivity|]. split; [assumption|].
    split; [rewrite Hls, Hadd; reflexivity|].
    rewrite Hcells, Hadd. split.
    + intros j Hj. rewrite Hcnt by assumption. apply below_bin_ext. exact HgS.
    + intros b Hb. rewrite Hbin by assumption. apply filter_in_cell_ext. exact HgS.
Qed.




(** * The structure of the queries *)

Lemma fold_left_invariant {S A} (I : S -> Prop) (f : S -> A -> S) (l : list A) :
  (forall st a, In a l -> I st -> I (f st a)) ->
  forall st, I st -> I (fold_left f l st).
Proof.
  induction l as [|a l IH]; intros Hstep st Hst; simpl; [exact Hst|].
  apply IH.
  - intros st' a' Ha'. apply Hstep. right. exact Ha'.
  - apply Hstep; [left; reflexivity|exact Hst].
Qed.

Lemma bin_incl s i e : In e (bin s i) -> In e (sorted s).
Proof.
  unfold bin. intros H. apply list_elem_of_In in H. apply list_elem_of_In.
  apply (subseteq_drop (Z.to_nat (vec_get 0 (counts s) i))).
  eapply subseteq_take. exact H.
Qed.

(** * Reading the trace *)

Lemma candidates_app l1 l2 : candidates (l1 ++ l2) = candidates l1 ++ candidates l2.
Proof. apply flat_map_app. Qed.

Lemma collides_app l1 l2 : collides (l1 ++ l2) = collides l1 ++ collides l2.
Proof. apply flat_map_app. Qed.

Lemma ring_tests_app l1 l2 : ring_tests (l1 ++ l2) = ring_tests l1 ++ ring_tests l2.
Proof. apply flat_map_app. Qed.

Lemma logged_app l1 l2 : logged (l1 ++ l2) = logged l1 ++ logged l2.
Proof. apply flat_map_app. Qed.

(** The trace only grows: a property [P] of the events added since [p0]
    that holds of no event and survives one more event [e] gives an
    invariant of the process. *)
Lemma emit_extends (P : list Event -> Prop) p0 p e :
  (exists evs, events p = events p0 ++ evs /\ P evs) ->
  (forall evs, P evs -> P (evs ++ [e])) ->
  exists evs, events (emit e p) = events p0 ++ evs /\ P evs.
Proof.
  intros (evs & Hev & HP) Hstep. exists (evs ++ [e]). split; [|auto].
  simpl. rewrite Hev, app_assoc. reflexivity.
Qed.


Section QueryFacts.
Variable IsEnemy : Gov_ptr -> Gov_ptr -> bool.
Variable Length : Point -> float.
Variable Unit : Point -> Point.

#[local] Abbreviation LineQ := (Line IsEnemy Length Unit).
#[local] Abbreviation walkQ := (walk IsEnemy).
#[local] Abbreviation RingQ := (Ring Length).

(** One level of [Line], with its three cases. *)
Lemma Line_unfold fuel mem s p from to ch pGov target :
  LineQ (S fuel) mem s p from to ch pGov target
  = let x := double_to_int (Point.X from) in
    let y := double_to_int (Point.Y from) in
    let endX := double_to_int (Point.X to) in
    let endY := double_to_int (Point.Y to) in
    let gx := cell_of s (Point.X from) in
    let gy := cell_of s (Point.Y from) in
    if single_cell s from to then
      let '(c, p') :=
        fold_left (visit_single IsEnemy mem s from to pGov target gx gy)
                  (bin s (cell_index s gx gy)) (closer_init ch, p) in
      (Some (closest_body c, write_back c ch), s, p')
    else if over_length Length from to then
      LineQ fuel mem s (warn p) from (clamped Unit from to) ch pGov target
    else
      let stepX := if x <=? endX then 1 else -1 in
      let stepY := if y <=? endY then 1 else -1 in
      let mx := u64 (Z.abs (endX - x)) in
      let my := u64 (Z.abs (endY - y)) in
      let scale := u64 (Z.max mx 1 * Z.max my 1) in
      let fullScale := u64 (CELL_SIZE s * scale) in
      let rx := u64 (scale * Z.land x (CELL_MASK s)) in
      let ry := u64 (scale * Z.land y (CELL_MASK s)) in
      let rx := if 0 <? stepX then u64 (fullScale - rx) else rx in
      let ry := if 0 <? stepY then u64 (fullScale - ry) else ry in
      let epoch := u32 (seenEpoch s + 1) in
      let '(finished, sn, c, p') :=
        walkQ fuel mem s epoch from to pGov target
              (cell_of s (Point.X to)) (cell_of s (Point.Y to))
              stepX stepY mx my fullScale gx gy rx ry (seen s) (closer_init ch) p in
      if finished
      then (Some (closest_body c, write_back c ch), set_seen s sn epoch, p')
      else (None, set_seen s sn epoch, p').
Proof. reflexivity. Qed.

(** A property of the scratch state kept by every visit of the stepped
    traversal is kept by the loop. *)
Lemma walk_invariant (I : list Z * Closest * Process -> Prop)
    mem s epoch from to pGov target endGX endGY stepX stepY mx my fullScale :
  (forall gx gy st it, In it (bin s (cell_index s gx gy)) -> I st ->
     I (visit_stepped IsEnemy mem s epoch from to pGov target gx gy st it)) ->
  forall fuel gx gy rx ry sn c p,
    I (sn, c, p) ->
    let '(fin, sn', c', p') :=
      walkQ fuel mem s epoch from to pGov target endGX endGY stepX stepY mx my fullScale
            gx gy rx ry sn c p in
    I (sn', c', p').
Proof.
  intros Hvisit. induction fuel as [|fuel IH]; intros gx gy rx ry sn c p HI.
  - exact HI.
  - cbn [walk].
    assert (Hscan : I (fold_left (visit_stepped IsEnemy mem s epoch from to pGov target gx gy)
                         (bin s (cell_index s gx gy)) (sn, c, p))).
    { apply fold_left_invariant; [|exact HI].
      intros st it Hit. apply Hvisit. exact Hit. }
    destruct (fold_left _ _ _) as [[sn1 c1] p1].
    destruct (negb (Nat.eqb (closest_body c1) nullptr) || _); [exact Hscan|].
    destruct (_ =? 0).
    + destruct (_ && _); [exact Hscan|]. destruct (_ && _); [exact Hscan|].
      apply IH. exact Hscan.
    + destruct (_ <? 0); apply IH; exact Hscan.
Qed.

(** A property of the scratch state kept by the warning, by the visits
    of the single-cell scan and by those of the stepped traversal holds
    when [Line] is left; the state of the index changes in [seen] and
    [seenEpoch] at most. *)
Lemma Line_invariant (I : list Z * Closest * Process -> Prop) mem s ch pGov target :
  (forall sn c p, I (sn, c, p) -> I (sn, c, warn p)) ->
  (forall from to gx gy c p it, In it (bin s (cell_index s gx gy)) -> I (seen s, c, p) ->
     let '(c', p') := visit_single IsEnemy mem s from to pGov target gx gy (c, p) it in
     I (seen s, c', p')) ->
  (forall from to gx gy st it, In it (bin s (cell_index s gx gy)) -> I st ->
     I (visit_stepped IsEnemy mem s (u32 (seenEpoch s + 1)) from to pGov target gx gy st it)) ->
  forall fuel p from to,
    I (seen s, closer_init ch, p) ->
    let '(r, s', p') := LineQ fuel mem s p from to ch pGov target in
    exists c',
      I (seen s', c', p') /\
      (r = None \/ r = Some (closest_body c', write_back c' ch)) /\
      (s' = s \/ s' = set_seen s (seen s') (u32 (seenEpoch s + 1))).
Proof.
  intros Hwarn Hsingle Hstepped.
  induction fuel as [|fuel IH]; intros p from to HI.
  - exists (closer_init ch). simpl. auto.
  - rewrite Line_unfold. cbv zeta.
    destruct (single_cell s from to).
    + set (gx := cell_of s (Point.X from)). set (gy := cell_of s (Point.Y from)).
      pose proof (fold_left_invariant
        (fun st : Closest * Process => I (seen s, fst st, snd st))
        (visit_single IsEnemy mem s from to pGov target gx gy)
        (bin s (cell_index s gx gy))) as Hfold.
      specialize (Hfold ltac:(intros [c p0] it Hit Hst; simpl in Hst;
        pose proof (Hsingle from to gx gy c p0 it Hit Hst) as Hs;
        destruct (visit_single _ _ _ _ _ _ _ _ _ _ _) as [c' p']; exact Hs)).
      specialize (Hfold (closer_init ch, p) HI).
      destruct (fold_left _ _ _) as [c p'].
      exists c. simpl in Hfold. auto.
    + destruct (over_length Length from to).
      * apply IH. apply Hwarn. exact HI.
      * match goal with
        | |- context [walk _ ?fl ?m ?s0 ?ep ?fr ?t0 ?pg ?tg ?ex ?ey ?sx ?sy ?mx ?my ?fs
                           ?gx ?gy ?rx ?ry ?sn ?c ?p0] =>
            pose proof (walk_invariant I m s0 ep fr t0 pg tg ex ey sx sy mx my fs
                          (Hstepped fr t0) fl gx gy rx ry sn c p0 HI) as Hw
        end.
        destruct (walk _ _ _ _ _ _ _ _ _ _ _ _ _ _ _ _ _ _ _ _ _ _ _) as [[[fin sn] c] p'].
        destruct fin; exists c; simpl; auto.
Qed.

Lemma eligible_not_skipped mem pGov target b :
  eligible IsEnemy mem pGov target b = negb (government_skips IsEnemy mem pGov target b).
Proof.
  unfold eligible, government_skips.
  destruct (Nat.eqb b target), (Nat.eqb (GetGovernment (mem b)) nullptr),
    (Nat.eqb pGov nullptr), (IsEnemy (GetGovernment (mem b)) pGov); reflexivity.
Qed.

(** The calls of [Mask::Collide] are the candidates the government check
    lets through. *)
Lemma Line_collides_of_candidates fuel mem s p from to closestHit pGov target :
  let '(r, s', p') := LineQ fuel mem s p from to closestHit pGov target in
  exists evs,
    events p' = events p ++ evs /\
    map fst (collides evs)
    = List.filter (fun c => eligible IsEnemy mem pGov target (snd c)) (candidates evs).
Proof.
  pose (P := fun evs : list Event =>
    map fst (collides evs)
    = List.filter (fun c => eligible IsEnemy mem pGov target (snd c)) (candidates evs)).
  pose (I := fun st : list Z * Closest * Process =>
    exists evs, events (snd st) = events p ++ evs /\ P evs).
  assert (Hcand : forall evs i b, P evs ->
            government_skips IsEnemy mem pGov target b = true ->
            P (evs ++ [Candidate i b])).
  { intros evs i b HP Hskip. unfold P. rewrite collides_app, candidates_app, List.filter_app.
    simpl. rewrite eligible_not_skipped, Hskip. simpl. rewrite !app_nil_r. exact HP. }
  assert (Hcoll : forall evs i b r, P evs ->
            government_skips IsEnemy mem pGov target b = false ->
            P ((evs ++ [Candidate i b]) ++ [MaskCollide i b r])).
  { intros evs i b r HP Hskip. unfold P.
    rewrite !collides_app, !candidates_app, !List.filter_app, map_app.
    simpl. rewrite eligible_not_skipped, Hskip. simpl. rewrite !app_nil_r.
    unfold P in HP. rewrite HP. reflexivity. }
  assert (Hvisit : forall (p1 : Process) (it : Entry) r,
            (exists evs, events p1 = events p ++ evs /\ P evs) ->
            if government_skips IsEnemy mem pGov target (Entry.body it)
            then exists evs, events (emit (Candidate (Entry.seenIndex it) (Entry.body it)) p1)
                             = events p ++ evs /\ P evs
            else exists evs,
                   events (emit (MaskCollide (Entry.seenIndex it) (Entry.body it) r)
                             (emit (Candidate (Entry.seenIndex it) (Entry.body it)) p1))
                   = events p ++ evs /\ P evs).
  { intros p1 it r (evs & Hev & HP).
    destruct (government_skips IsEnemy mem pGov target (Entry.body it)) eqn:Hskip.
    - exists (evs ++ [Candidate (Entry.seenIndex it) (Entry.body it)]). split.
      + simpl. rewrite Hev, app_assoc. reflexivity.
      + apply Hcand; assumption.
    - exists ((evs ++ [Candidate (Entry.seenIndex it) (Entry.body it)])
                ++ [MaskCollide (Entry.seenIndex it) (Entry.body it) r]). split.
      + simpl. rewrite Hev, !app_assoc. reflexivity.
      + apply Hcoll; assumption. }
  pose proof (Line_invariant I mem s closestHit pGov target) as HL.
  specialize (HL ltac:(
    intros sn c p1 (evs & Hev & HP); cbn [snd] in Hev; unfold I, warn; cbn [snd];
    destruct (warned p1); [exists evs; auto|];
    exists (evs ++ [LogError velocity_warning]); simpl; rewrite Hev, app_assoc;
    split; [reflexivity|];
    unfold P; rewrite collides_app, candidates_app; simpl; rewrite !app_nil_r; exact HP)).
  specialize (HL ltac:(
    intros from' to' gx gy c p1 it _ HI; unfold visit_single;
    destruct (negb (Entry.x it =? gx) || negb (Entry.y it =? gy)); [exact HI|];
    pose proof (Hvisit p1 it (collide_range mem s from' to' (Entry.body it)) HI) as Hv;
    destruct (government_skips IsEnemy mem pGov target (Entry.body it)); exact Hv)).
  specialize (HL ltac:(
    intros from' to' gx gy [[sn c] p1] it _ HI; unfold visit_stepped;
    destruct (negb (Entry.x it =? gx) || negb (Entry.y it =? gy)); [exact HI|];
    destruct (vec_get 0 sn (Entry.seenIndex it) =? _); [exact HI|];
    pose proof (Hvisit p1 it (collide_range mem s from' to' (Entry.body it)) HI) as Hv;
    destruct (government_skips IsEnemy mem pGov target (Entry.body it)); exact Hv)).
  specialize (HL fuel p from to ltac:(exists []; split; [symmetry; apply app_nil_r|reflexivity])).
  destruct (LineQ fuel mem s p from to closestHit pGov target) as [[r s'] p'].
  destruct HL as (c' & (evs & Hev & HP) & _). exists evs. auto.
Qed.

(** C6: in every [Line] query the bodies handed to [Mask::Collide] are,
    in order, exactly those candidates (entries reaching the government
    check) that are the designated target, or whose government handle is
    null, or that face a projectile with a null government handle, or
    whose government is an enemy of the projectile's; a non-target
    candidate with a non-null government that is not an enemy of the
    non-null government of the projectile is passed over. *)
Theorem Line_tests_eligible_candidates (fuel : nat) (mem : Heap) (s : CollisionSet)
    (p : Process) (from to : Point) (closestHit : option float)
    (pGov : Gov_ptr) (target : Body_ptr) :
  let '(r, s', p') := LineQ fuel mem s p from to closestHit pGov target in
  exists evs,
    events p' = events p ++ evs /\
    map fst (collides evs)
    = List.filter (fun c => eligible IsEnemy mem pGov target (snd c)) (candidates evs) /\
    (forall i b, In (i, b) (candidates evs) ->
       (exists r, In (i, b, r) (collides evs)) <->
       (b = target \/ GetGovernment (mem b) = nullptr \/ pGov = nullptr
        \/ IsEnemy (GetGovernment (mem b)) pGov = true)).
Proof.
  pose proof (Line_collides_of_candidates fuel mem s p from to closestHit pGov target) as HL.
  destruct (LineQ fuel mem s p from to closestHit pGov target) as [[r s'] p'].
  destruct HL as (evs & Hev & HP). exists evs.
  split; [exact Hev|]. split; [exact HP|].
  intros i b Hin. split.
  - intros (r0 & Hr0).
    assert (Hm : In (i, b) (map fst (collides evs))).
    { apply in_map_iff. exists (i, b, r0). auto. }
    rewrite HP in Hm. apply List.filter_In in Hm as [_ Hel]. simpl in Hel.
    unfold eligible in Hel. rewrite !orb_true_iff, !Nat.eqb_eq in Hel. tauto.
  - intros Hel.
    assert (Hm : In (i, b) (map fst (collides evs))).
    { rewrite HP. apply List.filter_In. split; [exact Hin|]. simpl.
      unfold eligible. rewrite !orb_true_iff, !Nat.eqb_eq. tauto. }
    apply in_map_iff in Hm as ([[i' b'] r0] & Heq & Hr0). simpl in Heq.
    injection Heq as -> ->. exists r0. exact Hr0.
Qed.

(** ** The epoch counter *)

Lemma Ring_fields mem s p center inner outer :
  let '(res, s', p') := RingQ mem s p center inner outer in
  same_grid s s' /\ step s' = step s /\ all s' = all s /\ added s' = added s /\
  sorted s' = sorted s /\ counts s' = counts s /\ result s' = res /\
  seenEpoch s' = u32 (seenEpoch s + 1).
Proof.
  unfold Ring. destruct (fold_left _ _ _) as [[sn res] p']. repeat split.
Qed.

Lemma set_seen_fields s sn e :
  same_grid s (set_seen s sn e) /\ step (set_seen s sn e) = step s /\
  all (set_seen s sn e) = all s /\ added (set_seen s sn e) = added s /\
  sorted (set_seen s sn e) = sorted s /\ counts (set_seen s sn e) = counts s /\
  result (set_seen s sn e) = result s.
Proof. repeat split. Qed.

Lemma Line_frame fuel mem s p from to ch pGov target :
  let '(r, s', p') := LineQ fuel mem s p from to ch pGov target in
  s' = s \/ s' = set_seen s (seen s') (u32 (seenEpoch s + 1)).
Proof.
  pose proof (Line_invariant (fun _ => True) mem s ch pGov target) as HL.
  specialize (HL ltac:(auto)
                 ltac:(intros; destruct (visit_single _ _ _ _ _ _ _ _ _ _ _); auto)
                 ltac:(auto) fuel p from to I).
  destruct (LineQ fuel mem s p from to ch pGov target) as [[r s'] p'].
  destruct HL as (_ & _ & _ & H). exact H.
Qed.

(** C7 (as amended): every call of [Ring] increments [seenEpoch] exactly
    once.  A call of [Line] whose start and end cells coincide leaves
    [seenEpoch], and the whole index, as they were; a call whose cells
    differ and whose segment is not longer than [MAX_VELOCITY] increments
    [seenEpoch] exactly once; a call whose cells differ and whose segment
    is longer is the call on the segment cut to [USED_MAX_VELOCITY], and
    increments [seenEpoch] as that call does: not at all when the cut
    segment lies in one cell, once when its cells differ and it is within
    the limit.  In all cases [Line] increments [seenEpoch] at most once.
    The increments are modulo [2^32]. *)
Theorem seenEpoch_incremented_once_except_single_cell :
  (forall mem s p center inner outer,
     seenEpoch (snd (fst (RingQ mem s p center inner outer))) = u32 (seenEpoch s + 1)) /\
  (forall fuel mem s p from to ch pGov target,
     let '(r, s', p') := LineQ (S fuel) mem s p from to ch pGov target in
     (single_cell s from to = true -> s' = s /\ r <> None) /\
     (single_cell s from to = false -> over_length Length from to = false ->
      seenEpoch s' = u32 (seenEpoch s + 1)) /\
     (single_cell s from to = false -> over_length Length from to = true ->
      (r, s', p') = LineQ fuel mem s (warn p) from (clamped Unit from to) ch pGov target)) /\
  (forall fuel mem s p from to ch pGov target,
     let '(r, s', p') := LineQ (S (S fuel)) mem s p from to ch pGov target in
     single_cell s from to = false -> over_length Length from to = true ->
     (single_cell s from (clamped Unit from to) = true -> s' = s /\ r <> None) /\
     (single_cell s from (clamped Unit from to) = false ->
      over_length Length from (clamped Unit from to) = false ->
      seenEpoch s' = u32 (seenEpoch s + 1))) /\
  (forall fuel mem s p from to ch pGov target,
     let '(r, s', p') := LineQ fuel mem s p from to ch pGov target in
     seenEpoch s' = seenEpoch s \/ seenEpoch s' = u32 (seenEpoch s + 1)).
Proof.
  assert (Hone : forall fuel mem s p from to ch pGov target,
     let '(r, s', p') := LineQ (S fuel) mem s p from to ch pGov target in
     (single_cell s from to = true -> s' = s /\ r <> None) /\
     (single_cell s from to = false -> over_length Length from to = false ->
      seenEpoch s' = u32 (seenEpoch s + 1)) /\
     (single_cell s from to = false -> over_length Length from to = true ->
      (r, s', p') = LineQ fuel mem s (warn p) from (clamped Unit from to) ch pGov target)).
  { intros fuel mem s p from to ch pGov target.
    rewrite Line_unfold. cbv zeta.
    destruct (single_cell s from to).
    + destruct (fold_left _ _ _) as [c p'].
      split; [intros _; split; [reflexivity|discriminate]|].
      split; intros; discriminate.
    + destruct (over_length Length from to).
      * destruct (LineQ fuel mem s (warn p) from (clamped Unit from to) ch pGov target)
          as [[r s'] p'].
        split; [intros; discriminate|]. split; [intros; discriminate|]. reflexivity.
      * destruct (walk _ _ _ _ _ _ _ _ _ _ _ _ _ _ _ _ _ _ _ _ _ _ _) as [[[fin sn] c] p'].
        destruct fin; (split; [intros; discriminate|]; split; [reflexivity|intros; discriminate]). }
  split; [|split; [exact Hone|split]].
  - intros mem s p center inner outer.
    pose proof (Ring_fields mem s p center inner outer) as H.
    destruct (RingQ mem s p center inner outer) as [[res s'] p']. simpl. apply H.
  - intros fuel mem s p from to ch pGov target.
    pose proof (Hone (S fuel) mem s p from to ch pGov target) as Houter.
    pose proof (Hone fuel mem s (warn p) from (clamped Unit from to) ch pGov target)
      as Hinner.
    destruct (LineQ (S (S fuel)) mem s p from to ch pGov target) as [[r s'] p'].
    intros Hsingle Hover.
    destruct Houter as (_ & _ & Hcut). specialize (Hcut Hsingle Hover).
    rewrite <- Hcut in Hinner.
    destruct Hinner as (H1 & H2 & _). split; assumption.
  - intros fuel mem s p from to ch pGov target.
    pose proof (Line_frame fuel mem s p from to ch pGov target) as H.
    destruct (LineQ fuel mem s p from to ch pGov target) as [[r s'] p'].
    destruct H as [->| ->]; [left|right]; reflexivity.
Qed.

(** ** The warning latch *)

Lemma single_cell_ext s s' from to :
  same_grid s s' -> single_cell s from to = single_cell s' from to.
Proof. intros (_ & H & _). unfold single_cell, cell_of. rewrite H. reflexivity. Qed.

Lemma visit_single_quiet mem s from to pGov target gx gy c p it :
  let '(c', p') := visit_single IsEnemy mem s from to pGov target gx gy (c, p) it in
  warned p' = warned p /\ logged (events p') = logged (events p).
Proof.
  unfold visit_single.
  destruct (negb (Entry.x it =? gx) || negb (Entry.y it =? gy)); [auto|].
  destruct (government_skips IsEnemy mem pGov target (Entry.body it)); simpl;
    rewrite ?logged_app; simpl; rewrite ?app_nil_r; auto.
Qed.

Lemma visit_stepped_quiet mem s epoch from to pGov target gx gy sn c p it :
  let '(sn', c', p') :=
    visit_stepped IsEnemy mem s epoch from to pGov target gx gy (sn, c, p) it in
  warned p' = warned p /\ logged (events p') = logged (events p).
Proof.
  unfold visit_stepped.
  destruct (negb (Entry.x it =? gx) || negb (Entry.y it =? gy)); [auto|].
  destruct (vec_get 0 sn (Entry.seenIndex it) =? epoch); [auto|].
  destruct (government_skips IsEnemy mem pGov target (Entry.body it)); simpl;
    rewrite ?logged_app; simpl; rewrite ?app_nil_r; auto.
Qed.

(** What one call of [Line] does to the latch and to the log. *)
Lemma Line_latch mem s ch pGov target : forall fuel p from to,
  let cond := negb (Nat.eqb fuel 0) && negb (single_cell s from to)
              && over_length Length from to in
  let '(r, s', p') := LineQ fuel mem s p from to ch pGov target in
  warned p' = warned p || cond /\
  logged (events p')
  = logged (events p) ++ (if warned p then [] else if cond then [velocity_warning] else []).
Proof.
  induction fuel as [|fuel IH]; intros p from to cond.
  - subst cond. cbn. rewrite orb_false_r.
    split; [reflexivity|]. destruct (warned p); rewrite app_nil_r; reflexivity.
  - rewrite Line_unfold. cbv zeta. subst cond. cbn [Nat.eqb negb andb].
    destruct (single_cell s from to); cbn [negb andb].
    + pose proof (fold_left_invariant
        (fun st : Closest * Process =>
           warned (snd st) = warned p /\ logged (events (snd st)) = logged (events p))
        (visit_single IsEnemy mem s from to pGov target
           (cell_of s (Point.X from)) (cell_of s (Point.Y from)))
        (bin s (cell_index s (cell_of s (Point.X from)) (cell_of s (Point.Y from))))) as Hf.
      specialize (Hf ltac:(intros [c p0] it _ [Hw Hl];
        pose proof (visit_single_quiet mem s from to pGov target
                      (cell_of s (Point.X from)) (cell_of s (Point.Y from)) c p0 it) as Hq;
        destruct (visit_single _ _ _ _ _ _ _ _ _ _ _) as [c' p']; simpl in *;
        destruct Hq as [Hq1 Hq2]; split; congruence)).
      specialize (Hf (closer_init ch, p) ltac:(split; reflexivity)).
      destruct (fold_left _ _ _) as [c p']. simpl in Hf. destruct Hf as [Hw Hl].
      rewrite Hw, Hl, orb_false_r. split; [reflexivity|].
      destruct (warned p); rewrite app_nil_r; reflexivity.
    + destruct (over_length Length from to).
      * specialize (IH (warn p) from (clamped Unit from to)). cbv zeta in IH.
        destruct (LineQ fuel mem s (warn p) from (clamped Unit from to) ch pGov target)
          as [[r s'] p'].
        destruct IH as [Hw Hl]. unfold warn in Hw, Hl.
        destruct (warned p) eqn:Hwp.
        -- rewrite Hwp in Hw, Hl. simpl in *. rewrite app_nil_r in *. auto.
        -- simpl in Hw, Hl. rewrite logged_app in Hl. simpl in Hl.
           rewrite app_nil_r in Hl. auto.
      * match goal with
        | |- context [walk _ ?fl ?m ?s0 ?ep ?fr ?t0 ?pg ?tg ?ex ?ey ?sx ?sy ?mx ?my ?fs
                           ?gx ?gy ?rx ?ry ?sn ?c ?p0] =>
            pose proof (walk_invariant
              (fun st : list Z * Closest * Process =>
                 warned (snd st) = warned p /\ logged (events (snd st)) = logged (events p))
              m s0 ep fr t0 pg tg ex ey sx sy mx my fs) as Hw
        end.
        specialize (Hw ltac:(intros gx gy [[sn c] p0] it _ [Hw1 Hl1];
          pose proof (visit_stepped_quiet mem s (u32 (seenEpoch s + 1)) from to pGov target
                        gx gy sn c p0 it) as Hq;
          destruct (visit_stepped _ _ _ _ _ _ _ _ _ _ _ _) as [[sn' c'] p']; simpl in *;
          destruct Hq as [Hq1 Hq2]; split; congruence)).
        match goal with
        | |- context [walk _ ?fl ?m ?s0 ?ep ?fr ?t0 ?pg ?tg ?ex ?ey ?sx ?sy ?mx ?my ?fs
                           ?gx ?gy ?rx ?ry ?sn ?c ?p0] =>
            specialize (Hw fl gx gy rx ry sn c p0 ltac:(split; reflexivity))
        end.
        destruct (walk _ _ _ _ _ _ _ _ _ _ _ _ _ _ _ _ _ _ _ _ _ _ _) as [[[fin sn] c] p'].
        simpl in Hw. destruct Hw as [Hw Hl].
        rewrite orb_false_r. destruct fin; rewrite Hw, Hl;
          (split; [reflexivity|]); destruct (warned p); rewrite app_nil_r; reflexivity.
Qed.





(** ** The markers *)

(** A property of the scratch state kept by every visit of [Ring] holds
    when [Ring] returns. *)
Lemma Ring_invariant (I : list Z * list Body_ptr * Process -> Prop)
    mem s p center inner outer :
  (forall x y st it, In it (bin s (cell_index s x y)) -> I st ->
     I (visit_ring Length mem s (u32 (seenEpoch s + 1)) center inner outer y x st it)) ->
  I (seen s, [], p) ->
  let '(res, s', p') := RingQ mem s p center inner outer in
  I (seen s', res, p').
Proof.
  intros Hvisit H0. unfold Ring.
  match goal with
  | |- context [fold_left ?f ?l ?a] =>
      assert (HI : I (fold_left f l a))
  end.
  { apply fold_left_invariant; [|exact H0]. intros st y _ Hst.
    apply fold_left_invariant; [|exact Hst]. intros st' x _ Hst'.
    unfold ring_cell. apply fold_left_invariant; [|exact Hst'].
    intros st'' it Hit. apply Hvisit. exact Hit. }
  destruct (fold_left _ _ _) as [[sn res] p']. exact HI.
Qed.

Lemma visit_stepped_bound E mem s epoch from to pGov target gx gy sn c p it :
  0 <= epoch <= E -> Forall (fun m => 0 <= m <= E) sn ->
  Forall (fun m => 0 <= m <= E)
    (fst (fst (visit_stepped IsEnemy mem s epoch from to pGov target gx gy (sn, c, p) it))).
Proof.
  intros He Hsn. unfold visit_stepped.
  destruct (negb (Entry.x it =? gx) || negb (Entry.y it =? gy)); [exact Hsn|].
  destruct (vec_get 0 sn (Entry.seenIndex it) =? epoch); [exact Hsn|].
  destruct (government_skips IsEnemy mem pGov target (Entry.body it)); simpl;
    unfold vec_set; apply Forall_insert; assumption.
Qed.

Lemma visit_ring_bound E mem s epoch center inner outer x y sn res p it :
  0 <= epoch <= E -> Forall (fun m => 0 <= m <= E) sn ->
  Forall (fun m => 0 <= m <= E)
    (fst (fst (visit_ring Length mem s epoch center inner outer y x (sn, res, p) it))).
Proof.
  intros He Hsn. unfold visit_ring.
  destruct (negb (Entry.x it =? x) || negb (Entry.y it =? y)); [exact Hsn|].
  destruct (vec_get 0 sn (Entry.seenIndex it) =? epoch); [exact Hsn|].
  destruct (_ || _); simpl; unfold vec_set; apply Forall_insert; assumption.
Qed.






Lemma Finish_markers_ok s : markers_ok (Finish s).
Proof.
  destruct (Finish_fields s) as (_ & _ & _ & _ & _ & Hseen & Hep).
  unfold markers_ok. rewrite Hseen, Hep. split; [lia|].
  apply Forall_forall. intros m Hm. apply elem_of_replicate in Hm as [-> _]. lia.
Qed.

Lemma markers_fresh s :
  markers_ok s -> seenEpoch s < 2 ^ 32 - 1 ->
  Forall (fun m => m <> u32 (seenEpoch s + 1)) (seen s).
Proof.
  intros [He Hm] Hlt. rewrite u32_small by lia.
  eapply Forall_impl; [exact Hm|]. simpl. intros m Hb. lia.
Qed.

Lemma Ring_markers_ok mem s p center inner outer :
  markers_ok s -> seenEpoch s < 2 ^ 32 - 1 ->
  markers_ok (snd (fst (RingQ mem s p center inner outer))).
Proof.
  intros [He Hm] Hlt.
  pose proof (Ring_invariant
    (fun st => Forall (fun m => 0 <= m <= seenEpoch s + 1) (fst (fst st)))
    mem s p center inner outer) as HR.
  specialize (HR ltac:(
    intros x y [[sn res] p1] it _ HI; cbn [fst] in HI;
    apply visit_ring_bound; [rewrite u32_small by lia; lia|exact HI])).
  specialize (HR ltac:(cbn [fst]; eapply Forall_impl; [exact Hm|]; simpl; intros; lia)).
  pose proof (Ring_fields mem s p center inner outer) as Hf.
  destruct (RingQ mem s p center inner outer) as [[res s'] p']. cbn [fst snd] in *.
  destruct Hf as (_&_&_&_&_&_&_&Hep). unfold markers_ok.
  rewrite Hep, u32_small by lia. split; [lia|exact HR].
Qed.

Lemma Line_markers_ok fuel mem s p from to ch pGov target :
  markers_ok s -> seenEpoch s < 2 ^ 32 - 1 ->
  markers_ok (snd (fst (LineQ fuel mem s p from to ch pGov target))).
Proof.
  intros [He Hm] Hlt.
  pose proof (Line_invariant
    (fun st => Forall (fun m => 0 <= m <= seenEpoch s + 1) (fst (fst st)))
    mem s ch pGov target) as HL.
  specialize (HL ltac:(auto)).
  specialize (HL ltac:(
    intros from' to' gx gy c p1 it _ HI;
    destruct (visit_single _ _ _ _ _ _ _ _ _ _ _); exact HI)).
  specialize (HL ltac:(
    intros from' to' gx gy [[sn c] p1] it _ HI; cbn [fst] in HI;
    apply visit_stepped_bound; [rewrite u32_small by lia; lia|exact HI])).
  specialize (HL fuel p from to
    ltac:(cbn [fst]; eapply Forall_impl; [exact Hm|]; simpl; intros; lia)).
  destruct (LineQ fuel mem s p from to ch pGov target) as [[r s'] p']. cbn [fst snd] in *.
  destruct HL as (c' & HI & _ & [->|Hs']); [split; assumption|].
  unfold markers_ok. rewrite Hs'. cbn [seen seenEpoch set_seen].
  rewrite u32_small by lia. split; [lia|exact HI].
Qed.


End QueryFacts.

(** * The invariant of a finalized index *)

Lemma bin_ext s s' i : sorted s' = sorted s -> counts s' = counts s -> bin s' i = bin s i.
Proof. intros Hs Hc. unfold bin. rewrite Hs, Hc. reflexivity. Qed.

Lemma index_inv_frame mem s s' :
  same_grid s s' -> all s' = all s -> added s' = added s -> sorted s' = sorted s ->
  counts s' = counts s -> length (seen s') = length (seen s) ->
  index_inv mem s -> index_inv mem s'.
Proof.
  intros Hg Hall Hadd Hsrt Hcnt Hlen (G & Hnn & Hent & Hbin & Hseen).
  unfold index_inv. rewrite Hall, Hadd, Hlen.
  split; [eapply same_grid_ok; eassumption|]. split; [assumption|].
  split; [rewrite Hent; apply entries_from_ext; apply Hg|].
  split; [|assumption].
  intros b Hb. rewrite (bin_ext s s') by assumption.
  assert (Hc : CELLS s = CELLS s') by apply Hg.
  rewrite <- Hc in Hb. rewrite Hbin by assumption.
  apply filter_in_cell_ext. exact Hg.
Qed.

Lemma index_inv_set_seen mem s sn e :
  length sn = length (seen s) -> index_inv mem s -> index_inv mem (set_seen s sn e).
Proof.
  intros Hlen. apply index_inv_frame; try reflexivity; [repeat split|exact Hlen].
Qed.

Lemma index_inv_build mem s0 st bodies :
  grid_ok s0 -> Forall (fun b => b <> nullptr) bodies ->
  index_inv mem (build mem s0 st bodies).
Proof.
  intros Hg Hnn.
  destruct (build_spec mem s0 st bodies Hg) as (HgS&_&Hall&Hadd&Hseen&_&_&_&Hbin).
  unfold index_inv. rewrite Hall, Hseen, length_replicate.
  split; [eapply same_grid_ok; eassumption|]. auto.
Qed.

(** An entry found in the bin of a cell stems from one [Add]: its dense
    index is the position of its body in [all], and its cell lies in the
    footprint of the body. *)
Lemma index_inv_bin_entry mem s gx gy it :
  index_inv mem s -> In it (bin s (cell_index s gx gy)) ->
  exists i, all s !! i = Some (Entry.body it) /\ Entry.seenIndex it = Z.of_nat i /\
            In (Entry.x it, Entry.y it) (footprint mem s (Entry.body it)) /\
            entry_cell s it = cell_index s gx gy /\ In it (added s).
Proof.
  intros (G & Hnn & Hent & Hbin & Hseen) Hit.
  rewrite Hbin in Hit by (apply cell_index_range; exact G).
  apply List.filter_In in Hit as [Hin Hcell].
  unfold in_cell in Hcell. apply Z.eqb_eq in Hcell.
  pose proof Hin as Hin'. rewrite Hent in Hin'.
  apply in_entries_from in Hin' as (i & b & Hi & Hidx & Hb & Hf).
  exists i. subst b. simpl in Hidx. auto.
Qed.

Section Finalized.
Variable IsEnemy : Gov_ptr -> Gov_ptr -> bool.
Variable Length : Point -> float.
Variable Unit : Point -> Point.

#[local] Abbreviation LineQ := (Line IsEnemy Length Unit).
#[local] Abbreviation RingQ := (Ring Length).

Lemma visit_stepped_length mem s epoch from to pGov target gx gy sn c p it :
  length (fst (fst (visit_stepped IsEnemy mem s epoch from to pGov target gx gy (sn, c, p) it)))
  = length sn.
Proof.
  unfold visit_stepped.
  destruct (negb (Entry.x it =? gx) || negb (Entry.y it =? gy)); [reflexivity|].
  destruct (vec_get 0 sn (Entry.seenIndex it) =? epoch); [reflexivity|].
  destruct (government_skips IsEnemy mem pGov target (Entry.body it)); simpl;
    apply vec_set_length.
Qed.

Lemma visit_ring_length mem s epoch center inner outer x y sn res p it :
  length (fst (fst (visit_ring Length mem s epoch center inner outer y x (sn, res, p) it)))
  = length sn.
Proof.
  unfold visit_ring.
  destruct (negb (Entry.x it =? x) || negb (Entry.y it =? y)); [reflexivity|].
  destruct (vec_get 0 sn (Entry.seenIndex it) =? epoch); [reflexivity|].
  destruct (_ || _); simpl; apply vec_set_length.
Qed.

Lemma Line_index_inv fuel mem s p from to ch pGov target :
  index_inv mem s ->
  index_inv mem (snd (fst (LineQ fuel mem s p from to ch pGov target))).
Proof.
  intros Hinv.
  pose proof (Line_invariant IsEnemy Length Unit
    (fun st => length (fst (fst st)) = length (seen s)) mem s ch pGov target) as HL.
  specialize (HL ltac:(auto)
    ltac:(intros; destruct (visit_single _ _ _ _ _ _ _ _ _ _ _); auto)
    ltac:(intros from' to' gx gy [[sn c] p1] it _ HI; cbn [fst] in HI;
          rewrite visit_stepped_length; exact HI)
    fuel p from to eq_refl).
  destruct (LineQ fuel mem s p from to ch pGov target) as [[r s'] p']. cbn [fst snd] in *.
  destruct HL as (c' & Hlen & _ & [->|Hs']); [exact Hinv|].
  rewrite Hs'. apply index_inv_set_seen; assumption.
Qed.

Lemma Ring_index_inv mem s p center inner outer :
  index_inv mem s ->
  index_inv mem (snd (fst (RingQ mem s p center inner outer))).
Proof.
  intros Hinv.
  pose proof (Ring_invariant Length
    (fun st => length (fst (fst st)) = length (seen s)) mem s p center inner outer) as HR.
  specialize (HR
    ltac:(intros x y [[sn res] p1] it _ HI; cbn [fst] in HI;
          rewrite visit_ring_length; exact HI) eq_refl).
  pose proof (Ring_fields Length mem s p center inner outer) as Hf.
  destruct (RingQ mem s p center inner outer) as [[res s'] p']. cbn [fst snd] in *.
  destruct Hf as (Hg&_&Hall&Hadd&Hsrt&Hcnt&_).
  eapply index_inv_frame; eassumption.
Qed.

Lemma queried_index_inv mem base n s :
  queried IsEnemy Length Unit mem base n s -> index_inv mem base -> index_inv mem s.
Proof.
  induction 1 as [|n s fuel p from to ch pGov target _ IH
                 |n s p center inner outer _ IH]; intros Hbase.
  - exact Hbase.
  - apply Line_index_inv. apply IH. exact Hbase.
  - apply Ring_index_inv. apply IH. exact Hbase.
Qed.

Lemma finalized_index_inv mem s :
  finalized IsEnemy Length Unit mem s -> index_inv mem s.
Proof.
  intros (s0 & st & bodies & n & Hg & Hnn & Hq).
  eapply queried_index_inv; [exact Hq|]. apply index_inv_build; assumption.
Qed.

End Finalized.

(** * Every entry is considered once *)

Lemma NoDup_map_filter {A B} (f : A -> B) (P : A -> bool) (l : list A) :
  NoDup (map f l) -> NoDup (map f (List.filter P l)).
Proof.
  induction l as [|a l IH]; simpl; [auto|].
  intros Hnd. apply NoDup_cons in Hnd as [Hnotin Hnd].
  destruct (P a); simpl; [|auto].
  apply NoDup_cons. split; [|auto].
  intros Hin. apply Hnotin. apply list_elem_of_In in Hin. apply list_elem_of_In.
  apply in_map_iff in Hin as (a' & Heq & Ha'). apply List.filter_In in Ha' as [Ha' _].
  apply in_map_iff. eauto.
Qed.

Lemma tests_ok_nil s : tests_ok s [].
Proof. split; [constructor|]. intros i b []. Qed.

(** With pairwise distinct bodies in [all], distinct dense indexes are
    distinct bodies. *)
Lemma tests_ok_bodies s tests :
  tests_ok s tests -> NoDup (all s) -> NoDup (map snd tests).
Proof.
  intros [Hnd Hall] Hbodies. induction tests as [|[i b] tests IH]; simpl; [constructor|].
  simpl in Hnd. apply NoDup_cons in Hnd as [Hnotin Hnd].
  apply NoDup_cons. split.
  - intros Hin. apply list_elem_of_In in Hin. apply in_map_iff in Hin as ([i' b'] & Heq & Hin).
    simpl in Heq. subst b'.
    destruct (Hall i b (or_introl eq_refl)) as [Hi Hb].
    destruct (Hall i' b (or_intror Hin)) as [Hi' Hb'].
    assert (Z.to_nat i = Z.to_nat i') by (eapply NoDup_lookup; eassumption).
    apply Hnotin. apply list_elem_of_In. apply in_map_iff. exists (i', b). split; [simpl; lia|exact Hin].
  - apply IH; [exact Hnd|]. intros i' b' Hin. apply Hall. right. exact Hin.
Qed.

Lemma tests_ok_filter s (P : Z * Body_ptr -> bool) tests :
  tests_ok s tests -> tests_ok s (List.filter P tests).
Proof.
  intros [Hnd Hall]. split; [apply NoDup_map_filter; exact Hnd|].
  intros i b Hin. apply List.filter_In in Hin as [Hin _]. auto.
Qed.

(** A body is counted no more often than it was added. *)
Lemma times_app b l1 l2 : times b (l1 ++ l2) = (times b l1 + times b l2)%nat.
Proof. unfold times. rewrite List.filter_app, length_app. reflexivity. Qed.

Lemma filter_other_slots (n : nat) (ks : list nat) :
  ~ In n ks -> List.filter (fun k => negb (Nat.eqb k n)) ks = ks.
Proof.
  induction ks as [|k ks IH]; intros Hn; [reflexivity|].
  cbn [List.filter]. destruct (Nat.eqb_spec k n) as [->|Hkn].
  - exfalso. apply Hn. left. reflexivity.
  - cbn [negb]. f_equal. apply IH. intros Hin. apply Hn. right. exact Hin.
Qed.

Lemma remove_slot_length (n : nat) (ks : list nat) :
  NoDup ks -> In n ks ->
  length ks = S (length (List.filter (fun k => negb (Nat.eqb k n)) ks)).
Proof.
  induction ks as [|k ks IH]; intros Hnd Hin; [destruct Hin|].
  apply NoDup_cons in Hnd as [Hk Hnd]. cbn [List.filter].
  destruct (Nat.eqb_spec k n) as [->|Hkn]; cbn [negb length].
  - rewrite filter_other_slots; [reflexivity|].
    intros Hin'. apply Hk. apply list_elem_of_In. exact Hin'.
  - f_equal. apply IH; [exact Hnd|]. destruct Hin as [Heq|Hin]; [contradiction|exact Hin].
Qed.

Lemma slots_bound b (l : list Body_ptr) : forall ks : list nat,
  NoDup ks -> (forall k, In k ks -> l !! k = Some b) -> (length ks <= times b l)%nat.
Proof.
  induction l as [|a l IH] using rev_ind; intros ks Hnd Hall.
  - destruct ks as [|k ks]; [cbn; lia|].
    specialize (Hall k (or_introl eq_refl)). rewrite lookup_nil in Hall. discriminate.
  - set (n := length l).
    set (ks' := List.filter (fun k => negb (Nat.eqb k n)) ks).
    assert (Hnd' : NoDup ks').
    { unfold ks'. rewrite <- (List.map_id (List.filter _ ks)).
      apply NoDup_map_filter. rewrite List.map_id. exact Hnd. }
    assert (Hall' : forall k, In k ks' -> l !! k = Some b).
    { intros k Hk. unfold ks' in Hk. apply List.filter_In in Hk as [Hk Hne].
      apply negb_true_iff, Nat.eqb_neq in Hne.
      pose proof (Hall k Hk) as Hl. pose proof (lookup_lt_Some _ _ _ Hl) as Hlt.
      rewrite length_app in Hlt. cbn [length] in Hlt.
      rewrite lookup_app_l in Hl by (fold n; lia). exact Hl. }
    pose proof (IH ks' Hnd' Hall') as Hle.
    rewrite times_app.
    destruct (in_dec Nat.eq_dec n ks) as [Hin|Hnin].
    + pose proof (Hall n Hin) as Hl.
      rewrite lookup_app_r in Hl by (fold n; lia).
      replace (n - length l)%nat with 0%nat in Hl by (fold n; lia).
      cbn in Hl. injection Hl as ->.
      rewrite (remove_slot_length n ks Hnd Hin). fold ks'.
      unfold times at 2. cbn [List.filter]. rewrite Nat.eqb_refl. cbn [length]. lia.
    + rewrite <- (filter_other_slots n ks Hnin). fold ks'. lia.
Qed.

Lemma tests_ok_times s tests b :
  tests_ok s tests -> (times b (map snd tests) <= times b (all s))%nat.
Proof.
  intros [Hnd Hall].
  set (hits := List.filter (fun t : Z * Body_ptr => Nat.eqb b (snd t)) tests).
  assert (Hlen : times b (map snd tests) = length (map (fun t => Z.to_nat (fst t)) hits)).
  { unfold times. rewrite filter_map_length, length_map. reflexivity. }
  rewrite Hlen. apply slots_bound.
  - assert (Hslots : NoDup (map (fun t : Z * Body_ptr => Z.to_nat (fst t)) tests)).
    { clear Hlen hits. induction tests as [|[i b'] tests IH]; [constructor|].
      cbn [map fst] in Hnd |- *. apply NoDup_cons in Hnd as [Hnotin Hnd].
      apply NoDup_cons. split.
      - intros Hin. apply list_elem_of_In in Hin.
        apply in_map_iff in Hin as ([i2 b2] & Heq & Hin). cbn [fst] in Heq.
        destruct (Hall i b' (or_introl eq_refl)) as [Hi _].
        destruct (Hall i2 b2 (or_intror Hin)) as [Hi2 _].
        assert (i2 = i) by lia. subst i2.
        apply Hnotin. apply list_elem_of_In. apply in_map_iff.
        exists (i, b2). split; [reflexivity|exact Hin].
      - apply IH; [exact Hnd|]. intros i2 b2 Hin. apply Hall. right. exact Hin. }
    apply NoDup_map_filter. exact Hslots.
  - intros k Hk. apply in_map_iff in Hk as ([i b'] & Heq & Hin). cbn [fst] in Heq.
    apply List.filter_In in Hin as [Hin Hb]. cbn [snd] in Hb.
    apply Nat.eqb_eq in Hb. subst b' k.
    destruct (Hall i b Hin) as [_ Hl]. exact Hl.
Qed.


(** Marking an entry found unmarked in a bin. *)
Lemma marked_step mem s epoch sn tests gx gy it :
  index_inv mem s -> marked s epoch sn tests ->
  In it (bin s (cell_index s gx gy)) ->
  (vec_get 0 sn (Entry.seenIndex it) =? epoch) = false ->
  marked s epoch (vec_set sn (Entry.seenIndex it) epoch)
         (tests ++ [(Entry.seenIndex it, Entry.body it)]).
Proof.
  intros Hinv (Hlen & [Hnd Hall] & Hmark) Hit Hseen.
  pose proof Hinv as (_ & _ & _ & _ & Hseenlen).
  destruct (index_inv_bin_entry mem s gx gy it Hinv Hit) as (i & Hi & Hidx & _).
  pose proof (lookup_lt_Some _ _ _ Hi) as Hilt.
  apply Z.eqb_neq in Hseen.
  split; [rewrite vec_set_length; exact Hlen|]. split; [split|].
  - rewrite map_app. simpl. apply NoDup_app. split; [exact Hnd|]. split; [|apply NoDup_singleton].
    intros j Hj Hj'. apply list_elem_of_In in Hj. apply list_elem_of_singleton in Hj'. subst j.
    apply in_map_iff in Hj as ([i' b'] & Heq & Hin). simpl in Heq. subst i'.
    apply Hseen. unfold vec_get. rewrite (Hmark _ _ Hin). reflexivity.
  - intros i' b' Hin. apply in_app_iff in Hin as [Hin|[Heq|[]]]; [auto|].
    injection Heq as <- <-. rewrite Hidx, Nat2Z.id. split; [lia|exact Hi].
  - intros i' b' Hin. unfold vec_set.
    destruct (Nat.eq_dec (Z.to_nat (Entry.seenIndex it)) (Z.to_nat i')) as [Heq|Hne].
    + rewrite <- Heq. apply list_lookup_insert_eq. lia.
    + rewrite list_lookup_insert_ne by exact Hne.
      apply in_app_iff in Hin as [Hin|[Heq|[]]]; [eauto|].
      injection Heq as <- <-. congruence.
Qed.

(** Entries of one dense index lie in different cells. *)
Lemma entries_from_keys_NoDup mem s : forall bodies n,
  NoDup (map (fun e => (Entry.seenIndex e, Entry.x e, Entry.y e)) (entries_from mem s n bodies)).
Proof.
  induction bodies as [|b bodies IH]; intros n; simpl; [constructor|].
  rewrite map_app. apply NoDup_app. split; [|split; [|apply IH]].
  - unfold entries_of. rewrite map_map. simpl.
    apply NoDup_fmap_2; [|apply footprint_NoDup].
    intros [x1 y1] [x2 y2] H. simpl in H. congruence.
  - intros k Hk Hk'. apply list_elem_of_In in Hk, Hk'.
    apply in_map_iff in Hk as (e & <- & He). apply in_map_iff in Hk' as (e' & Heq & He').
    apply in_entries_of in He as (_ & Hi & _).
    apply in_entries_from in He' as (i & b' & _ & Hi' & _).
    injection Heq as Heq _ _. lia.
Qed.

Lemma exact_entries_tests_ok mem s gx gy :
  index_inv mem s ->
  tests_ok s (map (fun e => (Entry.seenIndex e, Entry.body e))
                  (List.filter (exact_cell gx gy) (bin s (cell_index s gx gy)))).
Proof.
  intros Hinv. pose proof Hinv as (G & _ & Hent & Hbin & _).
  split.
  - rewrite map_map. simpl.
    rewrite Hbin by (apply cell_index_range; exact G).
    pose proof (entries_from_keys_NoDup mem s (all s) 0) as Hk. rewrite <- Hent in Hk.
    apply (NoDup_map_filter _ (in_cell s (cell_index s gx gy))) in Hk.
    apply (NoDup_map_filter _ (exact_cell gx gy)) in Hk.
    set (l := List.filter (exact_cell gx gy) _) in *.
    assert (Hl : forall e, In e l -> Entry.x e = gx /\ Entry.y e = gy).
    { intros e He. apply List.filter_In in He as [_ He]. unfold exact_cell in He.
      apply andb_true_iff in He as [H1 H2]. apply Z.eqb_eq in H1, H2. auto. }
    assert (Heq : map (fun e => (Entry.seenIndex e, Entry.x e, Entry.y e)) l
                  = map (fun i => (i, gx, gy)) (map Entry.seenIndex l)).
    { rewrite map_map. apply map_ext_in. intros e He.
      destruct (Hl e He) as [-> ->]. reflexivity. }
    rewrite Heq in Hk. eapply NoDup_fmap_1. exact Hk.
  - intros i b Hin. apply in_map_iff in Hin as (e & Heq & He). injection Heq as <- <-.
    apply List.filter_In in He as [He _].
    destruct (index_inv_bin_entry mem s gx gy e Hinv He) as (i & Hi & Hidx & _).
    rewrite Hidx, Nat2Z.id. split; [lia|exact Hi].
Qed.

Section Once.
Variable IsEnemy : Gov_ptr -> Gov_ptr -> bool.
Variable Length : Point -> float.
Variable Unit : Point -> Point.

#[local] Abbreviation LineQ := (Line IsEnemy Length Unit).
#[local] Abbreviation RingQ := (Ring Length).

(** The single-cell scan considers the entries of the bin that carry the
    signed coordinates of the cell, in the order of the bin. *)
Lemma fold_visit_single_candidates mem s from to pGov target gx gy : forall l c p,
  let '(c', p') :=
    fold_left (visit_single IsEnemy mem s from to pGov target gx gy) l (c, p) in
  exists evs,
    events p' = events p ++ evs /\
    candidates evs
    = map (fun e => (Entry.seenIndex e, Entry.body e)) (List.filter (exact_cell gx gy) l).
Proof.
  induction l as [|it l IH]; intros c p.
  - simpl. exists []. rewrite app_nil_r. auto.
  - cbn [fold_left List.filter]. unfold visit_single at 2, exact_cell at 1.
    destruct (Entry.x it =? gx), (Entry.y it =? gy); cbn [negb orb andb];
      try apply IH.
    match goal with
    | |- context [fold_left _ l ?st] => destruct st as [c1 p1] eqn:Hst
    end.
    assert (Hev : exists evs1, events p1 = events p ++ evs1 /\
              candidates evs1 = [(Entry.seenIndex it, Entry.body it)]).
    { destruct (government_skips IsEnemy mem pGov target (Entry.body it));
        injection Hst as _ <-; cbn [events emit].
      - exists [Candidate (Entry.seenIndex it) (Entry.body it)]. auto.
      - eexists. rewrite <- app_assoc. split; [reflexivity|]. reflexivity. }
    destruct Hev as (evs1 & Hev1 & Hc1).
    specialize (IH c1 p1). destruct (fold_left _ l (c1, p1)) as [c' p'].
    destruct IH as (evs & Hev & Hc). exists (evs1 ++ evs). split.
    + rewrite Hev, Hev1, app_assoc. reflexivity.
    + rewrite candidates_app, Hc1, Hc. reflexivity.
Qed.

Lemma visit_stepped_marked mem s p from to pGov target gx gy st it :
  index_inv mem s -> In it (bin s (cell_index s gx gy)) ->
  (exists evs, events (snd st) = events p ++ evs /\
     marked s (u32 (seenEpoch s + 1)) (fst (fst st)) (candidates evs)) ->
  let st' := visit_stepped IsEnemy mem s (u32 (seenEpoch s + 1)) from to pGov target
               gx gy st it in
  exists evs, events (snd st') = events p ++ evs /\
     marked s (u32 (seenEpoch s + 1)) (fst (fst st')) (candidates evs).
Proof.
  intros Hinv Hit (evs & Hev & Hm). destruct st as [[sn c] p1]. cbn [fst snd] in *.
  unfold visit_stepped.
  destruct (negb (Entry.x it =? gx) || negb (Entry.y it =? gy)); [exists evs; auto|].
  destruct (vec_get 0 sn (Entry.seenIndex it) =? u32 (seenEpoch s + 1)) eqn:Hseen;
    [exists evs; auto|].
  pose proof (marked_step mem s _ sn _ gx gy it Hinv Hm Hit Hseen) as Hm'.
  destruct (government_skips IsEnemy mem pGov target (Entry.body it)); cbn [fst snd events emit].
  - exists (evs ++ [Candidate (Entry.seenIndex it) (Entry.body it)]).
    rewrite Hev, app_assoc, candidates_app. auto.
  - eexists. rewrite Hev, <- !app_assoc. split; [reflexivity|].
    rewrite candidates_app. cbn. exact Hm'.
Qed.

Lemma marked_start s epoch : marked s epoch (seen s) [].
Proof. split; [reflexivity|]. split; [apply tests_ok_nil|]. intros i b []. Qed.

(** In a [Line] query no dense index reaches the government check
    twice. *)
Lemma Line_candidates_ok mem s ch pGov target :
  index_inv mem s ->
  forall fuel p from to,
  let '(r, s', p') := LineQ fuel mem s p from to ch pGov target in
  exists evs, events p' = events p ++ evs /\ tests_ok s (candidates evs).
Proof.
  intros Hinv. induction fuel as [|fuel IH]; intros p from to.
  - simpl. exists []. rewrite app_nil_r. split; [reflexivity|apply tests_ok_nil].
  - rewrite Line_unfold. cbv zeta.
    destruct (single_cell s from to).
    + pose proof (fold_visit_single_candidates mem s from to pGov target
                    (cell_of s (Point.X from)) (cell_of s (Point.Y from))
                    (bin s (cell_index s (cell_of s (Point.X from)) (cell_of s (Point.Y from))))
                    (closer_init ch) p) as Hf.
      destruct (fold_left _ _ _) as [c p'].
      destruct Hf as (evs & Hev & Hc). exists evs. split; [exact Hev|].
      rewrite Hc. apply (exact_entries_tests_ok mem). exact Hinv.
    + destruct (over_length Length from to).
      * specialize (IH (warn p) from (clamped Unit from to)).
        destruct (LineQ fuel mem s (warn p) from (clamped Unit from to) ch pGov target)
          as [[r s'] p'].
        destruct IH as (evs & Hev & Hok). unfold warn in Hev.
        destruct (warned p); [exists evs; auto|].
        exists ([LogError velocity_warning] ++ evs). cbn [events] in Hev.
        rewrite Hev, <- app_assoc. split; [reflexivity|]. exact Hok.
      * match goal with
        | |- context [walk _ ?fl ?m ?s0 ?ep ?fr ?t0 ?pg ?tg ?ex ?ey ?sx ?sy ?mx ?my ?fs
                           ?gx ?gy ?rx ?ry ?sn ?c ?p0] =>
            pose proof (walk_invariant IsEnemy
              (fun st => exists evs, events (snd st) = events p ++ evs /\
                 marked s (u32 (seenEpoch s + 1)) (fst (fst st)) (candidates evs))
              m s0 ep fr t0 pg tg ex ey sx sy mx my fs
              ltac:(intros gx' gy' st it Hit HI;
                    exact (visit_stepped_marked mem s p from to pGov target gx' gy' st it
                             Hinv Hit HI))
              fl gx gy rx ry sn c p0
              ltac:(exists []; rewrite app_nil_r; split; [reflexivity|apply marked_start]))
              as Hw
        end.
        destruct (walk _ _ _ _ _ _ _ _ _ _ _ _ _ _ _ _ _ _ _ _ _ _ _) as [[[fin sn] c] p'].
        cbn [fst snd] in Hw. destruct Hw as (evs & Hev & _ & Hok & _).
        destruct fin; exists evs; auto.
Qed.

(** In a [Ring] query no dense index reaches the acceptance test twice,
    and the bodies returned are among the bodies tested, in order. *)
Lemma Ring_tests_ok mem s p center inner outer :
  index_inv mem s ->
  let '(res, s', p') := RingQ mem s p center inner outer in
  exists evs,
    events p' = events p ++ evs /\ tests_ok s (ring_tests evs) /\
    sublist res (map snd (ring_tests evs)).
Proof.
  intros Hinv.
  pose proof (Ring_invariant Length
    (fun st => exists evs, events (snd st) = events p ++ evs /\
       marked s (u32 (seenEpoch s + 1)) (fst (fst st)) (ring_tests evs) /\
       sublist (snd (fst st)) (map snd (ring_tests evs)))
    mem s p center inner outer) as HR.
  specialize (HR ltac:(
    intros x y [[sn res] p1] it Hit (evs & Hev & Hm & Hsub); cbn [fst snd] in *;
    unfold visit_ring;
    destruct (negb (Entry.x it =? x) || negb (Entry.y it =? y)); [exists evs; auto|];
    destruct (vec_get 0 sn (Entry.seenIndex it) =? u32 (seenEpoch s + 1)) eqn:Hseen;
      [exists evs; auto|];
    pose proof (marked_step mem s _ sn _ x y it Hinv Hm Hit Hseen) as Hm';
    destruct (_ || _); cbn [fst snd events emit];
    exists (evs ++ [RingTest (Entry.seenIndex it) (Entry.body it)]);
    rewrite Hev, app_assoc, ring_tests_app, map_app;
    (split; [reflexivity|]); (split; [exact Hm'|]);
    [apply sublist_app; [exact Hsub|reflexivity]
    |apply sublist_inserts_r; exact Hsub])).
  specialize (HR ltac:(exists []; rewrite app_nil_r; split; [reflexivity|];
                       split; [apply marked_start|constructor])).
  destruct (RingQ mem s p center inner outer) as [[res s'] p']. cbn [fst snd] in HR.
  destruct HR as (evs & Hev & (_ & Hok & _) & Hsub). exists evs. auto.
Qed.

(** C3 (as amended): in a single [Line] query on a finalized index no
    dense index (no [Add] call) has its mask handed to [Collide] more than
    once, and in a single [Ring] (or [Circle]) query none is put to the
    acceptance test more than once, however many cells its entries occupy.
    Every test is made under a dense index that holds the body tested, so
    a body is tested at most as many times as it was added, and at most
    once when the bodies added are pairwise distinct. *)
Theorem each_add_call_tested_at_most_once (mem : Heap) (s : CollisionSet) :
  finalized IsEnemy Length Unit mem s ->
  (forall fuel p from to closestHit pGov target,
     let '(r, s', p') := LineQ fuel mem s p from to closestHit pGov target in
     exists evs,
       events p' = events p ++ evs /\
       NoDup (map (fun t => fst (fst t)) (collides evs)) /\
       (forall i b range, In (i, b, range) (collides evs) ->
          0 <= i /\ all s !! Z.to_nat i = Some b) /\
       (forall b, (times b (map (fun t => snd (fst t)) (collides evs))
                   <= times b (all s))%nat) /\
       (NoDup (all s) -> NoDup (map (fun t => snd (fst t)) (collides evs)))) /\
  (forall p center inner outer,
     let '(res, s', p') := RingQ mem s p center inner outer in
     exists evs,
       events p' = events p ++ evs /\
       NoDup (map fst (ring_tests evs)) /\
       (forall i b, In (i, b) (ring_tests evs) ->
          0 <= i /\ all s !! Z.to_nat i = Some b) /\
       (forall b, (times b (map snd (ring_tests evs)) <= times b (all s))%nat) /\
       (NoDup (all s) -> NoDup (map snd (ring_tests evs)))) /\
  (forall p center radius,
     let '(res, s', p') := Circle Length mem s p center radius in
     exists evs,
       events p' = events p ++ evs /\
       NoDup (map fst (ring_tests evs)) /\
       (forall i b, In (i, b) (ring_tests evs) ->
          0 <= i /\ all s !! Z.to_nat i = Some b) /\
       (forall b, (times b (map snd (ring_tests evs)) <= times b (all s))%nat) /\
       (NoDup (all s) -> NoDup (map snd (ring_tests evs)))).
Proof.
  intros Hfin. pose proof (finalized_index_inv IsEnemy Length Unit mem s Hfin) as Hinv.
  assert (HRing : forall p center inner outer,
     let '(res, s', p') := RingQ mem s p center inner outer in
     exists evs,
       events p' = events p ++ evs /\
       NoDup (map fst (ring_tests evs)) /\
       (forall i b, In (i, b) (ring_tests evs) ->
          0 <= i /\ all s !! Z.to_nat i = Some b) /\
       (forall b, (times b (map snd (ring_tests evs)) <= times b (all s))%nat) /\
       (NoDup (all s) -> NoDup (map snd (ring_tests evs)))).
  { intros p center inner outer.
    pose proof (Ring_tests_ok mem s p center inner outer Hinv) as HR.
    destruct (RingQ mem s p center inner outer) as [[res s'] p'].
    destruct HR as (evs & Hev & Hok & _). exists evs.
    split; [exact Hev|]. split; [apply Hok|]. split; [apply Hok|].
    split; [intros b; apply tests_ok_times; exact Hok|].
    apply tests_ok_bodies. exact Hok. }
  split; [|split; [exact HRing|]].
  - intros fuel p from to ch pGov target.
    pose proof (Line_candidates_ok mem s ch pGov target Hinv fuel p from to) as HL.
    pose proof (Line_collides_of_candidates IsEnemy Length Unit fuel mem s p from to
                  ch pGov target) as HC.
    destruct (LineQ fuel mem s p from to ch pGov target) as [[r s'] p'].
    destruct HL as (evs & Hev & Hok). destruct HC as (evs' & Hev' & Hfilter).
    assert (evs' = evs) by (rewrite Hev in Hev'; eapply app_inv_head; symmetry; exact Hev').
    subst evs'. exists evs. split; [exact Hev|].
    pose proof (tests_ok_filter s (fun c => eligible IsEnemy mem pGov target (snd c))
                  _ Hok) as Hok'.
    rewrite <- Hfilter in Hok'. split; [|split; [|split]].
    + rewrite <- (map_map fst fst). apply Hok'.
    + intros i b range Hin. apply Hok'.
      apply in_map_iff. exists (i, b, range). split; [reflexivity|exact Hin].
    + intros b. rewrite <- (map_map fst snd). apply tests_ok_times. exact Hok'.
    + intros Hnd. rewrite <- (map_map fst snd). apply (tests_ok_bodies s); assumption.
  - intros p center radius. apply HRing.
Qed.

End Once.

(** * Ring and the governments *)

Lemma fold_left_related {S1 S2 A} (R : S1 -> S2 -> Prop)
    (f1 : S1 -> A -> S1) (f2 : S2 -> A -> S2) (l : list A) :
  (forall a st1 st2, In a l -> R st1 st2 -> R (f1 st1 a) (f2 st2 a)) ->
  forall st1 st2, R st1 st2 -> R (fold_left f1 l st1) (fold_left f2 l st2).
Proof.
  induction l as [|a l IH]; intros Hstep st1 st2 HR; simpl; [exact HR|].
  apply IH.
  - intros a' st1' st2' Ha'. apply Hstep. right. exact Ha'.
  - apply Hstep; [left; reflexivity|exact HR].
Qed.




Lemma seen_agree_mark e1 e2 sn1 sn2 i :
  seen_agree e1 e2 sn1 sn2 -> seen_agree e1 e2 (<[i:=e1]> sn1) (<[i:=e2]> sn2).
Proof.
  intros [Hlen Hag]. split; [rewrite !length_insert; exact Hlen|].
  intros k Hk. rewrite length_insert in Hk.
  destruct (Nat.eq_dec i k) as [->|Hne].
  - rewrite !list_lookup_insert_eq by lia. tauto.
  - rewrite !list_lookup_insert_ne by exact Hne. apply Hag. exact Hk.
Qed.

Lemma seen_agree_test e1 e2 sn1 sn2 i :
  seen_agree e1 e2 sn1 sn2 -> 0 <= i -> (Z.to_nat i < length sn1)%nat ->
  (vec_get 0 sn1 i =? e1) = (vec_get 0 sn2 i =? e2).
Proof.
  intros [Hlen Hag] Hi Hlt. specialize (Hag _ Hlt). unfold vec_get.
  destruct (sn1 !! Z.to_nat i) as [m1|] eqn:H1; [|apply lookup_ge_None in H1; lia].
  destruct (sn2 !! Z.to_nat i) as [m2|] eqn:H2; [|apply lookup_ge_None in H2; lia].
  simpl. destruct (Z.eqb_spec m1 e1) as [->|Hn1], (Z.eqb_spec m2 e2) as [->|Hn2];
    try reflexivity.
  - exfalso. apply Hn2. destruct Hag as [Hag _]. specialize (Hag eq_refl). congruence.
  - exfalso. apply Hn1. destruct Hag as [_ Hag]. specialize (Hag eq_refl). congruence.
Qed.

Lemma seen_agree_fresh e1 e2 sn1 sn2 :
  length sn1 = length sn2 ->
  Forall (fun m => m <> e1) sn1 -> Forall (fun m => m <> e2) sn2 -> seen_agree e1 e2 sn1 sn2.
Proof.
  intros Hlen H1 H2. split; [exact Hlen|]. intros k Hk.
  rewrite Forall_forall in H1, H2. split; intros Hs; exfalso.
  - apply (H1 e1); [|reflexivity]. apply list_elem_of_lookup. eauto.
  - apply (H2 e2); [|reflexivity]. apply list_elem_of_lookup. eauto.
Qed.

Lemma fold_left_pointwise {S A} (f g : S -> A -> S) (l : list A) :
  (forall st a, f st a = g st a) -> forall st, fold_left f l st = fold_left g l st.
Proof.
  intros H. induction l as [|a l IH]; intros st; simpl; [reflexivity|].
  rewrite H. apply IH.
Qed.

Section TwoRuns.
Variable Length : Point -> float.
Variable Unit : Point -> Point.




Lemma queried_tables IsEnemy mem base n s :
  queried IsEnemy Length Unit mem base n s ->
  same_grid base s /\ step s = step base /\ all s = all base /\ added s = added base /\
  sorted s = sorted base /\ counts s = counts base.
Proof.
  induction 1 as [|n s fuel p from to ch pGov target _ IH|n s p center inner outer _ IH].
  - split; [apply same_grid_refl|]. auto.
  - pose proof (Line_frame IsEnemy Length Unit fuel mem s p from to ch pGov target) as Hf.
    destruct (Line _ _ _ _ _ _ _ _ _ _ _ _) as [[r s'] p']. cbn [fst snd].
    destruct Hf as [->| ->]; [exact IH|].
    destruct IH as (Hg & ? & ? & ? & ? & ?). split; [exact Hg|]. auto.
  - pose proof (Ring_fields Length mem s p center inner outer) as Hf.
    destruct (Ring _ _ _ _ _ _ _) as [[res s'] p']. cbn [fst snd].
    destruct Hf as (Hg' & Hst & Hall & Hadd & Hsrt & Hcnt & _).
    destruct IH as (Hg & ? & ? & ? & ? & ?).
    split; [eapply same_grid_trans; eassumption|]. repeat split; congruence.
Qed.

(** Fewer than [2^32 - 1] queries after [Finish] cannot wrap the epoch. *)
Lemma queried_markers IsEnemy mem base n s :
  queried IsEnemy Length Unit mem base n s ->
  markers_ok base -> seenEpoch base + Z.of_nat n <= 2 ^ 32 - 1 ->
  markers_ok s /\ seenEpoch s <= seenEpoch base + Z.of_nat n.
Proof.
  induction 1 as [|n s fuel p from to ch pGov target _ IH|n s p center inner outer _ IH];
    intros Hbase Hn.
  - split; [exact Hbase|lia].
  - destruct IH as [Hok Hle]; [exact Hbase|lia|].
    split; [apply Line_markers_ok; [exact Hok|lia]|].
    pose proof (Line_frame IsEnemy Length Unit fuel mem s p from to ch pGov target) as Hf.
    destruct (Line _ _ _ _ _ _ _ _ _ _ _ _) as [[r s'] p']. cbn [fst snd].
    destruct Hf as [->| ->]; [lia|]. cbn [seenEpoch set_seen].
    destruct Hok as [He _]. rewrite u32_small by lia. lia.
  - destruct IH as [Hok Hle]; [exact Hbase|lia|].
    split; [apply Ring_markers_ok; [exact Hok|lia]|].
    pose proof (Ring_fields Length mem s p center inner outer) as Hf.
    destruct (Ring _ _ _ _ _ _ _) as [[res s'] p']. cbn [fst snd].
    destruct Hf as (_&_&_&_&_&_&_&Hep). rewrite Hep.
    destruct Hok as [He _]. rewrite u32_small by lia. lia.
Qed.

(** Two [Ring] queries with the same arguments on indexes that share
    their tables, over heaps that differ in the governments only, return
    the same bodies when their markers agree. *)
(** Until [2^32 - 1] queries were made on it, an index built by [Clear],
    [Add] calls and [Finish] holds no marker equal to the epoch of the
    next query. *)
Lemma queried_markers_clear IsEnemy mem s0 st bodies n s :
  queried IsEnemy Length Unit mem (build mem s0 st bodies) n s ->
  Z.of_nat n < 2 ^ 32 - 1 -> markers_clear s.
Proof.
  intros Hq Hn.
  assert (Hep : seenEpoch (build mem s0 st bodies) = 0) by apply Finish_fields.
  destruct (queried_markers IsEnemy mem _ n s Hq (Finish_markers_ok _)) as [Hok Hle].
  { rewrite Hep. lia. }
  rewrite Hep in Hle. apply markers_fresh; [exact Hok|lia].
Qed.



End TwoRuns.

(** * The order of doubles *)

Lemma compare_cont_Eq_spec m1 m2 :
  match Pos.compare_cont Eq m1 m2 with
  | Eq => m1 = m2
  | Lt => Z.pos m1 < Z.pos m2
  | Gt => Z.pos m2 < Z.pos m1
  end.
Proof.
  change (Pos.compare_cont Eq m1 m2) with (Pos.compare m1 m2).
  destruct (Pos.compare_spec m1 m2); lia.
Qed.

(** [SFcompare] orders the keys. *)
Lemma SFcompare_key a b :
  match float_key a, float_key b with
  | Some ka, Some kb =>
      match SFcompare (Prim2SF a) (Prim2SF b) with
      | Some Lt => key_lt ka kb
      | Some Eq => ka = kb
      | Some Gt => key_lt kb ka
      | None => False
      end
  | _, _ => SFcompare (Prim2SF a) (Prim2SF b) = None
  end.
Proof.
  unfold float_key.
  destruct (Prim2SF a) as [sa|sa| |sa ma ea], (Prim2SF b) as [sb|sb| |sb mb eb];
    try reflexivity;
    try (destruct sa; simpl; lia);
    try (destruct sb; simpl; lia);
    try (destruct sa, sb; simpl; (lia || reflexivity)).
  destruct sa, sb; simpl; try lia.
  - destruct (Z.compare_spec ea eb); simpl; try lia.
    subst. pose proof (compare_cont_Eq_spec ma mb) as H.
    destruct (Pos.compare_cont Eq ma mb); simpl; [subst; reflexivity|lia|lia].
  - destruct (Z.compare_spec ea eb); simpl; try lia.
    subst. pose proof (compare_cont_Eq_spec ma mb) as H.
    destruct (Pos.compare_cont Eq ma mb); simpl; [subst; reflexivity|lia|lia].
Qed.

Lemma leb_key a b :
  (a <=? b)%float = true <->
  exists ka kb, float_key a = Some ka /\ float_key b = Some kb /\ (key_lt ka kb \/ ka = kb).
Proof.
  rewrite leb_spec. unfold SFleb. pose proof (SFcompare_key a b) as H.
  destruct (float_key a) as [ka|], (float_key b) as [kb|].
  - destruct (SFcompare (Prim2SF a) (Prim2SF b)) as [[| |]|].
    + split; [intros _; exists ka, kb; auto|reflexivity].
    + split; [intros _; exists ka, kb; auto|reflexivity].
    + split; [discriminate|]. intros (ka' & kb' & Ha & Hb & Hk).
      injection Ha as <-. injection Hb as <-. exfalso.
      destruct ka as [[a1 a2] a3], kb as [[b1 b2] b3]. unfold key_lt in *.
      destruct Hk as [Hk|Hk]; [lia|]. injection Hk as -> -> ->. lia.
    + destruct H.
  - rewrite H. split; [discriminate|]. intros (? & ? & _ & Hb & _). discriminate.
  - rewrite H. split; [discriminate|]. intros (? & ? & Ha & _). discriminate.
  - rewrite H. split; [discriminate|]. intros (? & ? & Ha & _). discriminate.
Qed.

Lemma ltb_key a b :
  (a <? b)%float = true <->
  exists ka kb, float_key a = Some ka /\ float_key b = Some kb /\ key_lt ka kb.
Proof.
  rewrite ltb_spec. unfold SFltb. pose proof (SFcompare_key a b) as H.
  destruct (float_key a) as [ka|], (float_key b) as [kb|].
  - destruct ka as [[a1 a2] a3], kb as [[b1 b2] b3].
    destruct (SFcompare (Prim2SF a) (Prim2SF b)) as [[| |]|].
    + split; [discriminate|]. intros (ka' & kb' & Ha & Hb & Hk).
      injection Ha as <-. injection Hb as <-. exfalso.
      injection H as -> -> ->. unfold key_lt in Hk. lia.
    + split; [intros _; eexists _, _; auto|reflexivity].
    + split; [discriminate|]. intros (ka' & kb' & Ha & Hb & Hk).
      injection Ha as <-. injection Hb as <-. exfalso. unfold key_lt in *. lia.
    + destruct H.
  - rewrite H. split; [discriminate|]. intros (? & ? & _ & Hb & _). discriminate.
  - rewrite H. split; [discriminate|]. intros (? & ? & Ha & _). discriminate.
  - rewrite H. split; [discriminate|]. intros (? & ? & Ha & _). discriminate.
Qed.

(** A double is a number (not NaN) when it compares with itself. *)
Lemma leb_number a b : (a <=? b)%float = true -> (a <=? a)%float = true /\ (b <=? b)%float = true.
Proof.
  rewrite !leb_key. intros (ka & kb & Ha & Hb & _). split; eexists _, _; eauto.
Qed.

Lemma leb_false_ltb a b :
  (a <=? a)%float = true -> (b <=? b)%float = true ->
  (a <=? b)%float = false -> (b <? a)%float = true.
Proof.
  intros Ha Hb Hab. apply leb_key in Ha as (ka & _ & Ha & _). apply leb_key in Hb as (kb & _ & Hb & _).
  apply ltb_key. exists kb, ka. split; [exact Hb|]. split; [exact Ha|].
  destruct ka as [[a1 a2] a3], kb as [[b1 b2] b3].
  assert (Hn : ~ (key_lt (a1, a2, a3) (b1, b2, b3) \/ (a1, a2, a3) = (b1, b2, b3))).
  { intros Hk. assert (Ht : (a <=? b)%float = true) by (apply leb_key; eexists _, _; eauto).
    congruence. }
  unfold key_lt in *.
  destruct (Z.lt_total b1 a1) as [?|[?|?]]; [lia| |exfalso; apply Hn; lia].
  destruct (Z.lt_total b2 a2) as [?|[?|?]]; [lia| |exfalso; apply Hn; lia].
  destruct (Z.lt_total b3 a3) as [?|[?|?]]; [lia| |exfalso; apply Hn; lia].
  exfalso. apply Hn. right. congruence.
Qed.

Lemma ltb_leb_trans a b c :
  (a <? b)%float = true -> (b <=? c)%float = true -> (a <? c)%float = true.
Proof.
  rewrite !ltb_key, leb_key. intros (ka & kb & Ha & Hb & Hab) (kb' & kc & Hb' & Hc & Hbc).
  rewrite Hb in Hb'. injection Hb' as <-. exists ka, kc. split; [exact Ha|]. split; [exact Hc|].
  destruct ka as [[a1 a2] a3], kb as [[b1 b2] b3], kc as [[c1 c2] c3]. unfold key_lt in *.
  destruct Hbc as [Hbc|Hbc]; [lia|]. injection Hbc as <- <- <-. lia.
Qed.

Lemma leb_trans a b c :
  (a <=? b)%float = true -> (b <=? c)%float = true -> (a <=? c)%float = true.
Proof.
  rewrite !leb_key. intros (ka & kb & Ha & Hb & Hab) (kb' & kc & Hb' & Hc & Hbc).
  rewrite Hb in Hb'. injection Hb' as <-. exists ka, kc. split; [exact Ha|]. split; [exact Hc|].
  destruct ka as [[a1 a2] a3], kb as [[b1 b2] b3], kc as [[c1 c2] c3]. unfold key_lt in *.
  destruct Hab as [Hab|Hab], Hbc as [Hbc|Hbc];
    try (injection Hab as -> -> ->); try (injection Hbc as -> -> ->); auto; left; lia.
Qed.

Lemma ltb_leb a b : (a <? b)%float = true -> (a <=? b)%float = true.
Proof.
  rewrite ltb_key, leb_key. intros (ka & kb & Ha & Hb & Hab). eexists _, _; eauto.
Qed.

Lemma ltb_not_leb a b : (a <? b)%float = true -> (b <=? a)%float = false.
Proof.
  rewrite ltb_key. intros (ka & kb & Ha & Hb & Hab).
  destruct (b <=? a)%float eqn:Hba; [|reflexivity]. exfalso.
  apply leb_key in Hba as (kb' & ka' & Hb' & Ha' & Hk).
  rewrite Ha in Ha'. rewrite Hb in Hb'. injection Ha' as <-. injection Hb' as <-.
  destruct ka as [[a1 a2] a3], kb as [[b1 b2] b3]. unfold key_lt in *.
  destruct Hk as [Hk|Hk]; [lia|]. injection Hk as -> -> ->. lia.
Qed.

(** * The steps of the traversal in exact arithmetic *)

Lemma to_int64_u64 z : - 2 ^ 63 <= z < 2 ^ 63 -> to_int64 (u64 z) = z.
Proof.
  intros Hz. unfold to_int64, u64.
  destruct (Z_lt_le_dec z 0) as [Hneg|Hpos].
  - replace (z mod 2 ^ 64) with (z + 2 ^ 64).
    + destruct (Z.ltb_spec (z + 2 ^ 64) (2 ^ 63)); lia.
    + apply (Z.mod_unique_pos z (2 ^ 64) (-1)); lia.
  - rewrite Z.mod_small by lia. destruct (Z.ltb_spec z (2 ^ 63)); lia.
Qed.

Lemma mul_lt_cancel a b c : 0 < c -> a * c < b * c -> a < b.
Proof. intros Hc H. apply (Z.mul_lt_mono_pos_r c); assumption. Qed.

Lemma mul_le_cancel a b c : 0 < c -> a * c <= b * c -> a <= b.
Proof. intros Hc H. apply (Z.mul_le_mono_pos_r _ _ c); assumption. Qed.

Lemma divide_quotient a b : 0 < b -> (b | a) -> a = a / b * b.
Proof. intros Hb [q ->]. rewrite Z.div_mul by lia. reflexivity. Qed.

(** With [k] cells to cross, of which none remains when the end lies
    before the next boundary. *)
Lemma cells_left_zero F r D k :
  0 < F -> 0 <= k -> r + (k - 1) * F <= D -> D < r -> k = 0.
Proof.
  intros HF Hk Hlo Hhi. destruct (Z_le_gt_dec 1 k) as [H1|H1]; [|lia].
  assert (0 <= (k - 1) * F) by (apply Z.mul_nonneg_nonneg; lia). lia.
Qed.

Lemma cells_left_le_one F r D k :
  0 < F -> 0 <= k -> r + (k - 1) * F <= D -> D <= r -> k <= 1.
Proof.
  intros HF Hk Hlo Hhi. destruct (Z_le_gt_dec 2 k) as [H1|H1]; [|lia].
  assert (1 * F <= (k - 1) * F) by (apply Z.mul_le_mono_nonneg_r; lia). lia.
Qed.

Lemma cells_left_reach F r D k :
  0 < F -> 1 <= k -> r + (k - 1) * F <= D -> r <= D.
Proof.
  intros HF Hk Hlo. assert (0 <= (k - 1) * F) by (apply Z.mul_nonneg_nonneg; lia). lia.
Qed.

Section Steps.
Variables F mx my sx sy endGX endGY : Z.
Hypothesis Hc : dda_consts F mx my sx sy.

Lemma dda_F_fits : F < 2 ^ 63.
Proof.
  destruct Hc as (HF & Hmx & Hmy & Hm & Hfit & _).
  assert (F * 1 <= F * Z.max mx my) by (apply Z.mul_le_mono_nonneg_l; lia). lia.
Qed.

Lemma dda_bounds gx gy rx ry kx ky Dx Dy :
  dda_state F mx my sx sy endGX endGY gx gy rx ry kx ky Dx Dy ->
  0 <= rx * my < 2 ^ 63 /\ 0 <= ry * mx < 2 ^ 63.
Proof.
  destruct Hc as (HF & Hmx & Hmy & _ & Hfit & _).
  intros (Hrx & Hry & _).
  assert (rx * my <= F * Z.max mx my) by (apply Z.mul_le_mono_nonneg; lia).
  assert (ry * mx <= F * Z.max mx my) by (apply Z.mul_le_mono_nonneg; lia).
  assert (0 <= rx * my) by (apply Z.mul_nonneg_nonneg; lia).
  assert (0 <= ry * mx) by (apply Z.mul_nonneg_nonneg; lia).
  lia.
Qed.

(** The difference the loop computes is the exact one. *)
Lemma dda_diff gx gy rx ry kx ky Dx Dy :
  dda_state F mx my sx sy endGX endGY gx gy rx ry kx ky Dx Dy ->
  to_int64 (u64 (u64 (rx * my) - u64 (ry * mx))) = rx * my - ry * mx.
Proof.
  intros Hs. destruct (dda_bounds _ _ _ _ _ _ _ _ Hs) as [H1 H2].
  rewrite !(u64_small (_ * _)) by lia. apply to_int64_u64. lia.
Qed.

(** The end of the segment is not nearer in [x] than the next vertical
    boundary once a column is left to cross, and not farther when none
    is. *)
Lemma dda_reach_x gx gy rx ry kx ky Dx Dy :
  dda_state F mx my sx sy endGX endGY gx gy rx ry kx ky Dx Dy ->
  (1 <= kx -> rx <= Dx) /\ (kx = 0 -> Dx <= rx) /\ (Dx < rx -> kx = 0) /\ (Dx <= rx -> kx <= 1).
Proof.
  destruct Hc as (HF & _ & _ & _ & _ & Hsx & _).
  intros (_ & _ & _ & _ & _ & _ & Hkx & _ & _ & _ & _ & _ & _ & Hxp & Hxn & _).
  split; [|split; [|split]].
  - intros Hk. destruct Hsx as [Hs|Hs]; [specialize (Hxp Hs)|specialize (Hxn Hs)];
      apply (cells_left_reach F rx Dx kx); lia.
  - intros ->. destruct Hsx as [Hs|Hs]; [specialize (Hxp Hs)|specialize (Hxn Hs)]; lia.
  - intros Hlt. destruct Hsx as [Hs|Hs]; [specialize (Hxp Hs)|specialize (Hxn Hs)];
      apply (cells_left_zero F rx Dx kx); lia.
  - intros Hle. destruct Hsx as [Hs|Hs]; [specialize (Hxp Hs)|specialize (Hxn Hs)];
      apply (cells_left_le_one F rx Dx kx); lia.
Qed.

Lemma dda_reach_y gx gy rx ry kx ky Dx Dy :
  dda_state F mx my sx sy endGX endGY gx gy rx ry kx ky Dx Dy ->
  (1 <= ky -> ry <= Dy) /\ (ky = 0 -> Dy <= ry) /\ (Dy < ry -> ky = 0) /\ (Dy <= ry -> ky <= 1).
Proof.
  destruct Hc as (HF & _ & _ & _ & _ & _ & Hsy & _).
  intros (_ & _ & _ & _ & _ & _ & _ & Hky & _ & _ & _ & _ & _ & _ & _ & Hyp & Hyn).
  split; [|split; [|split]].
  - intros Hk. destruct Hsy as [Hs|Hs]; [specialize (Hyp Hs)|specialize (Hyn Hs)];
      apply (cells_left_reach F ry Dy ky); lia.
  - intros ->. destruct Hsy as [Hs|Hs]; [specialize (Hyp Hs)|specialize (Hyn Hs)]; lia.
  - intros Hlt. destruct Hsy as [Hs|Hs]; [specialize (Hyp Hs)|specialize (Hyn Hs)];
      apply (cells_left_zero F ry Dy ky); lia.
  - intros Hle. destruct Hsy as [Hs|Hs]; [specialize (Hyp Hs)|specialize (Hyn Hs)];
      apply (cells_left_le_one F ry Dy ky); lia.
Qed.

(** Crossing a vertical boundary. *)
Lemma dda_step_x gx gy rx ry kx ky Dx Dy :
  dda_state F mx my sx sy endGX endGY gx gy rx ry kx ky Dx Dy ->
  rx * my < ry * mx -> ~ (kx = 0 /\ ky = 0) ->
  u64 (ry - u64 (my * (rx / mx))) = ry - my * (rx / mx) /\
  1 <= kx /\
  dda_state F mx my sx sy endGX endGY (gx + sx) gy F (ry - my * (rx / mx))
            (kx - 1) ky (Dx - rx) (Dy - my * (rx / mx)).
Proof.
  intros Hs Hlt Hnz.
  destruct (dda_reach_x _ _ _ _ _ _ _ _ Hs) as (Hx1 & Hx2 & _ & _).
  destruct (dda_reach_y _ _ _ _ _ _ _ _ Hs) as (_ & _ & Hy3 & _).
  pose proof dda_F_fits as HF63.
  destruct Hc as (HF & Hmx & Hmy & Hm & _ & Hsx & Hsy & _ & _ & HdF & HdF').
  destruct Hs as (Hrx & Hry & Hrx1 & Hry1 & Hdx & Hdy & Hkx & Hky & Hex & Hey & HDx & HDy
                  & Hcol & Hxp & Hxn & Hyp & Hyn).
  assert (Hmxpos : 0 < mx).
  { destruct (Z.eq_dec mx 0) as [->|]; [|clear - Hmx n; lia].
    rewrite Z.mul_0_r in Hlt.
    assert (0 <= rx * my) by (apply Z.mul_nonneg_nonneg; [apply Hrx|exact Hmy]).
    clear - Hlt H. lia. }
  specialize (Hdx ltac:(clear - Hmxpos; lia)).
  pose proof (divide_quotient rx mx Hmxpos Hdx) as Hq.
  assert (Hq0 : 0 <= rx / mx) by (apply Z.div_pos; [apply Hrx|exact Hmxpos]).
  set (q := rx / mx) in *. clearbody q.
  assert (Ht : my * q * mx = rx * my) by (rewrite Hq; ring).
  assert (Htlt : my * q < ry).
  { apply (mul_lt_cancel _ _ mx); [exact Hmxpos|]. rewrite Ht. exact Hlt. }
  assert (Ht0 : 0 <= my * q) by (apply Z.mul_nonneg_nonneg; assumption).
  assert (Hk1 : 1 <= kx).
  { destruct (Z_le_gt_dec 1 kx) as [?|Hk0]; [assumption|]. exfalso.
    assert (Hkz : kx = 0) by (clear - Hkx Hk0; lia). specialize (Hx2 Hkz).
    assert (Hle : Dx * my <= rx * my) by (apply Z.mul_le_mono_nonneg_r; assumption).
    assert (Dy < ry).
    { apply (mul_lt_cancel _ _ mx); [exact Hmxpos|]. rewrite <- Hcol.
      eapply Z.le_lt_trans; [exact Hle|exact Hlt]. }
    apply Hnz. auto. }
  specialize (Hx1 Hk1).
  assert (HDyge : my * q <= Dy).
  { apply (mul_le_cancel _ _ mx); [exact Hmxpos|]. rewrite Ht, <- Hcol.
    apply Z.mul_le_mono_nonneg_r; assumption. }
  assert (Hdiv : my <> 0 -> (my | ry - my * q)).
  { intros Hmyn. apply Z.divide_sub_r; [apply Hdy; exact Hmyn|].
    apply Z.divide_mul_l; apply Z.divide_refl. }
  clear Hx2 Hy3 Hdy Hnz Hdx.
  split; [rewrite (u64_small (my * q)) by (clear - Ht0 Htlt Hry HF63; lia);
          apply u64_small; clear - Ht0 Htlt Hry HF63; lia|].
  split; [exact Hk1|].
  unfold dda_state.
  destruct Hsx as [Hsx|Hsx]; destruct Hsy as [Hsy|Hsy];
    repeat match goal with
           | H : ?a = ?b -> _, H' : ?a = ?b |- _ => specialize (H H')
           | H : _ = _ -> _ |- _ => clear H
           end;
    (split; [lia|]); (split; [lia|]); (split; [intros _; lia|]); (split; [intros _; lia|]);
    (split; [exact HdF|]); (split; [exact Hdiv|]); clear HdF HdF' Hdiv;
    (split; [lia|]); (split; [lia|]); (split; [lia|]); (split; [lia|]);
    (split; [lia|]); (split; [lia|]); (split; [lia|]);
    (split; [intros ?; lia|]); (split; [intros ?; lia|]); (split; [intros ?; lia|]);
    intros ?; lia.
Qed.

(** Crossing a horizontal boundary. *)
Lemma dda_step_y gx gy rx ry kx ky Dx Dy :
  dda_state F mx my sx sy endGX endGY gx gy rx ry kx ky Dx Dy ->
  ry * mx < rx * my -> ~ (kx = 0 /\ ky = 0) ->
  u64 (rx - u64 (mx * (ry / my))) = rx - mx * (ry / my) /\
  1 <= ky /\
  dda_state F mx my sx sy endGX endGY gx (gy + sy) (rx - mx * (ry / my)) F
            kx (ky - 1) (Dx - mx * (ry / my)) (Dy - ry).
Proof.
  intros Hs Hlt Hnz.
  destruct (dda_reach_x _ _ _ _ _ _ _ _ Hs) as (_ & _ & Hx3 & _).
  destruct (dda_reach_y _ _ _ _ _ _ _ _ Hs) as (Hy1 & Hy2 & _ & _).
  pose proof dda_F_fits as HF63.
  destruct Hc as (HF & Hmx & Hmy & Hm & _ & Hsx & Hsy & _ & _ & HdF & HdF').
  destruct Hs as (Hrx & Hry & Hrx1 & Hry1 & Hdx & Hdy & Hkx & Hky & Hex & Hey & HDx & HDy
                  & Hcol & Hxp & Hxn & Hyp & Hyn).
  assert (Hmypos : 0 < my).
  { destruct (Z.eq_dec my 0) as [->|]; [|clear - Hmy n; lia].
    rewrite Z.mul_0_r in Hlt.
    assert (0 <= ry * mx) by (apply Z.mul_nonneg_nonneg; [apply Hry|exact Hmx]).
    clear - Hlt H. lia. }
  specialize (Hdy ltac:(clear - Hmypos; lia)).
  pose proof (divide_quotient ry my Hmypos Hdy) as Hq.
  assert (Hq0 : 0 <= ry / my) by (apply Z.div_pos; [apply Hry|exact Hmypos]).
  set (q := ry / my) in *. clearbody q.
  assert (Ht : mx * q * my = ry * mx) by (rewrite Hq; ring).
  assert (Htlt : mx * q < rx).
  { apply (mul_lt_cancel _ _ my); [exact Hmypos|]. rewrite Ht. exact Hlt. }
  assert (Ht0 : 0 <= mx * q) by (apply Z.mul_nonneg_nonneg; assumption).
  assert (Hk1 : 1 <= ky).
  { destruct (Z_le_gt_dec 1 ky) as [?|Hk0]; [assumption|]. exfalso.
    assert (Hkz : ky = 0) by (clear - Hky Hk0; lia). specialize (Hy2 Hkz).
    assert (Hle : Dy * mx <= ry * mx) by (apply Z.mul_le_mono_nonneg_r; assumption).
    assert (Dx < rx).
    { apply (mul_lt_cancel _ _ my); [exact Hmypos|]. rewrite Hcol.
      eapply Z.le_lt_trans; [exact Hle|exact Hlt]. }
    apply Hnz. auto. }
  specialize (Hy1 Hk1).
  assert (HDxge : mx * q <= Dx).
  { apply (mul_le_cancel _ _ my); [exact Hmypos|]. rewrite Ht, Hcol.
    apply Z.mul_le_mono_nonneg_r; assumption. }
  assert (Hdiv : mx <> 0 -> (mx | rx - mx * q)).
  { intros Hmxn. apply Z.divide_sub_r; [apply Hdx; exact Hmxn|].
    apply Z.divide_mul_l; apply Z.divide_refl. }
  clear Hy2 Hx3 Hdx Hnz Hdy.
  split; [rewrite (u64_small (mx * q)) by (clear - Ht0 Htlt Hrx HF63; lia);
          apply u64_small; clear - Ht0 Htlt Hrx HF63; lia|].
  split; [exact Hk1|].
  unfold dda_state.
  destruct Hsx as [Hsx|Hsx]; destruct Hsy as [Hsy|Hsy];
    repeat match goal with
           | H : ?a = ?b -> _, H' : ?a = ?b |- _ => specialize (H H')
           | H : _ = _ -> _ |- _ => clear H
           end;
    (split; [lia|]); (split; [lia|]); (split; [intros _; lia|]); (split; [intros _; lia|]);
    (split; [exact Hdiv|]); (split; [exact HdF'|]); clear HdF HdF' Hdiv;
    (split; [lia|]); (split; [lia|]); (split; [lia|]); (split; [lia|]);
    (split; [lia|]); (split; [lia|]); (split; [lia|]);
    (split; [intros ?; lia|]); (split; [intros ?; lia|]); (split; [intros ?; lia|]);
    intros ?; lia.
Qed.

(** Passing through a corner: unless one of the two guards ends the loop,
    a column and a row are left to cross. *)
Lemma dda_step_corner gx gy rx ry kx ky Dx Dy :
  dda_state F mx my sx sy endGX endGY gx gy rx ry kx ky Dx Dy ->
  rx * my = ry * mx -> ~ (kx = 0 /\ ky = 0) ->
  ~ (kx = 0 /\ ky = 1) -> ~ (ky = 0 /\ kx = 1) ->
  1 <= kx /\ 1 <= ky /\
  dda_state F mx my sx sy endGX endGY (gx + sx) (gy + sy) F F
            (kx - 1) (ky - 1) (Dx - rx) (Dy - ry).
Proof.
  intros Hs Heq Hnz Hg1 Hg2.
  destruct (dda_reach_x _ _ _ _ _ _ _ _ Hs) as (Hx1 & Hx2 & _ & Hx4).
  destruct (dda_reach_y _ _ _ _ _ _ _ _ Hs) as (Hy1 & Hy2 & _ & Hy4).
  destruct Hc as (HF & Hmx & Hmy & Hm & _ & Hsx & Hsy & Hmx0 & Hmy0 & HdF & HdF').
  destruct Hs as (Hrx & Hry & Hrx1 & Hry1 & Hdx & Hdy & Hkx & Hky & Hex & Hey & HDx & HDy
                  & Hcol & Hxp & Hxn & Hyp & Hyn).
  assert (Hk1 : 1 <= kx).
  { destruct (Z_le_gt_dec 1 kx) as [?|Hk0]; [assumption|]. exfalso.
    assert (Hkz : kx = 0) by (clear - Hkx Hk0; lia). specialize (Hx2 Hkz).
    destruct (Z.eq_dec mx 0) as [Hz|Hnzx].
    - specialize (Hmx0 Hz). specialize (Hrx1 Hmx0). subst mx.
      rewrite Z.mul_0_r in Heq. apply Z.mul_eq_0 in Heq. clear - Heq Hrx1 Hm. lia.
    - assert (Hle : Dx * my <= rx * my) by (apply Z.mul_le_mono_nonneg_r; assumption).
      assert (HDyle : Dy <= ry).
      { apply (mul_le_cancel _ _ mx); [clear - Hmx Hnzx; lia|]. rewrite <- Hcol, <- Heq. exact Hle. }
      specialize (Hy4 HDyle).
      assert (ky = 0 \/ ky = 1) as [?|?] by (clear - Hky Hy4; lia); [apply Hnz|apply Hg1]; auto. }
  assert (Hk2 : 1 <= ky).
  { destruct (Z_le_gt_dec 1 ky) as [?|Hk0]; [assumption|]. exfalso.
    assert (Hkz : ky = 0) by (clear - Hky Hk0; lia). specialize (Hy2 Hkz).
    destruct (Z.eq_dec my 0) as [Hz|Hnzy].
    - specialize (Hmy0 Hz). specialize (Hry1 Hmy0). subst my.
      rewrite Z.mul_0_r in Heq. symmetry in Heq. apply Z.mul_eq_0 in Heq.
      clear - Heq Hry1 Hm. lia.
    - assert (Hle : Dy * mx <= ry * mx) by (apply Z.mul_le_mono_nonneg_r; assumption).
      assert (HDxle : Dx <= rx).
      { apply (mul_le_cancel _ _ my); [clear - Hmy Hnzy; lia|]. rewrite Hcol, Heq. exact Hle. }
      specialize (Hx4 HDxle).
      assert (kx = 1) by (clear - Hk1 Hx4; lia). apply Hg2; auto. }
  specialize (Hx1 Hk1). specialize (Hy1 Hk2).
  clear Hx2 Hx4 Hy2 Hy4 Hnz Hg1 Hg2 Hdx Hdy Hmx0 Hmy0.
  split; [exact Hk1|]. split; [exact Hk2|].
  unfold dda_state.
  destruct Hsx as [Hsx|Hsx]; destruct Hsy as [Hsy|Hsy];
    repeat match goal with
           | H : ?a = ?b -> _, H' : ?a = ?b |- _ => specialize (H H')
           | H : _ = _ -> _ |- _ => clear H
           end;
    (split; [lia|]); (split; [lia|]); (split; [intros _; lia|]); (split; [intros _; lia|]);
    (split; [exact HdF|]); (split; [exact HdF'|]); clear HdF HdF';
    (split; [lia|]); (split; [lia|]); (split; [lia|]); (split; [lia|]);
    (split; [lia|]); (split; [lia|]); (split; [lia|]);
    (split; [intros ?; lia|]); (split; [intros ?; lia|]); (split; [intros ?; lia|]);
    intros ?; lia.
Qed.

End Steps.

(** * The start of a traversal *)

(** One axis of the start state: [v] and [endV] are the whole coordinates
    of the ends of the segment, [C = 2^sh] the cell size, [scale] the
    scale of the traversal. *)
Lemma dda_axis sh v endV scale :
  0 <= sh -> 0 < scale ->
  let C := 2 ^ sh in
  let m := Z.abs (endV - v) in
  (m <> 0 -> (m | scale)) ->
  let g := Z.shiftr v sh in
  let eg := Z.shiftr endV sh in
  let sgn := if v <=? endV then 1 else -1 in
  let F := C * scale in
  let r0 := scale * Z.land v (C - 1) in
  let r := if 0 <? sgn then F - r0 else r0 in
  let k := Z.abs (eg - g) in
  let D := scale * m in
  0 <= r0 <= F /\ 0 <= r <= F /\ (sgn = 1 -> 0 < r) /\ (m <> 0 -> (m | r)) /\
  0 <= k /\ eg = g + sgn * k /\ 0 <= D /\
  (sgn = 1 -> r + (k - 1) * F <= D < r + k * F) /\
  (sgn = -1 -> r + (k - 1) * F < D <= r + k * F) /\
  (m = 0 -> sgn = 1) /\ (m = 0 -> g = eg) /\ (sgn = 1 \/ sgn = -1).
Proof.
  intros Hsh Hscale C m Hdiv g eg sgn F r0 r k D.
  assert (HC : 0 < C) by (apply Z.pow_pos_nonneg; lia).
  assert (Ha : Z.land v (C - 1) = v mod C).
  { unfold C. replace (2 ^ sh - 1) with (Z.ones sh) by (rewrite Z.ones_equiv; lia).
    apply Z.land_ones. exact Hsh. }
  assert (Hg : g = v / C) by (apply Z.shiftr_div_pow2; exact Hsh).
  assert (Heg : eg = endV / C) by (apply Z.shiftr_div_pow2; exact Hsh).
  pose proof (Z.mod_pos_bound v C HC) as Hab.
  pose proof (Z.mod_pos_bound endV C HC) as Hbb.
  pose proof (Z.div_mod v C ltac:(lia)) as Hv.
  pose proof (Z.div_mod endV C ltac:(lia)) as Hev.
  rewrite <- Hg in Hv. rewrite <- Heg in Hev.
  set (a := v mod C) in *. set (b := endV mod C) in *.
  subst r0 r. rewrite Ha in *. clear Ha. clearbody a b g eg.
  assert (Hr0 : 0 <= scale * a <= F).
  { unfold F. split; [apply Z.mul_nonneg_nonneg; lia|].
    rewrite (Z.mul_comm C scale). apply Z.mul_le_mono_nonneg_l; lia. }
  assert (Hdr0 : m <> 0 -> (m | scale * a)).
  { intros Hm. apply Z.divide_mul_l. apply Hdiv. exact Hm. }
  assert (HdF : m <> 0 -> (m | F)).
  { intros Hm. unfold F. apply Z.divide_mul_r. apply Hdiv. exact Hm. }
  assert (Hscale_le : forall A B, A <= B -> scale * A <= scale * B).
  { intros A B HAB. apply Z.mul_le_mono_nonneg_l; lia. }
  assert (Hscale_lt : forall A B, A < B -> scale * A < scale * B).
  { intros A B HAB. apply Z.mul_lt_mono_pos_l; lia. }
  assert (HD0 : 0 <= D) by (apply Z.mul_nonneg_nonneg; unfold m; lia).
  clear Hdiv.
  destruct (Z.leb_spec v endV) as [Hle|Hgt].
  - (* forward *)
    assert (Hgle : g <= eg).
    { destruct (Z_le_gt_dec g eg) as [?|Hc]; [assumption|]. exfalso.
      assert (C * (eg + 1) <= C * g) by (apply Z.mul_le_mono_nonneg_l; lia). lia. }
    assert (Hk : k = eg - g) by (unfold k; lia).
    assert (Hm : m = endV - v) by (unfold m; lia).
    subst sgn. change (0 <? 1) with true. cbv iota.
    assert (HrF : F - scale * a = scale * (C - a)) by (unfold F; ring).
    assert (HkF : forall j, scale * (C - a) + j * F = scale * ((C - a) + j * C))
      by (intros; unfold F; ring).
    split; [exact Hr0|]. split; [lia|].
    split; [intros _; rewrite HrF; apply Z.mul_pos_pos; lia|].
    split; [intros Hmn; apply Z.divide_sub_r; auto|].
    split; [lia|]. split; [lia|]. split; [exact HD0|].
    split; [|split; [intros; lia|split; [reflexivity|split; [|left; reflexivity]]]].
    + intros _. rewrite HrF, !HkF. unfold D. split.
      * apply Hscale_le. rewrite Hm, Hk, Hv, Hev. ring_simplify. lia.
      * apply Hscale_lt. rewrite Hm, Hk, Hv, Hev. ring_simplify. lia.
    + intros Hm0. rewrite Hm in Hm0.
      assert (Hveq : v = endV) by lia.
      destruct (Z.eq_dec g eg) as [?|Hne]; [assumption|]. exfalso.
      assert (C * (g + 1) <= C * eg) by (apply Z.mul_le_mono_nonneg_l; lia). lia.
  - (* backward *)
    assert (Hgle : eg <= g).
    { destruct (Z_le_gt_dec eg g) as [?|Hc]; [assumption|]. exfalso.
      assert (C * (g + 1) <= C * eg) by (apply Z.mul_le_mono_nonneg_l; lia). lia. }
    assert (Hk : k = g - eg) by (unfold k; lia).
    assert (Hm : m = v - endV) by (unfold m; lia).
    subst sgn. change (0 <? -1) with false. cbv iota.
    assert (HkF : forall j, scale * a + j * F = scale * (a + j * C))
      by (intros; unfold F; ring).
    split; [exact Hr0|]. split; [exact Hr0|].
    split; [intros; lia|]. split; [exact Hdr0|].
    split; [lia|]. split; [lia|]. split; [exact HD0|].
    split; [intros; lia|].
    split; [|split; [intros; lia|split; [intros; lia|right; reflexivity]]].
    intros _. rewrite !HkF. unfold D. split.
    + apply Hscale_lt. rewrite Hm, Hk, Hv, Hev. ring_simplify. lia.
    + apply Hscale_le. rewrite Hm, Hk, Hv, Hev. ring_simplify. lia.
Qed.

(** The state [Line] enters its loop with, for a segment that leaves its
    first cell and whose products fit 63 bits: the unsigned arithmetic
    does not wrap, and the state is one of an exact traversal. *)
Lemma dda_start sh x y endX endY :
  0 <= sh ->
  let C := 2 ^ sh in
  let mx := Z.abs (endX - x) in
  let my := Z.abs (endY - y) in
  let scale := Z.max mx 1 * Z.max my 1 in
  let F := C * scale in
  F * Z.max mx my < 2 ^ 63 ->
  (Z.shiftr x sh =? Z.shiftr endX sh) && (Z.shiftr y sh =? Z.shiftr endY sh) = false ->
  let sx := if x <=? endX then 1 else -1 in
  let sy := if y <=? endY then 1 else -1 in
  let rx0 := scale * Z.land x (C - 1) in
  let ry0 := scale * Z.land y (C - 1) in
  let rx := if 0 <? sx then F - rx0 else rx0 in
  let ry := if 0 <? sy then F - ry0 else ry0 in
  (u64 mx = mx /\ u64 my = my /\ u64 scale = scale /\ u64 F = F /\
   u64 rx0 = rx0 /\ u64 ry0 = ry0 /\ u64 (F - rx0) = F - rx0 /\ u64 (F - ry0) = F - ry0) /\
  dda_consts F mx my sx sy /\
  dda_state F mx my sx sy (Z.shiftr endX sh) (Z.shiftr endY sh) (Z.shiftr x sh) (Z.shiftr y sh)
            rx ry (Z.abs (Z.shiftr endX sh - Z.shiftr x sh))
            (Z.abs (Z.shiftr endY sh - Z.shiftr y sh)) (scale * mx) (scale * my).
Proof.
  intros Hsh C mx my scale F Hfit Hcells sx sy rx0 ry0 rx ry.
  assert (HC : 1 <= C) by (unfold C; pose proof (Z.pow_pos_nonneg 2 sh); lia).
  assert (Hmx : 0 <= mx) by (unfold mx; lia).
  assert (Hmy : 0 <= my) by (unfold my; lia).
  assert (Hscale : 1 <= scale).
  { unfold scale. change 1 with (1 * 1) at 1. apply Z.mul_le_mono_nonneg; lia. }
  assert (HdX : mx <> 0 -> (mx | scale)).
  { intros Hm. unfold scale. rewrite (Z.max_l mx 1) by lia. apply Z.divide_factor_l. }
  assert (HdY : my <> 0 -> (my | scale)).
  { intros Hm. unfold scale. rewrite (Z.max_l my 1) by lia. apply Z.divide_factor_r. }
  pose proof (dda_axis sh x endX scale Hsh ltac:(lia) HdX) as HX.
  pose proof (dda_axis sh y endY scale Hsh ltac:(lia) HdY) as HY.
  cbv zeta in HX, HY.
  fold C in HX, HY. fold mx in HX. fold my in HY. fold F in HX, HY.
  fold sx in HX. fold sy in HY. fold rx0 in HX. fold ry0 in HY.
  fold rx in HX. fold ry in HY.
  destruct HX as (Hrx0 & Hrx & Hrx1 & Hdrx & Hkx & Hex & HDx & Hxp & Hxn & Hmx0 & Hgx & Hsx).
  destruct HY as (Hry0 & Hry & Hry1 & Hdry & Hky & Hey & HDy & Hyp & Hyn & Hmy0 & Hgy & Hsy).
  assert (HFdef : F = C * scale) by reflexivity.
  clearbody mx my scale F rx0 ry0 rx ry sx sy C.
  assert (Hm : 0 < mx + my).
  { destruct (Z.eq_dec mx 0) as [Hx0|Hx0]; [|clear - Hmx Hmy Hx0; lia].
    destruct (Z.eq_dec my 0) as [Hy0|Hy0]; [|clear - Hmx Hmy Hy0; lia].
    rewrite (Hgx Hx0), (Hgy Hy0), !Z.eqb_refl in Hcells. discriminate. }
  assert (HF : 1 <= F).
  { rewrite HFdef. change 1 with (1 * 1) at 1.
    apply Z.mul_le_mono_nonneg; clear - HC Hscale; lia. }
  assert (HF63 : F < 2 ^ 63).
  { assert (F * 1 <= F * Z.max mx my)
      by (apply Z.mul_le_mono_nonneg_l; clear - HF Hm Hmx Hmy; lia).
    clear - H Hfit. lia. }
  assert (HsF : scale <= F).
  { rewrite HFdef. rewrite <- (Z.mul_1_l scale) at 1.
    apply Z.mul_le_mono_nonneg_r; clear - HC Hscale; lia. }
  assert (HmF : Z.max mx my < 2 ^ 63).
  { assert (1 * Z.max mx my <= F * Z.max mx my)
      by (apply Z.mul_le_mono_nonneg_r; clear - HF Hm Hmx Hmy; lia).
    clear - H Hfit. lia. }
  assert (H64 : 2 ^ 63 < 2 ^ 64) by reflexivity.
  split; [|split].
  - repeat split; apply u64_small; clear - Hmx Hmy Hscale HF HF63 HsF HmF H64 Hrx0 Hry0; lia.
  - unfold dda_consts.
    split; [clear - HF; lia|]. split; [exact Hmx|]. split; [exact Hmy|]. split; [exact Hm|].
    split; [exact Hfit|]. split; [exact Hsx|]. split; [exact Hsy|].
    split; [exact Hmx0|]. split; [exact Hmy0|].
    split; intros Hn; rewrite HFdef; apply Z.divide_mul_r; auto.
  - unfold dda_state.
    split; [exact Hrx|]. split; [exact Hry|]. split; [exact Hrx1|]. split; [exact Hry1|].
    split; [exact Hdrx|]. split; [exact Hdry|]. split; [exact Hkx|]. split; [exact Hky|].
    split; [exact Hex|]. split; [exact Hey|]. split; [exact HDx|]. split; [exact HDy|].
    split; [ring|]. split; [exact Hxp|]. split; [exact Hxn|]. split; [exact Hyp|exact Hyn].
Qed.

(** * The cells of the traversal *)

(** A step of the traversal leads to a state of the traversal with fewer
    cells left to cross, in neither direction more. *)
Lemma dda_next_state F mx my sx sy endGX endGY gx gy rx ry kx ky Dx Dy gx' gy' rx' ry' :
  dda_consts F mx my sx sy ->
  dda_state F mx my sx sy endGX endGY gx gy rx ry kx ky Dx Dy ->
  dda_next endGX endGY sx sy mx my F gx gy rx ry = Some (gx', gy', rx', ry') ->
  exists kx' ky' Dx' Dy',
    dda_state F mx my sx sy endGX endGY gx' gy' rx' ry' kx' ky' Dx' Dy' /\
    0 <= kx' <= kx /\ 0 <= ky' <= ky /\ kx' + ky' < kx + ky.
Proof.
  intros Hc Hs Hnext. unfold dda_next in Hnext.
  assert (Hk : 0 <= kx /\ 0 <= ky /\ endGX = gx + sx * kx /\ endGY = gy + sy * ky).
  { destruct Hs as (_ & _ & _ & _ & _ & _ & Hkx & Hky & Hex & Hey & _). tauto. }
  destruct Hk as (Hkx & Hky & Hex & Hey).
  destruct ((gx =? endGX) && (gy =? endGY)) eqn:Hend; [discriminate|].
  assert (Hnz : ~ (kx = 0 /\ ky = 0)).
  { intros [-> ->]. rewrite !Z.mul_0_r, !Z.add_0_r in *. subst endGX endGY.
    rewrite !Z.eqb_refl in Hend. discriminate. }
  rewrite (dda_diff _ _ _ _ _ _ _ Hc _ _ _ _ _ _ _ _ Hs) in Hnext.
  destruct (Z.eqb_spec (rx * my - ry * mx) 0) as [Hd|Hd].
  - destruct ((gx =? endGX) && (gy + sy =? endGY)) eqn:Hg1; [discriminate|].
    destruct ((gy =? endGY) && (gx + sx =? endGX)) eqn:Hg2; [discriminate|].
    injection Hnext as <- <- <- <-.
    assert (Hn1 : ~ (kx = 0 /\ ky = 1)).
    { intros [-> ->]. rewrite Z.mul_0_r, Z.add_0_r, Z.mul_1_r in *. subst endGX endGY.
      rewrite !Z.eqb_refl in Hg1. discriminate. }
    assert (Hn2 : ~ (ky = 0 /\ kx = 1)).
    { intros [-> ->]. rewrite Z.mul_0_r, Z.add_0_r, Z.mul_1_r in *. subst endGX endGY.
      rewrite !Z.eqb_refl in Hg2. discriminate. }
    destruct (dda_step_corner _ _ _ _ _ _ _ Hc _ _ _ _ _ _ _ _ Hs ltac:(lia) Hnz Hn1 Hn2)
      as (Hk1 & Hk2 & Hs').
    exists (kx - 1), (ky - 1), (Dx - rx), (Dy - ry). split; [exact Hs'|]. lia.
  - destruct (Z.ltb_spec (rx * my - ry * mx) 0) as [Hlt|Hge].
    + destruct (dda_step_x _ _ _ _ _ _ _ Hc _ _ _ _ _ _ _ _ Hs ltac:(lia) Hnz)
        as (Hu & Hk1 & Hs').
      rewrite Hu in Hnext. injection Hnext as <- <- <- <-.
      exists (kx - 1), ky, (Dx - rx), (Dy - my * (rx / mx)). split; [exact Hs'|]. lia.
    + destruct (dda_step_y _ _ _ _ _ _ _ Hc _ _ _ _ _ _ _ _ Hs ltac:(lia) Hnz)
        as (Hu & Hk1 & Hs').
      rewrite Hu in Hnext. injection Hnext as <- <- <- <-.
      exists kx, (ky - 1), (Dx - mx * (ry / my)), (Dy - ry). split; [exact Hs'|]. lia.
Qed.

(** The cells of the traversal do not depend on the rounds allowed, once
    these exceed the cells left to cross; and every one of them lies
    between the cell it starts from and the end cell, in both
    directions. *)
Lemma dda_cells_stable F mx my sx sy endGX endGY :
  dda_consts F mx my sx sy ->
  forall fuel fuel' gx gy rx ry kx ky Dx Dy,
    dda_state F mx my sx sy endGX endGY gx gy rx ry kx ky Dx Dy ->
    (Z.to_nat (kx + ky) < fuel)%nat -> (Z.to_nat (kx + ky) < fuel')%nat ->
    dda_cells fuel endGX endGY sx sy mx my F gx gy rx ry
    = dda_cells fuel' endGX endGY sx sy mx my F gx gy rx ry.
Proof.
  intros Hc. induction fuel as [|fuel IH]; intros fuel' gx gy rx ry kx ky Dx Dy Hs Hf Hf'.
  - lia.
  - destruct fuel' as [|fuel']; [lia|]. cbn [dda_cells]. f_equal.
    destruct (dda_next endGX endGY sx sy mx my F gx gy rx ry)
      as [[[[gx' gy'] rx'] ry']|] eqn:Hnext; [|reflexivity].
    destruct (dda_next_state _ _ _ _ _ _ _ _ _ _ _ _ _ _ _ _ _ _ _ Hc Hs Hnext)
      as (kx' & ky' & Dx' & Dy' & Hs' & Hkx & Hky & Hlt).
    apply (IH fuel' _ _ _ _ _ _ _ _ Hs'); lia.
Qed.

Lemma dda_cells_between F mx my sx sy endGX endGY :
  dda_consts F mx my sx sy ->
  forall fuel gx gy rx ry kx ky Dx Dy,
    dda_state F mx my sx sy endGX endGY gx gy rx ry kx ky Dx Dy ->
    forall cell, In cell (dda_cells fuel endGX endGY sx sy mx my F gx gy rx ry) ->
    exists kx' ky', 0 <= kx' <= kx /\ 0 <= ky' <= ky /\
                    endGX = fst cell + sx * kx' /\ endGY = snd cell + sy * ky'.
Proof.
  intros Hc. induction fuel as [|fuel IH]; intros gx gy rx ry kx ky Dx Dy Hs cell Hin.
  - destruct Hin.
  - cbn [dda_cells] in Hin. destruct Hin as [<-|Hin].
    + exists kx, ky. cbn [fst snd].
      destruct Hs as (_ & _ & _ & _ & _ & _ & Hkx & Hky & Hex & Hey & _). lia.
    + destruct (dda_next endGX endGY sx sy mx my F gx gy rx ry)
        as [[[[gx' gy'] rx'] ry']|] eqn:Hnext; [|destruct Hin].
      destruct (dda_next_state _ _ _ _ _ _ _ _ _ _ _ _ _ _ _ _ _ _ _ Hc Hs Hnext)
        as (kx' & ky' & Dx' & Dy' & Hs' & Hkx & Hky & Hlt).
      destruct (IH _ _ _ _ _ _ _ _ Hs' cell Hin) as (kx2 & ky2 & H1 & H2 & H3 & H4).
      exists kx2, ky2. lia.
Qed.

(** * The traversal ends *)

Section Termination.
Variable IsEnemy : Gov_ptr -> Gov_ptr -> bool.
Variable Length : Point -> float.
Variable Unit : Point -> Point.

(** The loop of [Line] is left by a [break] before it has gone round more
    often than there are columns and rows to cross, plus one. *)
Lemma walk_finishes mem s epoch from to pGov target F mx my sx sy endGX endGY :
  dda_consts F mx my sx sy ->
  forall fuel gx gy rx ry kx ky Dx Dy sn c p,
    dda_state F mx my sx sy endGX endGY gx gy rx ry kx ky Dx Dy ->
    (Z.to_nat (kx + ky) < fuel)%nat ->
    fst (fst (fst (walk IsEnemy fuel mem s epoch from to pGov target endGX endGY sx sy
                        mx my F gx gy rx ry sn c p))) = true.
Proof.
  intros Hc. induction fuel as [|fuel IH]; intros gx gy rx ry kx ky Dx Dy sn c p Hs Hfuel.
  - lia.
  - cbn [walk].
    destruct (fold_left _ _ _) as [[sn1 c1] p1].
    destruct (negb (closest_body c1 =? nullptr)%nat || ((gx =? endGX) && (gy =? endGY)))
      eqn:Hbreak; [reflexivity|].
    apply orb_false_iff in Hbreak. destruct Hbreak as [_ Hend].
    assert (Hk : 0 <= kx /\ 0 <= ky /\ endGX = gx + sx * kx /\ endGY = gy + sy * ky
                 /\ (sx = 1 \/ sx = -1) /\ (sy = 1 \/ sy = -1)).
    { destruct Hc as (_ & _ & _ & _ & _ & Hsx & Hsy & _).
      destruct Hs as (_ & _ & _ & _ & _ & _ & Hkx & Hky & Hex & Hey & _). tauto. }
    destruct Hk as (Hkx & Hky & Hex & Hey & Hsx & Hsy).
    assert (Hnz : ~ (kx = 0 /\ ky = 0)).
    { intros [-> ->]. rewrite !Z.mul_0_r, !Z.add_0_r in *. subst endGX endGY.
      rewrite !Z.eqb_refl in Hend. discriminate. }
    rewrite (dda_diff _ _ _ _ _ _ _ Hc _ _ _ _ _ _ _ _ Hs).
    destruct (Z.eqb_spec (rx * my - ry * mx) 0) as [Hd|Hd].
    + destruct ((gx =? endGX) && (gy + sy =? endGY)) eqn:Hg1; [reflexivity|].
      destruct ((gy =? endGY) && (gx + sx =? endGX)) eqn:Hg2; [reflexivity|].
      assert (Hn1 : ~ (kx = 0 /\ ky = 1)).
      { intros [-> ->]. rewrite Z.mul_0_r, Z.add_0_r, Z.mul_1_r in *. subst endGX endGY.
        rewrite !Z.eqb_refl in Hg1. discriminate. }
      assert (Hn2 : ~ (ky = 0 /\ kx = 1)).
      { intros [-> ->]. rewrite Z.mul_0_r, Z.add_0_r, Z.mul_1_r in *. subst endGX endGY.
        rewrite !Z.eqb_refl in Hg2. discriminate. }
      destruct (dda_step_corner _ _ _ _ _ _ _ Hc _ _ _ _ _ _ _ _ Hs ltac:(lia) Hnz Hn1 Hn2)
        as (Hk1 & Hk2 & Hs').
      apply (IH _ _ _ _ _ _ _ _ _ _ _ Hs'). lia.
    + destruct (Z.ltb_spec (rx * my - ry * mx) 0) as [Hlt|Hge].
      * destruct (dda_step_x _ _ _ _ _ _ _ Hc _ _ _ _ _ _ _ _ Hs ltac:(lia) Hnz)
          as (Hu & Hk1 & Hs').
        rewrite Hu. apply (IH _ _ _ _ _ _ _ _ _ _ _ Hs'). lia.
      * destruct (dda_step_y _ _ _ _ _ _ _ Hc _ _ _ _ _ _ _ _ Hs ltac:(lia) Hnz)
          as (Hu & Hk1 & Hs').
        rewrite Hu. apply (IH _ _ _ _ _ _ _ _ _ _ _ Hs'). lia.
Qed.

(** The cells of a [Line] call: the same for any two numbers of rounds
    that suffice, the first of them the cell of the start of the segment,
    and each of them between the cells of the two ends of the segment. *)
Lemma Line_cells_spec s from to fuel :
  grid_ok s ->
  single_cell s from to = true \/ dda_fits s from to ->
  (Z.to_nat (cells_ahead s from to) + 1 < fuel)%nat ->
  (forall fuel', (Z.to_nat (cells_ahead s from to) + 1 < fuel')%nat ->
     Line_cells fuel' s from to = Line_cells fuel s from to) /\
  (exists rest,
     Line_cells fuel s from to = (cell_of s (Point.X from), cell_of s (Point.Y from)) :: rest) /\
  (forall cell, In cell (Line_cells fuel s from to) ->
     Z.min (cell_of s (Point.X from)) (cell_of s (Point.X to)) <= fst cell
       <= Z.max (cell_of s (Point.X from)) (cell_of s (Point.X to)) /\
     Z.min (cell_of s (Point.Y from)) (cell_of s (Point.Y to)) <= snd cell
       <= Z.max (cell_of s (Point.Y from)) (cell_of s (Point.Y to))).
Proof.
  intros Hgrid Hcase Hfuel.
  destruct fuel as [|[|fuel]]; [lia|lia|].
  destruct (single_cell s from to) eqn:Hsingle.
  - split; [|split].
    + intros [|fuel'] Hf'; [lia|]. cbn [Line_cells]. cbv zeta. rewrite Hsingle. reflexivity.
    + cbn [Line_cells]. cbv zeta. rewrite Hsingle. eexists. reflexivity.
    + cbn [Line_cells]. cbv zeta. rewrite Hsingle. intros cell [<-|[]]. cbn [fst snd]. lia.
  - destruct Hcase as [Hcase|Hfit]; [discriminate|].
    destruct Hgrid as (Hsh & HC & HM & _).
    unfold dda_fits in Hfit. cbv zeta in Hfit.
    pose proof Hsingle as Hsingle'. unfold single_cell, cell_of in Hsingle'.
    unfold cells_ahead in Hfuel.
    rewrite HC in Hfit.
    destruct (dda_start (SHIFT s) (double_to_int (Point.X from)) (double_to_int (Point.Y from))
                (double_to_int (Point.X to)) (double_to_int (Point.Y to))
                ltac:(lia) Hfit Hsingle')
      as ((U1 & U2 & U3 & U4 & U5 & U6 & U7 & U8) & Hc & Hs).
    match type of Hs with
    | dda_state ?F ?mx ?my ?sx ?sy ?ex ?ey ?gx ?gy ?rx ?ry _ _ _ _ =>
        assert (Hcells : forall f,
          Line_cells (S f) s from to = dda_cells f ex ey sx sy mx my F gx gy rx ry)
    end.
    { intros f. cbn [Line_cells]. cbv zeta. rewrite Hsingle, HM, HC. unfold cell_of.
      rewrite U1, U2, U3, U4, U5, U6, U7, U8. reflexivity. }
    unfold cell_of in Hfuel |- *.
    split; [|split].
    + intros [|fuel'] Hf'; [lia|]. rewrite !Hcells. unfold cells_ahead, cell_of in Hf'.
      apply (dda_cells_stable _ _ _ _ _ _ _ Hc _ _ _ _ _ _ _ _ _ _ Hs); lia.
    + rewrite Hcells. cbn [dda_cells]. eexists. reflexivity.
    + intros cell Hin. rewrite Hcells in Hin.
      destruct (dda_cells_between _ _ _ _ _ _ _ Hc _ _ _ _ _ _ _ _ _ Hs cell Hin)
        as (kx' & ky' & Hkx & Hky & Hex & Hey).
      destruct Hc as (_ & _ & _ & _ & _ & Hsx & Hsy & _).
      destruct Hs as (_ & _ & _ & _ & _ & _ & _ & _ & Hex0 & Hey0 & _).
      clear - Hkx Hky Hex Hey Hsx Hsy Hex0 Hey0.
      destruct Hsx as [Hsx|Hsx], Hsy as [Hsy|Hsy];
        rewrite Hsx in Hex, Hex0; rewrite Hsy in Hey, Hey0; lia.
Qed.

(** [Line] returns: a call answered in one cell, or one whose segment is
    within [MAX_VELOCITY] and whose products fit 63 bits, needs no more
    rounds than the segment crosses cell boundaries, plus two. *)
Lemma Line_returns mem s p from to ch pGov target fuel :
  grid_ok s ->
  single_cell s from to = true \/ (over_length Length from to = false /\ dda_fits s from to) ->
  (Z.to_nat (cells_ahead s from to) + 1 < fuel)%nat ->
  exists hit ch',
    fst (fst (Line IsEnemy Length Unit fuel mem s p from to ch pGov target)) = Some (hit, ch').
Proof.
  intros Hgrid Hcase Hfuel.
  destruct fuel as [|fuel]; [lia|].
  rewrite Line_unfold. cbv zeta.
  destruct (single_cell s from to) eqn:Hsingle.
  { destruct (fold_left _ _ _) as [c p']. eexists _, _. reflexivity. }
  destruct Hcase as [Hcase|[Hover Hfit]]; [discriminate|].
  rewrite Hover.
  destruct Hgrid as (Hsh & HC & HM & _).
  unfold dda_fits in Hfit. cbv zeta in Hfit. unfold single_cell, cell_of in Hsingle.
  unfold cells_ahead, cell_of in Hfuel. unfold cell_of.
  rewrite HM, HC in *.
  destruct (dda_start (SHIFT s) (double_to_int (Point.X from)) (double_to_int (Point.Y from))
              (double_to_int (Point.X to)) (double_to_int (Point.Y to))
              ltac:(lia) Hfit Hsingle)
    as ((U1 & U2 & U3 & U4 & U5 & U6 & U7 & U8) & Hc & Hs).
  rewrite U1, U2, U3, U4, U5, U6, U7, U8.
  pose proof (walk_finishes mem s (u32 (seenEpoch s + 1)) from to pGov target
                _ _ _ _ _ _ _ Hc fuel _ _ _ _ _ _ _ _ (seen s) (closer_init ch) p Hs
                ltac:(lia)) as Hfin.
  destruct (walk _ _ _ _ _ _ _ _ _ _ _ _ _ _ _ _ _ _ _ _ _ _ _) as [[[fin sn] c] p'].
  simpl in Hfin. subst fin. eexists _, _. reflexivity.
Qed.

End Termination.

(** * The nearest hit of [Line] *)

(** ** [TryNearer] over a series of tests *)

Lemma try_all_app l1 l2 c : try_all (l1 ++ l2) c = try_all l2 (try_all l1 c).
Proof. unfold try_all. apply fold_left_app. Qed.

(** Over numbers, [TryNearer] keeps the first of the smallest ranges
    strictly below the cap, or the cap if there is none. *)
Lemma try_all_spec tests : forall c0,
  is_number (closest_dist c0) = true ->
  Forall (fun t => is_number (snd t) = true) tests ->
  let c := try_all tests c0 in
  (c = c0 /\ Forall (fun t => (closest_dist c0 <=? snd t)%float = true) tests) \/
  ((exists i, In (i, closest_body c, closest_dist c) tests) /\
   (closest_dist c <? closest_dist c0)%float = true /\
   Forall (fun t => (closest_dist c <=? snd t)%float = true) tests).
Proof.
  induction tests as [|[[i b] r] l IH]; intros c0 Hc0 Hnum; cbn zeta.
  - left. split; [reflexivity|constructor].
  - apply Forall_cons in Hnum as [Hr Hnum]. cbn [snd] in Hr.
    unfold try_all. cbn [fold_left fst snd]. fold (try_all l (TryNearer r b c0)).
    unfold is_number in *.
    destruct (closest_dist c0 <=? r)%float eqn:Hle.
    + replace (TryNearer r b c0) with c0 by (unfold TryNearer; rewrite Hle; reflexivity).
      destruct (IH c0 Hc0 Hnum) as [[Heq Hall]|([j Hin] & Hlt & Hall)].
      * left. split; [exact Heq|]. constructor; [exact Hle|exact Hall].
      * right. split; [exists j; right; exact Hin|]. split; [exact Hlt|].
        constructor; [|exact Hall]. cbn [snd].
        apply ltb_leb. eapply ltb_leb_trans; [exact Hlt|exact Hle].
    + pose proof (leb_false_ltb _ _ Hc0 Hr Hle) as Hlt0.
      replace (TryNearer r b c0) with {| closest_dist := r; closest_body := b |}
        by (unfold TryNearer; rewrite Hle; reflexivity).
      destruct (IH {| closest_dist := r; closest_body := b |} Hr Hnum)
        as [[Heq Hall]|([j Hin] & Hlt & Hall)]; cbn [closest_dist] in *.
      * right. rewrite Heq. cbn [closest_dist closest_body].
        split; [exists i; left; reflexivity|]. split; [exact Hlt0|].
        constructor; [exact Hr|exact Hall].
      * right. split; [exists j; right; exact Hin|].
        split; [eapply ltb_leb_trans; [exact Hlt|apply ltb_leb; exact Hlt0]|].
        constructor; [|exact Hall]. cbn [snd]. apply ltb_leb. exact Hlt.
Qed.

(** ** The trace of the tests *)

Lemma traced_refl R p c : traced R p c c p.
Proof. exists []. rewrite app_nil_r. repeat split. constructor. Qed.

Lemma traced_trans R p0 c0 c1 p1 c2 p2 :
  traced R p0 c0 c1 p1 -> traced R p1 c1 c2 p2 -> traced R p0 c0 c2 p2.
Proof.
  intros (e1 & He1 & Hc1 & HR1) (e2 & He2 & Hc2 & HR2). exists (e1 ++ e2).
  split; [rewrite He2, He1, app_assoc; reflexivity|].
  rewrite collides_app, try_all_app, <- Hc1, <- Hc2.
  split; [reflexivity|]. apply Forall_app. split; assumption.
Qed.

Lemma traced_weaken (R R' : Z * Body_ptr * float -> Prop) p0 c0 c p :
  (forall t, R t -> R' t) -> traced R p0 c0 c p -> traced R' p0 c0 c p.
Proof.
  intros HR (e & He & Hc & Hall). exists e. split; [exact He|]. split; [exact Hc|].
  eapply Forall_impl; [exact Hall|exact HR].
Qed.

Lemma traced_events R p0 c0 c p evs :
  traced R p0 c0 c p -> events p = events p0 ++ evs ->
  c = try_all (collides evs) c0 /\ Forall R (collides evs).
Proof.
  intros (e & He & Hc & Hall) Hevs. rewrite He in Hevs. apply app_inv_head in Hevs.
  subst e. split; assumption.
Qed.

Section Nearest.
Variable IsEnemy : Gov_ptr -> Gov_ptr -> bool.
Variable Length : Point -> float.
Variable Unit : Point -> Point.

#[local] Abbreviation LineQ := (Line IsEnemy Length Unit).

(** The range of a test is what [Mask::Collide] returns for the segment. *)
#[local] Abbreviation ranged mem s from to :=
  (fun t : Z * Body_ptr * float => snd t = collide_range mem s from to (snd (fst t))).

Lemma visit_single_traced mem s from to pGov target gx gy c p it :
  let '(c', p') := visit_single IsEnemy mem s from to pGov target gx gy (c, p) it in
  traced (ranged mem s from to) p c c' p'.
Proof.
  unfold visit_single.
  destruct (negb (Entry.x it =? gx) || negb (Entry.y it =? gy)); [apply traced_refl|].
  destruct (government_skips IsEnemy mem pGov target (Entry.body it)).
  - exists [Candidate (Entry.seenIndex it) (Entry.body it)]. repeat split. constructor.
  - eexists [Candidate _ _; MaskCollide _ _ _]. cbn [emit events].
    rewrite <- app_assoc. split; [reflexivity|]. split; [reflexivity|].
    repeat constructor.
Qed.

Lemma visit_stepped_traced mem s epoch from to pGov target gx gy sn c p it :
  let '(sn', c', p') :=
    visit_stepped IsEnemy mem s epoch from to pGov target gx gy (sn, c, p) it in
  traced (ranged mem s from to) p c c' p'.
Proof.
  unfold visit_stepped.
  destruct (negb (Entry.x it =? gx) || negb (Entry.y it =? gy)); [apply traced_refl|].
  destruct (vec_get 0 sn (Entry.seenIndex it) =? epoch); [apply traced_refl|].
  destruct (government_skips IsEnemy mem pGov target (Entry.body it)).
  - exists [Candidate (Entry.seenIndex it) (Entry.body it)]. repeat split. constructor.
  - eexists [Candidate _ _; MaskCollide _ _ _]. cbn [emit events].
    rewrite <- app_assoc. split; [reflexivity|]. split; [reflexivity|].
    repeat constructor.
Qed.

Lemma warn_traced R p c : traced R p c c (warn p).
Proof.
  unfold warn. destruct (warned p); [apply traced_refl|].
  exists [LogError velocity_warning]. repeat split. constructor.
Qed.

(** Any call: the best hit [Line] ends with is what [TryNearer] makes of
    the cap and the mask tests of the call, in their order. *)
Lemma Line_traced fuel mem s p from to ch pGov target :
  let '(r, s', p') := LineQ fuel mem s p from to ch pGov target in
  exists c',
    traced (fun t => exists from' to', ranged mem s from' to' t) p (closer_init ch) c' p' /\
    (r = None \/ r = Some (closest_body c', write_back c' ch)).
Proof.
  pose proof (Line_invariant IsEnemy Length Unit
    (fun st => traced (fun t => exists from' to', ranged mem s from' to' t)
                      p (closer_init ch) (snd (fst st)) (snd st))
    mem s ch pGov target) as H.
  cbn [fst snd] in H.
  specialize (H (fun sn c q Hq => traced_trans _ _ _ _ _ _ _ Hq (warn_traced _ q c))).
  assert (H1 : forall from to gx gy c p0 it, In it (bin s (cell_index s gx gy)) ->
    traced (fun t => exists from' to', ranged mem s from' to' t) p (closer_init ch) c p0 ->
    let '(c', p') := visit_single IsEnemy mem s from to pGov target gx gy (c, p0) it in
    traced (fun t => exists from' to', ranged mem s from' to' t) p (closer_init ch) c' p').
  { intros from0 to0 gx gy c p0 it _ Hq.
    pose proof (visit_single_traced mem s from0 to0 pGov target gx gy c p0 it) as Hv.
    destruct (visit_single _ _ _ _ _ _ _ _ _ _ _) as [c' p'].
    eapply traced_trans; [exact Hq|]. eapply traced_weaken; [|exact Hv].
    intros t Ht. exists from0, to0. exact Ht. }
  specialize (H H1). clear H1.
  assert (H2 : forall from to gx gy st it, In it (bin s (cell_index s gx gy)) ->
    traced (fun t => exists from' to', ranged mem s from' to' t) p (closer_init ch)
           (snd (fst st)) (snd st) ->
    traced (fun t => exists from' to', ranged mem s from' to' t) p (closer_init ch)
           (snd (fst (visit_stepped IsEnemy mem s (u32 (seenEpoch s + 1)) from to pGov target
                                    gx gy st it)))
           (snd (visit_stepped IsEnemy mem s (u32 (seenEpoch s + 1)) from to pGov target
                               gx gy st it))).
  { intros from0 to0 gx gy [[sn c] p0] it _ Hq. cbn [fst snd] in Hq.
    pose proof (visit_stepped_traced mem s (u32 (seenEpoch s + 1)) from0 to0 pGov target
                  gx gy sn c p0 it) as Hv.
    destruct (visit_stepped _ _ _ _ _ _ _ _ _ _ _ _) as [[sn' c'] p']. cbn [fst snd].
    eapply traced_trans; [exact Hq|]. eapply traced_weaken; [|exact Hv].
    intros t Ht. exists from0, to0. exact Ht. }
  specialize (H H2 fuel p from to (traced_refl _ _ _)). clear H2.
  destruct (LineQ fuel mem s p from to ch pGov target) as [[r s'] p'].
  destruct H as (c' & Hq & Hr & _). exists c'. split; assumption.
Qed.

(** A call that is not cut: every range is the one of the segment. *)
Lemma Line_ranged fuel mem s p from to ch pGov target :
  single_cell s from to = true \/ over_length Length from to = false ->
  let '(r, s', p') := LineQ fuel mem s p from to ch pGov target in
  exists c', traced (ranged mem s from to) p (closer_init ch) c' p'.
Proof.
  intros Hcase. destruct fuel as [|fuel].
  { simpl. exists (closer_init ch). apply traced_refl. }
  rewrite Line_unfold. cbv zeta.
  destruct (single_cell s from to) eqn:Hsingle.
  - pose proof (fold_left_invariant
      (fun st : Closest * Process =>
         traced (ranged mem s from to) p (closer_init ch) (fst st) (snd st))
      (visit_single IsEnemy mem s from to pGov target
                    (cell_of s (Point.X from)) (cell_of s (Point.Y from)))
      (bin s (cell_index s (cell_of s (Point.X from)) (cell_of s (Point.Y from))))) as H.
    cbn [fst snd] in H.
    assert (Hstep : forall (st : Closest * Process) (a : Entry),
      In a (bin s (cell_index s (cell_of s (Point.X from)) (cell_of s (Point.Y from)))) ->
      traced (ranged mem s from to) p (closer_init ch) (fst st) (snd st) ->
      traced (ranged mem s from to) p (closer_init ch)
        (fst (visit_single IsEnemy mem s from to pGov target
                (cell_of s (Point.X from)) (cell_of s (Point.Y from)) st a))
        (snd (visit_single IsEnemy mem s from to pGov target
                (cell_of s (Point.X from)) (cell_of s (Point.Y from)) st a))).
    { intros [c q] it _ Hq. cbn [fst snd] in Hq.
      pose proof (visit_single_traced mem s from to pGov target
                    (cell_of s (Point.X from)) (cell_of s (Point.Y from)) c q it) as Hv.
      destruct (visit_single _ _ _ _ _ _ _ _ _ _ _) as [c' q']. cbn [fst snd].
      eapply traced_trans; [exact Hq|exact Hv]. }
    specialize (H Hstep (closer_init ch, p) (traced_refl _ _ _)).
    destruct (fold_left _ _ _) as [c' p']. exists c'. exact H.
  - destruct Hcase as [Hcase|Hover]; [discriminate|]. rewrite Hover.
    match goal with
    | |- context [walk _ ?fl ?m ?s0 ?ep ?fr ?t0 ?pg ?tg ?ex ?ey ?sx ?sy ?mx ?my ?fs
                       ?gx ?gy ?rx ?ry ?sn ?c ?p0] =>
        pose proof (walk_invariant IsEnemy
          (fun st => traced (ranged mem s from to) p (closer_init ch) (snd (fst st)) (snd st))
          m s0 ep fr t0 pg tg ex ey sx sy mx my fs) as H;
        cbn [fst snd] in H;
        assert (Hstep : forall gx' gy' st it, In it (bin s (cell_index s gx' gy')) ->
          traced (ranged mem s from to) p (closer_init ch) (snd (fst st)) (snd st) ->
          traced (ranged mem s from to) p (closer_init ch)
            (snd (fst (visit_stepped IsEnemy m s0 ep fr t0 pg tg gx' gy' st it)))
            (snd (visit_stepped IsEnemy m s0 ep fr t0 pg tg gx' gy' st it)));
        [|specialize (H Hstep fl gx gy rx ry sn c p0 (traced_refl _ _ _));
          destruct (walk IsEnemy fl m s0 ep fr t0 pg tg ex ey sx sy mx my fs
                         gx gy rx ry sn c p0) as [[[fin sn'] c'] p']]
    end.
    + intros gx' gy' [[sn c] q] it _ Hq. cbn [fst snd] in Hq.
      pose proof (visit_stepped_traced mem s (u32 (seenEpoch s + 1)) from to pGov target
                    gx' gy' sn c q it) as Hv.
      destruct (visit_stepped _ _ _ _ _ _ _ _ _ _ _ _) as [[sn' c'] q']. cbn [fst snd].
      eapply traced_trans; [exact Hq|exact Hv].
    + destruct fin; exists c'; exact H.
Qed.

(** The tests of the single-cell case: the entries of the bin that lie in
    the cell itself and pass the friend/foe rule, in the order of the
    bin. *)
Lemma fold_visit_single_collides mem s from to pGov target gx gy : forall l c p,
  let '(c', p') :=
    fold_left (visit_single IsEnemy mem s from to pGov target gx gy) l (c, p) in
  exists evs,
    events p' = events p ++ evs /\
    collides evs
    = map (fun e => (Entry.seenIndex e, Entry.body e,
                     collide_range mem s from to (Entry.body e)))
          (List.filter (fun e => exact_cell gx gy e
                                 && eligible IsEnemy mem pGov target (Entry.body e)) l).
Proof.
  induction l as [|it l IH]; intros c p.
  - simpl. exists []. rewrite app_nil_r. auto.
  - cbn [fold_left List.filter]. unfold visit_single at 2, exact_cell at 1.
    rewrite eligible_not_skipped.
    destruct (Entry.x it =? gx), (Entry.y it =? gy); cbn [negb orb andb];
      try apply IH.
    match goal with
    | |- context [fold_left _ l ?st] => destruct st as [c1 p1] eqn:Hst
    end.
    destruct (government_skips IsEnemy mem pGov target (Entry.body it));
      injection Hst as <- <-; cbn [negb map].
    + specialize (IH c (emit (Candidate (Entry.seenIndex it) (Entry.body it)) p)).
      destruct (fold_left _ l _) as [c' p'].
      destruct IH as (evs & Hev & Hc).
      exists (Candidate (Entry.seenIndex it) (Entry.body it) :: evs). split.
      * rewrite Hev. cbn [emit events]. rewrite <- app_assoc. reflexivity.
      * exact Hc.
    + match goal with
      | |- context [fold_left _ l (?c2, ?p2)] => specialize (IH c2 p2)
      end.
      destruct (fold_left _ l _) as [c' p'].
      destruct IH as (evs & Hev & Hc).
      eexists (Candidate _ _ :: MaskCollide _ _ _ :: evs). split.
      * rewrite Hev. cbn [emit events]. rewrite <- !app_assoc. reflexivity.
      * cbn [collides flat_map app]. f_equal. exact Hc.
Qed.

(** On an index that keeps its invariant, the tests of a call are made on
    bodies of [all] that pass the friend/foe rule, each under its dense
    index, and no dense index twice. *)
Lemma Line_tested fuel mem s p from to ch pGov target :
  index_inv mem s ->
  let '(r, s', p') := LineQ fuel mem s p from to ch pGov target in
  exists evs,
    events p' = events p ++ evs /\
    NoDup (map (fun t => fst (fst t)) (collides evs)) /\
    Forall (fun t => 0 <= fst (fst t) /\
                     all s !! Z.to_nat (fst (fst t)) = Some (snd (fst t)) /\
                     snd (fst t) <> nullptr /\
                     eligible IsEnemy mem pGov target (snd (fst t)) = true)
           (collides evs).
Proof.
  intros Hinv.
  pose proof (Line_candidates_ok IsEnemy Length Unit mem s ch pGov target Hinv fuel p from to)
    as H1.
  pose proof (Line_collides_of_candidates IsEnemy Length Unit fuel mem s p from to ch
                pGov target) as H2.
  destruct (LineQ fuel mem s p from to ch pGov target) as [[r s'] p'].
  destruct H1 as (evs & Hev & Hnd & Hok). destruct H2 as (evs' & Hev' & Hmap).
  rewrite Hev in Hev'. apply app_inv_head in Hev'. subst evs'.
  exists evs. split; [exact Hev|]. split.
  - rewrite <- (map_map fst fst), Hmap. apply NoDup_map_filter. exact Hnd.
  - apply List.Forall_forall. intros [[i b] r0] Hin. cbn [fst snd].
    assert (Hin' : In (i, b) (map fst (collides evs))).
    { apply in_map_iff. exists (i, b, r0). auto. }
    rewrite Hmap in Hin'. apply filter_In in Hin' as [Hc He]. cbn [snd] in He.
    destruct (Hok i b Hc) as [Hi Hall].
    split; [exact Hi|]. split; [exact Hall|]. split; [|exact He].
    destruct Hinv as (_ & Hnn & _). rewrite Forall_forall in Hnn.
    apply Hnn. eapply list_elem_of_lookup_2. exact Hall.
Qed.

(** What a call that returned leaves: the best hit is the cap untouched
    with no body, or a tested body other than null with its range, below
    the cap and not above any range tested. *)
Lemma Line_result fuel mem s p from to ch pGov target :
  index_inv mem s ->
  masks_return_numbers mem ->
  is_number (closest_dist (closer_init ch)) = true ->
  let '(r, s', p') := LineQ fuel mem s p from to ch pGov target in
  exists evs,
    events p' = events p ++ evs /\
    forall hit ch', r = Some (hit, ch') ->
      (hit = nullptr /\ ch' = write_back (closer_init ch) ch /\
       Forall (fun t => (closest_dist (closer_init ch) <=? snd t)%float = true) (collides evs))
      \/
      (hit <> nullptr /\
       exists i h, In (i, hit, h) (collides evs) /\
         (h <? closest_dist (closer_init ch))%float = true /\
         ch' = write_back {| closest_dist := h; closest_body := hit |} ch /\
         Forall (fun t => (h <=? snd t)%float = true) (collides evs)).
Proof.
  intros Hinv Hmask Hcap.
  pose proof (Line_traced fuel mem s p from to ch pGov target) as H1.
  pose proof (Line_tested fuel mem s p from to ch pGov target Hinv) as H2.
  destruct (LineQ fuel mem s p from to ch pGov target) as [[r s'] p'].
  destruct H1 as (c' & Htr & Hr). destruct H2 as (evs & Hev & _ & Hok).
  exists evs. split; [exact Hev|]. intros hit ch' Hret.
  destruct (traced_events _ _ _ _ _ _ Htr Hev) as [Hc' Hrange].
  assert (Hnum : Forall (fun t => is_number (snd t) = true) (collides evs)).
  { eapply Forall_impl; [exact Hrange|]. intros t (from' & to' & ->). apply Hmask. }
  destruct Hr as [Hr|Hr]; [congruence|]. rewrite Hr in Hret. injection Hret as <- <-.
  pose proof (try_all_spec (collides evs) (closer_init ch) Hcap Hnum) as Hspec.
  cbv zeta in Hspec. rewrite <- Hc' in Hspec.
  destruct Hspec as [[Heq Hall]|([i Hin] & Hlt & Hall)].
  - left. rewrite Heq. split; [reflexivity|]. split; [reflexivity|exact Hall].
  - right. rewrite List.Forall_forall in Hok. specialize (Hok _ Hin). cbn [fst snd] in Hok.
    destruct Hok as (_ & _ & Hnn & _). split; [exact Hnn|].
    exists i, (closest_dist c'). split; [exact Hin|]. split; [exact Hlt|].
    split; [|exact Hall]. destruct c'; reflexivity.
Qed.

(** C2 (as it holds): for a [Line] call on a finalized index, with masks
    that return numbers and an incoming [*closestHit] of [h0 <= 1]: when a
    body is returned, [Mask::Collide] was called on it in this call and
    returned some [h1] (the range for the segment, if the segment was not
    cut), and [*closestHit] ends as [min(h0, h1)]; when null is returned,
    [*closestHit] is unchanged.  The call does return, given the rounds
    its segment needs. *)
Theorem closestHit_minimum_up_to_one mem s fuel p from to h0 pGov target :
  finalized IsEnemy Length Unit mem s ->
  masks_return_numbers mem ->
  (h0 <=? 1)%float = true ->
  let '(r, s', p') := LineQ fuel mem s p from to (Some h0) pGov target in
  (exists evs, events p' = events p ++ evs /\
     forall hit ch', r = Some (hit, ch') ->
       (hit <> nullptr ->
          exists i h1, In (i, hit, h1) (collides evs) /\
            (single_cell s from to = true \/ over_length Length from to = false ->
             h1 = collide_range mem s from to hit) /\
            ch' = Some (double_min h0 h1)) /\
       (hit = nullptr -> ch' = Some h0)) /\
  (single_cell s from to = true \/ (over_length Length from to = false /\ dda_fits s from to) ->
   (Z.to_nat (cells_ahead s from to) + 1 < fuel)%nat -> r <> None).
Proof.
  intros Hfin Hmask Hh0.
  pose proof (finalized_index_inv IsEnemy Length Unit mem s Hfin) as Hinv.
  assert (Hcap : is_number (closest_dist (closer_init (Some h0))) = true).
  { cbn. unfold is_number. apply (leb_number _ _ Hh0). }
  pose proof (Line_result fuel mem s p from to (Some h0) pGov target Hinv Hmask Hcap) as H1.
  pose proof (Line_ranged fuel mem s p from to (Some h0) pGov target) as H2.
  pose proof (fun Hcase Hfuel =>
    Line_returns IsEnemy Length Unit mem s p from to (Some h0) pGov target fuel
                 (proj1 Hinv) Hcase Hfuel) as H3.
  destruct (LineQ fuel mem s p from to (Some h0) pGov target) as [[r s'] p'].
  destruct H1 as (evs & Hev & Hres). split.
  - exists evs. split; [exact Hev|]. intros hit ch' Hret.
    destruct (Hres hit ch' Hret) as [(Hnull & Hch & _)|(Hnn & i & h & Hin & Hlt & Hch & _)].
    + split; [intros Hc; contradiction|]. intros _. rewrite Hch. cbn.
      destruct (h0 <? 1)%float; reflexivity.
    + split; [|intros Hc; contradiction]. intros _. exists i, h.
      split; [exact Hin|]. split.
      * intros Hcase. destruct (H2 Hcase) as (c' & Htr).
        destruct (traced_events _ _ _ _ _ _ Htr Hev) as [_ Hrange].
        rewrite List.Forall_forall in Hrange. exact (Hrange _ Hin).
      * rewrite Hch. cbn in Hlt |- *. unfold double_min. rewrite Hlt.
        rewrite (ltb_leb_trans _ _ _ Hlt Hh0). reflexivity.
  - intros Hcase Hfuel. destruct (H3 Hcase Hfuel) as (hit & ch' & Hret).
    cbn [fst] in Hret. rewrite Hret. discriminate.
Qed.

(** ** The loop of [Line], cell by cell *)

(** One round of the loop: the visit of a cell, then the step to the
    next unless a hit was found. *)
Lemma walk_unfold fuel mem s epoch from to pGov target endGX endGY stepX stepY mx my
    fullScale gx gy rx ry sn c p :
  walk IsEnemy (S fuel) mem s epoch from to pGov target endGX endGY stepX stepY mx my
       fullScale gx gy rx ry sn c p
  = let '(sn1, c1, p1) :=
      fold_left (visit_stepped IsEnemy mem s epoch from to pGov target gx gy)
                (bin s (cell_index s gx gy)) (sn, c, p) in
    if negb (Nat.eqb (closest_body c1) nullptr) then (true, sn1, c1, p1)
    else
      match dda_next endGX endGY stepX stepY mx my fullScale gx gy rx ry with
      | None => (true, sn1, c1, p1)
      | Some (gx', gy', rx', ry') =>
          walk IsEnemy fuel mem s epoch from to pGov target endGX endGY stepX stepY mx my
               fullScale gx' gy' rx' ry' sn1 c1 p1
      end.
Proof.
  cbn [walk]. destruct (fold_left _ _ _) as [[sn1 c1] p1]. unfold dda_next.
  destruct (negb (Nat.eqb (closest_body c1) nullptr)); cbn [orb]; [reflexivity|].
  destruct ((gx =? endGX) && (gy =? endGY)); [reflexivity|].
  destruct (to_int64 (u64 (u64 (rx * my) - u64 (ry * mx))) =? 0).
  - destruct ((gx =? endGX) && (gy + stepY =? endGY)); [reflexivity|].
    destruct ((gy =? endGY) && (gx + stepX =? endGX)); reflexivity.
  - destruct (to_int64 (u64 (u64 (rx * my) - u64 (ry * mx))) <? 0); reflexivity.
Qed.

(** What holds of the cells visited and the state, if each visit of a
    cell entered without a hit keeps it, holds after the loop; the cells
    visited are the first of the cells of the traversal, at least one if
    the loop was left by a [break], and all of them if it found no hit. *)
Lemma walk_by_cells (J : list (Z * Z) -> list Z * Closest * Process -> Prop)
    mem s epoch from to pGov target endGX endGY stepX stepY mx my fullScale :
  (forall visited gx gy st,
     J visited st -> closest_body (snd (fst st)) = nullptr ->
     J (visited ++ [(gx, gy)])
       (fold_left (visit_stepped IsEnemy mem s epoch from to pGov target gx gy)
                  (bin s (cell_index s gx gy)) st)) ->
  forall fuel gx gy rx ry visited sn c p,
    J visited (sn, c, p) -> closest_body c = nullptr ->
    let '(fin, sn', c', p') :=
      walk IsEnemy fuel mem s epoch from to pGov target endGX endGY stepX stepY mx my
           fullScale gx gy rx ry sn c p in
    exists more rest,
      dda_cells fuel endGX endGY stepX stepY mx my fullScale gx gy rx ry = more ++ rest /\
      J (visited ++ more) (sn', c', p') /\
      (fin = true -> more <> [] /\ (closest_body c' = nullptr -> rest = [])).
Proof.
  intros Hstep. induction fuel as [|fuel IH]; intros gx gy rx ry visited sn c p HJ Hnull.
  - simpl. exists [], []. rewrite !app_nil_r. split; [reflexivity|]. split; [exact HJ|].
    intros H. discriminate H.
  - rewrite walk_unfold. cbn [dda_cells].
    specialize (Hstep visited gx gy (sn, c, p) HJ Hnull).
    destruct (fold_left _ _ _) as [[sn1 c1] p1].
    destruct (Nat.eqb (closest_body c1) nullptr) eqn:Hhit; cbn [negb].
    + apply Nat.eqb_eq in Hhit.
      destruct (dda_next endGX endGY stepX stepY mx my fullScale gx gy rx ry)
        as [[[[gx' gy'] rx'] ry']|].
      * specialize (IH gx' gy' rx' ry' (visited ++ [(gx, gy)]) sn1 c1 p1 Hstep Hhit).
        destruct (walk _ _ _ _ _ _ _ _ _ _ _ _ _ _ _ _ _ _ _ _ _ _ _) as [[[fin sn'] c'] p'].
        destruct IH as (more & rest & Hcells & HJ' & Hfin).
        exists ((gx, gy) :: more), rest. rewrite Hcells. split; [reflexivity|].
        split; [rewrite <- app_assoc in HJ'; exact HJ'|].
        intros Hf. split; [discriminate|]. apply Hfin. exact Hf.
      * exists [(gx, gy)], []. split; [reflexivity|]. split; [exact Hstep|].
        intros _. split; [discriminate|reflexivity].
    + exists [(gx, gy)],
        (match dda_next endGX endGY stepX stepY mx my fullScale gx gy rx ry with
         | None => []
         | Some (gx', gy', rx', ry') =>
             dda_cells fuel endGX endGY stepX stepY mx my fullScale gx' gy' rx' ry'
         end).
      split; [reflexivity|]. split; [exact Hstep|].
      intros _. split; [discriminate|]. intros Hc. rewrite Hc in Hhit. discriminate Hhit.
Qed.

(** The visit of a cell, entry by entry.  The entries lie within the
    markers. *)
Lemma fold_visit_stepped_cell mem s epoch from to pGov target gx gy : forall l sn c p,
  (forall e, In e l -> 0 <= Entry.seenIndex e /\
                       (Z.to_nat (Entry.seenIndex e) < length sn)%nat) ->
  let '(sn', c', p') :=
    fold_left (visit_stepped IsEnemy mem s epoch from to pGov target gx gy) l (sn, c, p) in
  exists evs,
    events p' = events p ++ evs /\
    length sn' = length sn /\
    c' = try_all (collides evs) c /\
    Forall (ranged mem s from to) (collides evs) /\
    map fst (collides evs)
    = List.filter (fun t => eligible IsEnemy mem pGov target (snd t)) (candidates evs) /\
    NoDup (map fst (candidates evs)) /\
    (forall i b, In (i, b) (candidates evs) ->
       sn !! Z.to_nat i <> Some epoch /\
       exists e, In e l /\ exact_cell gx gy e = true /\
                 Entry.seenIndex e = i /\ Entry.body e = b) /\
    (forall k, sn' !! k = Some epoch <->
               (sn !! k = Some epoch \/ exists b, In (Z.of_nat k, b) (candidates evs))) /\
    (forall e, In e l -> exact_cell gx gy e = true ->
       sn' !! Z.to_nat (Entry.seenIndex e) = Some epoch).
Proof.
  induction l as [|it l IH]; intros sn c p Hrange.
  - simpl. exists []. rewrite app_nil_r. cbn.
    split; [reflexivity|]. split; [reflexivity|]. split; [reflexivity|].
    split; [constructor|]. split; [reflexivity|]. split; [constructor|].
    split; [intros i b []|]. split; [|intros e []].
    intros k. split; [auto|]. intros [H|[b []]]. exact H.
  - assert (Hrange' : forall sn1 : list Z, length sn1 = length sn ->
              forall e, In e l -> 0 <= Entry.seenIndex e /\
                                  (Z.to_nat (Entry.seenIndex e) < length sn1)%nat).
    { intros sn1 Hlen e He. rewrite Hlen. apply Hrange. right. exact He. }
    destruct (Hrange it (or_introl eq_refl)) as [Hi0 Hilt].
    cbn [fold_left]. unfold visit_stepped at 2.
    destruct (negb (Entry.x it =? gx) || negb (Entry.y it =? gy)) eqn:Hexact.
    { (* not an entry of the cell *)
      assert (Hnot : exact_cell gx gy it = false).
      { unfold exact_cell. destruct (Entry.x it =? gx), (Entry.y it =? gy);
          cbn in Hexact |- *; congruence. }
      specialize (IH sn c p (Hrange' sn eq_refl)).
      destruct (fold_left _ l _) as [[sn' c'] p'].
      destruct IH as (evs & Hev & Hlen & Hc & Hr & Hf & Hnd & Hcand & Hmark & Hall).
      exists evs. repeat (split; [assumption|]). split; [|split; [exact Hmark|]].
      - intros i b Hin. destruct (Hcand i b Hin) as (Hn & e & He & Hx).
        split; [exact Hn|]. exists e. split; [right; exact He|exact Hx].
      - intros e [<-|He] Hx; [congruence|]. apply Hall; assumption. }
    assert (Hyes : exact_cell gx gy it = true).
    { unfold exact_cell. destruct (Entry.x it =? gx), (Entry.y it =? gy);
        cbn in Hexact |- *; congruence. }
    assert (Hget : (vec_get 0 sn (Entry.seenIndex it) =? epoch) = true
                   <-> sn !! Z.to_nat (Entry.seenIndex it) = Some epoch).
    { unfold vec_get. destruct (lookup_lt_is_Some_2 sn _ Hilt) as [m Hm]. rewrite Hm. cbn.
      rewrite Z.eqb_eq. split; [intros ->; reflexivity|intros H; injection H; auto]. }
    destruct (vec_get 0 sn (Entry.seenIndex it) =? epoch) eqn:Hseen.
    { (* marked in this query already *)
      specialize (IH sn c p (Hrange' sn eq_refl)).
      destruct (fold_left _ l _) as [[sn' c'] p'].
      destruct IH as (evs & Hev & Hlen & Hc & Hr & Hf & Hnd & Hcand & Hmark & Hall).
      exists evs. repeat (split; [assumption|]). split; [|split; [exact Hmark|]].
      - intros i b Hin. destruct (Hcand i b Hin) as (Hn & e & He & Hx).
        split; [exact Hn|]. exists e. split; [right; exact He|exact Hx].
      - intros e [<-|He] Hx; [|apply Hall; assumption].
        apply Hmark. left. apply Hget. reflexivity. }
    (* a candidate *)
    assert (Hunmarked : sn !! Z.to_nat (Entry.seenIndex it) <> Some epoch).
    { intros H. apply Hget in H. discriminate H. }
    set (sn1 := vec_set sn (Entry.seenIndex it) epoch).
    assert (Hlen1 : length sn1 = length sn) by apply vec_set_length.
    assert (Hsn1 : forall k, sn1 !! k = Some epoch <->
                     (k = Z.to_nat (Entry.seenIndex it) \/ sn !! k = Some epoch)).
    { intros k. unfold sn1, vec_set.
      destruct (Nat.eq_dec (Z.to_nat (Entry.seenIndex it)) k) as [<-|Hne].
      - rewrite list_lookup_insert_eq by exact Hilt. split; auto.
      - rewrite list_lookup_insert_ne by exact Hne. split; [auto|].
        intros [->|H]; [congruence|exact H]. }
    assert (Hcompose : forall c1 p1 evs1,
      events p1 = events p ++ evs1 ->
      candidates evs1 = [(Entry.seenIndex it, Entry.body it)] ->
      c1 = try_all (collides evs1) c ->
      Forall (ranged mem s from to) (collides evs1) ->
      map fst (collides evs1)
      = List.filter (fun t => eligible IsEnemy mem pGov target (snd t)) (candidates evs1) ->
      let '(sn', c', p') :=
        fold_left (visit_stepped IsEnemy mem s epoch from to pGov target gx gy) l
                  (sn1, c1, p1) in
      exists evs,
        events p' = events p ++ evs /\
        length sn' = length sn /\
        c' = try_all (collides evs) c /\
        Forall (ranged mem s from to) (collides evs) /\
        map fst (collides evs)
        = List.filter (fun t => eligible IsEnemy mem pGov target (snd t)) (candidates evs) /\
        NoDup (map fst (candidates evs)) /\
        (forall i b, In (i, b) (candidates evs) ->
           sn !! Z.to_nat i <> Some epoch /\
           exists e, In e (it :: l) /\ exact_cell gx gy e = true /\
                     Entry.seenIndex e = i /\ Entry.body e = b) /\
        (forall k, sn' !! k = Some epoch <->
                   (sn !! k = Some epoch \/ exists b, In (Z.of_nat k, b) (candidates evs))) /\
        (forall e, In e (it :: l) -> exact_cell gx gy e = true ->
           sn' !! Z.to_nat (Entry.seenIndex e) = Some epoch)).
    { intros c1 p1 evs1 Hev1 Hcand1 Hc1 Hr1 Hf1.
      specialize (IH sn1 c1 p1 (Hrange' sn1 Hlen1)).
      destruct (fold_left _ l _) as [[sn' c'] p'].
      destruct IH as (evs & Hev & Hlen & Hc & Hr & Hf & Hnd & Hcand & Hmark & Hall).
      exists (evs1 ++ evs).
      split; [rewrite Hev, Hev1, app_assoc; reflexivity|].
      split; [congruence|].
      split; [rewrite collides_app, try_all_app, <- Hc1; exact Hc|].
      split; [rewrite collides_app; apply Forall_app; split; assumption|].
      split; [rewrite collides_app, candidates_app, map_app, List.filter_app, Hf1, Hf;
              reflexivity|].
      rewrite candidates_app, Hcand1. cbn [app map fst].
      split; [|split; [|split]].
      - apply NoDup_cons. split; [|exact Hnd].
        intros Hin. apply list_elem_of_In in Hin.
        apply in_map_iff in Hin as ([i b] & Heq & Hin). cbn in Heq. subst i.
        destruct (Hcand _ _ Hin) as [Hn _]. apply Hn. apply Hsn1. left. reflexivity.
      - intros i b [Heq|Hin].
        + injection Heq as <- <-. split; [exact Hunmarked|].
          exists it. split; [left; reflexivity|]. auto.
        + destruct (Hcand i b Hin) as (Hn & e & He & Hx). split.
          * intros H. apply Hn. apply Hsn1. right. exact H.
          * exists e. split; [right; exact He|exact Hx].
      - intros k. rewrite Hmark, Hsn1. split.
        + intros [[->|H]|[b Hb]].
          * right. exists (Entry.body it). left. rewrite Z2Nat.id by exact Hi0. reflexivity.
          * left. exact H.
          * right. exists b. right. exact Hb.
        + intros [H|[b [Heq|Hb]]].
          * left. right. exact H.
          * left. left. injection Heq as Heq _. rewrite Heq, Nat2Z.id. reflexivity.
          * right. exists b. exact Hb.
      - intros e [<-|He] Hx; [|apply Hall; assumption].
        apply Hmark. left. apply Hsn1. left. reflexivity. }
    destruct (government_skips IsEnemy mem pGov target (Entry.body it)) eqn:Hskip.
    + apply (Hcompose c _ [Candidate (Entry.seenIndex it) (Entry.body it)]).
      * reflexivity.
      * reflexivity.
      * reflexivity.
      * constructor.
      * cbn. rewrite eligible_not_skipped, Hskip. reflexivity.
    + apply (Hcompose _ _ [Candidate (Entry.seenIndex it) (Entry.body it);
                           MaskCollide (Entry.seenIndex it) (Entry.body it)
                             (collide_range mem s from to (Entry.body it))]).
      * cbn [emit events]. rewrite <- app_assoc. reflexivity.
      * reflexivity.
      * reflexivity.
      * repeat constructor.
      * cbn. rewrite eligible_not_skipped, Hskip. reflexivity.
Qed.

(** An entry of a cell is an entry of [added] for a body of [all], under
    its dense index, and the cell is one of the box of the body. *)
Lemma cell_entries_spec mem s cell e :
  index_inv mem s -> In e (cell_entries s cell) ->
  exists i, all s !! i = Some (Entry.body e) /\ Entry.seenIndex e = Z.of_nat i /\
            In cell (footprint mem s (Entry.body e)) /\
            (i < length (seen s))%nat /\ Entry.body e <> nullptr.
Proof.
  intros Hinv He. unfold cell_entries in He. apply filter_In in He as [Hbin Hexact].
  destruct (index_inv_bin_entry mem s _ _ e Hinv Hbin) as (i & Hi & Hidx & Hfoot & _).
  unfold exact_cell in Hexact. apply andb_true_iff in Hexact as [Hx Hy].
  apply Z.eqb_eq in Hx, Hy. exists i. split; [exact Hi|]. split; [exact Hidx|].
  split; [destruct cell as [x y]; cbn [fst snd] in *; subst x y; exact Hfoot|].
  destruct Hinv as (_ & Hnn & _ & _ & Hlen). split.
  - rewrite Hlen. eapply lookup_lt_Some. exact Hi.
  - rewrite Forall_forall in Hnn. apply Hnn. eapply list_elem_of_lookup_2. exact Hi.
Qed.

(** A body of [all] whose box has a cell has an entry in that cell. *)
Lemma cell_entries_body mem s cell i b :
  index_inv mem s -> all s !! i = Some b -> In cell (footprint mem s b) ->
  In (Entry.mk b (Z.of_nat i) (fst cell) (snd cell)) (cell_entries s cell).
Proof.
  intros (Hgrid & _ & Hadded & Hbins & _) Hi Hfoot. unfold cell_entries.
  apply filter_In. split.
  - rewrite (Hbins _ (cell_index_range s _ _ Hgrid)). apply filter_In. split.
    + rewrite Hadded. apply in_entries_from. exists i, b. cbn.
      destruct cell; auto.
    + unfold in_cell, entry_cell. cbn. apply Z.eqb_refl.
  - unfold exact_cell. cbn. rewrite !Z.eqb_refl. reflexivity.
Qed.

(** Before the first cell. *)
Lemma scanned_start mem s from to pGov target p c0 :
  markers_clear s ->
  scanned IsEnemy mem s (u32 (seenEpoch s + 1)) from to pGov target p c0 [] (seen s, c0, p).
Proof.
  intros Hclear. exists []. rewrite app_nil_r. cbn.
  split; [reflexivity|]. split; [reflexivity|]. split; [constructor|].
  split; [reflexivity|]. split; [constructor|]. split; [reflexivity|].
  split; [|split; [intros i b []|split; [intros cell e []|intros cell e []]]].
  intros k. split; [|intros [b []]].
  intros Hk. exfalso. unfold markers_clear in Hclear. rewrite Forall_forall in Hclear.
  apply (Hclear (u32 (seenEpoch s + 1))); [|reflexivity].
  eapply list_elem_of_lookup_2. exact Hk.
Qed.

(** The visit of one more cell, entered without a hit. *)
Lemma scanned_step mem s epoch from to pGov target p0 c0 visited gx gy st :
  index_inv mem s -> masks_return_numbers mem -> is_number (closest_dist c0) = true ->
  scanned IsEnemy mem s epoch from to pGov target p0 c0 visited st ->
  closest_body (snd (fst st)) = nullptr ->
  scanned IsEnemy mem s epoch from to pGov target p0 c0 (visited ++ [(gx, gy)])
    (fold_left (visit_stepped IsEnemy mem s epoch from to pGov target gx gy)
               (bin s (cell_index s gx gy)) st).
Proof.
  intros Hinv Hmask Hcap HS Hnull. destruct st as [[sn c] q]. cbn [fst snd] in Hnull.
  destruct HS as (evs & Hev & Hc & Hr & Hf & Hnd & Hlen & Hmark & Hcand & Hcov & Hstop).
  pose proof (fold_visit_stepped_cell mem s epoch from to pGov target gx gy
                (bin s (cell_index s gx gy)) sn c q) as Hfold.
  assert (Hrange : forall e, In e (bin s (cell_index s gx gy)) ->
            0 <= Entry.seenIndex e /\ (Z.to_nat (Entry.seenIndex e) < length sn)%nat).
  { intros e He. destruct (index_inv_bin_entry mem s gx gy e Hinv He) as (i & Hi & Hidx & _).
    rewrite Hidx, Nat2Z.id, Hlen. split; [lia|].
    destruct Hinv as (_ & _ & _ & _ & ->). eapply lookup_lt_Some. exact Hi. }
  specialize (Hfold Hrange).
  destruct (fold_left _ _ _) as [[sn' c'] q'].
  destruct Hfold as (evs2 & Hev2 & Hlen2 & Hc2 & Hr2 & Hf2 & Hnd2 & Hcand2 & Hmark2 & Hall2).
  (* the candidates so far carry indexes that are not negative *)
  assert (Hpos : forall i b, In (i, b) (candidates evs) -> Z.of_nat (Z.to_nat i) = i).
  { intros i b Hin. destruct (Hcand i b Hin) as (cell & e & _ & He & Hi & _).
    destruct (cell_entries_spec mem s cell e Hinv He) as (k & _ & Hk & _). lia. }
  assert (Hcand' : forall i b, In (i, b) (candidates (evs ++ evs2)) ->
            exists cell e, In cell (visited ++ [(gx, gy)]) /\ In e (cell_entries s cell) /\
                           Entry.seenIndex e = i /\ Entry.body e = b).
  { intros i b Hin. rewrite candidates_app in Hin. apply in_app_iff in Hin as [Hin|Hin].
    - destruct (Hcand i b Hin) as (cell & e & Hcell & He). exists cell, e.
      split; [apply in_app_iff; left; exact Hcell|exact He].
    - destruct (Hcand2 i b Hin) as (_ & e & He & Hx & Hi & Hb). exists (gx, gy), e.
      split; [apply in_app_iff; right; left; reflexivity|].
      split; [unfold cell_entries; apply filter_In; split; assumption|]. auto. }
  assert (Hmark' : forall k, sn' !! k = Some epoch <->
                     exists b, In (Z.of_nat k, b) (candidates (evs ++ evs2))).
  { intros k. rewrite Hmark2, Hmark. split.
    - intros [[b Hb]|[b Hb]]; exists b; rewrite candidates_app; apply in_app_iff; auto.
    - intros [b Hb]. rewrite candidates_app in Hb. apply in_app_iff in Hb as [Hb|Hb]; eauto. }
  exists (evs ++ evs2).
  split; [rewrite Hev2, Hev, app_assoc; reflexivity|].
  split; [rewrite collides_app, try_all_app, <- Hc; exact Hc2|].
  split; [rewrite collides_app; apply Forall_app; split; assumption|].
  split; [rewrite collides_app, candidates_app, map_app, List.filter_app, Hf, Hf2;
          reflexivity|].
  split; [|split; [congruence|split; [exact Hmark'|split; [exact Hcand'|split]]]].
  - rewrite candidates_app, map_app. apply NoDup_app. split; [exact Hnd|].
    split; [|exact Hnd2].
    intros i Hi Hi'. apply list_elem_of_In in Hi, Hi'.
    apply in_map_iff in Hi as ([i1 b1] & Heq1 & Hin1).
    apply in_map_iff in Hi' as ([i2 b2] & Heq2 & Hin2). cbn in Heq1, Heq2. subst i1 i2.
    destruct (Hcand2 i b2 Hin2) as [Hn _]. apply Hn. apply Hmark.
    exists b1. rewrite (Hpos i b1 Hin1). exact Hin1.
  - intros cell e Hcell He. apply in_app_iff in Hcell as [Hcell|[<-|[]]].
    + rewrite candidates_app. apply in_app_iff. left. apply Hcov with cell; assumption.
    + pose proof He as He'. unfold cell_entries in He'. cbn [fst snd] in He'.
      apply filter_In in He' as [Hbin Hexact].
      pose proof (Hall2 e Hbin Hexact) as Hm. apply Hmark' in Hm as [b Hb].
      destruct (cell_entries_spec mem s _ e Hinv He) as (k & Hk & Hidx & _).
      rewrite Hidx, Nat2Z.id in Hb. rewrite Hidx.
      destruct (Hcand' _ _ Hb) as (cell' & e' & _ & He'' & Hidx' & Hb').
      destruct (cell_entries_spec mem s cell' e' Hinv He'') as (k' & Hk' & Hidx'' & _).
      assert (k' = k) by lia. subst k'. rewrite Hb' in Hk'.
      assert (Heq : b = Entry.body e) by congruence. rewrite <- Heq. exact Hb.
  - rewrite removelast_last. intros cell e Hcell He Hel.
    pose proof (Hcov cell e Hcell He) as Hin.
    assert (Hin' : In (Entry.seenIndex e, Entry.body e) (map fst (collides evs))).
    { rewrite Hf. apply filter_In. split; [exact Hin|exact Hel]. }
    apply in_map_iff in Hin' as ([[i b] r] & Heq & Hin'). cbn in Heq.
    injection Heq as -> ->.
    assert (Hnum : Forall (fun t => is_number (snd t) = true) (collides evs)).
    { eapply Forall_impl; [exact Hr|]. intros t ->. apply Hmask. }
    pose proof (try_all_spec (collides evs) c0 Hcap Hnum) as Hspec. cbv zeta in Hspec.
    rewrite <- Hc in Hspec.
    destruct Hspec as [[_ Hall]|([j Hj] & _)].
    + rewrite List.Forall_forall in Hall, Hr. specialize (Hall _ Hin'). specialize (Hr _ Hin').
      cbn [fst snd] in Hall, Hr. rewrite <- Hr. exact Hall.
    + exfalso. rewrite Hnull in Hj.
      assert (Hj' : In (j, nullptr) (map fst (collides evs))).
      { apply in_map_iff. exists (j, nullptr, closest_dist c). auto. }
      rewrite Hf in Hj'. apply filter_In in Hj' as [Hj' _].
      destruct (Hcand _ _ Hj') as (cell' & e' & _ & He' & _ & Hb').
      destruct (cell_entries_spec mem s cell' e' Hinv He') as (_ & _ & _ & _ & _ & Hnn).
      apply Hnn. exact Hb'.
Qed.

(** A call that takes the stepped path, on an index with clear markers. *)
Lemma Line_stepped_scanned mem s fuel p from to ch pGov target :
  index_inv mem s -> masks_return_numbers mem ->
  is_number (closest_dist (closer_init ch)) = true -> markers_clear s ->
  single_cell s from to = false -> over_length Length from to = false ->
  let '(r, s', p') := LineQ (S fuel) mem s p from to ch pGov target in
  exists c' visited rest,
    Line_cells (S fuel) s from to = visited ++ rest /\
    scanned IsEnemy mem s (u32 (seenEpoch s + 1)) from to pGov target p (closer_init ch)
            visited (seen s', c', p') /\
    (r = None \/
     (r = Some (closest_body c', write_back c' ch) /\ visited <> [] /\
      (closest_body c' = nullptr -> rest = []))).
Proof.
  intros Hinv Hmask Hcap Hclear Hsingle Hover.
  rewrite Line_unfold. cbv zeta. rewrite Hsingle, Hover.
  cbn [Line_cells]. cbv zeta. rewrite Hsingle.
  match goal with
  | |- context [walk _ ?fl ?m ?s0 ?ep ?fr ?t0 ?pg ?tg ?ex ?ey ?sx ?sy ?mx ?my ?fs
                     ?gx ?gy ?rx ?ry ?sn ?c ?p0] =>
      pose proof (walk_by_cells
        (scanned IsEnemy mem s ep from to pGov target p (closer_init ch))
        m s0 ep fr t0 pg tg ex ey sx sy mx my fs
        (fun visited gx' gy' st HJ Hn =>
           scanned_step mem s ep from to pGov target p (closer_init ch) visited gx' gy' st
                        Hinv Hmask Hcap HJ Hn)
        fl gx gy rx ry [] sn c p0
        (scanned_start mem s from to pGov target p (closer_init ch) Hclear) eq_refl) as Hw;
      destruct (walk IsEnemy fl m s0 ep fr t0 pg tg ex ey sx sy mx my fs
                     gx gy rx ry sn c p0) as [[[fin sn'] c'] p']
  end.
  destruct Hw as (more & rest & Hcells & HJ & Hfin). cbn [app] in HJ.
  destruct fin.
  - exists c', more, rest. split; [exact Hcells|]. split; [exact HJ|].
    right. split; [reflexivity|]. apply Hfin. reflexivity.
  - exists c', more, rest. split; [exact Hcells|]. split; [exact HJ|]. left. reflexivity.
Qed.

(** From the entries of the cells to the bodies of [all]: when the tests
    of a call are the entries of the cells [visited] that pass the
    friend/foe rule, they are the bodies of [all] that pass the rule and
    whose box has a cell visited. *)
Lemma tests_of_cells mem s from to pGov target visited
    (tests : list (Z * Body_ptr * float)) :
  index_inv mem s ->
  (forall t, In t tests ->
     snd t = collide_range mem s from to (snd (fst t)) /\
     eligible IsEnemy mem pGov target (snd (fst t)) = true /\
     exists cell e, In cell visited /\ In e (cell_entries s cell) /\
                    Entry.seenIndex e = fst (fst t) /\ Entry.body e = snd (fst t)) ->
  (forall cell e, In cell visited -> In e (cell_entries s cell) ->
     eligible IsEnemy mem pGov target (Entry.body e) = true ->
     In (Entry.seenIndex e, Entry.body e, collide_range mem s from to (Entry.body e)) tests) ->
  forall i b r,
    In (i, b, r) tests <->
    (0 <= i /\ all s !! Z.to_nat i = Some b /\
     eligible IsEnemy mem pGov target b = true /\
     r = collide_range mem s from to b /\
     exists cell, In cell visited /\ In cell (footprint mem s b)).
Proof.
  intros Hinv Hsound Hcomplete i b r. split.
  - intros Hin. destruct (Hsound _ Hin) as (Hr & Hel & cell & e & Hcell & He & Hi & Hb).
    cbn [fst snd] in *.
    destruct (cell_entries_spec mem s cell e Hinv He) as (k & Hk & Hidx & Hfoot & _).
    subst i b. rewrite Hidx, Nat2Z.id. split; [lia|]. split; [exact Hk|].
    split; [exact Hel|]. split; [exact Hr|]. exists cell. auto.
  - intros (Hi & Hall & Hel & -> & cell & Hcell & Hfoot).
    pose proof (cell_entries_body mem s cell _ b Hinv Hall Hfoot) as He.
    specialize (Hcomplete cell _ Hcell He Hel). cbn in Hcomplete.
    rewrite Z2Nat.id in Hcomplete by exact Hi. exact Hcomplete.
Qed.

(** The cells a call looks at and the entries it tests there, for a call
    that returns without cutting its segment. *)
Lemma Line_cells_tested mem s fuel p from to ch pGov target :
  index_inv mem s -> markers_clear s -> masks_return_numbers mem ->
  is_number (closest_dist (closer_init ch)) = true ->
  single_cell s from to = true \/ over_length Length from to = false ->
  let '(r, s', p') := LineQ fuel mem s p from to ch pGov target in
  forall hit ch', r = Some (hit, ch') ->
  exists evs visited rest,
    events p' = events p ++ evs /\
    visited <> [] /\ Line_cells fuel s from to = visited ++ rest /\
    (hit = nullptr -> rest = []) /\
    (forall t, In t (collides evs) ->
       snd t = collide_range mem s from to (snd (fst t)) /\
       eligible IsEnemy mem pGov target (snd (fst t)) = true /\
       exists cell e, In cell visited /\ In e (cell_entries s cell) /\
                      Entry.seenIndex e = fst (fst t) /\ Entry.body e = snd (fst t)) /\
    (forall cell e, In cell visited -> In e (cell_entries s cell) ->
       eligible IsEnemy mem pGov target (Entry.body e) = true ->
       In (Entry.seenIndex e, Entry.body e, collide_range mem s from to (Entry.body e))
          (collides evs)) /\
    (forall cell e, In cell (removelast visited) -> In e (cell_entries s cell) ->
       eligible IsEnemy mem pGov target (Entry.body e) = true ->
       (closest_dist (closer_init ch) <=? collide_range mem s from to (Entry.body e))%float
       = true).
Proof.
  intros Hinv Hclear Hmask Hcap Hcase.
  destruct fuel as [|fuel]; [simpl; intros hit ch' H; discriminate H|].
  destruct (single_cell s from to) eqn:Hsingle.
  - (* one cell *)
    rewrite Line_unfold. cbv zeta. rewrite Hsingle.
    pose proof (fold_visit_single_collides mem s from to pGov target
                  (cell_of s (Point.X from)) (cell_of s (Point.Y from))
                  (bin s (cell_index s (cell_of s (Point.X from))
                                     (cell_of s (Point.Y from))))
                  (closer_init ch) p) as Hf.
    destruct (fold_left _ _ _) as [c' p'].
    destruct Hf as (evs & Hev & Hcol). intros hit ch' _.
    exists evs, [(cell_of s (Point.X from), cell_of s (Point.Y from))], [].
    split; [exact Hev|]. split; [discriminate|].
    split; [cbn [Line_cells]; cbv zeta; rewrite Hsingle; reflexivity|].
    split; [reflexivity|]. split; [|split].
    + intros t Ht. rewrite Hcol in Ht. apply in_map_iff in Ht as (e & <- & He).
      apply filter_In in He as [Hbin Hx]. apply andb_true_iff in Hx as [Hx Hel].
      cbn [fst snd]. split; [reflexivity|]. split; [exact Hel|].
      exists (cell_of s (Point.X from), cell_of s (Point.Y from)), e.
      split; [left; reflexivity|]. split; [|auto].
      unfold cell_entries. apply filter_In. split; assumption.
    + intros cell e [<-|[]] He Hel. rewrite Hcol. apply in_map_iff. exists e.
      split; [reflexivity|]. unfold cell_entries in He. cbn [fst snd] in He.
      apply filter_In in He as [Hbin Hx]. apply filter_In. split; [exact Hbin|].
      rewrite Hx, Hel. reflexivity.
    + intros cell e [].
  - (* the stepped traversal *)
    destruct Hcase as [Hcase|Hover]; [discriminate|].
    pose proof (Line_stepped_scanned mem s fuel p from to ch pGov target
                  Hinv Hmask Hcap Hclear Hsingle Hover) as HL.
    destruct (LineQ (S fuel) mem s p from to ch pGov target) as [[r s'] p'].
    destruct HL as (c' & visited & rest & Hcells & HS & Hr).
    intros hit ch' Hret.
    destruct Hr as [Hr|(Hr & Hne & Hrest)]; [congruence|].
    rewrite Hr in Hret. injection Hret as <- <-.
    destruct HS as (evs & Hev & Hc & Hrange & Hf & Hnd & Hlen & Hmark & Hcand & Hcov & Hstop).
    exists evs, visited, rest.
    split; [exact Hev|]. split; [exact Hne|]. split; [exact Hcells|].
    split; [exact Hrest|]. split; [|split; [|exact Hstop]].
    + intros [[i b] r0] Ht. cbn [fst snd].
      rewrite List.Forall_forall in Hrange. split; [exact (Hrange _ Ht)|].
      assert (Hin : In (i, b) (map fst (collides evs))).
      { apply in_map_iff. exists (i, b, r0). auto. }
      rewrite Hf in Hin. apply filter_In in Hin as [Hin Hel]. split; [exact Hel|].
      apply Hcand. exact Hin.
    + intros cell e Hcell He Hel.
      assert (Hin : In (Entry.seenIndex e, Entry.body e) (map fst (collides evs))).
      { rewrite Hf. apply filter_In. split; [apply Hcov with cell; assumption|exact Hel]. }
      apply in_map_iff in Hin as ([[i b] r0] & Heq & Hin). cbn in Heq.
      injection Heq as -> ->.
      rewrite List.Forall_forall in Hrange. specialize (Hrange _ Hin). cbn in Hrange.
      rewrite <- Hrange. exact Hin.
Qed.

(** C1 (as it holds): on a finalized index with clear markers (fewer
    than [2^32 - 1] queries since [Finish]), with masks that return
    numbers and a cap that is a number, a [Line] call answered in one cell
    or with a segment within [MAX_VELOCITY] (its products fitting 63 bits)
    returns, given the rounds its segment needs.  It goes through the
    cells of the traversal of the segment in order and stops at the first
    in which it finds a hit, or at the last: the cells [visited] are
    cells of the traversal from the first on, all of them when null is
    returned, and no body that passes the friend/foe rule and has a cell
    before the last visited in its box has a range below the cap.  The
    bodies handed to [Mask::Collide] are the bodies of [all] that pass the
    friend/foe rule and have a visited cell in their box, each once under
    its dense index, with the range of the segment.  A body returned was
    tested, with a range strictly below the cap and not above the range
    of any body tested; null is returned when no body tested has a range
    below the cap. *)
Theorem Line_returns_nearest_tested mem s fuel p from to closestHit pGov target :
  finalized IsEnemy Length Unit mem s ->
  markers_clear s ->
  masks_return_numbers mem ->
  is_number (closest_dist (closer_init closestHit)) = true ->
  single_cell s from to = true \/ (over_length Length from to = false /\ dda_fits s from to) ->
  (Z.to_nat (cells_ahead s from to) + 1 < fuel)%nat ->
  exists hit ch' s' p' evs visited rest,
    LineQ fuel mem s p from to closestHit pGov target = (Some (hit, ch'), s', p') /\
    events p' = events p ++ evs /\
    visited <> [] /\ Line_cells fuel s from to = visited ++ rest /\
    (hit = nullptr -> rest = []) /\
    NoDup (map (fun t => fst (fst t)) (collides evs)) /\
    (forall i b r,
       In (i, b, r) (collides evs) <->
       (0 <= i /\ all s !! Z.to_nat i = Some b /\
        eligible IsEnemy mem pGov target b = true /\
        r = collide_range mem s from to b /\
        exists cell, In cell visited /\ In cell (footprint mem s b))) /\
    (forall cell i b,
       In cell (removelast visited) -> all s !! i = Some b ->
       eligible IsEnemy mem pGov target b = true -> In cell (footprint mem s b) ->
       (closest_dist (closer_init closestHit) <=? collide_range mem s from to b)%float = true) /\
    (hit <> nullptr ->
       (exists i, In (i, hit, collide_range mem s from to hit) (collides evs)) /\
       (collide_range mem s from to hit <? closest_dist (closer_init closestHit))%float = true /\
       Forall (fun t => (collide_range mem s from to hit <=? snd t)%float = true)
              (collides evs)) /\
    (hit = nullptr ->
       Forall (fun t => (closest_dist (closer_init closestHit) <=? snd t)%float = true)
              (collides evs)).
Proof.
  intros Hfin Hclear Hmask Hcap Hcase Hfuel.
  pose proof (finalized_index_inv IsEnemy Length Unit mem s Hfin) as Hinv.
  assert (Hcase' : single_cell s from to = true \/ over_length Length from to = false)
    by (destruct Hcase as [?|[? _]]; auto).
  pose proof (Line_result fuel mem s p from to closestHit pGov target Hinv Hmask Hcap) as H1.
  pose proof (Line_tested fuel mem s p from to closestHit pGov target Hinv) as H2.
  pose proof (Line_cells_tested mem s fuel p from to closestHit pGov target
                Hinv Hclear Hmask Hcap Hcase') as H3.
  destruct (Line_returns IsEnemy Length Unit mem s p from to closestHit pGov target fuel
              (proj1 Hinv) Hcase Hfuel) as (hit & ch' & Hret).
  destruct (LineQ fuel mem s p from to closestHit pGov target) as [[r s'] p'].
  cbn [fst snd] in Hret. subst r.
  destruct H1 as (evs & Hev & Hres). destruct H2 as (evs2 & Hev2 & Hnd & _).
  destruct (H3 hit ch' eq_refl)
    as (evs3 & visited & rest & Hev3 & Hne & Hcells & Hrest & Hsound & Hcomplete & Hstop).
  rewrite Hev in Hev2, Hev3. apply app_inv_head in Hev2, Hev3. subst evs2 evs3.
  pose proof (tests_of_cells mem s from to pGov target visited (collides evs)
                Hinv Hsound Hcomplete) as Htests.
  exists hit, ch', s', p', evs, visited, rest.
  split; [reflexivity|]. split; [exact Hev|]. split; [exact Hne|]. split; [exact Hcells|].
  split; [exact Hrest|]. split; [exact Hnd|]. split; [exact Htests|].
  split; [|split].
  - intros cell i b Hcell Hall Hel Hfoot.
    pose proof (cell_entries_body mem s cell i b Hinv Hall Hfoot) as He.
    exact (Hstop cell _ Hcell He Hel).
  - intros Hnn.
    destruct (Hres hit ch' eq_refl) as [(Hnull & _)|(_ & i & h & Hin & Hlt & _ & Hall)];
      [contradiction|].
    destruct (proj1 (Htests i hit h) Hin) as (_ & _ & _ & Hh & _). subst h.
    split; [exists i; exact Hin|]. split; [exact Hlt|exact Hall].
  - intros Hnull.
    destruct (Hres hit ch' eq_refl) as [(_ & _ & Hall)|(Hnn & _)]; [exact Hall|contradiction].
Qed.

End Nearest.

(** * The worked examples *)

(** ** Facts about the example data *)

Lemma wall_number w offset dir facing :
  is_number (Collide (wall w) offset dir facing) = true.
Proof.
  unfold is_number, wall, Collide.
  destruct (0 <=? (w - Point.X offset) / Point.X dir)%float eqn:H0; cbn [andb].
  - destruct ((w - Point.X offset) / Point.X dir <? 1)%float; [|reflexivity].
    apply (leb_number _ _ H0).
  - reflexivity.
Qed.

Lemma Ex_masks_return_numbers : masks_return_numbers Ex.mem.
Proof.
  intros b st offset dir facing.
  destruct b as [|[|[|[|[|[|b]]]]]]; apply wall_number.
Qed.

Lemma Ex_governed_masks_return_numbers : masks_return_numbers Ex.mem_governed.
Proof.
  intros b st offset dir facing. apply (Ex_masks_return_numbers b st offset dir facing).
Qed.

Lemma Ex_grid_ok : grid_ok Ex.grid.
Proof.
  unfold grid_ok. split; [vm_compute; split; discriminate|].
  split; [reflexivity|]. split; [reflexivity|].
  split; [exists 3; split; [lia|reflexivity]|reflexivity].
Qed.


Lemma Ex_wide_grid_ok : grid_ok Ex.wide_grid.
Proof.
  unfold grid_ok. split; [vm_compute; split; discriminate|].
  split; [reflexivity|]. split; [reflexivity|].
  split; [exists 3; split; [lia|reflexivity]|reflexivity].
Qed.

(** An index just built is finalized. *)
Lemma built_finalized IsEnemy Length Unit mem s0 st bodies :
  grid_ok s0 -> Forall (fun b => b <> nullptr) bodies ->
  finalized IsEnemy Length Unit mem (build mem s0 st bodies).
Proof.
  intros Hgrid Hnn. exists s0, st, bodies, 0%nat.
  split; [exact Hgrid|]. split; [exact Hnn|]. constructor.
Qed.


(** ** The theorems at work *)

Lemma Add_covers_truncated_box_witness :
  grid_ok Ex.grid /\
  exists new : list Entry,
    added (Add Ex.mem 4%nat Ex.grid) = added Ex.grid ++ new /\
    NoDup new /\
    (forall e, In e new <->
       exists x y, e = Entry.mk 4%nat (Z.of_nat (length (all Ex.grid))) x y /\
         double_to_int (Point.X (Position (Ex.mem 4%nat)) - Radius (Ex.mem 4%nat))
           / CELL_SIZE Ex.grid <= x
         <= double_to_int (Point.X (Position (Ex.mem 4%nat)) + Radius (Ex.mem 4%nat))
           / CELL_SIZE Ex.grid /\
         double_to_int (Point.Y (Position (Ex.mem 4%nat)) - Radius (Ex.mem 4%nat))
           / CELL_SIZE Ex.grid <= y
         <= double_to_int (Point.Y (Position (Ex.mem 4%nat)) + Radius (Ex.mem 4%nat))
           / CELL_SIZE Ex.grid) /\
    (forall j, 0 <= j < Z.of_nat (length (counts Ex.grid)) ->
       vec_get 0 (counts (Add Ex.mem 4%nat Ex.grid)) j
       = vec_get 0 (counts Ex.grid) j
         + Z.of_nat (length (List.filter
             (fun e => cell_index Ex.grid (Entry.x e) (Entry.y e) + 2 =? j) new))) /\
    all (Add Ex.mem 4%nat Ex.grid) = all Ex.grid ++ [4%nat].
Proof.
  split; [exact Ex_grid_ok|].
  exact (Add_covers_truncated_box Ex.mem 4%nat Ex.grid Ex_grid_ok).
Defined.


Lemma each_add_call_tested_at_most_once_witness :
  finalized no_enemies Euclid_Length Euclid_Unit Ex.mem Ex.index12 /\
  ((forall fuel p from to closestHit pGov target,
      let '(r, s', p') :=
        Line no_enemies Euclid_Length Euclid_Unit fuel Ex.mem Ex.index12 p from to
             closestHit pGov target in
      exists evs,
        events p' = events p ++ evs /\
        NoDup (map (fun t => fst (fst t)) (collides evs)) /\
        (forall i b range, In (i, b, range) (collides evs) ->
           0 <= i /\ all Ex.index12 !! Z.to_nat i = Some b) /\
        (forall b, (times b (map (fun t => snd (fst t)) (collides evs))
                    <= times b (all Ex.index12))%nat) /\
        (NoDup (all Ex.index12) -> NoDup (map (fun t => snd (fst t)) (collides evs)))) /\
   (forall p center inner outer,
      let '(res, s', p') := Ring Euclid_Length Ex.mem Ex.index12 p center inner outer in
      exists evs,
        events p' = events p ++ evs /\
        NoDup (map fst (ring_tests evs)) /\
        (forall i b, In (i, b) (ring_tests evs) ->
           0 <= i /\ all Ex.index12 !! Z.to_nat i = Some b) /\
        (forall b, (times b (map snd (ring_tests evs)) <= times b (all Ex.index12))%nat) /\
        (NoDup (all Ex.index12) -> NoDup (map snd (ring_tests evs)))) /\
   (forall p center radius,
      let '(res, s', p') := Circle Euclid_Length Ex.mem Ex.index12 p center radius in
      exists evs,
        events p' = events p ++ evs /\
        NoDup (map fst (ring_tests evs)) /\
        (forall i b, In (i, b) (ring_tests evs) ->
           0 <= i /\ all Ex.index12 !! Z.to_nat i = Some b) /\
        (forall b, (times b (map snd (ring_tests evs)) <= times b (all Ex.index12))%nat) /\
        (NoDup (all Ex.index12) -> NoDup (map snd (ring_tests evs))))).
Proof.
  assert (Hfin : finalized no_enemies Euclid_Length Euclid_Unit Ex.mem Ex.index12).
  { apply built_finalized; [exact Ex_grid_ok|]. repeat constructor; discriminate. }
  split; [exact Hfin|].
  exact (each_add_call_tested_at_most_once no_enemies Euclid_Length Euclid_Unit
           Ex.mem Ex.index12 Hfin).
Defined.


Lemma Ex_index12_finalized :
  finalized no_enemies Euclid_Length Euclid_Unit Ex.mem Ex.index12.
Proof. apply built_finalized; [exact Ex_grid_ok|]. repeat constructor; discriminate. Qed.

Lemma closestHit_minimum_up_to_one_witness :
  finalized no_enemies Euclid_Length Euclid_Unit Ex.mem Ex.index12 /\
  masks_return_numbers Ex.mem /\
  (1 <=? 1)%float = true /\
  (let '(r, s', p') :=
     Line no_enemies Euclid_Length Euclid_Unit 10 Ex.mem Ex.index12 process_start
          Ex.origin Ex.east_1024 (Some 1%float) 0%nat 0%nat in
   (exists evs, events p' = events process_start ++ evs /\
      forall hit ch', r = Some (hit, ch') ->
        (hit <> nullptr ->
           exists i h1, In (i, hit, h1) (collides evs) /\
             (single_cell Ex.index12 Ex.origin Ex.east_1024 = true
              \/ over_length Euclid_Length Ex.origin Ex.east_1024 = false ->
              h1 = collide_range Ex.mem Ex.index12 Ex.origin Ex.east_1024 hit) /\
             ch' = Some (double_min 1 h1)) /\
        (hit = nullptr -> ch' = Some 1%float)) /\
   (single_cell Ex.index12 Ex.origin Ex.east_1024 = true
    \/ (over_length Euclid_Length Ex.origin Ex.east_1024 = false
        /\ dda_fits Ex.index12 Ex.origin Ex.east_1024) ->
    (Z.to_nat (cells_ahead Ex.index12 Ex.origin Ex.east_1024) + 1 < 10)%nat -> r <> None)).
Proof.
  assert (Hcap : (1 <=? 1)%float = true) by reflexivity.
  split; [exact Ex_index12_finalized|]. split; [exact Ex_masks_return_numbers|].
  split; [exact Hcap|].
  exact (closestHit_minimum_up_to_one no_enemies Euclid_Length Euclid_Unit Ex.mem Ex.index12
           10 process_start Ex.origin Ex.east_1024 1%float 0%nat 0%nat
           Ex_index12_finalized Ex_masks_return_numbers Hcap).
Defined.

Lemma Line_returns_nearest_tested_witness :
  finalized no_enemies Euclid_Length Euclid_Unit Ex.mem Ex.index12 /\
  markers_clear Ex.index12 /\
  masks_return_numbers Ex.mem /\
  is_number (closest_dist (closer_init None)) = true /\
  (over_length Euclid_Length Ex.origin Ex.east_1024 = false
   /\ dda_fits Ex.index12 Ex.origin Ex.east_1024) /\
  (Z.to_nat (cells_ahead Ex.index12 Ex.origin Ex.east_1024) + 1 < 10)%nat /\
  exists hit ch' s' p' evs visited rest,
    Line no_enemies Euclid_Length Euclid_Unit 10 Ex.mem Ex.index12 process_start
         Ex.origin Ex.east_1024 None 0%nat 0%nat
    = (Some (hit, ch'), s', p') /\
    events p' = events process_start ++ evs /\
    visited <> [] /\ Line_cells 10 Ex.index12 Ex.origin Ex.east_1024 = visited ++ rest /\
    (hit = nullptr -> rest = []) /\
    NoDup (map (fun t => fst (fst t)) (collides evs)) /\
    (forall i b r,
       In (i, b, r) (collides evs) <->
       (0 <= i /\ all Ex.index12 !! Z.to_nat i = Some b /\
        eligible no_enemies Ex.mem 0%nat 0%nat b = true /\
        r = collide_range Ex.mem Ex.index12 Ex.origin Ex.east_1024 b /\
        exists cell, In cell visited /\ In cell (footprint Ex.mem Ex.index12 b))) /\
    (forall cell i b,
       In cell (removelast visited) -> all Ex.index12 !! i = Some b ->
       eligible no_enemies Ex.mem 0%nat 0%nat b = true ->
       In cell (footprint Ex.mem Ex.index12 b) ->
       (closest_dist (closer_init None)
        <=? collide_range Ex.mem Ex.index12 Ex.origin Ex.east_1024 b)%float = true) /\
    (hit <> nullptr ->
       (exists i, In (i, hit, collide_range Ex.mem Ex.index12 Ex.origin Ex.east_1024 hit)
                     (collides evs)) /\
       (collide_range Ex.mem Ex.index12 Ex.origin Ex.east_1024 hit
        <? closest_dist (closer_init None))%float = true /\
       Forall (fun t => (collide_range Ex.mem Ex.index12 Ex.origin Ex.east_1024 hit
                         <=? snd t)%float = true)
              (collides evs)) /\
    (hit = nullptr ->
       Forall (fun t => (closest_dist (closer_init None) <=? snd t)%float = true)
              (collides evs)).
Proof.
  assert (Hclear : markers_clear Ex.index12).
  { unfold markers_clear. vm_compute. repeat constructor; discriminate. }
  assert (Hcap : is_number (closest_dist (closer_init None)) = true) by reflexivity.
  assert (Hseg : over_length Euclid_Length Ex.origin Ex.east_1024 = false
                 /\ dda_fits Ex.index12 Ex.origin Ex.east_1024).
  { split; [vm_compute; reflexivity|]. unfold dda_fits. vm_compute. reflexivity. }
  assert (Hfuel : (Z.to_nat (cells_ahead Ex.index12 Ex.origin Ex.east_1024) + 1 < 10)%nat).
  { vm_compute. lia. }
  split; [exact Ex_index12_finalized|]. split; [exact Hclear|].
  split; [exact Ex_masks_return_numbers|].
  split; [exact Hcap|]. split; [exact Hseg|]. split; [exact Hfuel|].
  exact (Line_returns_nearest_tested no_enemies Euclid_Length Euclid_Unit Ex.mem Ex.index12
           10 process_start Ex.origin Ex.east_1024 None 0%nat 0%nat
           Ex_index12_finalized Hclear Ex_masks_return_numbers Hcap (or_intror Hseg) Hfuel).
Defined.

(** ** Where the specification says otherwise *)

(** C1: with the two bodies of [Ex.index12] and the segment from the
    origin to [(1024, 0)], which is within [MAX_VELOCITY], [Line] returns
    body 1, found in the first cell with range 0.625; body 2 passes the
    friend/foe rule too and its range, 0.375, is smaller, but it lies in
    the second cell, which [Line] never looks at. *)
Lemma Line_misses_nearer_body :
  finalized no_enemies Euclid_Length Euclid_Unit Ex.mem Ex.index12 /\
  over_length Euclid_Length Ex.origin Ex.east_1024 = false /\
  fst (fst (Line no_enemies Euclid_Length Euclid_Unit 10 Ex.mem Ex.index12 process_start
                 Ex.origin Ex.east_1024 None 0%nat 0%nat)) = Some (1%nat, None) /\
  collide_range Ex.mem Ex.index12 Ex.origin Ex.east_1024 1%nat = 0.625%float /\
  collide_range Ex.mem Ex.index12 Ex.origin Ex.east_1024 2%nat = 0.375%float /\
  ~ claimed_nearest no_enemies Ex.mem Ex.index12 Ex.origin Ex.east_1024 None 0%nat 0%nat 1%nat.
Proof.
  split; [exact Ex_index12_finalized|].
  split; [vm_compute; reflexivity|]. split; [vm_compute; reflexivity|].
  split; [vm_compute; reflexivity|]. split; [vm_compute; reflexivity|].
  intros [H _]. destruct (H ltac:(discriminate)) as [_ Hmin].
  specialize (Hmin 2%nat). cbv zeta in Hmin.
  assert (Hle : (collide_range Ex.mem Ex.index12 Ex.origin Ex.east_1024 1%nat
                 <=? collide_range Ex.mem Ex.index12 Ex.origin Ex.east_1024 2%nat)%float
                = true).
  { apply Hmin. split; [|split].
    - vm_compute. right. left. reflexivity.
    - reflexivity.
    - vm_compute. reflexivity. }
  vm_compute in Hle. discriminate Hle.
Qed.

(** C2: with an incoming [*closestHit] of 2, a segment that stays in one
    cell and body 3 in that cell, which the segment does not reach (its
    range is 1): [Line] returns body 3 and leaves [*closestHit] at 2,
    where [min(2, 1)] is 1. *)
Lemma closestHit_above_one_is_kept :
  finalized no_enemies Euclid_Length Euclid_Unit Ex.mem Ex.index3 /\
  fst (fst (Line no_enemies Euclid_Length Euclid_Unit 10 Ex.mem Ex.index3 process_start
                 Ex.origin Ex.east_128 (Some 2%float) 0%nat 0%nat))
  = Some (3%nat, Some 2%float) /\
  collide_range Ex.mem Ex.index3 Ex.origin Ex.east_128 3%nat = 1%float /\
  double_min 2 1 = 1%float /\
  ~ claimed_closestHit 2 3%nat 1 (Some 2%float).
Proof.
  split.
  { apply built_finalized; [exact Ex_grid_ok|]. repeat constructor; discriminate. }
  split; [vm_compute; reflexivity|]. split; [vm_compute; reflexivity|].
  split; [vm_compute; reflexivity|].
  intros [H _]. specialize (H ltac:(discriminate)).
  apply (f_equal (fun o => match o with Some v => (v =? 2)%float | None => false end)) in H.
  vm_compute in H. discriminate H.
Qed.

(** C5: body 4 is at [(0.5, 0.5)] with radius 1.  Its left edge, -0.5, is
    in the cell [floor(-0.5 / 256) = -1]; [Add] makes -0.5 an [int]
    first, which gives 0, and records the body in the cell [(0, 0)]
    only. *)
Lemma Add_truncates_toward_zero :
  claimed_cell Ex.grid (0.5 - 1) = -1 /\
  added (Add Ex.mem 4%nat Ex.grid) = [Entry.mk 4%nat 0 0 0] /\
  ~ claimed_Add_box Ex.mem 4%nat Ex.grid.
Proof.
  split; [vm_compute; reflexivity|]. split; [vm_compute; reflexivity|].
  unfold claimed_Add_box. cbv zeta. intros (new & Hadd & _ & Hin).
  assert (Hnew : new = [Entry.mk 4%nat 0 0 0]).
  { vm_compute in Hadd. symmetry. exact Hadd. }
  subst new.
  destruct (proj2 (Hin (Entry.mk 4%nat (Z.of_nat (length (all Ex.grid))) (-1) (-1))))
    as [Heq|[]].
  - exists (-1), (-1). split; [reflexivity|]. vm_compute. repeat split; discriminate.
  - vm_compute in Heq. discriminate Heq.
Qed.

Lemma Ex_twice_finalized :
  finalized no_enemies Euclid_Length Euclid_Unit Ex.mem ExMore.twice.
Proof. apply built_finalized; [exact Ex_grid_ok|]. repeat constructor; discriminate. Qed.

(** C3: a body added twice gets two dense indexes, and the markers are
    kept per dense index.  With body 2 added twice, a [Line] call inside
    its cell hands its mask to [Collide] twice, and so does a call that
    reaches the cell by the stepped traversal; a [Ring] call puts it to
    the acceptance test twice. *)
Lemma body_added_twice_is_tested_twice :
  finalized no_enemies Euclid_Length Euclid_Unit Ex.mem ExMore.twice /\
  all ExMore.twice = [2%nat; 2%nat] /\
  single_cell ExMore.twice ExMore.inside_from ExMore.inside_to = true /\
  collides (events (snd (Line no_enemies Euclid_Length Euclid_Unit 10 Ex.mem ExMore.twice
                              process_start ExMore.inside_from ExMore.inside_to
                              None 0%nat 0%nat)))
  = [(0, 2%nat, collide_range Ex.mem ExMore.twice ExMore.inside_from ExMore.inside_to 2%nat);
     (1, 2%nat, collide_range Ex.mem ExMore.twice ExMore.inside_from ExMore.inside_to 2%nat)]
  /\
  single_cell ExMore.twice ExMore.across_from ExMore.across_to = false /\
  over_length Euclid_Length ExMore.across_from ExMore.across_to = false /\
  collides (events (snd (Line no_enemies Euclid_Length Euclid_Unit 10 Ex.mem ExMore.twice
                              process_start ExMore.across_from ExMore.across_to
                              None 0%nat 0%nat)))
  = [(0, 2%nat, collide_range Ex.mem ExMore.twice ExMore.across_from ExMore.across_to 2%nat);
     (1, 2%nat, collide_range Ex.mem ExMore.twice ExMore.across_from ExMore.across_to 2%nat)]
  /\
  ring_tests (events (snd (Ring Euclid_Length Ex.mem ExMore.twice process_start
                                Ex.origin 0 1024)))
  = [(0, 2%nat); (1, 2%nat)] /\
  ~ NoDup [2%nat; 2%nat].
Proof.
  split; [exact Ex_twice_finalized|].
  split; [reflexivity|]. split; [vm_compute; reflexivity|].
  split; [vm_compute; reflexivity|]. split; [vm_compute; reflexivity|].
  split; [vm_compute; reflexivity|]. split; [vm_compute; reflexivity|].
  split; [vm_compute; reflexivity|].
  intros Hnd. apply NoDup_cons in Hnd as [Hnotin _]. apply Hnotin. left.
Qed.


(** C7: a [Line] call whose segment stays in one cell leaves [seenEpoch]
    as it was. *)
Lemma single_cell_call_keeps_epoch :
  single_cell Ex.index3 Ex.origin Ex.east_128 = true /\
  seenEpoch (snd (fst (Line no_enemies Euclid_Length Euclid_Unit 10 Ex.mem Ex.index3
                            process_start Ex.origin Ex.east_128 None 0%nat 0%nat)))
  <> u32 (seenEpoch Ex.index3 + 1).
Proof.
  split; [vm_compute; reflexivity|]. vm_compute. discriminate.
Qed.

(** The same for a segment that is cut: in the grid of cells of [2^20]
    units the segment from [(100000, 0)] to [(1100000, 0)] has its ends in
    two cells and is longer than [MAX_VELOCITY]; the segment cut to 449999
    units lies in one cell, and the call leaves [seenEpoch] as it was. *)
Lemma cut_segment_in_one_cell_keeps_epoch :
  single_cell Ex.wide_index ExMore.long_from ExMore.long_to = false /\
  over_length Euclid_Length ExMore.long_from ExMore.long_to = true /\
  single_cell Ex.wide_index ExMore.long_from
              (clamped Euclid_Unit ExMore.long_from ExMore.long_to) = true /\
  seenEpoch (snd (fst (Line no_enemies Euclid_Length Euclid_Unit 10 Ex.mem Ex.wide_index
                            process_start ExMore.long_from ExMore.long_to None 0%nat 0%nat)))
  = seenEpoch Ex.wide_index /\
  seenEpoch Ex.wide_index <> u32 (seenEpoch Ex.wide_index + 1).
Proof.
  split; [vm_compute; reflexivity|]. split; [vm_compute; reflexivity|].
  split; [vm_compute; reflexivity|]. split; [vm_compute; reflexivity|].
  vm_compute. discriminate.
Qed.






(** * Further properties of the construction *)

(** ** The constructor *)

Lemma shiftr_one_log2 v : 2 <= v -> Z.log2 (Z.shiftr v 1) = Z.log2 v - 1.
Proof.
  intros Hv. rewrite Z.log2_shiftr by lia.
  assert (1 <= Z.log2 v) by (apply Z.log2_le_pow2; simpl; lia). lia.
Qed.

Lemma shiftr_one_zero v : 0 <= v -> (Z.shiftr v 1 =? 0) = true -> v <= 1.
Proof.
  intros Hv H. apply Z.eqb_eq in H. rewrite Z.shiftr_div_pow2 in H by lia.
  change (2 ^ 1) with 2 in H.
  pose proof (Z.div_mod v 2 ltac:(lia)). pose proof (Z.mod_pos_bound v 2 ltac:(lia)). lia.
Qed.

Lemma shiftr_one_nonzero v : 0 <= v -> (Z.shiftr v 1 =? 0) = false -> 2 <= v.
Proof.
  intros Hv H. apply Z.eqb_neq in H.
  destruct (Z.le_gt_cases 2 v) as [|Hlt]; [assumption|]. exfalso. apply H.
  rewrite Z.shiftr_div_pow2 by lia. apply Z.div_small. simpl. lia.
Qed.

Lemma shiftr_one_bound v k : 0 <= k -> 0 <= v < 2 ^ (k + 1) -> 0 <= Z.shiftr v 1 < 2 ^ k.
Proof.
  intros Hk Hv. rewrite Z.shiftr_div_pow2 by lia. change (2 ^ 1) with 2.
  rewrite Z.pow_add_r in Hv by lia. change (2 ^ 1) with 2 in Hv.
  split; [apply Z.div_pos; lia|]. apply Z.div_lt_upper_bound; lia.
Qed.

Lemma log2_small v : 0 <= v <= 1 -> Z.log2 v = 0.
Proof.
  intros Hv. assert (Hc : v = 0 \/ v = 1) by lia. destruct Hc as [-> | ->]; reflexivity.
Qed.

(** The first loop of the constructor counts the binary logarithm. *)
Lemma shift_count_log2 fuel : forall v n,
  0 <= v < 2 ^ Z.of_nat fuel -> (0 < fuel)%nat -> shift_count fuel v n = n + Z.log2 v.
Proof.
  induction fuel as [|fuel IH]; intros v n Hv Hf; [lia|].
  cbn [shift_count].
  destruct (Z.shiftr v 1 =? 0) eqn:Hz.
  - apply shiftr_one_zero in Hz; [|lia]. rewrite log2_small by lia. lia.
  - apply shiftr_one_nonzero in Hz; [|lia].
    destruct fuel as [|fuel'].
    + change (2 ^ Z.of_nat 1) with 2 in Hv. lia.
    + rewrite IH.
      * rewrite shiftr_one_log2 by lia. lia.
      * apply shiftr_one_bound; [lia|].
        replace (Z.of_nat (S fuel') + 1) with (Z.of_nat (S (S fuel'))) by lia. exact Hv.
      * lia.
Qed.

(** The second loop doubles as often. *)
Lemma double_count_log2 fuel : forall v m,
  0 <= v < 2 ^ Z.of_nat fuel -> (0 < fuel)%nat -> 0 <= m -> m + Z.log2 v <= 31 ->
  double_count fuel v (2 ^ m) = 2 ^ (m + Z.log2 v).
Proof.
  induction fuel as [|fuel IH]; intros v m Hv Hf Hm Hfit; [lia|].
  cbn [double_count].
  destruct (Z.shiftr v 1 =? 0) eqn:Hz.
  - apply shiftr_one_zero in Hz; [|lia]. rewrite log2_small by lia. f_equal. lia.
  - apply shiftr_one_nonzero in Hz; [|lia].
    assert (Hlog : 1 <= Z.log2 v) by (apply Z.log2_le_pow2; simpl; lia).
    assert (Hdbl : u32 (Z.shiftl (2 ^ m) 1) = 2 ^ (m + 1)).
    { rewrite Z.shiftl_mul_pow2 by lia. rewrite <- Z.pow_add_r by lia.
      apply u32_small. split; [apply Z.pow_nonneg; lia|].
      apply Z.pow_lt_mono_r; lia. }
    rewrite Hdbl.
    destruct fuel as [|fuel'].
    + change (2 ^ Z.of_nat 1) with 2 in Hv. lia.
    + rewrite IH.
      * rewrite shiftr_one_log2 by lia. f_equal. lia.
      * apply shiftr_one_bound; [lia|].
        replace (Z.of_nat (S fuel') + 1) with (Z.of_nat (S (S fuel'))) by lia. exact Hv.
      * lia.
      * lia.
      * rewrite shiftr_one_log2 by lia. lia.
Qed.

Lemma log2_u32 v : 0 <= Z.log2 (u32 v) <= 31.
Proof.
  pose proof (u32_range v) as Hr. split; [apply Z.log2_nonneg|].
  destruct (Z.eq_dec (u32 v) 0) as [-> | Hne]; [simpl; lia|].
  assert (Z.log2 (u32 v) < 32) by (apply Z.log2_lt_pow2; lia). lia.
Qed.

Lemma log2_brackets v : 1 <= v -> 2 ^ Z.log2 v <= v < 2 * 2 ^ Z.log2 v.
Proof.
  intros Hv. pose proof (Z.log2_spec v ltac:(lia)) as H.
  rewrite Z.pow_succ_r in H by apply Z.log2_nonneg. lia.
Qed.

(** X1: the constructor rounds the cell size and the cell count down to
    powers of two; for every pair of unsigned arguments, [SHIFT] is the
    binary logarithm of the cell size, [CELL_SIZE = 2^SHIFT] is the largest
    power of two not above the size given (1 for a size of 0), [CELLS] is
    the largest power of two not above the count given (1 for a count of
    0), a power of two is kept as it is, the masks are one less than the
    powers, and the index starts empty with a histogram of
    [CELLS * CELLS + 2] zeros. *)
Theorem constructor_rounds_down_to_powers_of_two (cellSize cellCount : Z) :
  let s := CollisionSet_new cellSize cellCount in
  SHIFT s = Z.log2 (u32 cellSize) /\
  CELL_SIZE s = 2 ^ SHIFT s /\
  CELL_MASK s = CELL_SIZE s - 1 /\
  CELLS s = 2 ^ Z.log2 (u32 cellCount) /\
  WRAP_MASK s = CELLS s - 1 /\
  (1 <= u32 cellSize -> CELL_SIZE s <= u32 cellSize < 2 * CELL_SIZE s) /\
  (1 <= u32 cellCount -> CELLS s <= u32 cellCount < 2 * CELLS s) /\
  (u32 cellSize = 0 -> CELL_SIZE s = 1) /\
  (u32 cellCount = 0 -> CELLS s = 1) /\
  (forall k, 0 <= k <= 31 -> cellSize = 2 ^ k -> CELL_SIZE s = cellSize) /\
  (forall k, 0 <= k <= 31 -> cellCount = 2 ^ k -> CELLS s = cellCount) /\
  step s = 0 /\ all s = [] /\ added s = [] /\ sorted s = [] /\
  (u32 cellCount < 2 ^ 16 ->
   counts s = replicate (Z.to_nat (CELLS s * CELLS s + 2)) 0).
Proof.
  intros s.
  pose proof (u32_range cellSize) as Hsz. pose proof (u32_range cellCount) as Hct.
  pose proof (log2_u32 cellSize) as Hlsz. pose proof (log2_u32 cellCount) as Hlct.
  assert (Hshift : SHIFT s = Z.log2 (u32 cellSize)).
  { subst s. unfold CollisionSet_new, Clear. cbn [SHIFT].
    rewrite shift_count_log2 by (change (Z.of_nat 32) with 32; lia). lia. }
  assert (Hsize : CELL_SIZE s = 2 ^ SHIFT s).
  { rewrite Hshift. subst s. unfold CollisionSet_new, Clear. cbn [CELL_SIZE].
    rewrite shift_count_log2 by (change (Z.of_nat 32) with 32; lia).
    replace (0 + Z.log2 (u32 cellSize)) with (Z.log2 (u32 cellSize)) by lia.
    rewrite Z.shiftl_mul_pow2 by lia. rewrite Z.mul_1_l.
    apply u32_small. split; [apply Z.pow_nonneg; lia|]. apply Z.pow_lt_mono_r; lia. }
  assert (Hmask : CELL_MASK s = CELL_SIZE s - 1).
  { rewrite Hsize, Hshift. subst s. unfold CollisionSet_new, Clear. cbn [CELL_MASK].
    rewrite shift_count_log2 by (change (Z.of_nat 32) with 32; lia).
    replace (0 + Z.log2 (u32 cellSize)) with (Z.log2 (u32 cellSize)) by lia.
    rewrite Z.shiftl_mul_pow2 by lia. rewrite Z.mul_1_l.
    assert (Hp : 1 <= 2 ^ Z.log2 (u32 cellSize) < 2 ^ 32).
    { split; [|apply Z.pow_lt_mono_r; lia].
      pose proof (Z.pow_pos_nonneg 2 (Z.log2 (u32 cellSize)) ltac:(lia) ltac:(lia)). lia. }
    rewrite (u32_small (2 ^ _)) by lia. apply u32_small. lia. }
  assert (Hcells : CELLS s = 2 ^ Z.log2 (u32 cellCount)).
  { subst s. unfold CollisionSet_new, Clear. cbn [CELLS].
    change 1 with (2 ^ 0) at 1.
    rewrite double_count_log2 by (change (Z.of_nat 32) with 32; lia). f_equal. }
  assert (Hcp : 1 <= CELLS s < 2 ^ 32).
  { rewrite Hcells. split; [|apply Z.pow_lt_mono_r; lia].
    pose proof (Z.pow_pos_nonneg 2 (Z.log2 (u32 cellCount)) ltac:(lia) ltac:(lia)). lia. }
  assert (Hwrap : WRAP_MASK s = CELLS s - 1).
  { assert (Hw : WRAP_MASK s = u32 (CELLS s - 1)) by reflexivity.
    rewrite Hw. apply u32_small. lia. }
  split; [exact Hshift|]. split; [exact Hsize|]. split; [exact Hmask|].
  split; [exact Hcells|]. split; [exact Hwrap|].
  split. { intros H1. rewrite Hsize, Hshift. apply log2_brackets. exact H1. }
  split. { intros H1. rewrite Hcells. apply log2_brackets. exact H1. }
  split. { intros H0. rewrite Hsize, Hshift, H0. reflexivity. }
  split. { intros H0. rewrite Hcells, H0. reflexivity. }
  split.
  { intros k Hk ->. rewrite Hsize, Hshift.
    rewrite u32_small.
    - rewrite Z.log2_pow2 by lia. reflexivity.
    - split; [apply Z.pow_nonneg; lia|]. apply Z.pow_lt_mono_r; lia. }
  split.
  { intros k Hk ->. rewrite Hcells.
    rewrite u32_small.
    - rewrite Z.log2_pow2 by lia. reflexivity.
    - split; [apply Z.pow_nonneg; lia|]. apply Z.pow_lt_mono_r; lia. }
  split; [reflexivity|]. split; [reflexivity|]. split; [reflexivity|].
  split; [reflexivity|].
  intros Hsmall.
  assert (Hgrid : grid_ok s) by (apply CollisionSet_new_grid_ok; exact Hsmall).
  assert (Hcnt : counts s = replicate (Z.to_nat (u32 (u32 (CELLS s * CELLS s) + 2))) 0)
    by reflexivity.
  rewrite Hcnt, (grid_table_size s Hgrid). reflexivity.
Qed.

(** ** The bin of a cell *)

(** X2: the bin of a cell.  On a grid of [CELLS] rows and columns the bin
    index of the cell [(gx, gy)] is [(gy mod CELLS) * CELLS + (gx mod
    CELLS)], a number below [CELLS * CELLS]; two cells share a bin exactly
    when their columns and their rows are congruent modulo [CELLS], so the
    grid repeats with the period [CELLS] in both directions and the cells
    of one period have bins of their own. *)
Theorem cells_share_a_bin_iff_congruent (s : CollisionSet) (gx gy gx' gy' : Z) :
  grid_ok s ->
  cell_index s gx gy = (gy mod CELLS s) * CELLS s + gx mod CELLS s /\
  0 <= cell_index s gx gy < CELLS s * CELLS s /\
  (cell_index s gx gy = cell_index s gx' gy' <->
   gx mod CELLS s = gx' mod CELLS s /\ gy mod CELLS s = gy' mod CELLS s) /\
  cell_index s (gx + CELLS s) gy = cell_index s gx gy /\
  cell_index s gx (gy + CELLS s) = cell_index s gx gy /\
  (0 <= gx < CELLS s -> 0 <= gy < CELLS s -> cell_index s gx gy = gy * CELLS s + gx).
Proof.
  intros Hgrid.
  pose proof (grid_cells_range s Hgrid) as Hc.
  assert (Hform : forall x y, cell_index s x y = (y mod CELLS s) * CELLS s + x mod CELLS s).
  { intros x y. rewrite (cell_index_eq s x y Hgrid), !grid_land_mod by exact Hgrid.
    reflexivity. }
  split; [apply Hform|]. split; [apply cell_index_range; exact Hgrid|].
  split.
  { rewrite !Hform.
    pose proof (Z.mod_pos_bound gx (CELLS s) ltac:(lia)).
    pose proof (Z.mod_pos_bound gx' (CELLS s) ltac:(lia)).
    pose proof (Z.mod_pos_bound gy (CELLS s) ltac:(lia)).
    pose proof (Z.mod_pos_bound gy' (CELLS s) ltac:(lia)).
    split.
    - intros Heq.
      assert (Hy : gy mod CELLS s = gy' mod CELLS s).
      { apply (f_equal (fun v => v / CELLS s)) in Heq.
        rewrite !Z.div_add_l in Heq by lia.
        rewrite !(Z.div_small (_ mod _)) in Heq by lia. lia. }
      rewrite Hy in Heq. split; [lia|exact Hy].
    - intros [-> ->]. reflexivity. }
  split.
  { rewrite !Hform. f_equal.
    rewrite <- (Z.mul_1_l (CELLS s)) at 1. apply Z.mod_add. lia. }
  split.
  { rewrite !Hform. f_equal. f_equal.
    rewrite <- (Z.mul_1_l (CELLS s)) at 1. apply Z.mod_add. lia. }
  intros Hx Hy. rewrite Hform, !Z.mod_small by lia. reflexivity.
Qed.

(** ** Rebuilding *)

(** Two states that differ in the markers and the epoch only. *)
Lemma Add_markers_irrelevant mem b s s' :
  same_grid s s' -> step s = step s' -> all s = all s' -> added s = added s' ->
  sorted s = sorted s' -> counts s = counts s' -> result s = result s' ->
  let t := Add mem b s in
  let t' := Add mem b s' in
  same_grid t t' /\ step t = step t' /\ all t = all t' /\ added t = added t' /\
  sorted t = sorted t' /\ counts t = counts t' /\ result t = result t'.
Proof.
  intros Hg Hst Hall Hadd Hsrt Hcnt Hres t t'. subst t t'.
  rewrite !Add_eq. cbn zeta.
  cbn [CELL_SIZE SHIFT CELL_MASK CELLS WRAP_MASK step all added sorted counts result].
  assert (Hent : entries_of mem s (Z.of_nat (length (all s))) b
                 = entries_of mem s' (Z.of_nat (length (all s'))) b).
  { rewrite Hall. unfold entries_of, footprint, footprint_x, footprint_y.
    destruct Hg as (_ & -> & _). reflexivity. }
  split.
  { unfold same_grid. cbn [CELL_SIZE SHIFT CELL_MASK CELLS WRAP_MASK]. exact Hg. }
  split; [exact Hst|]. split; [rewrite Hall; reflexivity|].
  split; [rewrite Hadd, Hent; reflexivity|]. split; [exact Hsrt|].
  split; [|exact Hres].
  rewrite Hcnt, Hent. f_equal. apply map_ext. intros e.
  apply add_slot_ext; destruct Hg as (_ & _ & _ & Hc & Hw); assumption.
Qed.

Lemma place_ext s s' : same_grid s s' -> forall st e, place s st e = place s' st e.
Proof.
  intros Hg [srt cnt] e. unfold place. rewrite (cell_index_ext s s' _ _ Hg). reflexivity.
Qed.

Lemma Finish_markers_irrelevant s s' :
  same_grid s s' -> step s = step s' -> all s = all s' -> added s = added s' ->
  sorted s = sorted s' -> counts s = counts s' -> result s = result s' ->
  Finish s = Finish s'.
Proof.
  intros Hg Hst Hall Hadd Hsrt Hcnt Hres.
  unfold Finish. rewrite Hadd, Hsrt, Hcnt, Hall, Hst, Hres.
  rewrite (fold_left_pointwise (place s) (place s') _ (place_ext s s' Hg)).
  destruct Hg as (-> & -> & -> & -> & ->). reflexivity.
Qed.

(** X3: rebuilding forgets.  What [Clear], the [Add] calls and [Finish]
    leave behind depends on the earlier state of the index through its grid
    parameters and the vector of the last [Ring] call only: two indexes of
    the same grid holding the same [result] are equal after the same
    rebuild, whatever bodies, tables, markers, epoch and step they held
    before.  [result] itself survives the rebuild unchanged. *)
Theorem rebuild_forgets_previous_contents (mem : Heap) (s1 s2 : CollisionSet) (st : Z)
    (bodies : list Body_ptr) :
  same_grid s1 s2 -> result s1 = result s2 ->
  build mem s1 st bodies = build mem s2 st bodies /\
  result (build mem s1 st bodies) = result s1.
Proof.
  intros Hg Hres.
  set (R := fun s s' : CollisionSet =>
              same_grid s s' /\ step s = step s' /\ all s = all s' /\ added s = added s' /\
              sorted s = sorted s' /\ counts s = counts s' /\ result s = result s').
  assert (HR : R (fold_left (fun s b => Add mem b s) bodies (Clear st s1))
                 (fold_left (fun s b => Add mem b s) bodies (Clear st s2))).
  { apply (fold_left_related R).
    - intros b t t' _ (H1 & H2 & H3 & H4 & H5 & H6 & H7).
      apply (Add_markers_irrelevant mem b t t'); assumption.
    - unfold R, Clear, same_grid.
      cbn [CELL_SIZE SHIFT CELL_MASK CELLS WRAP_MASK step all added sorted counts result].
      destruct Hg as (H1 & H2 & H3 & H4 & H5). rewrite H4.
      repeat split; assumption. }
  split.
  - unfold build. destruct HR as (H1 & H2 & H3 & H4 & H5 & H6 & H7).
    apply Finish_markers_irrelevant; assumption.
  - unfold build.
    destruct (Finish_fields (fold_left (fun s b => Add mem b s) bodies (Clear st s1)))
      as (_ & _ & _ & _ & -> & _).
    rewrite adds_eq. reflexivity.
Qed.

(** ** The order of the sorted table *)







(** ** The bodies of the index *)

Section Bodies.
Variable IsEnemy : Gov_ptr -> Gov_ptr -> bool.
Variable Length : Point -> float.
Variable Unit : Point -> Point.

(** X5: [All] returns the bodies added since the last [Clear], in the
    order of their [Add] calls, whether or not a body got an entry in the
    grid; this holds before [Finish], after it, and after any number of
    queries.  The dense index of a body is its position in that list. *)
Theorem All_lists_the_added_bodies (mem : Heap) (s0 : CollisionSet) (st : Z)
    (bodies : list Body_ptr) :
  All (fold_left (fun s b => Add mem b s) bodies (Clear st s0)) = bodies /\
  All (build mem s0 st bodies) = bodies /\
  (forall n s, queried IsEnemy Length Unit mem (build mem s0 st bodies) n s ->
     All s = bodies) /\
  (forall b, All (Add mem b (build mem s0 st bodies)) = bodies ++ [b]) /\
  (forall e, In e (added (build mem s0 st bodies)) ->
     0 <= Entry.seenIndex e /\
     bodies !! Z.to_nat (Entry.seenIndex e) = Some (Entry.body e)).
Proof.
  assert (Hadds : forall s, all (fold_left (fun s b => Add mem b s) bodies (Clear st s))
                            = bodies).
  { intros s. rewrite adds_eq. reflexivity. }
  assert (Hbuild : all (build mem s0 st bodies) = bodies).
  { unfold build.
    destruct (Finish_fields (fold_left (fun s b => Add mem b s) bodies (Clear st s0)))
      as (_ & _ & -> & _). apply Hadds. }
  split; [apply Hadds|]. split; [exact Hbuild|].
  split.
  { intros n s Hq. unfold All.
    destruct (queried_tables Length Unit IsEnemy mem _ n s Hq) as (_ & _ & -> & _).
    exact Hbuild. }
  split.
  { intros b. unfold All. rewrite Add_eq. cbn zeta. cbn [all]. rewrite Hbuild. reflexivity. }
  intros e He.
  assert (Hadded : added (build mem s0 st bodies)
                   = entries_from mem (Clear st s0) 0 bodies).
  { unfold build.
    destruct (Finish_fields (fold_left (fun s b => Add mem b s) bodies (Clear st s0)))
      as (_ & _ & _ & -> & _). rewrite adds_eq. reflexivity. }
  rewrite Hadded in He. apply in_entries_from in He as (i & b & Hi & Hidx & Hb & _).
  rewrite Hidx. split; [lia|]. rewrite Nat2Z.id. cbn [Nat.add]. rewrite Hi, Hb. reflexivity.
Qed.

End Bodies.

(** * Further properties of the queries *)

(** ** [TryNearer] *)

Lemma TryNearer_dist_le r b c :
  is_number r = true -> is_number (closest_dist c) = true ->
  (closest_dist (TryNearer r b c) <=? r)%float = true /\
  is_number (closest_dist (TryNearer r b c)) = true.
Proof.
  intros Hr Hc. unfold TryNearer.
  destruct (closest_dist c <=? r)%float eqn:Hle; cbn [closest_dist].
  - split; [exact Hle|exact Hc].
  - split; exact Hr.
Qed.

(** X6: [TryNearer] keeps the first of the nearest.  Fed with a series of
    ranges, all of them numbers, [Closest] ends with a range below its
    starting value exactly when some range of the series is below it; it
    then holds the first body of the series whose range is the least: every
    earlier range is strictly greater and no later range is smaller.  A
    range equal to the best so far replaces nothing. *)
Theorem TryNearer_keeps_first_of_the_nearest (tests : list (Z * Body_ptr * float))
    (c0 : Closest) :
  is_number (closest_dist c0) = true ->
  Forall (fun t => is_number (snd t) = true) tests ->
  let c := try_all tests c0 in
  ((closest_dist c <? closest_dist c0)%float = true ->
   exists before i after,
     tests = before ++ (i, closest_body c, closest_dist c) :: after /\
     Forall (fun t => (closest_dist c <? snd t)%float = true) before /\
     Forall (fun t => (closest_dist c <=? snd t)%float = true) after) /\
  ((closest_dist c <? closest_dist c0)%float = false ->
   c = c0 /\ Forall (fun t => (closest_dist c0 <=? snd t)%float = true) tests) /\
  (forall r b c1, (closest_dist c1 <=? r)%float = true -> TryNearer r b c1 = c1).
Proof.
  intros Hc0 Hnum. cbv zeta.
  split; [|split].
  - revert c0 Hc0. induction Hnum as [|t ts Ht Hts IH]; intros c0 Hc0 Hlt.
    + cbn in Hlt. apply ltb_not_leb in Hlt.
      unfold is_number in Hc0. congruence.
    + destruct t as [[i b] r]. cbn [snd] in Ht.
      change (try_all ((i, b, r) :: ts) c0) with (try_all ts (TryNearer r b c0)) in *.
      destruct (TryNearer_dist_le r b c0 Ht Hc0) as [Hle1 Hn1].
      set (c1 := TryNearer r b c0) in *.
      destruct (closest_dist (try_all ts c1) <? closest_dist c1)%float eqn:Hlt1.
      * destruct (IH c1 Hn1 Hlt1) as (before & j & after & Heq & Hb & Ha).
        exists ((i, b, r) :: before), j, after.
        split; [cbn [app]; f_equal; exact Heq|].
        split; [|exact Ha]. constructor; [|exact Hb]. cbn [snd].
        apply (ltb_leb_trans _ _ _ Hlt1 Hle1).
      * destruct (try_all_spec ts c1 Hn1 Hts) as [[Heq Hall] | (_ & Hlt2 & _)].
        2:{ cbv zeta in Hlt2. congruence. }
        cbv zeta in Heq. rewrite Heq in *.
        assert (Hacc : c1 = {| closest_dist := r; closest_body := b |}).
        { subst c1. unfold TryNearer.
          destruct (closest_dist c0 <=? r)%float eqn:Hle; [|reflexivity].
          exfalso. unfold TryNearer in Hlt. rewrite Hle in Hlt.
          apply ltb_not_leb in Hlt. unfold is_number in Hc0. congruence. }
        exists [], i, ts. rewrite Hacc in *. cbn [closest_dist closest_body] in *.
        split; [reflexivity|]. split; [constructor|exact Hall].
  - intros Hnlt. destruct (try_all_spec tests c0 Hc0 Hnum) as [[Heq Hall] | (_ & Hlt & _)].
    + cbv zeta in Heq. split; [exact Heq|exact Hall].
    + cbv zeta in Hlt. congruence.
  - intros r b c1 Hle. unfold TryNearer. rewrite Hle. reflexivity.
Qed.

Section MoreQueries.
Variable IsEnemy : Gov_ptr -> Gov_ptr -> bool.
Variable Length : Point -> float.
Variable Unit : Point -> Point.

(** ** What the queries leave alone *)

Lemma Line_seen_length fuel mem s p from to ch pGov target :
  length (seen (snd (fst (Line IsEnemy Length Unit fuel mem s p from to ch pGov target))))
  = length (seen s).
Proof.
  pose proof (Line_invariant IsEnemy Length Unit
                (fun st => length (fst (fst st)) = length (seen s))
                mem s ch pGov target) as HL.
  specialize (HL ltac:(auto)
                 ltac:(intros; destruct (visit_single _ _ _ _ _ _ _ _ _ _ _); auto)).
  assert (H3 : forall from to gx gy st it, In it (bin s (cell_index s gx gy)) ->
             length (fst (fst st)) = length (seen s) ->
             length (fst (fst (visit_stepped IsEnemy mem s (u32 (seenEpoch s + 1)) from to
                                             pGov target gx gy st it)))
             = length (seen s)).
  { intros from' to' gx gy [[sn c] q] it _ Hlen.
    rewrite (visit_stepped_length IsEnemy). exact Hlen. }
  specialize (HL H3 fuel p from to eq_refl).
  destruct (Line IsEnemy Length Unit fuel mem s p from to ch pGov target) as [[r s'] p'].
  destruct HL as (c' & H & _). exact H.
Qed.

Lemma Ring_seen_length mem s p center inner outer :
  length (seen (snd (fst (Ring Length mem s p center inner outer)))) = length (seen s).
Proof.
  pose proof (Ring_invariant Length
                (fun st => length (fst (fst st)) = length (seen s))
                mem s p center inner outer) as HR.
  assert (H1 : forall x y st it, In it (bin s (cell_index s x y)) ->
             length (fst (fst st)) = length (seen s) ->
             length (fst (fst (visit_ring Length mem s (u32 (seenEpoch s + 1)) center
                                          inner outer y x st it)))
             = length (seen s)).
  { intros x y [[sn res] q] it _ Hlen. rewrite (visit_ring_length Length). exact Hlen. }
  specialize (HR H1 eq_refl).
  destruct (Ring Length mem s p center inner outer) as [[res s'] p'].
  exact HR.
Qed.

(** X7: the queries read the tables and write the markers only.  A call of
    [Line] leaves the grid parameters, the step, the bodies, the entries,
    the sorted table, the offsets and the vector of the last [Ring] call as
    they were, and so does the overload taking a projectile; a call of
    [Ring] or [Circle] replaces that vector by the one it returns and
    leaves the rest alone.  So every bin holds after a query
    what it held before, the markers keep their number, and a vector
    obtained from [Ring] stays in the index through later [Line] calls
    until the next [Ring] or [Circle]. *)
Theorem queries_leave_the_tables_alone :
  (forall fuel mem s p from to ch pGov target,
     let '(r, s', p') := Line IsEnemy Length Unit fuel mem s p from to ch pGov target in
     same_grid s s' /\ step s' = step s /\ All s' = All s /\ added s' = added s /\
     sorted s' = sorted s /\ counts s' = counts s /\ result s' = result s /\
     (forall i, bin s' i = bin s i) /\ length (seen s') = length (seen s)) /\
  (forall mem s p center inner outer,
     let '(res, s', p') := Ring Length mem s p center inner outer in
     same_grid s s' /\ step s' = step s /\ All s' = All s /\ added s' = added s /\
     sorted s' = sorted s /\ counts s' = counts s /\ result s' = res /\
     (forall i, bin s' i = bin s i) /\ length (seen s') = length (seen s)) /\
  (forall mem s p center radius,
     let '(res, s', p') := Circle Length mem s p center radius in
     same_grid s s' /\ step s' = step s /\ All s' = All s /\ added s' = added s /\
     sorted s' = sorted s /\ counts s' = counts s /\ result s' = res /\
     (forall i, bin s' i = bin s i) /\ length (seen s') = length (seen s)) /\
  (forall fuel mem s p projectile ch,
     let '(r, s', p') := Line_projectile IsEnemy Length Unit fuel mem s p projectile ch in
     same_grid s s' /\ step s' = step s /\ All s' = All s /\ added s' = added s /\
     sorted s' = sorted s /\ counts s' = counts s /\ result s' = result s /\
     (forall i, bin s' i = bin s i) /\ length (seen s') = length (seen s)).
Proof.
  assert (HRing : forall mem s p center inner outer,
     let '(res, s', p') := Ring Length mem s p center inner outer in
     same_grid s s' /\ step s' = step s /\ All s' = All s /\ added s' = added s /\
     sorted s' = sorted s /\ counts s' = counts s /\ result s' = res /\
     (forall i, bin s' i = bin s i) /\ length (seen s') = length (seen s)).
  { intros mem s p center inner outer.
    pose proof (Ring_fields Length mem s p center inner outer) as HF.
    pose proof (Ring_seen_length mem s p center inner outer) as HL.
    destruct (Ring Length mem s p center inner outer) as [[res s'] p'].
    cbn [fst snd] in HL.
    destruct HF as (H1 & H2 & H3 & H4 & H5 & H6 & H7 & _).
    repeat (split; [assumption|]). split; [|exact HL].
    intros i. apply bin_ext; assumption. }
  assert (HLine : forall fuel mem s p from to ch pGov target,
     let '(r, s', p') := Line IsEnemy Length Unit fuel mem s p from to ch pGov target in
     same_grid s s' /\ step s' = step s /\ All s' = All s /\ added s' = added s /\
     sorted s' = sorted s /\ counts s' = counts s /\ result s' = result s /\
     (forall i, bin s' i = bin s i) /\ length (seen s') = length (seen s)).
  2:{ split; [exact HLine|]. split; [exact HRing|].
      split; [intros mem s p center radius; apply HRing|].
      intros fuel mem s p projectile ch. apply HLine. }
  intros fuel mem s p from to ch pGov target.
  pose proof (Line_frame IsEnemy Length Unit fuel mem s p from to ch pGov target) as HF.
  pose proof (Line_seen_length fuel mem s p from to ch pGov target) as HL.
  destruct (Line IsEnemy Length Unit fuel mem s p from to ch pGov target) as [[r s'] p'].
  cbn [fst snd] in HL.
  assert (Hfields : same_grid s s' /\ step s' = step s /\ all s' = all s /\
                    added s' = added s /\ sorted s' = sorted s /\ counts s' = counts s /\
                    result s' = result s).
  { destruct HF as [-> | ->].
    - split; [apply same_grid_refl|]. repeat split.
    - apply set_seen_fields. }
  destruct Hfields as (H1 & H2 & H3 & H4 & H5 & H6 & H7).
  repeat (split; [assumption|]). split; [|exact HL].
  intros i. apply bin_ext; assumption.
Qed.

(** ** Queries on an index without entries *)

Lemma bin_of_empty s i : sorted s = [] -> bin s i = [].
Proof. intros Hs. unfold bin. rewrite Hs, drop_nil, take_nil. reflexivity. Qed.

Lemma write_back_initial ch : write_back (closer_init ch) ch = ch.
Proof.
  destruct ch as [h|]; [|reflexivity]. unfold write_back, closer_init. cbn [closest_dist].
  destruct (h <? 1)%float; reflexivity.
Qed.

Lemma Line_on_empty fuel mem s p from to ch pGov target :
  sorted s = [] ->
  let '(r, s', p') := Line IsEnemy Length Unit fuel mem s p from to ch pGov target in
  (r = None \/ r = Some (nullptr, ch)) /\
  (s' = s \/ s' = set_seen s (seen s) (u32 (seenEpoch s + 1))) /\
  exists evs, events p' = events p ++ evs /\ candidates evs = [] /\ collides evs = [].
Proof.
  intros Hs.
  pose proof (Line_invariant IsEnemy Length Unit
                (fun st => fst (fst st) = seen s /\ snd (fst st) = closer_init ch /\
                           exists evs, events (snd st) = events p ++ evs /\
                                       candidates evs = [] /\ collides evs = [])
                mem s ch pGov target) as HL.
  assert (H1 : forall sn c q,
             (sn = seen s /\ c = closer_init ch /\
              exists evs, events q = events p ++ evs /\
                          candidates evs = [] /\ collides evs = []) ->
             (sn = seen s /\ c = closer_init ch /\
              exists evs, events (warn q) = events p ++ evs /\
                          candidates evs = [] /\ collides evs = [])).
  { intros sn c q (Hsn & Hc & evs & Hev & Hcand & Hcol).
    split; [exact Hsn|]. split; [exact Hc|]. unfold warn.
    destruct (warned q).
    - exists evs. auto.
    - exists (evs ++ [LogError velocity_warning]). cbn [events].
      rewrite Hev, app_assoc, candidates_app, collides_app, Hcand, Hcol.
      split; [reflexivity|]. split; reflexivity. }
  specialize (HL H1).
  assert (H2 : forall from to gx gy c q it, In it (bin s (cell_index s gx gy)) ->
             (seen s = seen s /\ c = closer_init ch /\
              exists evs, events q = events p ++ evs /\
                          candidates evs = [] /\ collides evs = []) ->
             let '(c', q') := visit_single IsEnemy mem s from to pGov target gx gy (c, q) it in
             (seen s = seen s /\ c' = closer_init ch /\
              exists evs, events q' = events p ++ evs /\
                          candidates evs = [] /\ collides evs = [])).
  { intros from' to' gx gy c q it Hin. rewrite (bin_of_empty s _ Hs) in Hin. destruct Hin. }
  specialize (HL H2).
  assert (H3 : forall from to gx gy (st : list Z * Closest * Process) it,
             In it (bin s (cell_index s gx gy)) ->
             (fst (fst st) = seen s /\ snd (fst st) = closer_init ch /\
              exists evs, events (snd st) = events p ++ evs /\
                          candidates evs = [] /\ collides evs = []) ->
             let st' := visit_stepped IsEnemy mem s (u32 (seenEpoch s + 1)) from to pGov
                                      target gx gy st it in
             (fst (fst st') = seen s /\ snd (fst st') = closer_init ch /\
              exists evs, events (snd st') = events p ++ evs /\
                          candidates evs = [] /\ collides evs = [])).
  { intros from' to' gx gy st it Hin. rewrite (bin_of_empty s _ Hs) in Hin. destruct Hin. }
  specialize (HL H3 fuel p from to).
  cbn [fst snd] in HL.
  specialize (HL ltac:(split; [reflexivity|]; split; [reflexivity|];
                       exists []; rewrite app_nil_r; auto)).
  destruct (Line IsEnemy Length Unit fuel mem s p from to ch pGov target) as [[r s'] p'].
  destruct HL as (c' & (Hsn & Hc & Hev) & Hr & Hs').
  split.
  { destruct Hr as [Hr|Hr]; [left; exact Hr|right].
    rewrite Hr, Hc, write_back_initial. reflexivity. }
  split; [|exact Hev].
  destruct Hs' as [Hs'|Hs']; [left; exact Hs'|right]. rewrite Hs' at 1. rewrite Hsn.
  reflexivity.
Qed.

Lemma Ring_on_empty mem s p center inner outer :
  sorted s = [] ->
  let '(res, s', p') := Ring Length mem s p center inner outer in
  res = [] /\ p' = p /\ seen s' = seen s.
Proof.
  intros Hs.
  pose proof (Ring_invariant Length (fun st => st = (seen s, [], p))
                mem s p center inner outer) as HR.
  assert (H1 : forall x y st it, In it (bin s (cell_index s x y)) ->
             st = (seen s, [], p) ->
             visit_ring Length mem s (u32 (seenEpoch s + 1)) center inner outer y x st it
             = (seen s, [], p)).
  { intros x y st it Hin. rewrite (bin_of_empty s _ Hs) in Hin. destruct Hin. }
  specialize (HR H1 eq_refl).
  destruct (Ring Length mem s p center inner outer) as [[res s'] p'].
  injection HR as -> -> ->. auto.
Qed.

Lemma build_nothing_sorted mem s0 st : sorted (build mem s0 st []) = [].
Proof. reflexivity. Qed.

(** X8: an index without bodies answers every query with nothing.  On the
    index just constructed, on an index just cleared and on one finished
    without any [Add], [Ring] and [Circle] return the empty vector and
    [Line] returns null and leaves [*closestHit] as it was; no mask is
    consulted and no marker is written. *)
Theorem empty_index_finds_nothing (mem : Heap) (s0 : CollisionSet) (st : Z)
    (cellSize cellCount : Z) (s : CollisionSet) :
  s = CollisionSet_new cellSize cellCount \/ s = Clear st s0 \/ s = build mem s0 st [] ->
  All s = [] /\
  (forall fuel p from to ch pGov target,
     let '(r, s', p') := Line IsEnemy Length Unit fuel mem s p from to ch pGov target in
     (r = None \/ r = Some (nullptr, ch)) /\
     seen s' = seen s /\
     exists evs, events p' = events p ++ evs /\ candidates evs = [] /\ collides evs = []) /\
  (forall p center inner outer,
     let '(res, s', p') := Ring Length mem s p center inner outer in
     res = [] /\ p' = p /\ seen s' = seen s) /\
  (forall p center radius,
     let '(res, s', p') := Circle Length mem s p center radius in
     res = [] /\ p' = p /\ seen s' = seen s).
Proof.
  intros Hcase.
  assert (Hs : sorted s = [] /\ all s = []).
  { destruct Hcase as [-> | [-> | ->]]; split; reflexivity. }
  destruct Hs as [Hs Hall].
  split; [exact Hall|]. split; [|split].
  - intros fuel p from to ch pGov target.
    pose proof (Line_on_empty fuel mem s p from to ch pGov target Hs) as H.
    destruct (Line IsEnemy Length Unit fuel mem s p from to ch pGov target) as [[r s'] p'].
    destruct H as (Hr & Hs' & Hev). split; [exact Hr|]. split; [|exact Hev].
    destruct Hs' as [-> | ->]; reflexivity.
  - intros p center inner outer. apply Ring_on_empty. exact Hs.
  - intros p center radius. apply Ring_on_empty. exact Hs.
Qed.

(** ** The update of [*closestHit] *)

(** X9: [Line] writes [*closestHit] only with a range below 1, and never
    raises it.  For a finalized index, masks that return numbers and a
    cap that is a number (the value of [*closestHit], or 1 for a null
    pointer), a call that returns a body found it at a range strictly
    below the cap; [*closestHit] then becomes that range if the range is
    below 1 and stays as it was otherwise; a call that returns null leaves
    [*closestHit] as it was; a null [closestHit] stays null.  In every
    case the value after the call is not above the value before. *)
Theorem closestHit_written_only_below_one (mem : Heap) (s : CollisionSet) (fuel : nat)
    (p : Process) (from to : Point) (closestHit : option float) (pGov : Gov_ptr)
    (target : Body_ptr) :
  finalized IsEnemy Length Unit mem s ->
  masks_return_numbers mem ->
  is_number (closest_dist (closer_init closestHit)) = true ->
  let '(r, s', p') :=
    Line IsEnemy Length Unit fuel mem s p from to closestHit pGov target in
  exists evs,
    events p' = events p ++ evs /\
    forall hit ch', r = Some (hit, ch') ->
      (hit = nullptr -> ch' = closestHit) /\
      (hit <> nullptr ->
         exists i h1,
           In (i, hit, h1) (collides evs) /\
           (h1 <? closest_dist (closer_init closestHit))%float = true /\
           ch' = match closestHit with
                 | Some h0 => Some (if (h1 <? 1)%float then h1 else h0)
                 | None => None
                 end) /\
      (forall h0, closestHit = Some h0 ->
         exists h', ch' = Some h' /\ (h' <=? h0)%float = true) /\
      (closestHit = None -> ch' = None).
Proof.
  intros Hfin Hmask Hcap.
  pose proof (finalized_index_inv IsEnemy Length Unit mem s Hfin) as Hinv.
  pose proof (Line_result IsEnemy Length Unit fuel mem s p from to closestHit pGov target
                Hinv Hmask Hcap) as HR.
  destruct (Line IsEnemy Length Unit fuel mem s p from to closestHit pGov target)
    as [[r s'] p'].
  destruct HR as (evs & Hev & HR). exists evs. split; [exact Hev|].
  intros hit ch' Hr.
  destruct (HR hit ch' Hr) as [(Hnull & Hch & _) | (Hhit & i & h & Hin & Hlt & Hch & _)].
  - rewrite write_back_initial in Hch.
    split; [intros _; exact Hch|]. split; [intros Hne; contradiction|].
    split.
    + intros h0 Hh0. exists h0. rewrite Hch, Hh0. split; [reflexivity|].
      rewrite Hh0 in Hcap. exact Hcap.
    + intros Hnone. rewrite Hch. exact Hnone.
  - split; [intros Hn; contradiction|].
    assert (Hform : ch' = match closestHit with
                          | Some h0 => Some (if (h <? 1)%float then h else h0)
                          | None => None
                          end).
    { rewrite Hch. unfold write_back. cbn [closest_dist].
      destruct closestHit as [h0|]; [|reflexivity].
      destruct (h <? 1)%float; reflexivity. }
    split; [intros _; exists i, h; auto|].
    split.
    + intros h0 Hh0. rewrite Hform, Hh0. rewrite Hh0 in Hlt, Hcap.
      cbn [closer_init closest_dist] in Hlt, Hcap.
      destruct (h <? 1)%float.
      * exists h. split; [reflexivity|]. apply ltb_leb. exact Hlt.
      * exists h0. split; [reflexivity|]. exact Hcap.
    + intros Hnone. rewrite Hform, Hnone. reflexivity.
Qed.

(** ** Segments longer than the limit *)

(** X10: a segment longer than [MAX_VELOCITY] is answered as the segment
    cut to [USED_MAX_VELOCITY].  When the two ends lie in different cells
    and the segment is too long, [Line] logs the warning unless it was
    logged before, and returns what it returns for the segment from the
    same start to [from + unit * 449999]; when that segment is within the
    limit (or in one cell) the call returns after one more round than the
    cut segment needs, the flag [warned] is set, and nothing else is
    logged. *)
Theorem Line_answers_for_the_cut_segment (mem : Heap) (s : CollisionSet) (fuel : nat)
    (p : Process) (from to : Point) (closestHit : option float) (pGov : Gov_ptr)
    (target : Body_ptr) :
  grid_ok s ->
  single_cell s from to = false ->
  over_length Length from to = true ->
  single_cell s from (clamped Unit from to) = true \/
    (over_length Length from (clamped Unit from to) = false /\
     dda_fits s from (clamped Unit from to)) ->
  (Z.to_nat (cells_ahead s from (clamped Unit from to)) + 1 < fuel)%nat ->
  exists hit ch' s' p',
    Line IsEnemy Length Unit (S fuel) mem s p from to closestHit pGov target
    = (Some (hit, ch'), s', p') /\
    Line IsEnemy Length Unit fuel mem s (warn p) from (clamped Unit from to) closestHit
         pGov target
    = (Some (hit, ch'), s', p') /\
    warned p' = true /\
    logged (events p')
    = logged (events p) ++ (if warned p then [] else [velocity_warning]).
Proof.
  intros Hgrid Hsingle Hover Hcut Hfuel.
  destruct (Line_returns IsEnemy Length Unit mem s (warn p) from (clamped Unit from to)
              closestHit pGov target fuel Hgrid Hcut Hfuel) as (hit & ch' & Hret).
  pose proof (Line_latch IsEnemy Length Unit mem s closestHit pGov target (S fuel) p from to)
    as Hlatch.
  cbv zeta in Hlatch.
  assert (Hstep : Line IsEnemy Length Unit (S fuel) mem s p from to closestHit pGov target
                  = Line IsEnemy Length Unit fuel mem s (warn p) from (clamped Unit from to)
                         closestHit pGov target).
  { rewrite Line_unfold. cbv zeta. rewrite Hsingle, Hover. reflexivity. }
  rewrite Hstep in Hlatch |- *.
  destruct (Line IsEnemy Length Unit fuel mem s (warn p) from (clamped Unit from to)
                 closestHit pGov target) as [[r s'] p'].
  cbn [fst] in Hret. subst r.
  exists hit, ch', s', p'. split; [reflexivity|]. split; [reflexivity|].
  rewrite Hsingle, Hover in Hlatch. cbn [Nat.eqb negb andb] in Hlatch.
  destruct Hlatch as [Hw Hl]. rewrite orb_true_r in Hw.
  split; [exact Hw|exact Hl].
Qed.

End MoreQueries.

(** ** The shape of the traversal *)

Lemma dda_next_beside endGX endGY sx sy mx my F gx gy rx ry gx' gy' rx' ry' :
  dda_next endGX endGY sx sy mx my F gx gy rx ry = Some (gx', gy', rx', ry') ->
  beside sx sy (gx, gy) (gx', gy').
Proof.
  unfold dda_next, beside. cbn [fst snd].
  destruct ((gx =? endGX) && (gy =? endGY)); [discriminate|].
  destruct (_ =? 0).
  - destruct ((gx =? endGX) && (gy + sy =? endGY)); [discriminate|].
    destruct ((gy =? endGY) && (gx + sx =? endGX)); [discriminate|].
    intros H. injection H as <- <- _ _. auto.
  - destruct (_ <? 0); intros H; injection H as <- <- _ _; auto.
Qed.

Lemma dda_next_end endGX endGY sx sy mx my F gx gy rx ry :
  dda_next endGX endGY sx sy mx my F gx gy rx ry = None ->
  (gx, gy) = (endGX, endGY) \/
  (gx = endGX /\ gy + sy = endGY) \/ (gy = endGY /\ gx + sx = endGX).
Proof.
  unfold dda_next.
  destruct ((gx =? endGX) && (gy =? endGY)) eqn:H0.
  { intros _. left. apply andb_true_iff in H0 as [H1 H2].
    apply Z.eqb_eq in H1, H2. congruence. }
  destruct (_ =? 0).
  - destruct ((gx =? endGX) && (gy + sy =? endGY)) eqn:H1.
    { intros _. right. left. apply andb_true_iff in H1 as [H1 H2].
      apply Z.eqb_eq in H1, H2. auto. }
    destruct ((gy =? endGY) && (gx + sx =? endGX)) eqn:H2; [|discriminate].
    intros _. right. right. apply andb_true_iff in H2 as [H2 H3].
    apply Z.eqb_eq in H2, H3. auto.
  - destruct (_ <? 0); discriminate.
Qed.

Lemma dda_cells_path F mx my sx sy endGX endGY :
  dda_consts F mx my sx sy ->
  forall fuel gx gy rx ry kx ky Dx Dy,
    dda_state F mx my sx sy endGX endGY gx gy rx ry kx ky Dx Dy ->
    (Z.to_nat (kx + ky) < fuel)%nat ->
    let path := dda_cells fuel endGX endGY sx sy mx my F gx gy rx ry in
    (exists front final,
       path = front ++ [final] /\
       (final = (endGX, endGY) \/
        (fst final = endGX /\ snd final + sy = endGY) \/
        (snd final = endGY /\ fst final + sx = endGX))) /\
    (forall i c c', path !! i = Some c -> path !! S i = Some c' -> beside sx sy c c') /\
    NoDup path /\
    Z.of_nat (length path) <= kx + ky + 1.
Proof.
  intros Hc. induction fuel as [|fuel IH]; intros gx gy rx ry kx ky Dx Dy Hs Hfuel; [lia|].
  cbn [dda_cells]. cbv zeta.
  assert (Hk : 0 <= kx /\ 0 <= ky /\ endGX = gx + sx * kx /\ endGY = gy + sy * ky).
  { destruct Hs as (_ & _ & _ & _ & _ & _ & Hkx & Hky & Hex & Hey & _). auto. }
  destruct (dda_next endGX endGY sx sy mx my F gx gy rx ry)
    as [[[[gx' gy'] rx'] ry']|] eqn:Hnext.
  - destruct (dda_next_state _ _ _ _ _ _ _ _ _ _ _ _ _ _ _ _ _ _ _ Hc Hs Hnext)
      as (kx' & ky' & Dx' & Dy' & Hs' & Hkx & Hky & Hlt).
    assert (Hfuel' : (Z.to_nat (kx' + ky') < fuel)%nat) by lia.
    destruct (IH _ _ _ _ _ _ _ _ Hs' Hfuel')
      as ((front & final & Hpath & Hfinal) & Hadj & Hnd & Hlen).
    cbv zeta in Hpath, Hadj, Hnd, Hlen.
    assert (Hhead : exists rest,
              dda_cells fuel endGX endGY sx sy mx my F gx' gy' rx' ry' = (gx', gy') :: rest).
    { destruct fuel as [|fuel']; [lia|]. cbn [dda_cells]. eexists. reflexivity. }
    destruct Hhead as (rest & Hrest).
    split; [|split; [|split]].
    + exists ((gx, gy) :: front), final. rewrite Hpath. split; [reflexivity|exact Hfinal].
    + intros [|i] c c' H1 H2.
      * cbn in H1. injection H1 as <-. rewrite Hrest in H2. cbn in H2. injection H2 as <-.
        apply (dda_next_beside _ _ _ _ _ _ _ _ _ _ _ _ _ _ _ Hnext).
      * cbn in H1, H2. apply (Hadj i); assumption.
    + apply NoDup_cons. split; [|exact Hnd].
      intros Hin. apply list_elem_of_In in Hin.
      destruct (dda_cells_between _ _ _ _ _ _ _ Hc _ _ _ _ _ _ _ _ _ Hs' _ Hin)
        as (kx2 & ky2 & H1 & H2 & H3 & H4).
      cbn [fst snd] in H3, H4.
      destruct Hk as (Hk1 & Hk2 & Hk3 & Hk4).
      destruct Hc as (_ & _ & _ & _ & _ & Hsx & Hsy & _).
      clear - H1 H2 H3 H4 Hk1 Hk2 Hk3 Hk4 Hsx Hsy Hkx Hky Hlt.
      destruct Hsx as [Hsx|Hsx], Hsy as [Hsy|Hsy]; subst sx sy; lia.
    + cbn [length]. lia.
  - split; [|split; [|split]].
    + exists [], (gx, gy). split; [reflexivity|]. cbn [fst snd].
      destruct (dda_next_end _ _ _ _ _ _ _ _ _ _ _ Hnext) as [H|[H|H]]; auto.
    + intros [|i] c c' H1 H2; cbn in H2; discriminate.
    + apply NoDup_cons. split; [apply not_elem_of_nil|apply NoDup_nil_2].
    + cbn [length]. lia.
Qed.

(** X11: the cells [Line] goes through form a staircase from the cell of
    [from] towards the cell of [to].  For a segment in one cell, or one
    whose products fit 63 bits, the traversal (as long as no hit stops it)
    starts in the cell of [from]; each further cell lies one column on, one
    row on, or both (when the segment passes through a corner) in the
    direction of travel; no cell comes twice; every cell lies in the
    rectangle of cells spanned by the two ends; there are at most as many
    cells as there are cell boundaries between the two ends, plus one; and
    the last cell is the cell of [to], or, when the loop breaks at a corner
    beside it, the cell one row or one column before it. *)
Theorem Line_traversal_is_a_staircase (s : CollisionSet) (from to : Point) (fuel : nat) :
  grid_ok s ->
  single_cell s from to = true \/ dda_fits s from to ->
  (Z.to_nat (cells_ahead s from to) + 1 < fuel)%nat ->
  let path := Line_cells fuel s from to in
  let start := (cell_of s (Point.X from), cell_of s (Point.Y from)) in
  let stop := (cell_of s (Point.X to), cell_of s (Point.Y to)) in
  let sx := direction (Point.X from) (Point.X to) in
  let sy := direction (Point.Y from) (Point.Y to) in
  (forall cell, In cell path ->
     Z.min (fst start) (fst stop) <= fst cell <= Z.max (fst start) (fst stop) /\
     Z.min (snd start) (snd stop) <= snd cell <= Z.max (snd start) (snd stop)) /\
  (exists rest, path = start :: rest) /\
  (exists front final,
     path = front ++ [final] /\
     (final = stop \/
      (fst final = fst stop /\ snd final + sy = snd stop) \/
      (snd final = snd stop /\ fst final + sx = fst stop))) /\
  (forall i c c', path !! i = Some c -> path !! S i = Some c' -> beside sx sy c c') /\
  NoDup path /\
  Z.of_nat (length path) <= cells_ahead s from to + 1.
Proof.
  intros Hgrid Hcase Hfuel. cbv zeta.
  split; [exact (proj2 (proj2 (Line_cells_spec s from to fuel Hgrid Hcase Hfuel)))|].
  destruct fuel as [|[|fuel]]; [lia|lia|].
  destruct (single_cell s from to) eqn:Hsingle.
  - assert (Hpath : Line_cells (S (S fuel)) s from to
                    = [(cell_of s (Point.X from), cell_of s (Point.Y from))]).
    { cbn [Line_cells]. cbv zeta. rewrite Hsingle. reflexivity. }
    rewrite Hpath.
    unfold single_cell in Hsingle. apply andb_true_iff in Hsingle as [Hx Hy].
    apply Z.eqb_eq in Hx, Hy.
    split; [eexists; reflexivity|].
    split.
    { exists [], (cell_of s (Point.X from), cell_of s (Point.Y from)).
      split; [reflexivity|]. left. rewrite Hx, Hy. reflexivity. }
    split; [intros [|i] c c' H1 H2; cbn in H2; discriminate|].
    split; [apply NoDup_cons; split; [apply not_elem_of_nil|apply NoDup_nil_2]|].
    cbn [length]. unfold cells_ahead. lia.
  - destruct Hcase as [Hcase|Hfit]; [discriminate|].
    destruct Hgrid as (Hsh & HC & HM & _).
    unfold dda_fits in Hfit. cbv zeta in Hfit.
    pose proof Hsingle as Hsingle'. unfold single_cell, cell_of in Hsingle'.
    unfold cells_ahead in Hfuel.
    rewrite HC in Hfit.
    destruct (dda_start (SHIFT s) (double_to_int (Point.X from)) (double_to_int (Point.Y from))
                (double_to_int (Point.X to)) (double_to_int (Point.Y to))
                ltac:(lia) Hfit Hsingle')
      as ((U1 & U2 & U3 & U4 & U5 & U6 & U7 & U8) & Hc & Hs).
    match type of Hs with
    | dda_state ?F ?mx ?my ?sx ?sy ?ex ?ey ?gx ?gy ?rx ?ry _ _ _ _ =>
        assert (Hcells : forall f,
          Line_cells (S f) s from to = dda_cells f ex ey sx sy mx my F gx gy rx ry)
    end.
    { intros f. cbn [Line_cells]. cbv zeta. rewrite Hsingle, HM, HC. unfold cell_of.
      rewrite U1, U2, U3, U4, U5, U6, U7, U8. reflexivity. }
    unfold cell_of in Hfuel.
    rewrite Hcells.
    assert (Hf : (Z.to_nat
                    (Z.abs (Z.shiftr (double_to_int (Point.X to)) (SHIFT s)
                            - Z.shiftr (double_to_int (Point.X from)) (SHIFT s))
                     + Z.abs (Z.shiftr (double_to_int (Point.Y to)) (SHIFT s)
                              - Z.shiftr (double_to_int (Point.Y from)) (SHIFT s)))
                  < S fuel)%nat) by lia.
    destruct (dda_cells_path _ _ _ _ _ _ _ Hc _ _ _ _ _ _ _ _ _ Hs Hf)
      as (Hlast & Hadj & Hnd & Hlen).
    cbv zeta in Hlast, Hadj, Hnd, Hlen.
    split; [cbn [dda_cells]; eexists; reflexivity|].
    split; [exact Hlast|]. split; [exact Hadj|]. split; [exact Hnd|].
    unfold cells_ahead, cell_of. exact Hlen.
Qed.

(** ** The warning and the trace *)

Section Logging.
Variable IsEnemy : Gov_ptr -> Gov_ptr -> bool.
Variable Length : Point -> float.
Variable Unit : Point -> Point.

Lemma Ring_is_silent mem s p center inner outer :
  let '(res, s', p') := Ring Length mem s p center inner outer in
  warned p' = warned p /\ logged (events p') = logged (events p) /\
  candidates (events p') = candidates (events p) /\
  collides (events p') = collides (events p).
Proof.
  pose proof (Ring_invariant Length
                (fun st => warned (snd st) = warned p /\
                           logged (events (snd st)) = logged (events p) /\
                           candidates (events (snd st)) = candidates (events p) /\
                           collides (events (snd st)) = collides (events p))
                mem s p center inner outer) as HR.
  assert (H1 : forall x y (st : list Z * list Body_ptr * Process) it,
             In it (bin s (cell_index s x y)) ->
             (warned (snd st) = warned p /\
              logged (events (snd st)) = logged (events p) /\
              candidates (events (snd st)) = candidates (events p) /\
              collides (events (snd st)) = collides (events p)) ->
             let st' := visit_ring Length mem s (u32 (seenEpoch s + 1)) center inner outer
                                   y x st it in
             (warned (snd st') = warned p /\
              logged (events (snd st')) = logged (events p) /\
              candidates (events (snd st')) = candidates (events p) /\
              collides (events (snd st')) = collides (events p))).
  { intros x y [[sn res] q] it _ (Hw & Hl & Hc & Hm). cbn [snd] in *.
    unfold visit_ring.
    destruct (negb (Entry.x it =? x) || negb (Entry.y it =? y)); [cbn [snd]; auto|].
    destruct (vec_get 0 sn (Entry.seenIndex it) =? u32 (seenEpoch s + 1)); [cbn [snd]; auto|].
    cbv zeta.
    match goal with |- context [if ?c then _ else _] => destruct c end;
      cbn [snd emit warned events];
      rewrite logged_app, candidates_app, collides_app, Hl, Hc, Hm; cbn;
      rewrite !app_nil_r; auto. }
  specialize (HR H1 ltac:(cbn [snd]; auto)).
  destruct (Ring Length mem s p center inner outer) as [[res s'] p'].
  exact HR.
Qed.

(** X12: the warning is logged once for the whole process, whatever index
    is queried, and only [Line] logs.  Once the flag [warned] is set, no
    call of [Line] on any index logs again; so after a call that cut its
    segment on one index, a call on another index, even one that cuts its
    segment too, logs nothing.  [Ring] and [Circle] never log, never set
    the flag and never call [Mask::Collide]. *)
Theorem warning_is_shared_by_all_indexes :
  (forall fuel mem s p from to ch pGov target,
     let '(r, s', p') := Line IsEnemy Length Unit fuel mem s p from to ch pGov target in
     (warned p = true -> warned p' = true /\ logged (events p') = logged (events p)) /\
     (warned p' = false -> logged (events p') = logged (events p))) /\
  (forall fuel1 fuel2 mem1 mem2 s1 s2 p from1 to1 from2 to2 ch1 ch2 pGov1 pGov2
          target1 target2,
     let '(r1, s1', p1) :=
       Line IsEnemy Length Unit (S fuel1) mem1 s1 p from1 to1 ch1 pGov1 target1 in
     let '(r2, s2', p2) :=
       Line IsEnemy Length Unit fuel2 mem2 s2 p1 from2 to2 ch2 pGov2 target2 in
     single_cell s1 from1 to1 = false -> over_length Length from1 to1 = true ->
     warned p1 = true /\ warned p2 = true /\ logged (events p2) = logged (events p1) /\
     (length (logged (events p2)) <= S (length (logged (events p))))%nat) /\
  (forall mem s p center inner outer,
     let '(res, s', p') := Ring Length mem s p center inner outer in
     warned p' = warned p /\ logged (events p') = logged (events p) /\
     candidates (events p') = candidates (events p) /\
     collides (events p') = collides (events p)).
Proof.
  assert (Hlatch : forall fuel mem s p from to ch pGov target,
     let '(r, s', p') := Line IsEnemy Length Unit fuel mem s p from to ch pGov target in
     (warned p = true -> warned p' = true /\ logged (events p') = logged (events p)) /\
     (warned p' = false -> logged (events p') = logged (events p))).
  { intros fuel mem s p from to ch pGov target.
    pose proof (Line_latch IsEnemy Length Unit mem s ch pGov target fuel p from to) as H.
    cbv zeta in H.
    destruct (Line IsEnemy Length Unit fuel mem s p from to ch pGov target) as [[r s'] p'].
    destruct H as [Hw Hl]. split.
    - intros Hp. rewrite Hp in Hw, Hl. rewrite app_nil_r in Hl. auto.
    - intros Hp'. rewrite Hp' in Hw. symmetry in Hw. apply orb_false_iff in Hw as [Hp Hc].
      rewrite Hp, Hc, app_nil_r in Hl. exact Hl. }
  split; [exact Hlatch|]. split; [|intros; apply Ring_is_silent].
  intros fuel1 fuel2 mem1 mem2 s1 s2 p from1 to1 from2 to2 ch1 ch2 pGov1 pGov2
         target1 target2.
  pose proof (Line_latch IsEnemy Length Unit mem1 s1 ch1 pGov1 target1 (S fuel1) p from1 to1)
    as H1.
  cbv zeta in H1.
  destruct (Line IsEnemy Length Unit (S fuel1) mem1 s1 p from1 to1 ch1 pGov1 target1)
    as [[r1 s1'] p1].
  pose proof (Hlatch fuel2 mem2 s2 p1 from2 to2 ch2 pGov2 target2) as H2.
  destruct (Line IsEnemy Length Unit fuel2 mem2 s2 p1 from2 to2 ch2 pGov2 target2)
    as [[r2 s2'] p2].
  intros Hsingle Hover. rewrite Hsingle, Hover in H1. cbn [Nat.eqb negb andb] in H1.
  destruct H1 as [Hw1 Hl1]. rewrite orb_true_r in Hw1.
  destruct H2 as [H2 _]. destruct (H2 Hw1) as [Hw2 Hl2].
  split; [exact Hw1|]. split; [exact Hw2|]. split; [exact Hl2|].
  rewrite Hl2, Hl1, length_app. destruct (warned p); cbn [length]; lia.
Qed.

End Logging.

(** ** Queries do not depend on earlier queries *)

Lemma same_tests_refl p1 p2 : same_tests p1 p2 p1 p2.
Proof. exists [], []. rewrite !app_nil_r. auto. Qed.

Lemma same_tests_emit p1 p2 q1 q2 e :
  same_tests p1 p2 q1 q2 -> same_tests p1 p2 (emit e q1) (emit e q2).
Proof.
  intros (evs1 & evs2 & H1 & H2 & Hc & Hm).
  exists (evs1 ++ [e]), (evs2 ++ [e]). cbn [emit events].
  rewrite H1, H2, !app_assoc, !candidates_app, !collides_app, Hc, Hm. auto.
Qed.

Lemma same_tests_warn p1 p2 q1 q2 :
  same_tests p1 p2 q1 q2 -> same_tests p1 p2 (warn q1) (warn q2).
Proof.
  intros (evs1 & evs2 & H1 & H2 & Hc & Hm).
  exists (if warned q1 then evs1 else evs1 ++ [LogError velocity_warning]),
         (if warned q2 then evs2 else evs2 ++ [LogError velocity_warning]).
  unfold warn.
  destruct (warned q1), (warned q2); cbn [events];
    rewrite ?H1, ?H2, ?app_assoc, ?candidates_app, ?collides_app, ?Hc, ?Hm; cbn;
    rewrite ?app_nil_r; auto.
Qed.

Section TwoLines.
Variable IsEnemy : Gov_ptr -> Gov_ptr -> bool.
Variable Length : Point -> float.
Variable Unit : Point -> Point.

Section Related.
Variables (mem : Heap) (s1 s2 : CollisionSet) (p1 p2 : Process).
Variables (from to : Point) (pGov : Gov_ptr) (target : Body_ptr).
Hypothesis Hinv : index_inv mem s1.
Hypothesis Hg : same_grid s1 s2.
Hypothesis Hstep : step s2 = step s1.
Hypothesis Hsrt : sorted s2 = sorted s1.
Hypothesis Hcnt : counts s2 = counts s1.

Lemma collide_range_ext b : collide_range mem s2 from to b = collide_range mem s1 from to b.
Proof. unfold collide_range. rewrite Hstep. reflexivity. Qed.

Lemma visit_single_related gx gy c q1 q2 it :
  same_tests p1 p2 q1 q2 ->
  let '(c1, q1') := visit_single IsEnemy mem s1 from to pGov target gx gy (c, q1) it in
  let '(c2, q2') := visit_single IsEnemy mem s2 from to pGov target gx gy (c, q2) it in
  c1 = c2 /\ same_tests p1 p2 q1' q2'.
Proof.
  intros HT. unfold visit_single.
  destruct (negb (Entry.x it =? gx) || negb (Entry.y it =? gy)); [auto|].
  destruct (government_skips IsEnemy mem pGov target (Entry.body it)).
  - split; [reflexivity|]. apply same_tests_emit. exact HT.
  - rewrite collide_range_ext. split; [reflexivity|].
    apply same_tests_emit, same_tests_emit. exact HT.
Qed.

Lemma visit_stepped_related gx gy sn1 sn2 c q1 q2 it :
  In it (bin s1 (cell_index s1 gx gy)) ->
  seen_agree (u32 (seenEpoch s1 + 1)) (u32 (seenEpoch s2 + 1)) sn1 sn2 ->
  length sn1 = length (seen s1) ->
  same_tests p1 p2 q1 q2 ->
  let '(sn1', c1, q1') :=
    visit_stepped IsEnemy mem s1 (u32 (seenEpoch s1 + 1)) from to pGov target gx gy
                  (sn1, c, q1) it in
  let '(sn2', c2, q2') :=
    visit_stepped IsEnemy mem s2 (u32 (seenEpoch s2 + 1)) from to pGov target gx gy
                  (sn2, c, q2) it in
  seen_agree (u32 (seenEpoch s1 + 1)) (u32 (seenEpoch s2 + 1)) sn1' sn2' /\
  length sn1' = length (seen s1) /\ c1 = c2 /\ same_tests p1 p2 q1' q2'.
Proof.
  intros Hit Hag Hlen HT.
  destruct (index_inv_bin_entry mem s1 gx gy it Hinv Hit) as (i & Hi & Hidx & _).
  pose proof (lookup_lt_Some _ _ _ Hi) as Hilt.
  pose proof Hinv as (_ & _ & _ & _ & Hseenlen).
  unfold visit_stepped.
  destruct (negb (Entry.x it =? gx) || negb (Entry.y it =? gy)); [auto|].
  rewrite <- (seen_agree_test _ _ sn1 sn2) by (try exact Hag; lia).
  destruct (vec_get 0 sn1 (Entry.seenIndex it) =? u32 (seenEpoch s1 + 1)); [auto|].
  assert (Hag' : seen_agree (u32 (seenEpoch s1 + 1)) (u32 (seenEpoch s2 + 1))
                   (vec_set sn1 (Entry.seenIndex it) (u32 (seenEpoch s1 + 1)))
                   (vec_set sn2 (Entry.seenIndex it) (u32 (seenEpoch s2 + 1)))).
  { unfold vec_set. apply seen_agree_mark. exact Hag. }
  assert (Hlen' : length (vec_set sn1 (Entry.seenIndex it) (u32 (seenEpoch s1 + 1)))
                  = length (seen s1)).
  { rewrite vec_set_length. exact Hlen. }
  destruct (government_skips IsEnemy mem pGov target (Entry.body it)).
  - split; [exact Hag'|]. split; [exact Hlen'|]. split; [reflexivity|].
    apply same_tests_emit. exact HT.
  - rewrite collide_range_ext.
    split; [exact Hag'|]. split; [exact Hlen'|]. split; [reflexivity|].
    apply same_tests_emit, same_tests_emit. exact HT.
Qed.

Let R (st1 st2 : list Z * Closest * Process) : Prop :=
  seen_agree (u32 (seenEpoch s1 + 1)) (u32 (seenEpoch s2 + 1))
             (fst (fst st1)) (fst (fst st2)) /\
  length (fst (fst st1)) = length (seen s1) /\
  snd (fst st1) = snd (fst st2) /\
  same_tests p1 p2 (snd st1) (snd st2).

Lemma cell_related gx gy st1 st2 :
  R st1 st2 ->
  R (fold_left (visit_stepped IsEnemy mem s1 (u32 (seenEpoch s1 + 1)) from to pGov target
                              gx gy)
               (bin s1 (cell_index s1 gx gy)) st1)
    (fold_left (visit_stepped IsEnemy mem s2 (u32 (seenEpoch s2 + 1)) from to pGov target
                              gx gy)
               (bin s2 (cell_index s2 gx gy)) st2).
Proof.
  intros HR.
  rewrite <- (cell_index_ext s1 s2) by exact Hg.
  rewrite (bin_ext s1 s2) by assumption.
  apply fold_left_related; [|exact HR].
  intros it [[sn1 c1] q1] [[sn2 c2] q2] Hit (Hag & Hlen & Hc & HT).
  cbn [fst snd] in *. subst c2.
  pose proof (visit_stepped_related gx gy sn1 sn2 c1 q1 q2 it Hit Hag Hlen HT) as H.
  destruct (visit_stepped IsEnemy mem s1 _ from to pGov target gx gy (sn1, c1, q1) it)
    as [[sn1' c1'] q1'].
  destruct (visit_stepped IsEnemy mem s2 _ from to pGov target gx gy (sn2, c1, q2) it)
    as [[sn2' c2'] q2'].
  exact H.
Qed.

Lemma walk_related endGX endGY stepX stepY mx my fullScale :
  forall fuel gx gy rx ry sn1 sn2 c q1 q2,
    R (sn1, c, q1) (sn2, c, q2) ->
    let '(f1, sn1', c1, q1') :=
      walk IsEnemy fuel mem s1 (u32 (seenEpoch s1 + 1)) from to pGov target endGX endGY
           stepX stepY mx my fullScale gx gy rx ry sn1 c q1 in
    let '(f2, sn2', c2, q2') :=
      walk IsEnemy fuel mem s2 (u32 (seenEpoch s2 + 1)) from to pGov target endGX endGY
           stepX stepY mx my fullScale gx gy rx ry sn2 c q2 in
    f1 = f2 /\ c1 = c2 /\ same_tests p1 p2 q1' q2'.
Proof.
  induction fuel as [|fuel IH]; intros gx gy rx ry sn1 sn2 c q1 q2 HR.
  - cbn [walk]. destruct HR as (_ & _ & _ & HT). auto.
  - rewrite !walk_unfold.
    pose proof (cell_related gx gy _ _ HR) as HR'.
    destruct (fold_left _ (bin s1 _) _) as [[sn1' c1'] q1'].
    destruct (fold_left _ (bin s2 _) _) as [[sn2' c2'] q2'].
    pose proof HR' as (_ & _ & Hc & HT). cbn [fst snd] in Hc, HT. subst c2'.
    destruct (negb (Nat.eqb (closest_body c1') nullptr)); [auto|].
    destruct (dda_next endGX endGY stepX stepY mx my fullScale gx gy rx ry)
      as [[[[gx' gy'] rx'] ry']|]; [|auto].
    apply IH. exact HR'.
Qed.

End Related.

Lemma Line_related mem s1 s2 ch pGov target :
  index_inv mem s1 -> same_grid s1 s2 -> step s2 = step s1 -> sorted s2 = sorted s1 ->
  counts s2 = counts s1 ->
  seen_agree (u32 (seenEpoch s1 + 1)) (u32 (seenEpoch s2 + 1)) (seen s1) (seen s2) ->
  forall fuel p1 p2 q1 q2 from to,
    same_tests p1 p2 q1 q2 ->
    let '(r1, s1', q1') := Line IsEnemy Length Unit fuel mem s1 q1 from to ch pGov target in
    let '(r2, s2', q2') := Line IsEnemy Length Unit fuel mem s2 q2 from to ch pGov target in
    r1 = r2 /\ same_tests p1 p2 q1' q2'.
Proof.
  intros Hinv Hg Hstep Hsrt Hcnt Hag.
  induction fuel as [|fuel IH]; intros p1 p2 q1 q2 from to HT.
  - cbn [Line]. auto.
  - rewrite !Line_unfold. cbv zeta.
    rewrite <- (single_cell_ext s1 s2 from to Hg).
    assert (Hcell : forall v, cell_of s2 v = cell_of s1 v).
    { intros v. unfold cell_of. destruct Hg as (_ & -> & _). reflexivity. }
    rewrite !Hcell.
    destruct (single_cell s1 from to).
    { rewrite <- (cell_index_ext s1 s2) by exact Hg.
      rewrite (bin_ext s1 s2) by assumption.
      match goal with
      | |- context [fold_left ?f1 ?l (closer_init ch, q1)] =>
          match goal with
          | |- context [fold_left ?f2 l (closer_init ch, q2)] =>
              assert (HR : (fun st1 st2 : Closest * Process =>
                              fst st1 = fst st2 /\ same_tests p1 p2 (snd st1) (snd st2))
                             (fold_left f1 l (closer_init ch, q1))
                             (fold_left f2 l (closer_init ch, q2)))
          end
      end.
      { apply (fold_left_related
                 (fun st1 st2 : Closest * Process =>
                    fst st1 = fst st2 /\ same_tests p1 p2 (snd st1) (snd st2)));
          [|split; [reflexivity|exact HT]].
        intros it [c1 a1] [c2 a2] _ [Hc HT']. cbn [fst snd] in *. subst c2.
        pose proof (visit_single_related mem s1 s2 p1 p2 from to pGov target Hstep
                      (cell_of s1 (Point.X from)) (cell_of s1 (Point.Y from))
                      c1 a1 a2 it HT') as H.
        destruct (visit_single IsEnemy mem s1 _ _ _ _ _ _ _ _) as [c1' a1'].
        destruct (visit_single IsEnemy mem s2 _ _ _ _ _ _ _ _) as [c2' a2'].
        exact H. }
      destruct (fold_left _ _ (closer_init ch, q1)) as [c1 a1].
      destruct (fold_left _ _ (closer_init ch, q2)) as [c2 a2].
      destruct HR as [Hc HT']. cbn [fst snd] in Hc, HT'. subst c2. auto. }
    destruct (over_length Length from to).
    { apply IH. apply same_tests_warn. exact HT. }
    destruct Hg as (HgC & HgS & HgM & HgN & HgW).
    rewrite <- HgC, <- HgM.
    pose proof (walk_related mem s1 s2 p1 p2 from to pGov target Hinv
                  (conj HgC (conj HgS (conj HgM (conj HgN HgW)))) Hstep Hsrt Hcnt) as HW.
    match goal with
    | |- context [walk IsEnemy fuel mem s1 ?e ?f ?t ?g ?tg ?ex ?ey ?sx ?sy ?mx ?my ?F
                       ?gx ?gy ?rx ?ry (seen s1) ?c q1] =>
        specialize (HW ex ey sx sy mx my F fuel gx gy rx ry (seen s1) (seen s2) c q1 q2)
    end.
    specialize (HW ltac:(split; [exact Hag|]; split; [reflexivity|];
                         split; [reflexivity|exact HT])).
    destruct (walk IsEnemy fuel mem s1 _ _ _ _ _ _ _ _ _ _ _ _ _ _ _ _ _ _ q1)
      as [[[f1 sn1'] c1] a1].
    destruct (walk IsEnemy fuel mem s2 _ _ _ _ _ _ _ _ _ _ _ _ _ _ _ _ _ _ q2)
      as [[[f2 sn2'] c2] a2].
    destruct HW as (Hf & Hc & HT'). subst f2 c2.
    destruct f1; auto.
Qed.

(** X13: the answer of [Line] does not depend on the queries made before.
    Two states of one built index, each reached by fewer than [2^32 - 1]
    queries of any kind, give the same result for the same call of
    [Line]: the same body (or null), the same value of [*closestHit], and
    the same candidates and calls of [Mask::Collide] in the same order.
    In particular the answer is the one the index gives right after
    [Finish]. *)
Theorem Line_answer_ignores_earlier_queries (mem : Heap) (s0 : CollisionSet) (st : Z)
    (bodies : list Body_ptr) (n1 n2 : nat) (s1 s2 : CollisionSet) :
  grid_ok s0 -> Forall (fun b => b <> nullptr) bodies ->
  queried IsEnemy Length Unit mem (build mem s0 st bodies) n1 s1 ->
  queried IsEnemy Length Unit mem (build mem s0 st bodies) n2 s2 ->
  Z.of_nat n1 < 2 ^ 32 - 1 -> Z.of_nat n2 < 2 ^ 32 - 1 ->
  forall fuel p1 p2 from to closestHit pGov target,
    let '(r1, s1', q1) :=
      Line IsEnemy Length Unit fuel mem s1 p1 from to closestHit pGov target in
    let '(r2, s2', q2) :=
      Line IsEnemy Length Unit fuel mem s2 p2 from to closestHit pGov target in
    r1 = r2 /\
    exists evs1 evs2,
      events q1 = events p1 ++ evs1 /\ events q2 = events p2 ++ evs2 /\
      candidates evs1 = candidates evs2 /\ collides evs1 = collides evs2.
Proof.
  intros Hgrid Hnn Hq1 Hq2 Hn1 Hn2 fuel p1 p2 from to closestHit pGov target.
  pose proof (index_inv_build mem s0 st bodies Hgrid Hnn) as Hbase.
  pose proof (queried_index_inv IsEnemy Length Unit mem _ n1 s1 Hq1 Hbase) as Hinv1.
  pose proof (queried_index_inv IsEnemy Length Unit mem _ n2 s2 Hq2 Hbase) as Hinv2.
  destruct (queried_tables Length Unit IsEnemy mem _ n1 s1 Hq1)
    as (Hg1 & Hst1 & Hall1 & _ & Hsrt1 & Hcnt1).
  destruct (queried_tables Length Unit IsEnemy mem _ n2 s2 Hq2)
    as (Hg2 & Hst2 & Hall2 & _ & Hsrt2 & Hcnt2).
  pose proof (queried_markers_clear Length Unit IsEnemy mem s0 st bodies n1 s1 Hq1 Hn1)
    as Hc1.
  pose proof (queried_markers_clear Length Unit IsEnemy mem s0 st bodies n2 s2 Hq2 Hn2)
    as Hc2.
  assert (Hag : seen_agree (u32 (seenEpoch s1 + 1)) (u32 (seenEpoch s2 + 1))
                           (seen s1) (seen s2)).
  { apply seen_agree_fresh; [|exact Hc1|exact Hc2].
    destruct Hinv1 as (_ & _ & _ & _ & ->). destruct Hinv2 as (_ & _ & _ & _ & ->).
    congruence. }
  apply (Line_related mem s1 s2 closestHit pGov target Hinv1); try congruence.
  - eapply same_grid_trans; [apply same_grid_sym; exact Hg1|exact Hg2].
  - apply same_tests_refl.
Qed.

End TwoLines.

(** * What [Ring] and [Circle] return *)

(** A loop seen as a fold, with the part of the list gone through. *)
Lemma fold_left_prefix {S A} (J : list A -> S -> Prop) (f : S -> A -> S) (l : list A) :
  (forall pre a st, J pre st -> J (pre ++ [a]) (f st a)) ->
  forall st, J [] st -> J l (fold_left f l st).
Proof.
  intros Hstep.
  assert (H : forall rest pre st, J pre st -> J (pre ++ rest) (fold_left f rest st)).
  { induction rest as [|a rest IH]; intros pre st HJ.
    - rewrite app_nil_r. exact HJ.
    - cbn [fold_left]. replace (pre ++ a :: rest) with ((pre ++ [a]) ++ rest)
        by (rewrite <- app_assoc; reflexivity).
      apply IH. apply Hstep. exact HJ. }
  intros st HJ. apply (H l [] st HJ).
Qed.

Section RingScan.
Variable IsEnemy : Gov_ptr -> Gov_ptr -> bool.
Variable Length : Point -> float.
Variable Unit : Point -> Point.

(** The two nested loops of [Ring] are one loop over [Ring_cells]. *)
Lemma Ring_by_cells mem s p center inner outer :
  Ring Length mem s p center inner outer
  = let epoch := u32 (seenEpoch s + 1) in
    let '(sn, res, p') :=
      fold_left
        (fun st c =>
           fold_left (visit_ring Length mem s epoch center inner outer (snd c) (fst c))
                     (bin s (cell_index s (fst c) (snd c))) st)
        (Ring_cells s center outer) (seen s, [], p) in
    (res, set_seen
            {| CELL_SIZE := CELL_SIZE s; SHIFT := SHIFT s; CELL_MASK := CELL_MASK s;
               CELLS := CELLS s; WRAP_MASK := WRAP_MASK s;
               step := step s; all := all s; added := added s; sorted := sorted s;
               counts := counts s; result := res;
               seen := seen s; seenEpoch := seenEpoch s |} sn epoch, p').
Proof.
  unfold Ring, Ring_cells. cbv zeta.
  rewrite <- (fold_left_nested
                (fun y x st => ring_cell Length mem s (u32 (seenEpoch s + 1)) center inner
                                         outer y st x)).
  unfold ring_cell.
  destruct (fold_left _ _ _) as [[sn res] p']. reflexivity.
Qed.

(** One cell of the scan. *)
Lemma fold_visit_ring_cell mem s epoch center inner outer x y : forall l sn res p,
  (forall e, In e l -> 0 <= Entry.seenIndex e /\
                       (Z.to_nat (Entry.seenIndex e) < length sn)%nat) ->
  let '(sn', res', p') :=
    fold_left (visit_ring Length mem s epoch center inner outer y x) l (sn, res, p) in
  exists evs,
    events p' = events p ++ evs /\
    length sn' = length sn /\
    res' = res ++ map snd (List.filter
                             (fun t => ring_accepts Length mem s center inner outer (snd t))
                             (ring_tests evs)) /\
    NoDup (map fst (ring_tests evs)) /\
    (forall i b, In (i, b) (ring_tests evs) ->
       sn !! Z.to_nat i <> Some epoch /\
       exists e, In e l /\ exact_cell x y e = true /\
                 Entry.seenIndex e = i /\ Entry.body e = b) /\
    (forall k, sn' !! k = Some epoch <->
               (sn !! k = Some epoch \/ exists b, In (Z.of_nat k, b) (ring_tests evs))) /\
    (forall e, In e l -> exact_cell x y e = true ->
       sn' !! Z.to_nat (Entry.seenIndex e) = Some epoch).
Proof.
  induction l as [|it l IH]; intros sn res p Hrange.
  - simpl. exists []. rewrite !app_nil_r. cbn.
    split; [reflexivity|]. split; [reflexivity|]. split; [reflexivity|].
    split; [constructor|]. split; [intros i b []|]. split; [|intros e []].
    intros k. split; [auto|]. intros [H|[b []]]. exact H.
  - assert (Hrange' : forall sn1 : list Z, length sn1 = length sn ->
              forall e, In e l -> 0 <= Entry.seenIndex e /\
                                  (Z.to_nat (Entry.seenIndex e) < length sn1)%nat).
    { intros sn1 Hlen e He. rewrite Hlen. apply Hrange. right. exact He. }
    destruct (Hrange it (or_introl eq_refl)) as [Hi0 Hilt].
    cbn [fold_left]. unfold visit_ring at 2.
    destruct (negb (Entry.x it =? x) || negb (Entry.y it =? y)) eqn:Hexact.
    { assert (Hnot : exact_cell x y it = false).
      { unfold exact_cell. destruct (Entry.x it =? x), (Entry.y it =? y);
          cbn in Hexact |- *; congruence. }
      specialize (IH sn res p (Hrange' sn eq_refl)).
      destruct (fold_left _ l _) as [[sn' res'] p'].
      destruct IH as (evs & Hev & Hlen & Hres & Hnd & Htest & Hmark & Hall).
      exists evs. repeat (split; [assumption|]). split; [|split; [exact Hmark|]].
      - intros i b Hin. destruct (Htest i b Hin) as (Hn & e & He & Hx).
        split; [exact Hn|]. exists e. split; [right; exact He|exact Hx].
      - intros e [<-|He] Hx; [congruence|]. apply Hall; assumption. }
    assert (Hyes : exact_cell x y it = true).
    { unfold exact_cell. destruct (Entry.x it =? x), (Entry.y it =? y);
        cbn in Hexact |- *; congruence. }
    assert (Hget : (vec_get 0 sn (Entry.seenIndex it) =? epoch) = true
                   <-> sn !! Z.to_nat (Entry.seenIndex it) = Some epoch).
    { unfold vec_get. destruct (lookup_lt_is_Some_2 sn _ Hilt) as [m Hm]. rewrite Hm. cbn.
      rewrite Z.eqb_eq. split; [intros ->; reflexivity|intros H; injection H; auto]. }
    destruct (vec_get 0 sn (Entry.seenIndex it) =? epoch) eqn:Hseen.
    { specialize (IH sn res p (Hrange' sn eq_refl)).
      destruct (fold_left _ l _) as [[sn' res'] p'].
      destruct IH as (evs & Hev & Hlen & Hres & Hnd & Htest & Hmark & Hall).
      exists evs. repeat (split; [assumption|]). split; [|split; [exact Hmark|]].
      - intros i b Hin. destruct (Htest i b Hin) as (Hn & e & He & Hx).
        split; [exact Hn|]. exists e. split; [right; exact He|exact Hx].
      - intros e [<-|He] Hx; [|apply Hall; assumption].
        apply Hmark. left. apply Hget. reflexivity. }
    assert (Hunmarked : sn !! Z.to_nat (Entry.seenIndex it) <> Some epoch).
    { intros H. apply Hget in H. discriminate H. }
    set (sn1 := vec_set sn (Entry.seenIndex it) epoch).
    assert (Hlen1 : length sn1 = length sn) by apply vec_set_length.
    assert (Hsn1 : forall k, sn1 !! k = Some epoch <->
                     (k = Z.to_nat (Entry.seenIndex it) \/ sn !! k = Some epoch)).
    { intros k. unfold sn1, vec_set.
      destruct (Nat.eq_dec (Z.to_nat (Entry.seenIndex it)) k) as [<-|Hne].
      - rewrite list_lookup_insert_eq by exact Hilt. split; auto.
      - rewrite list_lookup_insert_ne by exact Hne. split; [auto|].
        intros [->|H]; [congruence|exact H]. }
    set (acc := ring_accepts Length mem s center inner outer (Entry.body it)).
    set (res1 := if acc then res ++ [Entry.body it] else res).
    set (p1 := emit (RingTest (Entry.seenIndex it) (Entry.body it)) p).
    match goal with
    | |- context [fold_left ?f l ?a] =>
        assert (Hst : a = (sn1, res1, p1))
    end.
    { subst res1 acc. unfold ring_accepts. cbv zeta.
      match goal with |- (if ?c then _ else _) = _ => destruct c end; reflexivity. }
    rewrite Hst. clear Hst.
    specialize (IH sn1 res1 p1 (Hrange' sn1 Hlen1)).
    destruct (fold_left _ l _) as [[sn' res'] p'].
    destruct IH as (evs & Hev & Hlen & Hres & Hnd & Htest & Hmark & Hall).
    exists (RingTest (Entry.seenIndex it) (Entry.body it) :: evs).
    split.
    { rewrite Hev. subst p1. cbn [emit events]. rewrite <- app_assoc. reflexivity. }
    split; [congruence|].
    change (ring_tests (RingTest (Entry.seenIndex it) (Entry.body it) :: evs))
      with ((Entry.seenIndex it, Entry.body it) :: ring_tests evs).
    split.
    { rewrite Hres. cbn [List.filter snd]. fold acc. subst res1.
      destruct acc; [rewrite <- app_assoc|]; reflexivity. }
    cbn [map fst].
    split; [|split; [|split]].
    + apply NoDup_cons. split; [|exact Hnd].
      intros Hin. apply list_elem_of_In in Hin.
      apply in_map_iff in Hin as ([i b] & Heq & Hin). cbn in Heq. subst i.
      destruct (Htest _ _ Hin) as [Hn _]. apply Hn. apply Hsn1. left. reflexivity.
    + intros i b [Heq|Hin].
      * injection Heq as <- <-. split; [exact Hunmarked|].
        exists it. split; [left; reflexivity|]. auto.
      * destruct (Htest i b Hin) as (Hn & e & He & Hx). split.
        -- intros H. apply Hn. apply Hsn1. right. exact H.
        -- exists e. split; [right; exact He|exact Hx].
    + intros k. rewrite Hmark, Hsn1. split.
      * intros [[->|H]|[b Hb]].
        -- right. exists (Entry.body it). left. rewrite Z2Nat.id by exact Hi0. reflexivity.
        -- left. exact H.
        -- right. exists b. right. exact Hb.
      * intros [H|[b [Heq|Hb]]].
        -- left. right. exact H.
        -- left. left. injection Heq as Heq _. rewrite Heq, Nat2Z.id. reflexivity.
        -- right. exists b. exact Hb.
    + intros e [<-|He] Hx; [|apply Hall; assumption].
      apply Hmark. left. apply Hsn1. left. reflexivity.
Qed.

Lemma ring_scanned_start mem s center inner outer p :
  markers_clear s ->
  ring_scanned Length mem s (u32 (seenEpoch s + 1)) center inner outer p [] (seen s, [], p).
Proof.
  intros Hclear. exists []. rewrite app_nil_r. cbn.
  split; [reflexivity|]. split; [reflexivity|]. split; [constructor|].
  split; [reflexivity|].
  split; [|split; [intros i b []|intros cell e []]].
  intros k. split; [|intros [b []]].
  intros Hk. exfalso. unfold markers_clear in Hclear. rewrite Forall_forall in Hclear.
  apply (Hclear (u32 (seenEpoch s + 1))); [|reflexivity].
  eapply list_elem_of_lookup_2. exact Hk.
Qed.

Lemma ring_scanned_step mem s epoch center inner outer p0 visited x y st :
  index_inv mem s ->
  ring_scanned Length mem s epoch center inner outer p0 visited st ->
  ring_scanned Length mem s epoch center inner outer p0 (visited ++ [(x, y)])
    (fold_left (visit_ring Length mem s epoch center inner outer y x)
               (bin s (cell_index s x y)) st).
Proof.
  intros Hinv HS. destruct st as [[sn res] q].
  destruct HS as (evs & Hev & Hres & Hnd & Hlen & Hmark & Htest & Hcov).
  pose proof (fold_visit_ring_cell mem s epoch center inner outer x y
                (bin s (cell_index s x y)) sn res q) as Hfold.
  assert (Hrange : forall e, In e (bin s (cell_index s x y)) ->
            0 <= Entry.seenIndex e /\ (Z.to_nat (Entry.seenIndex e) < length sn)%nat).
  { intros e He. destruct (index_inv_bin_entry mem s x y e Hinv He) as (i & Hi & Hidx & _).
    rewrite Hidx, Nat2Z.id, Hlen. split; [lia|].
    destruct Hinv as (_ & _ & _ & _ & ->). eapply lookup_lt_Some. exact Hi. }
  specialize (Hfold Hrange).
  destruct (fold_left _ _ _) as [[sn' res'] q'].
  destruct Hfold as (evs2 & Hev2 & Hlen2 & Hres2 & Hnd2 & Htest2 & Hmark2 & Hall2).
  assert (Hpos : forall i b, In (i, b) (ring_tests evs) -> Z.of_nat (Z.to_nat i) = i).
  { intros i b Hin. destruct (Htest i b Hin) as (cell & e & _ & He & Hi & _).
    destruct (cell_entries_spec mem s cell e Hinv He) as (k & _ & Hk & _). lia. }
  assert (Htest' : forall i b, In (i, b) (ring_tests (evs ++ evs2)) ->
            exists cell e, In cell (visited ++ [(x, y)]) /\ In e (cell_entries s cell) /\
                           Entry.seenIndex e = i /\ Entry.body e = b).
  { intros i b Hin. rewrite ring_tests_app in Hin. apply in_app_iff in Hin as [Hin|Hin].
    - destruct (Htest i b Hin) as (cell & e & Hcell & He). exists cell, e.
      split; [apply in_app_iff; left; exact Hcell|exact He].
    - destruct (Htest2 i b Hin) as (_ & e & He & Hx & Hi & Hb). exists (x, y), e.
      split; [apply in_app_iff; right; left; reflexivity|].
      split; [unfold cell_entries; apply filter_In; split; assumption|]. auto. }
  assert (Hmark' : forall k, sn' !! k = Some epoch <->
                     exists b, In (Z.of_nat k, b) (ring_tests (evs ++ evs2))).
  { intros k. rewrite Hmark2, Hmark. split.
    - intros [[b Hb]|[b Hb]]; exists b; rewrite ring_tests_app; apply in_app_iff; auto.
    - intros [b Hb]. rewrite ring_tests_app in Hb. apply in_app_iff in Hb as [Hb|Hb]; eauto. }
  exists (evs ++ evs2).
  split; [rewrite Hev2, Hev, app_assoc; reflexivity|].
  split; [rewrite Hres2, Hres, ring_tests_app, List.filter_app, map_app; reflexivity|].
  split; [|split; [congruence|split; [exact Hmark'|split; [exact Htest'|]]]].
  - rewrite ring_tests_app, map_app. apply NoDup_app. split; [exact Hnd|].
    split; [|exact Hnd2].
    intros i Hi Hi'. apply list_elem_of_In in Hi, Hi'.
    apply in_map_iff in Hi as ([i1 b1] & Heq1 & Hin1).
    apply in_map_iff in Hi' as ([i2 b2] & Heq2 & Hin2). cbn in Heq1, Heq2. subst i1 i2.
    destruct (Htest2 i b2 Hin2) as [Hn _]. apply Hn. apply Hmark.
    exists b1. rewrite (Hpos i b1 Hin1). exact Hin1.
  - intros cell e Hcell He. apply in_app_iff in Hcell as [Hcell|[<-|[]]].
    + rewrite ring_tests_app. apply in_app_iff. left. apply Hcov with cell; assumption.
    + pose proof He as He'. unfold cell_entries in He'. cbn [fst snd] in He'.
      apply filter_In in He' as [Hbin Hexact].
      pose proof (Hall2 e Hbin Hexact) as Hm. apply Hmark' in Hm as [b Hb].
      destruct (cell_entries_spec mem s _ e Hinv He) as (k & Hk & Hidx & _).
      rewrite Hidx, Nat2Z.id in Hb. rewrite Hidx.
      destruct (Htest' _ _ Hb) as (cell' & e' & _ & He'' & Hidx' & Hb').
      destruct (cell_entries_spec mem s cell' e' Hinv He'') as (k' & Hk' & Hidx'' & _).
      assert (k' = k) by lia. subst k'. rewrite Hb' in Hk'.
      assert (Heq : b = Entry.body e) by congruence. rewrite <- Heq. exact Hb.
Qed.

(** The tests of a scan are the bodies whose box meets a cell scanned. *)
Lemma ring_tests_of_cells mem s visited (tests : list (Z * Body_ptr)) :
  index_inv mem s ->
  (forall i b, In (i, b) tests ->
     exists cell e, In cell visited /\ In e (cell_entries s cell) /\
                    Entry.seenIndex e = i /\ Entry.body e = b) ->
  (forall cell e, In cell visited -> In e (cell_entries s cell) ->
     In (Entry.seenIndex e, Entry.body e) tests) ->
  forall i b,
    In (i, b) tests <->
    (0 <= i /\ all s !! Z.to_nat i = Some b /\
     exists cell, In cell visited /\ In cell (footprint mem s b)).
Proof.
  intros Hinv Htest Hcov i b. split.
  - intros Hin. destruct (Htest i b Hin) as (cell & e & Hcell & He & Hi & Hb).
    destruct (cell_entries_spec mem s cell e Hinv He) as (k & Hk & Hidx & Hfoot & _).
    subst i b. rewrite Hidx, Nat2Z.id. split; [lia|]. split; [exact Hk|].
    exists cell. auto.
  - intros (Hi & Hall & cell & Hcell & Hfoot).
    pose proof (cell_entries_body mem s cell (Z.to_nat i) b Hinv Hall Hfoot) as He.
    rewrite Z2Nat.id in He by exact Hi.
    apply (Hcov cell _ Hcell He).
Qed.

(** X14: what [Ring] returns.  On a finalized index none of whose markers
    holds the epoch the call will use, [Ring] puts to its acceptance test
    exactly the bodies of the index whose box covers one of the cells of
    the square around the circle of radius [outer], each dense index once,
    and returns, in the order of the tests, those that pass it: the centre
    of the body lies between [inner] and [outer] from the centre given, or
    [Mask::WithinRing] says yes.  A body away by a whole number of grid
    periods, whose entries share the bins scanned, is not tested.  The
    markers holding the new epoch after the call are those of the bodies
    tested. *)
Theorem Ring_returns_the_accepted_bodies_of_its_cells (mem : Heap) (s : CollisionSet)
    (p : Process) (center : Point) (inner outer : float) :
  finalized IsEnemy Length Unit mem s ->
  markers_clear s ->
  let '(res, s', p') := Ring Length mem s p center inner outer in
  exists evs tests,
    events p' = events p ++ evs /\ tests = ring_tests evs /\
    NoDup (map fst tests) /\
    (forall i b,
       In (i, b) tests <->
       (0 <= i /\ all s !! Z.to_nat i = Some b /\
        exists cell, In cell (Ring_cells s center outer) /\ In cell (footprint mem s b))) /\
    res = map snd (List.filter
                     (fun t => ring_accepts Length mem s center inner outer (snd t)) tests) /\
    (forall b,
       In b res <->
       (In b (all s) /\ ring_accepts Length mem s center inner outer b = true /\
        exists cell, In cell (Ring_cells s center outer) /\ In cell (footprint mem s b))) /\
    (forall k, seen s' !! k = Some (seenEpoch s') <-> exists b, In (Z.of_nat k, b) tests).
Proof.
  intros Hfin Hclear.
  pose proof (finalized_index_inv IsEnemy Length Unit mem s Hfin) as Hinv.
  rewrite Ring_by_cells. cbv zeta.
  pose proof (fold_left_prefix
                (ring_scanned Length mem s (u32 (seenEpoch s + 1)) center inner outer p)
                (fun st c =>
                   fold_left (visit_ring Length mem s (u32 (seenEpoch s + 1)) center inner
                                         outer (snd c) (fst c))
                             (bin s (cell_index s (fst c) (snd c))) st)
                (Ring_cells s center outer)) as Hscan.
  specialize (Hscan ltac:(intros pre [x y] st HS; cbn [fst snd];
                          apply ring_scanned_step; assumption)
                    (seen s, [], p) (ring_scanned_start mem s center inner outer p Hclear)).
  destruct (fold_left _ _ _) as [[sn res] p'].
  destruct Hscan as (evs & Hev & Hres & Hnd & Hlen & Hmark & Htest & Hcov).
  pose proof (ring_tests_of_cells mem s _ _ Hinv Htest Hcov) as Hiff.
  exists evs, (ring_tests evs).
  split; [exact Hev|]. split; [reflexivity|].
  split; [exact Hnd|split; [exact Hiff|split; [exact Hres|split]]].
  - intros b. rewrite Hres. split.
    + intros Hin. apply in_map_iff in Hin as ([i b'] & Heq & Hin). cbn in Heq. subst b'.
      apply filter_In in Hin as [Hin Hacc]. cbn [snd] in Hacc.
      apply Hiff in Hin as (Hi & Hall & Hcell).
      split; [|split; [exact Hacc|exact Hcell]].
      apply list_elem_of_In. eapply list_elem_of_lookup_2. exact Hall.
    + intros (Hin & Hacc & Hcell).
      apply list_elem_of_In, list_elem_of_lookup_1 in Hin as [k Hk].
      apply in_map_iff. exists (Z.of_nat k, b). split; [reflexivity|].
      apply filter_In. split; [|exact Hacc].
      apply Hiff. rewrite Nat2Z.id. split; [lia|]. split; [exact Hk|exact Hcell].
  - cbn [seen seenEpoch set_seen]. exact Hmark.
Qed.

End RingScan.

(** * The further properties at work *)

Lemma Ex_index12_grid_ok : grid_ok Ex.index12.
Proof.
  exact (proj1 (finalized_index_inv no_enemies Euclid_Length Euclid_Unit Ex.mem Ex.index12
                  Ex_index12_finalized)).
Qed.

Lemma Ex_index12_markers_clear : markers_clear Ex.index12.
Proof. unfold markers_clear. vm_compute. repeat constructor; discriminate. Qed.

(** Cells 8 columns apart share a bin of the grid of 8 by 8 cells. *)
Lemma cells_share_a_bin_iff_congruent_witness :
  grid_ok Ex.grid /\
  cell_index Ex.grid 1 2 = (2 mod CELLS Ex.grid) * CELLS Ex.grid + 1 mod CELLS Ex.grid /\
  0 <= cell_index Ex.grid 1 2 < CELLS Ex.grid * CELLS Ex.grid /\
  (cell_index Ex.grid 1 2 = cell_index Ex.grid 9 2 <->
   1 mod CELLS Ex.grid = 9 mod CELLS Ex.grid /\ 2 mod CELLS Ex.grid = 2 mod CELLS Ex.grid) /\
  cell_index Ex.grid (1 + CELLS Ex.grid) 2 = cell_index Ex.grid 1 2 /\
  cell_index Ex.grid 1 (2 + CELLS Ex.grid) = cell_index Ex.grid 1 2 /\
  (0 <= 1 < CELLS Ex.grid -> 0 <= 2 < CELLS Ex.grid ->
   cell_index Ex.grid 1 2 = 2 * CELLS Ex.grid + 1).
Proof.
  split; [exact Ex_grid_ok|].
  exact (cells_share_a_bin_iff_congruent Ex.grid 1 2 9 2 Ex_grid_ok).
Defined.

(** The index of bodies 1 and 2, rebuilt with body 3, is the index of body
    3 built on the fresh grid. *)
Lemma rebuild_forgets_previous_contents_witness :
  same_grid Ex.index12 Ex.grid /\ result Ex.index12 = result Ex.grid /\
  build Ex.mem Ex.index12 0 [3%nat] = build Ex.mem Ex.grid 0 [3%nat] /\
  result (build Ex.mem Ex.index12 0 [3%nat]) = result Ex.index12.
Proof.
  assert (Hg : same_grid Ex.index12 Ex.grid) by (repeat split).
  assert (Hr : result Ex.index12 = result Ex.grid) by reflexivity.
  split; [exact Hg|]. split; [exact Hr|].
  exact (rebuild_forgets_previous_contents Ex.mem Ex.index12 Ex.grid 0 [3%nat] Hg Hr).
Defined.


(** Three bodies at the ranges 0.5, 0.25 and 0.25 under the cap 1: the
    second is kept. *)
Lemma TryNearer_keeps_first_of_the_nearest_witness :
  is_number (closest_dist ExMore.start) = true /\
  Forall (fun t : Z * Body_ptr * float => is_number (snd t) = true) ExMore.tests /\
  ((closest_dist (try_all ExMore.tests ExMore.start) <? closest_dist ExMore.start)%float
   = true ->
   exists before i after,
     ExMore.tests
     = before
       ++ (i, closest_body (try_all ExMore.tests ExMore.start),
           closest_dist (try_all ExMore.tests ExMore.start)) :: after /\
     Forall (fun t : Z * Body_ptr * float =>
               (closest_dist (try_all ExMore.tests ExMore.start) <? snd t)%float = true)
            before /\
     Forall (fun t : Z * Body_ptr * float =>
               (closest_dist (try_all ExMore.tests ExMore.start) <=? snd t)%float = true)
            after).
Proof.
  assert (H1 : is_number (closest_dist ExMore.start) = true) by reflexivity.
  assert (H2 : Forall (fun t : Z * Body_ptr * float => is_number (snd t) = true)
                      ExMore.tests) by (repeat constructor).
  split; [exact H1|]. split; [exact H2|].
  exact (proj1 (TryNearer_keeps_first_of_the_nearest ExMore.tests ExMore.start H1 H2)).
Defined.

Lemma empty_index_finds_nothing_witness :
  (Ex.wide_index = CollisionSet_new 0 0 \/ Ex.wide_index = Clear 0 Ex.wide_grid
   \/ Ex.wide_index = build Ex.mem Ex.wide_grid 0 []) /\
  All Ex.wide_index = [] /\
  (forall p center radius,
     let '(res, s', p') := Circle Euclid_Length Ex.mem Ex.wide_index p center radius in
     res = [] /\ p' = p /\ seen s' = seen Ex.wide_index).
Proof.
  assert (H : Ex.wide_index = CollisionSet_new 0 0 \/ Ex.wide_index = Clear 0 Ex.wide_grid
              \/ Ex.wide_index = build Ex.mem Ex.wide_grid 0 [])
    by (right; right; reflexivity).
  split; [exact H|].
  pose proof (empty_index_finds_nothing no_enemies Euclid_Length Euclid_Unit Ex.mem
                Ex.wide_grid 0 0 0 Ex.wide_index H) as (Hall & _ & _ & Hcircle).
  split; [exact Hall|exact Hcircle].
Defined.

(** A cap of 2: the hit at range 0.625 is written, being below 1. *)
Lemma closestHit_written_only_below_one_witness :
  finalized no_enemies Euclid_Length Euclid_Unit Ex.mem Ex.index12 /\
  masks_return_numbers Ex.mem /\
  is_number (closest_dist (closer_init (Some 2%float))) = true /\
  (let '(r, s', p') :=
     Line no_enemies Euclid_Length Euclid_Unit 10 Ex.mem Ex.index12 process_start
          Ex.origin Ex.east_1024 (Some 2%float) 0%nat 0%nat in
   exists evs,
     events p' = events process_start ++ evs /\
     forall hit ch', r = Some (hit, ch') ->
       (hit = nullptr -> ch' = Some 2%float) /\
       (hit <> nullptr ->
          exists i h1,
            In (i, hit, h1) (collides evs) /\
            (h1 <? closest_dist (closer_init (Some 2%float)))%float = true /\
            ch' = Some (if (h1 <? 1)%float then h1 else 2%float)) /\
       (forall h0, Some 2%float = Some h0 ->
          exists h', ch' = Some h' /\ (h' <=? h0)%float = true) /\
       (Some 2%float = None -> ch' = None)).
Proof.
  assert (Hcap : is_number (closest_dist (closer_init (Some 2%float))) = true) by reflexivity.
  split; [exact Ex_index12_finalized|]. split; [exact Ex_masks_return_numbers|].
  split; [exact Hcap|].
  exact (closestHit_written_only_below_one no_enemies Euclid_Length Euclid_Unit Ex.mem
           Ex.index12 10 process_start Ex.origin Ex.east_1024 (Some 2%float) 0%nat 0%nat
           Ex_index12_finalized Ex_masks_return_numbers Hcap).
Defined.

(** The segment from the origin to [(500000, 0)] is cut to one of length
    449999, which crosses 1757 cell boundaries. *)
Lemma Line_answers_for_the_cut_segment_witness :
  grid_ok Ex.index12 /\
  single_cell Ex.index12 Ex.origin Ex.east_500000 = false /\
  over_length Euclid_Length Ex.origin Ex.east_500000 = true /\
  (over_length Euclid_Length Ex.origin (clamped Euclid_Unit Ex.origin Ex.east_500000) = false
   /\ dda_fits Ex.index12 Ex.origin (clamped Euclid_Unit Ex.origin Ex.east_500000)) /\
  (Z.to_nat (cells_ahead Ex.index12 Ex.origin (clamped Euclid_Unit Ex.origin Ex.east_500000))
   + 1 < 2000)%nat /\
  exists hit ch' s' p',
    Line no_enemies Euclid_Length Euclid_Unit 2001 Ex.mem Ex.index12 process_start
         Ex.origin Ex.east_500000 None 0%nat 0%nat
    = (Some (hit, ch'), s', p') /\
    Line no_enemies Euclid_Length Euclid_Unit 2000 Ex.mem Ex.index12 (warn process_start)
         Ex.origin (clamped Euclid_Unit Ex.origin Ex.east_500000) None 0%nat 0%nat
    = (Some (hit, ch'), s', p') /\
    warned p' = true /\
    logged (events p')
    = logged (events process_start)
      ++ (if warned process_start then [] else [velocity_warning]).
Proof.
  assert (H1 : single_cell Ex.index12 Ex.origin Ex.east_500000 = false)
    by (vm_compute; reflexivity).
  assert (H2 : over_length Euclid_Length Ex.origin Ex.east_500000 = true)
    by (vm_compute; reflexivity).
  assert (H3 : over_length Euclid_Length Ex.origin
                 (clamped Euclid_Unit Ex.origin Ex.east_500000) = false
               /\ dda_fits Ex.index12 Ex.origin
                    (clamped Euclid_Unit Ex.origin Ex.east_500000)).
  { split; [vm_compute; reflexivity|]. unfold dda_fits. vm_compute. reflexivity. }
  assert (H4 : (Z.to_nat (cells_ahead Ex.index12 Ex.origin
                            (clamped Euclid_Unit Ex.origin Ex.east_500000)) + 1 < 2000)%nat).
  { apply Nat.ltb_lt. vm_compute. reflexivity. }
  split; [exact Ex_index12_grid_ok|]. split; [exact H1|]. split; [exact H2|].
  split; [exact H3|]. split; [exact H4|].
  exact (Line_answers_for_the_cut_segment no_enemies Euclid_Length Euclid_Unit Ex.mem
           Ex.index12 2000 process_start Ex.origin Ex.east_500000 None 0%nat 0%nat
           Ex_index12_grid_ok H1 H2 (or_intror H3) H4).
Defined.

Lemma Line_traversal_is_a_staircase_witness :
  grid_ok Ex.index12 /\
  dda_fits Ex.index12 Ex.origin Ex.east_1024 /\
  (Z.to_nat (cells_ahead Ex.index12 Ex.origin Ex.east_1024) + 1 < 10)%nat /\
  (forall cell, In cell (Line_cells 10 Ex.index12 Ex.origin Ex.east_1024) ->
     Z.min (cell_of Ex.index12 (Point.X Ex.origin))
           (cell_of Ex.index12 (Point.X Ex.east_1024)) <= fst cell
     <= Z.max (cell_of Ex.index12 (Point.X Ex.origin))
              (cell_of Ex.index12 (Point.X Ex.east_1024)) /\
     Z.min (cell_of Ex.index12 (Point.Y Ex.origin))
           (cell_of Ex.index12 (Point.Y Ex.east_1024)) <= snd cell
     <= Z.max (cell_of Ex.index12 (Point.Y Ex.origin))
              (cell_of Ex.index12 (Point.Y Ex.east_1024))) /\
  (exists rest,
     Line_cells 10 Ex.index12 Ex.origin Ex.east_1024
     = (cell_of Ex.index12 (Point.X Ex.origin), cell_of Ex.index12 (Point.Y Ex.origin))
       :: rest) /\
  (exists front final,
     Line_cells 10 Ex.index12 Ex.origin Ex.east_1024 = front ++ [final] /\
     (final = (cell_of Ex.index12 (Point.X Ex.east_1024),
               cell_of Ex.index12 (Point.Y Ex.east_1024)) \/
      (fst final = cell_of Ex.index12 (Point.X Ex.east_1024) /\
       snd final + direction (Point.Y Ex.origin) (Point.Y Ex.east_1024)
       = cell_of Ex.index12 (Point.Y Ex.east_1024)) \/
      (snd final = cell_of Ex.index12 (Point.Y Ex.east_1024) /\
       fst final + direction (Point.X Ex.origin) (Point.X Ex.east_1024)
       = cell_of Ex.index12 (Point.X Ex.east_1024)))) /\
  (forall i c c',
     Line_cells 10 Ex.index12 Ex.origin Ex.east_1024 !! i = Some c ->
     Line_cells 10 Ex.index12 Ex.origin Ex.east_1024 !! S i = Some c' ->
     beside (direction (Point.X Ex.origin) (Point.X Ex.east_1024))
            (direction (Point.Y Ex.origin) (Point.Y Ex.east_1024)) c c') /\
  NoDup (Line_cells 10 Ex.index12 Ex.origin Ex.east_1024) /\
  Z.of_nat (length (Line_cells 10 Ex.index12 Ex.origin Ex.east_1024))
  <= cells_ahead Ex.index12 Ex.origin Ex.east_1024 + 1.
Proof.
  assert (Hfit : dda_fits Ex.index12 Ex.origin Ex.east_1024).
  { unfold dda_fits. vm_compute. reflexivity. }
  assert (Hfuel : (Z.to_nat (cells_ahead Ex.index12 Ex.origin Ex.east_1024) + 1 < 10)%nat).
  { vm_compute. lia. }
  split; [exact Ex_index12_grid_ok|]. split; [exact Hfit|]. split; [exact Hfuel|].
  exact (Line_traversal_is_a_staircase Ex.index12 Ex.origin Ex.east_1024 10
           Ex_index12_grid_ok (or_intror Hfit) Hfuel).
Defined.

(** A segment that ends on a corner: from [(300, 100)] to [(256, 256)]
    on cells of 256 units the traversal is left in the cell [(1, 0)], and
    the cell [(1, 1)] of the end point is not visited. *)
Lemma traversal_stops_beside_the_end :
  Line_cells 10 Ex.grid (Point.mk 300 100) (Point.mk 256 256) = [(1, 0)] /\
  (cell_of Ex.grid 256, cell_of Ex.grid 256) = (1, 1).
Proof. split; vm_compute; reflexivity. Qed.

Lemma Ring_returns_the_accepted_bodies_of_its_cells_witness :
  finalized no_enemies Euclid_Length Euclid_Unit Ex.mem Ex.index12 /\
  markers_clear Ex.index12 /\
  (let '(res, s', p') :=
     Ring Euclid_Length Ex.mem Ex.index12 process_start Ex.origin 0 1024 in
   exists evs tests,
     events p' = events process_start ++ evs /\ tests = ring_tests evs /\
     NoDup (map fst tests) /\
     (forall i b,
        In (i, b) tests <->
        (0 <= i /\ all Ex.index12 !! Z.to_nat i = Some b /\
         exists cell, In cell (Ring_cells Ex.index12 Ex.origin 1024) /\
                      In cell (footprint Ex.mem Ex.index12 b))) /\
     res = map snd (List.filter
                      (fun t => ring_accepts Euclid_Length Ex.mem Ex.index12 Ex.origin 0 1024
                                             (snd t)) tests) /\
     (forall b,
        In b res <->
        (In b (all Ex.index12) /\
         ring_accepts Euclid_Length Ex.mem Ex.index12 Ex.origin 0 1024 b = true /\
         exists cell, In cell (Ring_cells Ex.index12 Ex.origin 1024) /\
                      In cell (footprint Ex.mem Ex.index12 b))) /\
     (forall k, seen s' !! k = Some (seenEpoch s') <-> exists b, In (Z.of_nat k, b) tests)).
Proof.
  split; [exact Ex_index12_finalized|]. split; [exact Ex_index12_markers_clear|].
  exact (Ring_returns_the_accepted_bodies_of_its_cells no_enemies Euclid_Length Euclid_Unit
           Ex.mem Ex.index12 process_start Ex.origin 0 1024
           Ex_index12_finalized Ex_index12_markers_clear).
Defined.

(** The index of bodies 1 and 2 right after [Finish], and after a [Ring]
    query. *)
Lemma Line_answer_ignores_earlier_queries_witness :
  grid_ok Ex.grid /\ Forall (fun b => b <> nullptr) [1%nat; 2%nat] /\
  queried no_enemies Euclid_Length Euclid_Unit Ex.mem
    (build Ex.mem Ex.grid 0 [1%nat; 2%nat]) 0 (build Ex.mem Ex.grid 0 [1%nat; 2%nat]) /\
  queried no_enemies Euclid_Length Euclid_Unit Ex.mem
    (build Ex.mem Ex.grid 0 [1%nat; 2%nat]) 1
    (snd (fst (Ring Euclid_Length Ex.mem (build Ex.mem Ex.grid 0 [1%nat; 2%nat])
                    process_start Ex.origin 0 1024))) /\
  Z.of_nat 0 < 2 ^ 32 - 1 /\ Z.of_nat 1 < 2 ^ 32 - 1 /\
  (forall fuel p1 p2 from to closestHit pGov target,
     let '(r1, s1', q1) :=
       Line no_enemies Euclid_Length Euclid_Unit fuel Ex.mem
            (build Ex.mem Ex.grid 0 [1%nat; 2%nat]) p1 from to closestHit pGov target in
     let '(r2, s2', q2) :=
       Line no_enemies Euclid_Length Euclid_Unit fuel Ex.mem
            (snd (fst (Ring Euclid_Length Ex.mem (build Ex.mem Ex.grid 0 [1%nat; 2%nat])
                            process_start Ex.origin 0 1024)))
            p2 from to closestHit pGov target in
     r1 = r2 /\
     exists evs1 evs2,
       events q1 = events p1 ++ evs1 /\ events q2 = events p2 ++ evs2 /\
       candidates evs1 = candidates evs2 /\ collides evs1 = collides evs2).
Proof.
  assert (Hnn : Forall (fun b => b <> nullptr) [1%nat; 2%nat])
    by (repeat constructor; discriminate).
  assert (Hq1 : queried no_enemies Euclid_Length Euclid_Unit Ex.mem
                  (build Ex.mem Ex.grid 0 [1%nat; 2%nat]) 0
                  (build Ex.mem Ex.grid 0 [1%nat; 2%nat]))
    by constructor.
  assert (Hq2 : queried no_enemies Euclid_Length Euclid_Unit Ex.mem
                  (build Ex.mem Ex.grid 0 [1%nat; 2%nat]) 1
                  (snd (fst (Ring Euclid_Length Ex.mem
                                  (build Ex.mem Ex.grid 0 [1%nat; 2%nat])
                                  process_start Ex.origin 0 1024))))
    by (apply queried_Ring; exact Hq1).
  assert (Hn1 : Z.of_nat 0 < 2 ^ 32 - 1) by (vm_compute; reflexivity).
  assert (Hn2 : Z.of_nat 1 < 2 ^ 32 - 1) by (vm_compute; reflexivity).
  split; [exact Ex_grid_ok|]. split; [exact Hnn|]. split; [exact Hq1|].
  split; [exact Hq2|]. split; [exact Hn1|]. split; [exact Hn2|].
  exact (Line_answer_ignores_earlier_queries no_enemies Euclid_Length Euclid_Unit Ex.mem
           Ex.grid 0 [1%nat; 2%nat] 0 1 _ _ Ex_grid_ok Hnn Hq1 Hq2 Hn1 Hn2).
Defined.
